(** * EVL evaluation core: a shallow embedding of core.js

    The development follows the layout of the JavaScript source: errors,
    tokenizer, reader, EVL to XML converter, form analyzer, environments,
    parameter pairing, the six evaluators, the object model with its
    printer, and the IDE interface.  Definitions come first, the verified
    properties afterwards. *)

From Stdlib Require Import String Ascii.
From Stdlib Require Import ZArith Bool Lia Arith PeanoNat List.
From Stdlib Require Import Floats.SpecFloat.
Import ListNotations.

Set Implicit Arguments.
Set Warnings "-register-all".
Set Warnings "-automation".
Set Warnings "-default".

(** ** JavaScript strings

    A JavaScript string is a sequence of UTF-16 code units. *)

Definition jsstring := list Z.

Fixpoint js (s : string) : jsstring :=
match s with
| EmptyString => []
| String c r => Z.of_N (N_of_ascii c) :: js r
end.

Arguments js s%_string.

Fixpoint jseqb (a b : jsstring) : bool :=
match a, b with
| [], [] => true
| x :: a', y :: b' => Z.eqb x y && jseqb a' b'
| _, _ => false
end.

Definition ch (s : string) : Z :=
match s with
| String c _ => Z.of_N (N_of_ascii c)
| EmptyString => 0%Z
end.

Arguments ch s%_string.

Definition DQUOTE : Z := 34%Z.
Definition BACKSLASH : Z := 92%Z.

(** ** Errors *)

Inductive exception : Type :=
| CannotHappen (message : jsstring)
| Aborted
| TokenizerError (message : jsstring)
| TruncatedToken (message : jsstring)
| ReaderError (message : jsstring)
| UnexpectedDot
| UnexpectedClosingParenthesis
| UnexpectedXMLEndTag
| UnexpectedEndOfInput
| EVLToXMLConverterError (message : jsstring)
| FormAnalyzerError (message : jsstring)
| EvaluatorError (message : jsstring)
| UnboundVariable (variable : jsstring) (namespace : jsstring)
| TooFewArguments
| TooManyArguments
| MalformedSpreadableSequenceOfObjects
| HostError (name : jsstring) (message : jsstring).

(** [exception.name] *)
Definition exception_name (e : exception) : jsstring :=
match e with
| CannotHappen _ => js "CannotHappen"
| Aborted => js "Aborted"
| TokenizerError _ => js "TokenizerError"
| TruncatedToken _ => js "TruncatedToken"
| ReaderError _ => js "ReaderError"
| UnexpectedDot => js "UnexpectedDot"
| UnexpectedClosingParenthesis => js "UnexpectedClosingParenthesis"
| UnexpectedXMLEndTag => js "UnexpectedXMLEndTag"
| UnexpectedEndOfInput => js "UnexpectedEndOfInput"
| EVLToXMLConverterError _ => js "EVLToXMLConverterError"
| FormAnalyzerError _ => js "FormAnalyzerError"
| EvaluatorError _ => js "EvaluatorError"
| UnboundVariable _ _ => js "UnboundVariable"
| TooFewArguments => js "TooFewArguments"
| TooManyArguments => js "TooManyArguments"
| MalformedSpreadableSequenceOfObjects => js "MalformedSpreadableSequenceOfObjects"
| HostError n _ => n
end.

(** [exception.message] *)
Definition exception_message (e : exception) : jsstring :=
match e with
| CannotHappen m => m
| Aborted => []
| TokenizerError m => m
| TruncatedToken m => m
| ReaderError m => m
| UnexpectedDot => js "Unexpected dot."
| UnexpectedClosingParenthesis => js "Unexpected closing parenthesis."
| UnexpectedXMLEndTag => js "Unexpected XML end tag."
| UnexpectedEndOfInput => js "Unexpected end-of-input."
| EVLToXMLConverterError m => m
| FormAnalyzerError m => m
| EvaluatorError m => m
| UnboundVariable v ns =>
    js "The variable '" ++ v ++ js "' is unbound in the " ++ ns ++ js " namespace."
| TooFewArguments => js "Too few arguments."
| TooManyArguments => js "Too many arguments."
| MalformedSpreadableSequenceOfObjects => js "Malformed spreadable sequence of objects."
| HostError _ m => m
end.

(** [exception instanceof Aborted] *)
Definition instanceofAborted (e : exception) : bool :=
match e with Aborted => true | _ => false end.

(** [exception instanceof TruncatedToken] *)
Definition instanceofTruncatedToken (e : exception) : bool :=
match e with TruncatedToken _ => true | _ => false end.

(** [exception instanceof UnexpectedEndOfInput] *)
Definition instanceofUnexpectedEndOfInput (e : exception) : bool :=
match e with UnexpectedEndOfInput => true | _ => false end.

(** The exception a host operation raises on a value of the wrong shape. *)
Definition TypeError : exception := HostError (js "TypeError") [].

(** ** Computations: state, exceptions and fuel

    Every loop and every recursive call of the source consumes one unit of
    fuel in the model; [OutOfFuel] is not an outcome of the program. *)

Inductive res (S A : Type) : Type :=
| Ok (a : A) (s : S)
| Throw (e : exception) (s : S)
| OutOfFuel.

Arguments Ok {S A} a s.
Arguments Throw {S A} e s.
Arguments OutOfFuel {S A}.

Definition M (S A : Type) : Type := S -> res S A.

Definition ret {S A : Type} (a : A) : M S A := fun s => Ok a s.

Definition throw {S A : Type} (e : exception) : M S A := fun s => Throw e s.

Definition bind {S A B : Type} (m : M S A) (k : A -> M S B) : M S B :=
fun s =>
  match m s with
  | Ok a s' => k a s'
  | Throw e s' => Throw e s'
  | OutOfFuel => OutOfFuel
  end.

Definition get {S : Type} : M S S := fun s => Ok s s.

Definition put {S : Type} (s : S) : M S unit := fun _ => Ok tt s.

Definition modify {S : Type} (f : S -> S) : M S unit := fun s => Ok tt (f s).

Definition outOfFuel {S A : Type} : M S A := fun _ => OutOfFuel.

Declare Scope evl_scope.
Delimit Scope evl_scope with evl.
Notation "x <- m ;; k" := (bind m (fun x => k))
  (at level 61, m at next level, right associativity) : evl_scope.
Notation "m ;;; k" := (bind m (fun _ => k))
  (at level 61, right associativity) : evl_scope.
Open Scope evl_scope.

(** ** Numbers

    An EVL number wraps a JavaScript number, an IEEE-754 binary64 value. *)

Definition prec : Z := 53%Z.
Definition emax : Z := 1024%Z.

(** The double nearest to [(-1)^sign * digits * 10^exp10] (ties to even). *)
Definition decimalToNumber (sign : bool) (digits : Z) (exp10 : Z) : spec_float :=
match digits with
| Z0 => S754_zero sign
| Zneg _ => S754_nan
| Zpos _ =>
    if (0 <=? exp10)%Z
    then binary_normalize prec emax (cond_Zopp sign (digits * 10 ^ exp10)) 0 sign
    else
      let '(q, e, l) := SFdiv_core_binary prec emax digits 0 (10 ^ (- exp10)) 0 in
      binary_round_aux prec emax sign q e l
end.

Definition isDecimalDigitUnit (c : Z) : bool := (48 <=? c)%Z && (c <=? 57)%Z.

(** Value and number of the decimal digits of [s]. *)
Fixpoint decimalValue (acc : Z) (s : jsstring) : Z :=
match s with
| [] => acc
| c :: r => decimalValue (acc * 10 + (c - 48)) r
end.

Fixpoint spanDigits (s : jsstring) : jsstring * jsstring :=
match s with
| c :: r => if isDecimalDigitUnit c then let '(d, t) := spanDigits r in (c :: d, t) else ([], s)
| [] => ([], [])
end.

Definition stripSign (s : jsstring) : bool * jsstring :=
match s with
| c :: r => if (c =? 43)%Z then (false, r) else if (c =? 45)%Z then (true, r) else (false, s)
| [] => (false, s)
end.

(** The digits after a decimal point that ends the string, if [t] is that. *)
Definition fractionPart (t : jsstring) : option jsstring :=
match t with
| c :: u =>
    if (c =? 46)%Z
    then match spanDigits u with
         | (d :: f, []) => Some (d :: f)
         | _ => None
         end
    else None
| [] => None
end.

(** [numberRegExp.test]: [/^[+-]?[0-9]+(?:\.[0-9]+)?$/] *)
Definition numberRegExp_test (s : jsstring) : bool :=
let '(d, t) := spanDigits (snd (stripSign s)) in
match d, t with
| [], _ => false
| _ :: _, [] => true
| _ :: _, _ :: _ => match fractionPart t with Some _ => true | None => false end
end.

(** [Number.parseFloat] on the strings [numberRegExp] accepts: the double
    nearest to the decimal the string denotes. *)
Definition Number_parseFloat (s : jsstring) : spec_float :=
let sign := fst (stripSign s) in
let '(d, t) := spanDigits (snd (stripSign s)) in
match d with
| [] => S754_nan
| _ :: _ =>
    match fractionPart t with
    | Some f => decimalToNumber sign (decimalValue 0 (d ++ f)) (- Z.of_nat (length f))
    | None => decimalToNumber sign (decimalValue 0 d) 0
    end
end.

Definition noColon (s : jsstring) : bool := forallb (fun c => negb (c =? 58)%Z) s.

(** [keywordRegExp.test]: [/^:[^:]+$/] *)
Definition keywordRegExp_test (s : jsstring) : bool :=
match s with
| c :: d :: r => (c =? 58)%Z && noColon (d :: r)
| _ => false
end.

(** [variableRegExp.test]: [/^[^:]+$/] *)
Definition variableRegExp_test (s : jsstring) : bool :=
match s with
| _ :: _ => noColon s
| [] => false
end.

Definition isHexDigitUnit (c : Z) : bool :=
((48 <=? c) && (c <=? 57) || (97 <=? c) && (c <=? 102) || (65 <=? c) && (c <=? 70))%Z.

(** [codePointRegExp.test]: [/^[a-fA-F0-9]+$/] *)
Definition codePointRegExp_test (s : jsstring) : bool :=
match s with
| _ :: _ => forallb isHexDigitUnit s
| [] => false
end.

Definition hexDigitValue (c : Z) : Z :=
(if (48 <=? c) && (c <=? 57) then c - 48
 else if (97 <=? c) && (c <=? 102) then c - 87
 else c - 55)%Z.

(** [Number.parseInt(s, 16)] on hexadecimal digits. *)
Fixpoint parseHex (acc : Z) (s : jsstring) : Z :=
match s with
| [] => acc
| c :: r => parseHex (acc * 16 + hexDigitValue c) r
end.

(** [String.fromCodePoint]: a [RangeError] above U+10FFFF. *)
Definition String_fromCodePoint (n : Z) : option jsstring :=
(if n <=? 65535 then Some [n]
 else if n <=? 1114111
 then Some [55296 + Z.shiftr (n - 65536) 10; 56320 + Z.land (n - 65536) 1023]
 else None)%Z.

Definition RangeError : exception := HostError (js "RangeError") (js "Invalid code point").

(** Decimal digits of a natural number ([n.toString()] on a count). *)
Fixpoint natDigits (fuel : nat) (n : nat) (acc : jsstring) : jsstring :=
match fuel with
| O => acc
| S fuel' =>
    let acc' := (48 + Z.of_nat (n mod 10))%Z :: acc in
    if n <? 10 then acc' else natDigits fuel' (n / 10) acc'
end.

Definition natToString (n : nat) : jsstring := natDigits (S n) n [].

(** ** Scope-extent combinations and namespaces *)

Inductive Scope : Type := LEX_SCOPE | DYN_SCOPE.
Inductive Namespace : Type := VAL_NS | FUN_NS.

Definition Namespace_eqb (a b : Namespace) : bool :=
match a, b with
| VAL_NS, VAL_NS => true
| FUN_NS, FUN_NS => true
| _, _ => false
end.

(** ** The object model

    Cons cells and vectors are modelled as immutable trees: the evaluators
    never assign [car], [cdr] or a vector element, and the primitive
    functions are a parameter of the development (see [jsFunction] below).
    Variables and keywords are interned, so a symbol is its name.  A lexical
    or dynamic environment is the list of the addresses of its frames,
    innermost first; the empty list is [nullDefiniteEnv].  The nodes built by
    the trampoline++ preprocessor are JavaScript objects stored in cons
    cells; [TrampolineppNode] injects them. *)

Definition DefiniteEnv := list nat.

Inductive EVLObject : Type :=
| EVLVoid
| EVLBoolean (jsValue : bool)
| EVLNumber (jsValue : spec_float)
| EVLCharacter (jsValue : Z)
| EVLString (jsValue : jsstring)
| EVLKeyword (name : jsstring)
| EVLVariable (name : jsstring)
| EVLEmptyList
| EVLCons (car cdr : EVLObject)
| EVLVector (elements : list EVLObject)
| EVLPrimitiveFunction (arityMin : nat) (arityMax : option nat) (jsFunction : jsstring)
| EVLClosure (scope : Scope) (namespace : Namespace) (macro : bool)
    (parameters : list jsstring) (rest : bool) (forms : EVLObject) (lenv : DefiniteEnv)
| TrampolineppNode (node : TrampolineppForm)
with TrampolineppForm : Type :=
| TrampolineppQuote (literal : EVLObject)
| TrampolineppProgn (forms : EVLObject)
| TrampolineppIf (testForm thenForm elseForm : TrampolineppForm)
| TrampolineppLambda (scope : Scope) (namespace : Namespace) (macro : bool)
    (parameters : list jsstring) (rest : bool) (forms : EVLObject)
| TrampolineppRef (scope : Scope) (namespace : Namespace) (variable : jsstring)
| TrampolineppLRef (i j : nat)
| TrampolineppGRef (namespace : Namespace) (variable : jsstring)
| TrampolineppDRef (namespace : Namespace) (variable : jsstring)
| TrampolineppSet (scope : Scope) (namespace : Namespace) (variable : jsstring)
    (valueForm : TrampolineppForm)
| TrampolineppLSet (i j : nat) (valueForm : TrampolineppForm)
| TrampolineppGSet (namespace : Namespace) (variable : jsstring) (valueForm : TrampolineppForm)
| TrampolineppDSet (namespace : Namespace) (variable : jsstring) (valueForm : TrampolineppForm)
| TrampolineppForEach (functionForm listForm : TrampolineppForm)
| TrampolineppCatchErrors (tryForm : TrampolineppForm)
| TrampolineppCall (mv apply : bool) (operator : TrampolineppForm) (operands : EVLObject).

(** [EVLVoid.VOID], [EVLBoolean.TRUE], [EVLBoolean.FALSE], [EVLEmptyList.NIL] *)
Definition VOID_ : EVLObject := EVLVoid.
Definition TRUE : EVLObject := EVLBoolean true.
Definition FALSE : EVLObject := EVLBoolean false.
Definition NIL : EVLObject := EVLEmptyList.

Definition internKeyword (name : jsstring) : EVLObject := EVLKeyword name.
Definition internVariable (name : jsstring) : EVLObject := EVLVariable name.

(** [x === v] for an interned variable [v]. *)
Definition isVariableNamed (x : EVLObject) (name : jsstring) : bool :=
match x with
| EVLVariable n => jseqb n name
| _ => false
end.

(** [x === y] when [y] is a symbol. *)
Definition sameSymbol (x y : EVLObject) : bool :=
match x, y with
| EVLVariable n, EVLVariable m => jseqb n m
| EVLKeyword n, EVLKeyword m => jseqb n m
| _, _ => false
end.

(** The result of an evaluation: one object, or the objects of [values]. *)
Inductive Result : Type :=
| EVLObject_ (o : EVLObject)
| EVLObjects (objects : list EVLObject).

Coercion EVLObject_ : EVLObject >-> Result.

Definition primaryValue (r : Result) : EVLObject :=
match r with
| EVLObject_ o => o
| EVLObjects [] => EVLVoid
| EVLObjects (o :: _) => o
end.

Definition allValues (r : Result) : list EVLObject :=
match r with
| EVLObject_ o => [o]
| EVLObjects os => os
end.

(** ** The state of the core

    [globalValue] and [globalFunction] are the [value] and [function] cells
    of the interned variables, [frames] the store of the frames allocated so
    far, [abortSignalArray] the one-byte view installed by [initialize]
    ([None] is [null]) and [clock] the number of times the byte was read. *)

Record Frame : Type := mkFrame {
  frame_namespace : Namespace;
  frame_variables : list jsstring;
  frame_values : list EVLObject
}.

Record World : Type := mkWorld {
  globalValue : jsstring -> option EVLObject;
  globalFunction : jsstring -> option EVLObject;
  frames : list Frame;
  abortSignalArray : option Z;
  clock : nat;
  selectedEvaluator : jsstring
}.

(** ** Tokenizer *)

Inductive Category : Type :=
| QUOTE | QUASIQUOTE | UNQUOTE | UNQUOTE_SPLICING | STRING
| OPENING_PARENTHESIS | CLOSING_PARENTHESIS | HASH_OPENING_PARENTHESIS
| HASH_PLUS | HASH_MINUS | VOID | BOOLEAN | CHARACTER
| XML_START_TAG | XML_END_TAG | XML_EMPTY_ELEMENT_TAG | XML_COMMENT
| DOT | NUMBER | KEYWORD | VARIABLE | BOI | EOI.

(** [tokenizer.value]: [null], an EVL object, or an XML element name. *)
Inductive TokenValue : Type :=
| ValueNull
| ValueObject (o : EVLObject)
| ValueName (name : jsstring).

Definition isLeadingSurrogate (codeUnit : Z) : bool :=
((0xD800 <=? codeUnit) && (codeUnit <=? 0xDBFF))%Z.

Definition isTrailingSurrogate (codeUnit : Z) : bool :=
((0xDC00 <=? codeUnit) && (codeUnit <=? 0xDFFF))%Z.

Definition isSurrogate (codeUnit : Z) : bool :=
isLeadingSurrogate codeUnit || isTrailingSurrogate codeUnit.

(** [char.codePointAt(0)] for a string of one or two code units. *)
Definition codePointAt0 (char : jsstring) : Z :=
match char with
| [] => 0%Z
| [c] => c
| hi :: lo :: _ =>
    if isLeadingSurrogate hi && isTrailingSurrogate lo
    then (0x10000 + Z.shiftl (hi - 0xD800) 10 + (lo - 0xDC00))%Z
    else hi
end.

Definition isControlCharacter (codePoint : Z) : bool :=
((0x0000 <=? codePoint) && (codePoint <=? 0x001F)
 || (0x007F <=? codePoint) && (codePoint <=? 0x009F))%Z.

Definition isNoncharacter (codePoint : Z) : bool :=
let x := Z.land codePoint 0xFFFF in
((x =? 0xFFFE) || (x =? 0xFFFF) || (0xFDD0 <=? codePoint) && (codePoint <=? 0xFDEF))%Z.

Definition isWhitespaceCharacter (codePoint : Z) : bool :=
((codePoint =? 0x0009) || (codePoint =? 0x000A) || (codePoint =? 0x000B)
 || (codePoint =? 0x000C) || (codePoint =? 0x000D) || (codePoint =? 0x0020)
 || (codePoint =? 0x0085) || (codePoint =? 0x200E) || (codePoint =? 0x200F)
 || (codePoint =? 0x2028) || (codePoint =? 0x2029))%Z.

Definition isSyntaxCharacter (codePoint : Z) : bool :=
((codePoint =? 0x0027) || (codePoint =? 0x0060) || (codePoint =? 0x002C)
 || (codePoint =? 0x0022) || (codePoint =? 0x0028) || (codePoint =? 0x0029)
 || (codePoint =? 0x0023))%Z.

Definition isXMLNameCharacter (codePoint : Z) : bool :=
((0x61 <=? codePoint) && (codePoint <=? 0x7A))%Z.

Definition isDecimalDigit (codePoint : Z) : bool :=
((0x30 <=? codePoint) && (codePoint <=? 0x39))%Z.

(** [char === c] for a one-code-unit literal [c]. *)
Definition charIs (char : jsstring) (c : string) : bool := jseqb char (js c).

Arguments charIs char c%_string.

(** The tokenizer object.  [xmlStack] has its top at the head of the list.
    [callback] is the function the interface installs to evaluate the
    objects read inside XML elements. *)
Record Tokenizer : Type := mkTokenizer {
  text : jsstring;
  convertEVLToXML_ : bool;
  position : nat;
  xmlStack : list jsstring;
  savedCodeUnits : jsstring;
  whitespace : jsstring;
  lexeme : jsstring;
  category : option Category;
  value : TokenValue;
  callback : option (EVLObject -> World -> res World Result)
}.

Definition newTokenizer (text : jsstring) (convertEVLToXML : bool) : Tokenizer :=
mkTokenizer text convertEVLToXML 0 [] [] [] [] None ValueNull None.

Definition setPosition (p : nat) (t : Tokenizer) : Tokenizer :=
mkTokenizer t.(text) t.(convertEVLToXML_) p t.(xmlStack) t.(savedCodeUnits)
  t.(whitespace) t.(lexeme) t.(category) t.(value) t.(callback).

Definition setXmlStack (x : list jsstring) (t : Tokenizer) : Tokenizer :=
mkTokenizer t.(text) t.(convertEVLToXML_) t.(position) x t.(savedCodeUnits)
  t.(whitespace) t.(lexeme) t.(category) t.(value) t.(callback).

Definition setSavedCodeUnits (x : jsstring) (t : Tokenizer) : Tokenizer :=
mkTokenizer t.(text) t.(convertEVLToXML_) t.(position) t.(xmlStack) x
  t.(whitespace) t.(lexeme) t.(category) t.(value) t.(callback).

Definition setWhitespace (x : jsstring) (t : Tokenizer) : Tokenizer :=
mkTokenizer t.(text) t.(convertEVLToXML_) t.(position) t.(xmlStack) t.(savedCodeUnits)
  x t.(lexeme) t.(category) t.(value) t.(callback).

Definition setLexeme (x : jsstring) (t : Tokenizer) : Tokenizer :=
mkTokenizer t.(text) t.(convertEVLToXML_) t.(position) t.(xmlStack) t.(savedCodeUnits)
  t.(whitespace) x t.(category) t.(value) t.(callback).

Definition setCategory (x : option Category) (t : Tokenizer) : Tokenizer :=
mkTokenizer t.(text) t.(convertEVLToXML_) t.(position) t.(xmlStack) t.(savedCodeUnits)
  t.(whitespace) t.(lexeme) x t.(value) t.(callback).

Definition setValue (x : TokenValue) (t : Tokenizer) : Tokenizer :=
mkTokenizer t.(text) t.(convertEVLToXML_) t.(position) t.(xmlStack) t.(savedCodeUnits)
  t.(whitespace) t.(lexeme) t.(category) x t.(callback).

Definition setCallback (x : option (EVLObject -> World -> res World Result))
  (t : Tokenizer) : Tokenizer :=
mkTokenizer t.(text) t.(convertEVLToXML_) t.(position) t.(xmlStack) t.(savedCodeUnits)
  t.(whitespace) t.(lexeme) t.(category) t.(value) x.

Definition token (c : Category) (v : TokenValue) : M Tokenizer unit :=
modify (fun t => setValue v (setCategory (Some c) t)).

(** [this.position === this.text.length] *)
Definition atEnd (t : Tokenizer) : bool := t.(position) =? length t.(text).

(** [peekCharacter(position)]: the character at [position], one code unit or
    a surrogate pair.  Past the end [charCodeAt] is [NaN], which
    [String.fromCharCode] turns into U+0000. *)
Definition peekCharacterAt (pos : nat) : M Tokenizer jsstring :=
fun t =>
  let validate (char : jsstring) : res Tokenizer jsstring :=
    let codePoint := codePointAt0 char in
    if isControlCharacter codePoint && negb (isWhitespaceCharacter codePoint)
    then Throw (TokenizerError (js "Invalid control character.")) t
    else if isNoncharacter codePoint
    then Throw (TokenizerError (js "Noncharacter.")) t
    else Ok char t in
  match nth_error t.(text) pos with
  | None => validate [0%Z]
  | Some codeUnit =>
      if isTrailingSurrogate codeUnit
      then Throw (TokenizerError (js "Lone surrogate.")) t
      else if isLeadingSurrogate codeUnit
      then
        if pos + 1 =? length t.(text)
        then Throw (TokenizerError (js "Lone surrogate.")) t
        else
          match nth_error t.(text) (pos + 1) with
          | Some codeUnit2 =>
              if isTrailingSurrogate codeUnit2
              then validate [codeUnit; codeUnit2]
              else Throw (TokenizerError (js "Lone surrogate.")) t
          | None => Throw (TokenizerError (js "Lone surrogate.")) t
          end
      else validate [codeUnit]
  end.

Definition peekCharacter : M Tokenizer jsstring :=
fun t => peekCharacterAt t.(position) t.

Definition consumeCharacter (char : jsstring) : M Tokenizer unit :=
modify (fun t => setPosition (t.(position) + length char) (setLexeme (t.(lexeme) ++ char) t)).

(** [skipWhitespace(pureXML)]: when [pureXML] is true, XML character data
    is treated as whitespace. *)
Fixpoint skipWhitespace (fuel : nat) (pureXML : bool) : M Tokenizer unit :=
match fuel with
| O => outOfFuel
| S fuel' =>
    t <- get;;
    if atEnd t then ret tt
    else
      char <- peekCharacter;;
      if (if pureXML then charIs char "<" else negb (isWhitespaceCharacter (codePointAt0 char)))
      then ret tt
      else
        modify (fun t => setPosition (t.(position) + length char)
                           (setWhitespace (t.(whitespace) ++ char) t));;;
        skipWhitespace fuel' pureXML
end.

(** [readEscapeSequence]: reads [{xyz}], returns [xyz]. *)
Fixpoint readEscapeSequence_loop (fuel : nat) (chars : jsstring) : M Tokenizer jsstring :=
match fuel with
| O => outOfFuel
| S fuel' =>
    t <- get;;
    if atEnd t then throw (TruncatedToken (js "Truncated escape sequence."))
    else
      char2 <- peekCharacter;;
      consumeCharacter char2;;;
      if charIs char2 "}" then ret chars
      else readEscapeSequence_loop fuel' (chars ++ char2)
end.

Definition readEscapeSequence (fuel : nat) : M Tokenizer jsstring :=
t <- get;;
if atEnd t then throw (TruncatedToken (js "Truncated escape sequence."))
else
  char <- peekCharacter;;
  consumeCharacter char;;;
  if negb (charIs char "{") then throw (TokenizerError (js "Malformed escape sequence."))
  else readEscapeSequence_loop fuel [].

(** The [case 'U'] of [readString] and [readProtoToken]. *)
Definition readUnicodeEscape (fuel : nat) : M Tokenizer jsstring :=
codePoint <- readEscapeSequence fuel;;
if negb (codePointRegExp_test codePoint)
then throw (TokenizerError (js "Malformed escape sequence."))
else
  match String_fromCodePoint (parseHex 0 codePoint) with
  | Some s => ret s
  | None => throw RangeError
  end.

Fixpoint readString_loop (fuel : nat) (chars : jsstring) : M Tokenizer jsstring :=
match fuel with
| O => outOfFuel
| S fuel' =>
    t <- get;;
    if atEnd t then throw (TruncatedToken (js "Truncated string."))
    else
      char <- peekCharacter;;
      consumeCharacter char;;;
      if jseqb char [DQUOTE] then ret chars
      else if jseqb char [BACKSLASH]
      then
        t <- get;;
        if atEnd t then throw (TruncatedToken (js "Truncated escape sequence."))
        else
          char2 <- peekCharacter;;
          consumeCharacter char2;;;
          if jseqb char2 [BACKSLASH] then readString_loop fuel' (chars ++ [BACKSLASH])
          else if jseqb char2 [DQUOTE] then readString_loop fuel' (chars ++ [DQUOTE])
          else if charIs char2 "t" then readString_loop fuel' (chars ++ [9%Z])
          else if charIs char2 "n" then readString_loop fuel' (chars ++ [10%Z])
          else if charIs char2 "v" then readString_loop fuel' (chars ++ [11%Z])
          else if charIs char2 "f" then readString_loop fuel' (chars ++ [12%Z])
          else if charIs char2 "r" then readString_loop fuel' (chars ++ [13%Z])
          else if charIs char2 "U"
          then s <- readUnicodeEscape fuel';; readString_loop fuel' (chars ++ s)
          else throw (TokenizerError (js "Undefined escape sequence."))
      else readString_loop fuel' (chars ++ char)
end.

Definition readString (fuel : nat) : M Tokenizer jsstring := readString_loop fuel [].

Fixpoint readHashConstruct_loop (fuel : nat) (arg : jsstring)
  : M Tokenizer (jsstring * jsstring) :=
match fuel with
| O => outOfFuel
| S fuel' =>
    t <- get;;
    if atEnd t then throw (TruncatedToken (js "Truncated hash construct."))
    else
      char <- peekCharacter;;
      consumeCharacter char;;;
      if isDecimalDigit (codePointAt0 char)
      then readHashConstruct_loop fuel' (arg ++ char)
      else ret (char, arg)
end.

Definition readHashConstruct (fuel : nat) : M Tokenizer unit :=
ca <- readHashConstruct_loop fuel [];;
let '(char, arg) := ca in
if charIs char "(" then token HASH_OPENING_PARENTHESIS ValueNull
else if charIs char "+" then token HASH_PLUS ValueNull
else if charIs char "-" then token HASH_MINUS ValueNull
else if charIs char "v" then token VOID (ValueObject VOID_)
else if charIs char "t" then token BOOLEAN (ValueObject TRUE)
else if charIs char "f" then token BOOLEAN (ValueObject FALSE)
else if jseqb char [DQUOTE]
then
  string <- readString fuel;;
  t <- get;;
  if t.(convertEVLToXML_)
  then token CHARACTER ValueNull
  else
    match arg with
    | _ :: _ =>
        let index := decimalValue 0 arg in
        if (index <? Z.of_nat (length string))%Z
        then token CHARACTER (ValueObject (EVLCharacter (nth (Z.to_nat index) string 0%Z)))
        else throw (TokenizerError (js "Index out of bounds."))
    | [] =>
        match string with
        | c :: r =>
            token CHARACTER (ValueObject (EVLCharacter c));;;
            modify (setSavedCodeUnits r)
        | [] => ret tt
        end
    end
else throw (TokenizerError (js "Undefined hash construct.")).

(** The states of the scanner of [readXMLMarkup]:
    [<[0]/[100]a[101]b[101]c[101]/[102]>] and
    [<[0]![200]-[201]-[202]...[202]-[203]-[204]>]. *)
Inductive XMLState : Type := X0 | X100 | X101 | X102 | X200 | X201 | X202 | X203 | X204.

Record XMLScan : Type := mkXMLScan {
  isXMLEndTag : bool;
  isXMLEmptyElementTag : bool;
  isXMLComment : bool;
  xmlName : jsstring;
  xmlPosition : nat
}.

(** The loop of [readXMLMarkup]: [None] is [return false], [Some] the state
    at [break loop]. *)
Fixpoint readXMLMarkup_loop (fuel : nat) (state : XMLState) (x : XMLScan)
  : M Tokenizer (option XMLScan) :=
match fuel with
| O => outOfFuel
| S fuel' =>
    t <- get;;
    if x.(xmlPosition) =? length t.(text) then ret None
    else
      char <- peekCharacterAt x.(xmlPosition);;
      let position := x.(xmlPosition) + length char in
      let c := codePointAt0 char in
      let x := mkXMLScan x.(isXMLEndTag) x.(isXMLEmptyElementTag) x.(isXMLComment)
                 x.(xmlName) position in
      let named := mkXMLScan x.(isXMLEndTag) x.(isXMLEmptyElementTag) x.(isXMLComment)
                     (x.(xmlName) ++ char) position in
      match state with
      | X0 =>
          if charIs char "/"
          then readXMLMarkup_loop fuel' X100
                 (mkXMLScan true x.(isXMLEmptyElementTag) x.(isXMLComment) x.(xmlName) position)
          else if isXMLNameCharacter c then readXMLMarkup_loop fuel' X101 named
          else if charIs char "!"
          then readXMLMarkup_loop fuel' X200
                 (mkXMLScan x.(isXMLEndTag) x.(isXMLEmptyElementTag) true x.(xmlName) position)
          else ret None
      | X100 =>
          if isXMLNameCharacter c then readXMLMarkup_loop fuel' X101 named
          else ret None
      | X101 =>
          if isXMLNameCharacter c then readXMLMarkup_loop fuel' X101 named
          else if charIs char "/"
          then readXMLMarkup_loop fuel' X102
                 (mkXMLScan x.(isXMLEndTag) true x.(isXMLComment) x.(xmlName) position)
          else if charIs char ">" then ret (Some x)
          else ret None
      | X102 => if charIs char ">" then ret (Some x) else ret None
      | X200 => if charIs char "-" then readXMLMarkup_loop fuel' X201 x else ret None
      | X201 => if charIs char "-" then readXMLMarkup_loop fuel' X202 x else ret None
      | X202 =>
          if charIs char "-" then readXMLMarkup_loop fuel' X203 x
          else readXMLMarkup_loop fuel' X202 x
      | X203 =>
          if charIs char "-" then readXMLMarkup_loop fuel' X204 x
          else readXMLMarkup_loop fuel' X202 x
      | X204 => if charIs char ">" then ret (Some x) else ret None
      end
end.

Definition readXMLMarkup (fuel : nat) (consume : bool) : M Tokenizer bool :=
t <- get;;
r <- readXMLMarkup_loop fuel X0 (mkXMLScan false false false [] (t.(position) + 1));;
match r with
| None => ret false
| Some x =>
    if x.(isXMLEndTag) && x.(isXMLEmptyElementTag) then ret false
    else if negb consume then ret true
    else
      modify (fun t =>
        setPosition x.(xmlPosition)
          (setLexeme (firstn (x.(xmlPosition) - t.(position)) (skipn t.(position) t.(text))) t));;;
      (if x.(isXMLComment) then token XML_COMMENT ValueNull
       else if x.(isXMLEndTag)
       then
         t <- get;;
         match t.(xmlStack) with
         | [] => throw (TokenizerError (js "Unexpected XML end tag."))
         | top :: below =>
             if negb (jseqb top x.(xmlName))
             then throw (TokenizerError (js "Unmatched XML tags."))
             else
               modify (setXmlStack below);;;
               token XML_END_TAG (ValueName x.(xmlName))
         end
       else if x.(isXMLEmptyElementTag)
       then token XML_EMPTY_ELEMENT_TAG (ValueName x.(xmlName))
       else
         modify (fun t => setXmlStack (x.(xmlName) :: t.(xmlStack)) t);;;
         token XML_START_TAG (ValueName x.(xmlName)));;;
      ret true
end.

Fixpoint readProtoToken_loop (fuel : nat) (chars : jsstring) : M Tokenizer jsstring :=
match fuel with
| O => outOfFuel
| S fuel' =>
    t <- get;;
    if atEnd t then ret chars
    else
      char <- peekCharacter;;
      let c := codePointAt0 char in
      if isWhitespaceCharacter c || isSyntaxCharacter c then ret chars
      else
        markup <- (if charIs char "<" then readXMLMarkup fuel' false else ret false);;
        if markup then ret chars
        else
          consumeCharacter char;;;
          if jseqb char [BACKSLASH]
          then
            t <- get;;
            if atEnd t then throw (TruncatedToken (js "Truncated escape sequence."))
            else
              char2 <- peekCharacter;;
              consumeCharacter char2;;;
              if jseqb char2 [BACKSLASH] then readProtoToken_loop fuel' (chars ++ [BACKSLASH])
              else if charIs char2 "<" then readProtoToken_loop fuel' (chars ++ js "<")
              else if charIs char2 "U"
              then s <- readUnicodeEscape fuel';; readProtoToken_loop fuel' (chars ++ s)
              else throw (TokenizerError (js "Undefined escape sequence."))
          else readProtoToken_loop fuel' (chars ++ char)
end.

Definition readProtoToken (fuel : nat) : M Tokenizer jsstring := readProtoToken_loop fuel [].

(** The [default] case of [readToken]. *)
Definition readProtoTokenToken (fuel : nat) : M Tokenizer unit :=
protoToken <- readProtoToken fuel;;
if charIs protoToken "." then token DOT ValueNull
else if numberRegExp_test protoToken
then token NUMBER (ValueObject (EVLNumber (Number_parseFloat protoToken)))
else if keywordRegExp_test protoToken
then token KEYWORD (ValueObject (internKeyword (tl protoToken)))
else if variableRegExp_test protoToken
then token VARIABLE (ValueObject (internVariable protoToken))
else throw (TokenizerError (js "Malformed proto-token.")).

Definition readToken (fuel : nat) (pureXML : bool) : M Tokenizer unit :=
char <- peekCharacter;;
if charIs char "'" then consumeCharacter char;;; token QUOTE ValueNull
else if charIs char "`" then consumeCharacter char;;; token QUASIQUOTE ValueNull
else if charIs char ","
then
  consumeCharacter char;;;
  t <- get;;
  if atEnd t then token UNQUOTE ValueNull
  else
    char2 <- peekCharacter;;
    if charIs char2 "@" then consumeCharacter char2;;; token UNQUOTE_SPLICING ValueNull
    else token UNQUOTE ValueNull
else if jseqb char [DQUOTE]
then
  consumeCharacter char;;;
  string <- readString fuel;;
  token STRING (ValueObject (EVLString string))
else if charIs char "(" then consumeCharacter char;;; token OPENING_PARENTHESIS ValueNull
else if charIs char ")" then consumeCharacter char;;; token CLOSING_PARENTHESIS ValueNull
else if charIs char "#" then consumeCharacter char;;; readHashConstruct fuel
else if charIs char "<"
then
  markup <- readXMLMarkup fuel true;;
  if markup then ret tt
  else if pureXML then throw (TokenizerError (js "Malformed XML markup."))
  else readProtoTokenToken fuel
else readProtoTokenToken fuel.

Fixpoint nextToken_loop (fuel : nat) (pureXML : bool) : M Tokenizer unit :=
match fuel with
| O => outOfFuel
| S fuel' =>
    t <- get;;
    match t.(category) with
    | Some _ => ret tt
    | None =>
        skipWhitespace fuel' pureXML;;;
        t <- get;;
        (if atEnd t then modify (setCategory (Some EOI)) else readToken fuel' pureXML);;;
        nextToken_loop fuel' pureXML
    end
end.

Definition isChapterOrSection (name : jsstring) : bool :=
jseqb name (js "chapter") || jseqb name (js "section").

Definition nextToken (fuel : nat) : M Tokenizer unit :=
modify (fun t => setLexeme [] (setWhitespace [] t));;;
t <- get;;
match t.(savedCodeUnits) with
| c :: r =>
    token CHARACTER (ValueObject (EVLCharacter c));;;
    modify (setSavedCodeUnits r)
| [] =>
    modify (fun t => setValue ValueNull (setCategory None t));;;
    let pureXML :=
      match t.(xmlStack) with
      | [] => false
      | top :: _ => negb (isChapterOrSection top)
      end in
    nextToken_loop fuel pureXML
end.

(** ** Printing numbers: [Number.prototype.toString]

    The ECMAScript algorithm: [k] digits [s] and a decimal exponent [n] with
    [k] as small as possible such that [s * 10^(n-k)] reads back as the
    number, the closest such [s] when there are several. *)

Fixpoint digitsOfZ (fuel : nat) (n : Z) (acc : jsstring) : jsstring :=
match fuel with
| O => acc
| S fuel' =>
    let acc' := (48 + n mod 10)%Z :: acc in
    if (n <? 10)%Z then acc' else digitsOfZ fuel' (n / 10)%Z acc'
end.

Definition decimalString (n : Z) : jsstring := digitsOfZ (S (Z.to_nat (Z.log2 n))) n [].

Fixpoint decimalExponentUp (fuel : nat) (num den n : Z) : Z :=
match fuel with
| O => n
| S fuel' => if (num <? den * 10 ^ n)%Z then n else decimalExponentUp fuel' num den (n + 1)%Z
end.

Fixpoint decimalExponentDown (fuel : nat) (num den j : Z) : Z :=
match fuel with
| O => j
| S fuel' => if (den <=? num * 10 ^ j)%Z then j else decimalExponentDown fuel' num den (j + 1)%Z
end.

(** The [n0] with [10^(n0-1) <= num/den < 10^n0]. *)
Definition decimalExponent (num den : Z) : Z :=
if (den <=? num)%Z then decimalExponentUp 400 num den 1
else (1 - decimalExponentDown 400 num den 1)%Z.

(** The digits [s] and the exponent [n] of the finite positive double
    [m * 2^e], searched from [k] digits on. *)
Fixpoint shortestDigits (fuel : nat) (m : positive) (e : Z) (n0 : Z) (k : Z) : Z * Z :=
let num := if (0 <=? e)%Z then (Zpos m * 2 ^ e)%Z else Zpos m in
let den := if (0 <=? e)%Z then 1%Z else (2 ^ (- e))%Z in
let p := (k - n0)%Z in
let num' := if (0 <=? p)%Z then (num * 10 ^ p)%Z else num in
let den' := if (0 <=? p)%Z then den else (den * 10 ^ (- p))%Z in
let sL := (num' / den')%Z in
let sU := if (sL + 1 =? 10 ^ k)%Z then (10 ^ (k - 1))%Z else (sL + 1)%Z in
let nU := if (sL + 1 =? 10 ^ k)%Z then (n0 + 1)%Z else n0 in
let x := S754_finite false m e in
let okL := SFeqb (decimalToNumber false sL (n0 - k)) x in
let okU := SFeqb (decimalToNumber false sU (nU - k)) x in
match fuel with
| O => (sL, n0)
| S fuel' =>
    if okL && okU
    then match (2 * num' ?= (2 * sL + 1) * den')%Z with
         | Lt => (sL, n0)
         | Gt => (sU, nU)
         | Eq => if Z.even sL then (sL, n0) else (sU, nU)
         end
    else if okL then (sL, n0)
    else if okU then (sU, nU)
    else shortestDigits fuel' m e n0 (k + 1)%Z
end.

Definition zeros (n : Z) : jsstring := repeat 48%Z (Z.to_nat n).

Definition Number_toString (x : spec_float) : jsstring :=
match x with
| S754_nan => js "NaN"
| S754_zero _ => js "0"
| S754_infinity s => (if s then js "-" else []) ++ js "Infinity"
| S754_finite sign m e =>
    let num := if (0 <=? e)%Z then (Zpos m * 2 ^ e)%Z else Zpos m in
    let den := if (0 <=? e)%Z then 1%Z else (2 ^ (- e))%Z in
    let '(s, n) := shortestDigits 20 m e (decimalExponent num den) 1 in
    let digits := decimalString s in
    let k := Z.of_nat (length digits) in
    (if sign then js "-" else []) ++
    (if (k <=? n)%Z && (n <=? 21)%Z then digits ++ zeros (n - k)
     else if (0 <? n)%Z && (n <=? 21)%Z
     then firstn (Z.to_nat n) digits ++ js "." ++ skipn (Z.to_nat n) digits
     else if (-6 <? n)%Z && (n <=? 0)%Z then js "0." ++ zeros (- n) ++ digits
     else
       let exponent :=
         js "e" ++ (if (0 <=? n - 1)%Z then js "+" else js "-") ++ decimalString (Z.abs (n - 1)) in
       if (k =? 1)%Z then digits ++ exponent
       else firstn 1 digits ++ js "." ++ skipn 1 digits ++ exponent)
end.

(** ** Printing objects: [toString] *)

Fixpoint hexDigits (fuel : nat) (n : Z) (acc : jsstring) : jsstring :=
match fuel with
| O => acc
| S fuel' =>
    let d := (n mod 16)%Z in
    let acc' := (if (d <? 10)%Z then 48 + d else 55 + d)%Z :: acc in
    if (n <? 16)%Z then acc' else hexDigits fuel' (n / 16)%Z acc'
end.

(** ['\\U{' + codePoint.toString(16).toUpperCase() + '}'] *)
Definition unicodeEscape (codePoint : Z) : jsstring :=
[BACKSLASH] ++ js "U{" ++ hexDigits 8 codePoint [] ++ js "}".

Fixpoint escapeCharacters (escapeCharacter : jsstring -> jsstring) (chars : jsstring)
  : jsstring :=
let escape (char : jsstring) : jsstring :=
  let codePoint := codePointAt0 char in
  if isControlCharacter codePoint && negb (isWhitespaceCharacter codePoint)
  then unicodeEscape codePoint
  else if isNoncharacter codePoint then unicodeEscape codePoint
  else escapeCharacter char in
match chars with
| [] => []
| codeUnit :: rest =>
    if isTrailingSurrogate codeUnit
    then unicodeEscape codeUnit ++ escapeCharacters escapeCharacter rest
    else if isLeadingSurrogate codeUnit
    then
      match rest with
      | [] => unicodeEscape codeUnit
      | codeUnit2 :: rest2 =>
          if isTrailingSurrogate codeUnit2
          then escape [codeUnit; codeUnit2] ++ escapeCharacters escapeCharacter rest2
          else unicodeEscape codeUnit ++ escapeCharacters escapeCharacter rest
      end
    else escape [codeUnit] ++ escapeCharacters escapeCharacter rest
end.

Definition escapeStringCharacter (char : jsstring) : jsstring :=
if jseqb char [BACKSLASH] then [BACKSLASH; BACKSLASH]
else if jseqb char [DQUOTE] then [BACKSLASH; DQUOTE]
else if jseqb char [9%Z] then BACKSLASH :: js "t"
else if jseqb char [10%Z] then BACKSLASH :: js "n"
else if jseqb char [11%Z] then BACKSLASH :: js "v"
else if jseqb char [12%Z] then BACKSLASH :: js "f"
else if jseqb char [13%Z] then BACKSLASH :: js "r"
else char.

Definition escapeProtoTokenCharacter (char : jsstring) : jsstring :=
let c := codePointAt0 char in
if isWhitespaceCharacter c || isSyntaxCharacter c then unicodeEscape c
else if jseqb char [BACKSLASH] then [BACKSLASH; BACKSLASH]
else if charIs char "<" then BACKSLASH :: js "<"
else char.

(** [object.toString()].  A preprocessed node has no [toString] of its
    own. *)
Fixpoint toString (o : EVLObject) : jsstring :=
match o with
| EVLVoid => js "#v"
| EVLBoolean b => if b then js "#t" else js "#f"
| EVLNumber x => Number_toString x
| EVLCharacter c => js "#" ++ [DQUOTE] ++ escapeCharacters escapeStringCharacter [c] ++ [DQUOTE]
| EVLString s => [DQUOTE] ++ escapeCharacters escapeStringCharacter s ++ [DQUOTE]
| EVLKeyword name => js ":" ++ escapeCharacters escapeProtoTokenCharacter name
| EVLVariable name => escapeCharacters escapeProtoTokenCharacter name
| EVLEmptyList => js "()"
| EVLCons car cdr =>
    js "(" ++ toString car ++
    (fix rest (list : EVLObject) : jsstring :=
       match list with
       | EVLEmptyList => []
       | EVLCons a d => js " " ++ toString a ++ rest d
       | x => js " . " ++ toString x
       end) cdr ++ js ")"
| EVLVector elements =>
    js "#(" ++
    (fix elems (first : bool) (l : list EVLObject) : jsstring :=
       match l with
       | [] => []
       | x :: r => (if first then [] else js " ") ++ toString x ++ elems false r
       end) true elements ++ js ")"
| EVLPrimitiveFunction _ _ _ => js "#<primitive-function>"
| EVLClosure _ _ _ _ _ _ _ => js "#<closure>"
| TrampolineppNode _ => js "[object Object]"
end.

(** ** Global environment *)

Definition namespaceName (ns : Namespace) : jsstring :=
match ns with VAL_NS => js "value" | FUN_NS => js "function" end.

Definition setGlobals (gv gf : jsstring -> option EVLObject) (w : World) : World :=
mkWorld gv gf w.(frames) w.(abortSignalArray) w.(clock) w.(selectedEvaluator).

Definition setFrames (f : list Frame) (w : World) : World :=
mkWorld w.(globalValue) w.(globalFunction) f w.(abortSignalArray) w.(clock)
  w.(selectedEvaluator).

Definition setAbort (a : option Z) (c : nat) (w : World) : World :=
mkWorld w.(globalValue) w.(globalFunction) w.(frames) a c w.(selectedEvaluator).

Definition setSelectedEvaluator (e : jsstring) (w : World) : World :=
mkWorld w.(globalValue) w.(globalFunction) w.(frames) w.(abortSignalArray) w.(clock) e.

Definition updateCell (f : jsstring -> option EVLObject) (name : jsstring)
  (v : option EVLObject) : jsstring -> option EVLObject :=
fun n => if jseqb n name then v else f n.

Definition GlobalEnv_ref (namespace : Namespace) (variable : jsstring) : M World EVLObject :=
fun w =>
  match namespace with
  | VAL_NS =>
      match w.(globalValue) variable with
      | Some value => Ok value w
      | None => Throw (UnboundVariable variable (js "value")) w
      end
  | FUN_NS =>
      match w.(globalFunction) variable with
      | Some value => Ok value w
      | None => Throw (UnboundVariable variable (js "function")) w
      end
  end.

Definition GlobalEnv_set (namespace : Namespace) (variable : jsstring) (value : EVLObject)
  : M World EVLObject :=
fun w =>
  match namespace with
  | VAL_NS => Ok value (setGlobals (updateCell w.(globalValue) variable (Some value))
                          w.(globalFunction) w)
  | FUN_NS => Ok value (setGlobals w.(globalValue)
                          (updateCell w.(globalFunction) variable (Some value)) w)
  end.

(** [GlobalEnv.preprocessorRef]: the third component of [[null, null, value]]. *)
Definition GlobalEnv_preprocessorRef (namespace : Namespace) (variable : jsstring) (w : World)
  : option EVLObject :=
match namespace with
| VAL_NS => w.(globalValue) variable
| FUN_NS => w.(globalFunction) variable
end.

(** ** Reader *)

Definition quoteVariable : jsstring := js "quote".
Definition quasiquoteVariable : jsstring := js "quasiquote".
Definition unquoteVariable : jsstring := js "unquote".
Definition unquoteSplicingVariable : jsstring := js "unquote-splicing".
Definition notVariable : jsstring := js "not".
Definition andVariable : jsstring := js "and".
Definition orVariable : jsstring := js "or".

(** What [readObject] returns: one of the four token categories, or an
    object. *)
Inductive ReadResult : Type :=
| R_DOT
| R_CLOSING_PARENTHESIS
| R_XML_END_TAG
| R_EOI
| R_Object (o : EVLObject).

(** The reader works on the tokenizer and on the state of the core;
    [lastResult] is the variable of the interface function that the callback
    assigns. *)
Record Reading : Type := mkReading {
  tokenizer : Tokenizer;
  world : World;
  lastResult : Result
}.

Definition onTokenizer {A : Type} (m : M Tokenizer A) : M Reading A :=
fun r =>
  match m r.(tokenizer) with
  | Ok a t => Ok a (mkReading t r.(world) r.(lastResult))
  | Throw e t => Throw e (mkReading t r.(world) r.(lastResult))
  | OutOfFuel => OutOfFuel
  end.

Definition onWorld {A : Type} (m : M World A) : M Reading A :=
fun r =>
  match m r.(world) with
  | Ok a w => Ok a (mkReading r.(tokenizer) w r.(lastResult))
  | Throw e w => Throw e (mkReading r.(tokenizer) w r.(lastResult))
  | OutOfFuel => OutOfFuel
  end.

(** [callback(object)] in [readXMLElement], with the assignment to
    [lastResult] the installed callbacks perform. *)
Definition invokeCallback (object : EVLObject) : M Reading unit :=
fun r =>
  match r.(tokenizer).(callback) with
  | None => Ok tt r
  | Some cb =>
      match cb object r.(world) with
      | Ok result w => Ok tt (mkReading r.(tokenizer) w result)
      | Throw e w => Throw e (mkReading r.(tokenizer) w r.(lastResult))
      | OutOfFuel => OutOfFuel
      end
  end.

Definition malformedFeatureExpression : exception :=
ReaderError (js "Malformed feature expression.").

Definition evaluateSymbolFeatureExpression (featureExpression : EVLObject) : M World bool :=
list <- GlobalEnv_ref VAL_NS (js "*features*");;
(fix loop (list : EVLObject) : M World bool :=
   match list with
   | EVLEmptyList => ret false
   | EVLCons car cdr => if sameSymbol car featureExpression then ret true else loop cdr
   | _ => throw (ReaderError (js "Malformed feature list."))
   end) list.

Fixpoint evaluateFeatureExpression (featureExpression : EVLObject) : M World bool :=
match featureExpression with
| EVLKeyword _ | EVLVariable _ => evaluateSymbolFeatureExpression featureExpression
| EVLCons car operands =>
    if isVariableNamed car notVariable
    then (* evaluateNotFeatureExpression *)
      match operands with
      | EVLCons operand EVLEmptyList =>
          b <- evaluateFeatureExpression operand;; ret (negb b)
      | _ => throw malformedFeatureExpression
      end
    else if isVariableNamed car andVariable
    then (* evaluateAndFeatureExpression *)
      (fix loop (operands : EVLObject) : M World bool :=
         match operands with
         | EVLEmptyList => ret true
         | EVLCons operand rest =>
             b <- evaluateFeatureExpression operand;;
             if b then loop rest else ret false
         | _ => throw malformedFeatureExpression
         end) operands
    else if isVariableNamed car orVariable
    then (* evaluateOrFeatureExpression *)
      (fix loop (operands : EVLObject) : M World bool :=
         match operands with
         | EVLEmptyList => ret false
         | EVLCons operand rest =>
             b <- evaluateFeatureExpression operand;;
             if b then ret true else loop rest
         | _ => throw malformedFeatureExpression
         end) operands
    else throw malformedFeatureExpression
| _ => throw malformedFeatureExpression
end.

(** The proper list of [elements]; with [Some tail], the dotted list. *)
Fixpoint makeList (elements : list EVLObject) (tail : EVLObject) : EVLObject :=
match elements with
| [] => tail
| x :: r => EVLCons x (makeList r tail)
end.

(** The objects [readAbbreviation], [readFeatureExpression] and
    [readConditionalizedObject] accept. *)
Definition expectObject (r : ReadResult) : M Reading EVLObject :=
match r with
| R_DOT => throw UnexpectedDot
| R_CLOSING_PARENTHESIS => throw UnexpectedClosingParenthesis
| R_XML_END_TAG => throw UnexpectedXMLEndTag
| R_EOI => throw UnexpectedEndOfInput
| R_Object o => ret o
end.

Section ReaderBody.

(** [readObject], one call deeper. *)
Variable readObject : M Reading ReadResult.

Definition readAbbreviation_ (variable : jsstring) : M Reading ReadResult :=
r <- readObject;;
object <- expectObject r;;
ret (R_Object (EVLCons (internVariable variable) (EVLCons object NIL))).

Definition readFeatureExpression_ : M Reading EVLObject :=
r <- readObject;; expectObject r.

Definition readConditionalizedObject_ : M Reading EVLObject :=
r <- readObject;; expectObject r.

(** [null] is [None]. *)
Definition readReadTimeConditional_ (polarity : bool) : M Reading (option EVLObject) :=
featureExpression <- readFeatureExpression_;;
conditionalizedObject <- readConditionalizedObject_;;
b <- onWorld (evaluateFeatureExpression featureExpression);;
if Bool.eqb b polarity then ret (Some conditionalizedObject) else ret None.

Definition malformedDottedList : exception := ReaderError (js "Malformed dotted list.").

Definition readDottedList_ (elements : list EVLObject) : M Reading ReadResult :=
match elements with
| [] => throw malformedDottedList
| _ :: _ =>
    r <- readObject;;
    match r with
    | R_DOT => throw malformedDottedList
    | R_CLOSING_PARENTHESIS => throw malformedDottedList
    | R_XML_END_TAG => throw UnexpectedXMLEndTag
    | R_EOI => throw UnexpectedEndOfInput
    | R_Object object =>
        r2 <- readObject;;
        match r2 with
        | R_DOT => throw malformedDottedList
        | R_CLOSING_PARENTHESIS => ret (R_Object (makeList elements object))
        | R_XML_END_TAG => throw UnexpectedXMLEndTag
        | R_EOI => throw UnexpectedEndOfInput
        | R_Object _ => throw malformedDottedList
        end
    end
end.

(** The loop of [readList]; [elements] are the objects read so far. *)
Fixpoint readList_loop (fuel : nat) (elements : list EVLObject) : M Reading ReadResult :=
match fuel with
| O => outOfFuel
| S fuel' =>
    r <- readObject;;
    match r with
    | R_DOT => readDottedList_ elements
    | R_CLOSING_PARENTHESIS => ret (R_Object (makeList elements NIL))
    | R_XML_END_TAG => throw UnexpectedXMLEndTag
    | R_EOI => throw UnexpectedEndOfInput
    | R_Object object => readList_loop fuel' (elements ++ [object])
    end
end.

Fixpoint readVector_loop (fuel : nat) (elements : list EVLObject) : M Reading ReadResult :=
match fuel with
| O => outOfFuel
| S fuel' =>
    r <- readObject;;
    match r with
    | R_DOT => throw UnexpectedDot
    | R_CLOSING_PARENTHESIS => ret (R_Object (EVLVector elements))
    | R_XML_END_TAG => throw UnexpectedXMLEndTag
    | R_EOI => throw UnexpectedEndOfInput
    | R_Object object => readVector_loop fuel' (elements ++ [object])
    end
end.

Fixpoint readXMLElement_loop (fuel : nat) (xmlStartTagName : TokenValue) : M Reading unit :=
match fuel with
| O => outOfFuel
| S fuel' =>
    r <- readObject;;
    match r with
    | R_DOT => throw UnexpectedDot
    | R_CLOSING_PARENTHESIS => throw UnexpectedClosingParenthesis
    | R_XML_END_TAG =>
        s <- get;;
        match xmlStartTagName, s.(tokenizer).(value) with
        | ValueName a, ValueName b =>
            if jseqb a b then ret tt else throw (ReaderError (js "Unmatched XML tags."))
        | _, _ => throw (ReaderError (js "Unmatched XML tags."))
        end
    | R_EOI => throw UnexpectedEndOfInput
    | R_Object object => invokeCallback object;;; readXMLElement_loop fuel' xmlStartTagName
    end
end.

End ReaderBody.

(** [readObject]: returns DOT, CLOSING_PARENTHESIS, XML_END_TAG, EOI, or an
    object.  XML elements are skipped because they are treated as comments. *)
Fixpoint readObject (fuel : nat) : M Reading ReadResult :=
match fuel with
| O => outOfFuel
| S fuel' =>
    onTokenizer (nextToken fuel');;;
    s <- get;;
    match s.(tokenizer).(category) with
    | Some VOID | Some BOOLEAN | Some NUMBER | Some CHARACTER | Some STRING
    | Some KEYWORD | Some VARIABLE =>
        match s.(tokenizer).(value) with
        | ValueObject o => ret (R_Object o)
        | _ => throw (CannotHappen (js "readObject"))
        end
    | Some QUOTE => readAbbreviation_ (readObject fuel') quoteVariable
    | Some QUASIQUOTE => readAbbreviation_ (readObject fuel') quasiquoteVariable
    | Some UNQUOTE => readAbbreviation_ (readObject fuel') unquoteVariable
    | Some UNQUOTE_SPLICING => readAbbreviation_ (readObject fuel') unquoteSplicingVariable
    | Some HASH_PLUS =>
        object <- readReadTimeConditional_ (readObject fuel') true;;
        match object with
        | Some o => ret (R_Object o)
        | None => readObject fuel'
        end
    | Some HASH_MINUS =>
        object <- readReadTimeConditional_ (readObject fuel') false;;
        match object with
        | Some o => ret (R_Object o)
        | None => readObject fuel'
        end
    | Some OPENING_PARENTHESIS => readList_loop (readObject fuel') fuel' []
    | Some HASH_OPENING_PARENTHESIS => readVector_loop (readObject fuel') fuel' []
    | Some DOT => ret R_DOT
    | Some CLOSING_PARENTHESIS => ret R_CLOSING_PARENTHESIS
    | Some XML_START_TAG =>
        readXMLElement_loop (readObject fuel') fuel' s.(tokenizer).(value);;;
        readObject fuel'
    | Some XML_END_TAG => ret R_XML_END_TAG
    | Some XML_EMPTY_ELEMENT_TAG => readObject fuel'
    | Some XML_COMMENT => readObject fuel'
    | Some EOI => ret R_EOI
    | Some BOI | None => throw (CannotHappen (js "readObject"))
    end
end.

Definition readAbbreviation (fuel : nat) := readAbbreviation_ (readObject fuel).
Definition readFeatureExpression (fuel : nat) := readFeatureExpression_ (readObject fuel).
Definition readConditionalizedObject (fuel : nat) := readConditionalizedObject_ (readObject fuel).
Definition readReadTimeConditional (fuel : nat) := readReadTimeConditional_ (readObject fuel).
Definition readList (fuel : nat) := readList_loop (readObject fuel) fuel [].
Definition readDottedList (fuel : nat) := readDottedList_ (readObject fuel).
Definition readVector (fuel : nat) := readVector_loop (readObject fuel) fuel [].
Definition readXMLElement (fuel : nat) : M Reading unit :=
s <- get;; readXMLElement_loop (readObject fuel) fuel s.(tokenizer).(value).

(** [read]: [null] is [None]. *)
Definition read (fuel : nat) : M Reading (option EVLObject) :=
object <- readObject fuel;;
match object with
| R_DOT => throw UnexpectedDot
| R_CLOSING_PARENTHESIS => throw UnexpectedClosingParenthesis
| R_XML_END_TAG => throw UnexpectedXMLEndTag
| R_EOI => ret None
| R_Object o => ret (Some o)
end.

(** ** EVL to XML converter *)

Inductive ConverterToken : Type := T_BOI | T_EOI | XML_TOKEN | EVL_TOKEN | EOL_COMMENT.

Definition XML_CONTEXT : Z := 0%Z.
Definition EVL_CONTEXT : Z := 1%Z.

(** JavaScript truthiness of a number. *)
Definition truthy (z : Z) : bool := negb (z =? 0)%Z.

(** [contextStack[contextStack.length - 1]]; [None] is [undefined].  The
    stack has its top at the head of the list. *)
Definition topContext (contextStack : list Z) : option Z := hd_error contextStack.

(** [context === c] *)
Definition contextIs (context : option Z) (c : Z) : bool :=
match context with
| Some x => (x =? c)%Z
| None => false
end.

Definition xmlEscape (string : jsstring) : jsstring :=
flat_map (fun c =>
  if (c =? ch "<")%Z then js "&lt;"
  else if (c =? ch ">")%Z then js "&gt;"
  else if (c =? ch "&")%Z then js "&amp;"
  else [c]) string.

(** The loop of [readEndOfLineComment]; [depth] is the length of its local
    context stack. *)
Fixpoint readEndOfLineComment_loop (fuel : nat) (whitespace0 lexeme0 : jsstring) (depth : nat)
  : M Tokenizer unit :=
match fuel with
| O => outOfFuel
| S fuel' =>
    nextToken fuel';;;
    t <- get;;
    let lexeme1 := lexeme0 ++ t.(whitespace) ++ t.(lexeme) in
    match t.(category) with
    | Some XML_START_TAG => readEndOfLineComment_loop fuel' whitespace0 lexeme1 (S depth)
    | Some XML_END_TAG =>
        match depth with
        | O => modify (fun t => setLexeme lexeme1 (setWhitespace whitespace0 t))
        | S depth' => readEndOfLineComment_loop fuel' whitespace0 lexeme1 depth'
        end
    | Some XML_EMPTY_ELEMENT_TAG | Some XML_COMMENT =>
        readEndOfLineComment_loop fuel' whitespace0 lexeme1 depth
    | Some EOI => throw (EVLToXMLConverterError (js "Unexpected end-of-input."))
    | _ => throw (CannotHappen (js "readEndOfLineComment"))
    end
end.

Definition readEndOfLineComment (fuel : nat) : M Tokenizer unit :=
t <- get;; readEndOfLineComment_loop fuel t.(whitespace) t.(lexeme) 0.

(** [sketchyRead(tokenizer, contextStack)]: the token, and the context stack
    after the call. *)
Definition sketchyRead (fuel : nat) (contextStack : list Z)
  : M Tokenizer (ConverterToken * list Z) :=
nextToken fuel;;;
t <- get;;
match t.(category) with
| Some VOID | Some BOOLEAN | Some NUMBER | Some CHARACTER | Some STRING | Some KEYWORD
| Some VARIABLE | Some QUOTE | Some QUASIQUOTE | Some UNQUOTE | Some UNQUOTE_SPLICING
| Some HASH_PLUS | Some HASH_MINUS | Some DOT => ret (EVL_TOKEN, contextStack)
| Some OPENING_PARENTHESIS | Some HASH_OPENING_PARENTHESIS =>
    ret (EVL_TOKEN, EVL_CONTEXT :: contextStack)
| Some CLOSING_PARENTHESIS =>
    if negb (contextIs (topContext contextStack) EVL_CONTEXT)
    then throw (EVLToXMLConverterError (js "Unexpected closing parenthesis."))
    else ret (EVL_TOKEN, tl contextStack)
| Some XML_START_TAG =>
    match t.(value) with
    | ValueName name =>
        if jseqb name (js "comment")
        then readEndOfLineComment fuel;;; ret (EOL_COMMENT, contextStack)
        else ret (XML_TOKEN, XML_CONTEXT :: contextStack)
    | _ => ret (XML_TOKEN, XML_CONTEXT :: contextStack)
    end
| Some XML_END_TAG =>
    if negb (contextIs (topContext contextStack) XML_CONTEXT)
    then throw (EVLToXMLConverterError (js "Unexpected XML end tag."))
    else ret (XML_TOKEN, tl contextStack)
| Some XML_EMPTY_ELEMENT_TAG | Some XML_COMMENT => ret (XML_TOKEN, contextStack)
| Some EOI =>
    match contextStack with
    | _ :: _ => throw (EVLToXMLConverterError (js "Unexpected end-of-input."))
    | [] => ret (T_EOI, contextStack)
    end
| Some BOI | None => throw (CannotHappen (js "sketchyRead"))
end.

Definition isXMLToken (token : ConverterToken) : bool :=
match token with XML_TOKEN => true | _ => false end.

Definition isEVLToken (token : ConverterToken) : bool :=
match token with EVL_TOKEN | EOL_COMMENT => true | _ => false end.

Definition countNewlines (string : jsstring) : nat :=
length (filter (fun c => (c =? 10)%Z) string).

Definition convertXMLWhitespace (previousToken : ConverterToken) (whitespace : jsstring)
  (token : ConverterToken) : jsstring :=
if isXMLToken previousToken && isEVLToken token
then whitespace ++ js "<toplevelcode><blockcode>"
else if isEVLToken previousToken && isEVLToken token
then
  if 2 <=? countNewlines whitespace
  then js "</blockcode></toplevelcode>" ++ whitespace ++ js "<toplevelcode><blockcode>"
  else whitespace
else if isEVLToken previousToken && isXMLToken token
then js "</blockcode></toplevelcode>" ++ whitespace
else whitespace.

Fixpoint countSpaces (string : jsstring) : nat :=
match string with
| c :: r => if (c =? 32)%Z then S (countSpaces r) else 0
| [] => 0
end.

Fixpoint countSpacesAfterFirstNewline (string : jsstring) : nat :=
match string with
| c :: r => if (c =? 10)%Z then countSpaces r else countSpacesAfterFirstNewline r
| [] => 0
end.

Definition convertEVLWhitespace (previousToken : ConverterToken) (whitespace : jsstring)
  (token : ConverterToken) : jsstring :=
if isEVLToken previousToken && isXMLToken token
then js "</blockcode><indentation style=" ++ [DQUOTE] ++ js "margin-left: "
     ++ natToString (countSpacesAfterFirstNewline whitespace)
     ++ js "ch;" ++ [DQUOTE] ++ js "><blockcomment>" ++ whitespace
else if isXMLToken previousToken && isEVLToken token
then js "</blockcomment></indentation><blockcode>" ++ whitespace
else whitespace.

(** The loop of [doConvertEVLToXML].  The second test of the context is the
    assignment [context = EVL_CONTEXT] of the source: its value is the
    number assigned. *)
Fixpoint doConvertEVLToXML_loop (fuel : nat) (xml : jsstring) (contextStack : list Z)
  (previousToken : ConverterToken) (context : option Z) : M Tokenizer jsstring :=
match fuel with
| O => outOfFuel
| S fuel' =>
    tc <- sketchyRead fuel' contextStack;;
    let '(token, contextStack) := tc in
    t <- get;;
    match token with
    | T_EOI => ret (xml ++ t.(whitespace))
    | _ =>
        let xml :=
          xml ++
          (if contextIs context XML_CONTEXT
           then convertXMLWhitespace previousToken t.(whitespace) token
           else
             let context := Some EVL_CONTEXT in
             if truthy EVL_CONTEXT
             then convertEVLWhitespace previousToken t.(whitespace) token
             else (* top-level context *) t.(whitespace)) in
        let xml :=
          xml ++
          (match token with
           | EVL_TOKEN => xmlEscape t.(lexeme)
           | _ => (* XML_TOKEN or EOL_COMMENT *) t.(lexeme)
           end) in
        doConvertEVLToXML_loop fuel' xml contextStack token (topContext contextStack)
    end
end.

Definition doConvertEVLToXML (fuel : nat) : M Tokenizer jsstring :=
doConvertEVLToXML_loop fuel [] [] T_BOI (topContext []).

(** ** Form analyzer

    The analyzers do not touch the state: they return the destructured
    parts, or the exception thrown. *)

Definition liftE {S A : Type} (x : exception + A) : M S A :=
match x with
| inl e => throw e
| inr a => ret a
end.

Definition bindE {A B : Type} (x : exception + A) (k : A -> exception + B) : exception + B :=
match x with
| inl e => inl e
| inr a => k a
end.

Definition formAnalyzerError {A : Type} (formName : string) : exception + A :=
inl (FormAnalyzerError (js "Malformed " ++ js formName ++ js " form.")).

Arguments formAnalyzerError {A} formName%_string.

Definition checkVariable (object : EVLObject) (formName : string) : exception + jsstring :=
match object with
| EVLVariable name => inr name
| _ => formAnalyzerError formName
end.

Definition checkEmptyList (object : EVLObject) (formName : string) : exception + unit :=
match object with
| EVLEmptyList => inr tt
| _ => formAnalyzerError formName
end.

(** [checkCons]: the [car] and the [cdr] of the cons. *)
Definition checkCons (object : EVLObject) (formName : string)
  : exception + (EVLObject * EVLObject) :=
match object with
| EVLCons car cdr => inr (car, cdr)
| _ => formAnalyzerError formName
end.

Fixpoint isProperList (object : EVLObject) : bool :=
match object with
| EVLEmptyList => true
| EVLCons _ cdr => isProperList cdr
| _ => false
end.

Definition checkProperList (object : EVLObject) (formName : string) : exception + EVLObject :=
if isProperList object then inr object else formAnalyzerError formName.

Fixpoint memName (x : jsstring) (l : list jsstring) : bool :=
match l with
| [] => false
| y :: r => jseqb x y || memName x r
end.

(** [new Set(parameters).size === parameters.length] *)
Fixpoint distinctNames (l : list jsstring) : bool :=
match l with
| [] => true
| x :: r => negb (memName x r) && distinctNames r
end.

(** The loop of [checkParameterList]: [None] is [formAnalyzerError]. *)
Fixpoint checkParameterList_loop (list_ : EVLObject) : option (list jsstring * bool) :=
match list_ with
| EVLEmptyList => Some ([], false)
| EVLCons (EVLVariable car) cdr =>
    match cdr with
    | EVLVariable restName => Some ([car; restName], true)
    | _ =>
        match checkParameterList_loop cdr with
        | Some (parameters, rest) => Some (car :: parameters, rest)
        | None => None
        end
    end
| _ => None
end.

Definition checkParameterList (object : EVLObject) (formName : string)
  : exception + (list jsstring * bool) :=
match object with
| EVLVariable name => inr ([name], true)
| _ =>
    match checkParameterList_loop object with
    | Some (parameters, rest) =>
        if distinctNames parameters then inr (parameters, rest)
        else formAnalyzerError formName
    | None => formAnalyzerError formName
    end
end.

(** The analyzers take the [cdr] of the form: the form itself is a cons
    whose [car] selected the analyzer. *)
Definition formCdr (form : EVLObject) : EVLObject :=
match form with
| EVLCons _ cdr => cdr
| _ => EVLVoid
end.

Definition formCar (form : EVLObject) : EVLObject :=
match form with
| EVLCons car _ => car
| _ => EVLVoid
end.

Definition analyzeQuote (form : EVLObject) : exception + EVLObject :=
bindE (checkCons (formCdr form) "quote") (fun '(literal, cdr) =>
bindE (checkEmptyList cdr "quote") (fun _ =>
inr literal)).

Definition analyzeProgn (form : EVLObject) : exception + EVLObject :=
checkProperList (formCdr form) "progn".

Definition analyzeIf (form : EVLObject) : exception + (EVLObject * EVLObject * EVLObject) :=
bindE (checkCons (formCdr form) "if") (fun '(testForm, cdr) =>
bindE (checkCons cdr "if") (fun '(thenForm, cdr) =>
bindE (checkCons cdr "if") (fun '(elseForm, cdr) =>
bindE (checkEmptyList cdr "if") (fun _ =>
inr (testForm, thenForm, elseForm))))).

Definition analyzeLambda (form : EVLObject)
  : exception + (list jsstring * bool * EVLObject) :=
bindE (checkCons (formCdr form) "_lambda") (fun '(parameterList, cdr) =>
bindE (checkParameterList parameterList "_lambda") (fun '(parameters, rest) =>
bindE (checkProperList cdr "_lambda") (fun forms =>
inr (parameters, rest, forms)))).

Definition analyzeRef (form : EVLObject) : exception + jsstring :=
bindE (checkCons (formCdr form) "ref") (fun '(car, cdr) =>
bindE (checkVariable car "ref") (fun variable =>
bindE (checkEmptyList cdr "ref") (fun _ =>
inr variable))).

Definition analyzeSet (form : EVLObject) : exception + (jsstring * EVLObject) :=
bindE (checkCons (formCdr form) "set") (fun '(car, cdr) =>
bindE (checkVariable car "set") (fun variable =>
bindE (checkCons cdr "set") (fun '(valueForm, cdr) =>
bindE (checkEmptyList cdr "set") (fun _ =>
inr (variable, valueForm))))).

Definition analyzeForEach (form : EVLObject) : exception + (EVLObject * EVLObject) :=
bindE (checkCons (formCdr form) "_for-each") (fun '(functionForm, cdr) =>
bindE (checkCons cdr "_for-each") (fun '(listForm, cdr) =>
bindE (checkEmptyList cdr "_for-each") (fun _ =>
inr (functionForm, listForm)))).

Definition analyzeCatchErrors (form : EVLObject) : exception + EVLObject :=
bindE (checkCons (formCdr form) "_catch-errors") (fun '(tryForm, cdr) =>
bindE (checkEmptyList cdr "_catch-errors") (fun _ =>
inr tryForm)).

Definition analyzeCall (mv apply : bool) (form : EVLObject)
  : exception + (EVLObject * EVLObject) :=
bindE (if mv || apply then checkCons (formCdr form) "call"
       else inr (formCar form, formCdr form)) (fun '(operator, cdr) =>
bindE (checkProperList cdr "call") (fun operands =>
inr (operator, operands))).

(** ** Lexical and dynamic environments *)

(** The index [j] with [variables[j] === variable]. *)
Fixpoint indexOfVariable (variable : jsstring) (variables : list jsstring) : option nat :=
match variables with
| [] => None
| v :: r =>
    if jseqb v variable then Some 0
    else match indexOfVariable variable r with
         | Some j => Some (S j)
         | None => None
         end
end.

(** The slot of [variable] in the frame, when the frame is of [namespace]. *)
Definition frameSlot (f : Frame) (namespace : Namespace) (variable : jsstring) : option nat :=
if Namespace_eqb f.(frame_namespace) namespace
then indexOfVariable variable f.(frame_variables)
else None.

Fixpoint setNth (j : nat) (v : EVLObject) (l : list EVLObject) : list EVLObject :=
match l, j with
| [], _ => []
| _ :: r, O => v :: r
| x :: r, S j' => x :: setNth j' v r
end.

Fixpoint updateFrame (a : nat) (g : Frame -> Frame) (l : list Frame) : list Frame :=
match l, a with
| [], _ => []
| f :: r, O => g f :: r
| f :: r, S a' => f :: updateFrame a' g r
end.

Definition danglingFrame : exception := CannotHappen (js "frame").

(** [this.values[j]] of the frame at address [a]. *)
Definition frameValue (a j : nat) : M World EVLObject :=
fun w =>
  match nth_error w.(frames) a with
  | Some f =>
      match nth_error f.(frame_values) j with
      | Some v => Ok v w
      | None => Throw TypeError w
      end
  | None => Throw danglingFrame w
  end.

(** [this.values[j] = value] of the frame at address [a]. *)
Definition setFrameValue (a j : nat) (value : EVLObject) : M World EVLObject :=
fun w =>
  Ok value
    (setFrames
       (updateFrame a
          (fun f => mkFrame f.(frame_namespace) f.(frame_variables)
                      (setNth j value f.(frame_values)))
          w.(frames)) w).

(** [new Frame(namespace, variables, values, next)]: the address of the
    frame. *)
Definition newFrame (namespace : Namespace) (variables : list jsstring)
  (values : list EVLObject) : M World nat :=
fun w => Ok (length w.(frames)) (setFrames (w.(frames) ++ [mkFrame namespace variables values]) w).

(** [env.ref(namespace, variable)] on a chain that ends in
    [nullDefiniteEnv]. *)
Fixpoint DefiniteEnv_ref (env : DefiniteEnv) (namespace : Namespace) (variable : jsstring)
  : M World EVLObject :=
fun w =>
  match env with
  | [] => GlobalEnv_ref namespace variable w
  | a :: next =>
      match nth_error w.(frames) a with
      | Some f =>
          match frameSlot f namespace variable with
          | Some j => frameValue a j w
          | None => DefiniteEnv_ref next namespace variable w
          end
      | None => Throw danglingFrame w
      end
  end.

Fixpoint DefiniteEnv_set (env : DefiniteEnv) (namespace : Namespace) (variable : jsstring)
  (value : EVLObject) : M World EVLObject :=
fun w =>
  match env with
  | [] => GlobalEnv_set namespace variable value w
  | a :: next =>
      match nth_error w.(frames) a with
      | Some f =>
          match frameSlot f namespace variable with
          | Some j => setFrameValue a j value w
          | None => DefiniteEnv_set next namespace variable value w
          end
      | None => Throw danglingFrame w
      end
  end.

(** ** Pairing parameters with arguments *)

Definition instanceofEVLList (o : EVLObject) : bool :=
match o with
| EVLEmptyList | EVLCons _ _ => true
| _ => false
end.

(** [args] without its last element, and the last element. *)
Fixpoint splitLast (args : list EVLObject) : option (list EVLObject * EVLObject) :=
match args with
| [] => None
| [x] => Some ([], x)
| x :: r =>
    match splitLast r with
    | Some (p, l) => Some (x :: p, l)
    | None => None
    end
end.

(** [arityMax === null || i < arityMax] *)
Definition belowArityMax (arityMax : option nat) (i : nat) : bool :=
match arityMax with
| None => true
| Some m => i <? m
end.

Definition pairPrimFunParametersNoApply (args : list EVLObject) (arityMin : nat)
  (arityMax : option nat) : exception + list EVLObject :=
let nargs := length args in
if nargs <? arityMin then inl TooFewArguments
else
  match arityMax with
  | Some m => if m <? nargs then inl TooManyArguments else inr args
  | None => inr args
  end.

(** The first loop of the [Apply] pairings of primitive functions:
    [args[i]] for [i < nargs - 1]. *)
Fixpoint spreadLeading (arityMax : option nat) (leading : list EVLObject) (i : nat)
  (spreadArgs : list EVLObject) : exception + (nat * list EVLObject) :=
match leading with
| [] => inr (i, spreadArgs)
| x :: r =>
    if belowArityMax arityMax i then spreadLeading arityMax r (S i) (spreadArgs ++ [x])
    else inl TooManyArguments
end.

(** The second loop: the elements of [argList]. *)
Fixpoint spreadList (arityMax : option nat) (argList : EVLObject) (i : nat)
  (spreadArgs : list EVLObject) : exception + (nat * list EVLObject) :=
match argList with
| EVLEmptyList => inr (i, spreadArgs)
| EVLCons car cdr =>
    if belowArityMax arityMax i then spreadList arityMax cdr (S i) (spreadArgs ++ [car])
    else inl TooManyArguments
| _ => inl MalformedSpreadableSequenceOfObjects
end.

Definition pairPrimFunParametersApply (args : list EVLObject) (arityMin : nat)
  (arityMax : option nat) : exception + list EVLObject :=
match splitLast args with
| None => inl MalformedSpreadableSequenceOfObjects
| Some (leading, last) =>
    bindE (spreadLeading arityMax leading 0 []) (fun '(i, spreadArgs) =>
    if negb (instanceofEVLList last) then inl MalformedSpreadableSequenceOfObjects
    else
      bindE (spreadList arityMax last i spreadArgs) (fun '(i, spreadArgs) =>
      if i <? arityMin then inl TooFewArguments else inr spreadArgs))
end.

Definition pairPrimFunParameters (apply : bool) (args : list EVLObject) (arityMin : nat)
  (arityMax : option nat) : exception + list EVLObject :=
if negb apply then pairPrimFunParametersNoApply args arityMin arityMax
else pairPrimFunParametersApply args arityMin arityMax.

Definition pairClosureParametersNoApplyNoRest (args : list EVLObject)
  (parameters : list jsstring) : exception + list EVLObject :=
let nargs := length args in
let nparameters := length parameters in
if nargs <? nparameters then inl TooFewArguments
else if nparameters <? nargs then inl TooManyArguments
else inr args.

(** The loop shared by the [Rest] pairings over the leading arguments:
    [values[i] = args[i]] while [i < nparameters - 1], then the cells of the
    rest list.  [fixed] is [nparameters - 1]. *)
Fixpoint pairLeadingRest (fixed : nat) (leading : list EVLObject) (i : nat)
  (values list_ : list EVLObject) : nat * list EVLObject * list EVLObject :=
match leading with
| [] => (i, values, list_)
| x :: r =>
    if i <? fixed then pairLeadingRest fixed r (S i) (values ++ [x]) list_
    else pairLeadingRest fixed r (S i) values (list_ ++ [x])
end.

(** [values[nparameters - 1] = list] on an array of [nparameters] slots of
    which the first [nparameters - 1] are filled. *)
Definition storeRest (nparameters : nat) (values : list EVLObject) (list_ : EVLObject)
  : list EVLObject :=
match nparameters with
| O => values
| S _ => values ++ [list_]
end.

Definition pairClosureParametersNoApplyRest (args : list EVLObject)
  (parameters : list jsstring) : exception + list EVLObject :=
let nparameters := length parameters in
let '(i, values, list_) := pairLeadingRest (nparameters - 1) args 0 [] [] in
if i <? nparameters - 1 then inl TooFewArguments
else inr (storeRest nparameters values (makeList list_ NIL)).

Fixpoint pairLeadingNoRest (nparameters : nat) (leading : list EVLObject) (i : nat)
  (values : list EVLObject) : exception + (nat * list EVLObject) :=
match leading with
| [] => inr (i, values)
| x :: r =>
    if i <? nparameters then pairLeadingNoRest nparameters r (S i) (values ++ [x])
    else inl TooManyArguments
end.

Fixpoint pairListNoRest (nparameters : nat) (argList : EVLObject) (i : nat)
  (values : list EVLObject) : exception + (nat * list EVLObject) :=
match argList with
| EVLEmptyList => inr (i, values)
| EVLCons car cdr =>
    if i <? nparameters then pairListNoRest nparameters cdr (S i) (values ++ [car])
    else inl TooManyArguments
| _ => inl MalformedSpreadableSequenceOfObjects
end.

Definition pairClosureParametersApplyNoRest (args : list EVLObject)
  (parameters : list jsstring) : exception + list EVLObject :=
let nparameters := length parameters in
match splitLast args with
| None => inl MalformedSpreadableSequenceOfObjects
| Some (leading, last) =>
    bindE (pairLeadingNoRest nparameters leading 0 []) (fun '(i, values) =>
    if negb (instanceofEVLList last) then inl MalformedSpreadableSequenceOfObjects
    else
      bindE (pairListNoRest nparameters last i values) (fun '(i, values) =>
      if i <? nparameters then inl TooFewArguments else inr values))
end.

(** The second loop of [pairClosureParametersApplyRest]: the elements of
    [argList] fill the remaining fixed parameters; at the rest parameter the
    loop breaks and the rest list adopts [argList] itself as its tail. *)
Fixpoint pairListRest (fixed : nat) (argList : EVLObject) (i : nat)
  (values list_ : list EVLObject) : exception + (nat * list EVLObject * EVLObject) :=
match argList with
| EVLEmptyList => inr (i, values, makeList list_ NIL)
| EVLCons car cdr =>
    if i <? fixed then pairListRest fixed cdr (S i) (values ++ [car]) list_
    else inr (i, values, makeList list_ argList)
| _ => inl MalformedSpreadableSequenceOfObjects
end.

Definition pairClosureParametersApplyRest (args : list EVLObject)
  (parameters : list jsstring) : exception + list EVLObject :=
let nparameters := length parameters in
match splitLast args with
| None => inl MalformedSpreadableSequenceOfObjects
| Some (leading, last) =>
    let '(i, values, list_) := pairLeadingRest (nparameters - 1) leading 0 [] [] in
    if negb (instanceofEVLList last) then inl MalformedSpreadableSequenceOfObjects
    else
      bindE (pairListRest (nparameters - 1) last i values list_) (fun '(i, values, list_) =>
      if i <? nparameters - 1 then inl TooFewArguments
      else inr (storeRest nparameters values list_))
end.

Definition pairClosureParameters (apply : bool) (args : list EVLObject)
  (parameters : list jsstring) (rest : bool) : exception + list EVLObject :=
if negb apply
then
  if negb rest then pairClosureParametersNoApplyNoRest args parameters
  else pairClosureParametersNoApplyRest args parameters
else
  if negb rest then pairClosureParametersApplyNoRest args parameters
  else pairClosureParametersApplyRest args parameters.

(** [listToArray]: on a list that is not proper the loop reads [car] of a
    non-list. *)
Fixpoint listToArray (list_ : EVLObject) : exception + list EVLObject :=
match list_ with
| EVLEmptyList => inr []
| EVLCons car cdr => bindE (listToArray cdr) (fun r => inr (car :: r))
| _ => inl TypeError
end.

(** ** Generic evaluator: what the six evaluators share *)

Definition emptyListError : exception :=
EvaluatorError (js "The empty list does not evaluate.").
Definition ifTestFormError : exception :=
EvaluatorError (js "The test-form does not evaluate to a boolean.").
Definition forEachNotImplemented : exception :=
EvaluatorError (js "The _for-each-form is not implemented.").
Definition forEachFunctionFormError : exception :=
EvaluatorError (js "The function-form does not evaluate to a function.").
Definition forEachListFormError : exception :=
EvaluatorError (js "The list-form does not evaluate to a proper list.").
Definition callOperatorFormError : exception :=
EvaluatorError (js "The operator-form does not evaluate to a function.").

Definition prognVariable : jsstring := js "progn".
Definition ifVariable : jsstring := js "if".
Definition _vlambdaVariable : jsstring := js "_vlambda".
Definition _mlambdaVariable : jsstring := js "_mlambda".
Definition mlambdaVariable : jsstring := js "mlambda".
Definition _flambdaVariable : jsstring := js "_flambda".
Definition _dlambdaVariable : jsstring := js "_dlambda".
Definition vrefVariable : jsstring := js "vref".
Definition vsetVariable : jsstring := js "vset!".
Definition frefVariable : jsstring := js "fref".
Definition fsetVariable : jsstring := js "fset!".
Definition drefVariable : jsstring := js "dref".
Definition dsetVariable : jsstring := js "dset!".
Definition _forEachVariable : jsstring := js "_for-each".
Definition _catchErrorsVariable : jsstring := js "_catch-errors".
Definition applyVariable : jsstring := js "apply".
Definition multipleValueCallVariable : jsstring := js "multiple-value-call".
Definition multipleValueApplyVariable : jsstring := js "multiple-value-apply".

(** The cases of [switch (form.car)], which every evaluator repeats. *)
Inductive SpecialOperator : Type :=
| SO_quote
| SO_progn
| SO_if
| SO_lambda (scope : Scope) (namespace : Namespace) (macro : bool)
| SO_ref (scope : Scope) (namespace : Namespace)
| SO_set (scope : Scope) (namespace : Namespace)
| SO_forEach
| SO_catchErrors
| SO_call (mv apply : bool).

Definition specialOperator (car : EVLObject) : SpecialOperator :=
match car with
| EVLVariable name =>
    if jseqb name quoteVariable then SO_quote
    else if jseqb name prognVariable then SO_progn
    else if jseqb name ifVariable then SO_if
    else if jseqb name _vlambdaVariable then SO_lambda LEX_SCOPE VAL_NS false
    else if jseqb name _mlambdaVariable then SO_lambda LEX_SCOPE VAL_NS true
    else if jseqb name _flambdaVariable then SO_lambda LEX_SCOPE FUN_NS false
    else if jseqb name _dlambdaVariable then SO_lambda DYN_SCOPE VAL_NS false
    else if jseqb name vrefVariable then SO_ref LEX_SCOPE VAL_NS
    else if jseqb name vsetVariable then SO_set LEX_SCOPE VAL_NS
    else if jseqb name frefVariable then SO_ref LEX_SCOPE FUN_NS
    else if jseqb name fsetVariable then SO_set LEX_SCOPE FUN_NS
    else if jseqb name drefVariable then SO_ref DYN_SCOPE VAL_NS
    else if jseqb name dsetVariable then SO_set DYN_SCOPE VAL_NS
    else if jseqb name _forEachVariable then SO_forEach
    else if jseqb name _catchErrorsVariable then SO_catchErrors
    else if jseqb name applyVariable then SO_call false true
    else if jseqb name multipleValueCallVariable then SO_call true false
    else if jseqb name multipleValueApplyVariable then SO_call true true
    else SO_call false false
| _ => SO_call false false
end.

Definition instanceofEVLVariable (o : EVLObject) : bool :=
match o with EVLVariable _ => true | _ => false end.

Definition instanceofEVLFunction (o : EVLObject) : bool :=
match o with
| EVLPrimitiveFunction _ _ _ | EVLClosure _ _ _ _ _ _ _ => true
| _ => false
end.

(** [fn instanceof EVLClosure && fn.macro] *)
Definition isMacroClosure (fn : EVLObject) : bool :=
match fn with
| EVLClosure _ _ macro _ _ _ _ => macro
| _ => false
end.

(** [args.push(...)] of the operand continuations. *)
Definition pushValues (mv : bool) (args : list EVLObject) (result : Result) : list EVLObject :=
if mv then args ++ allValues result else args ++ [primaryValue result].

(** The [value] and [function] cells of the variables: all a primitive
    function can reach. *)
Definition Cells : Type := ((jsstring -> option EVLObject) * (jsstring -> option EVLObject))%type.

Section Core.

(** The host functions behind the primitive functions, by name: from the
    arguments and the cells, the result or the exception thrown and the
    cells afterwards. *)
Variable jsFunction : jsstring -> list EVLObject -> Cells -> (exception + Result) * Cells.

(** The host: the content of the abort byte as the host leaves it before the
    core reads it for the [n]-th time, from its content before. *)
Variable host : nat -> Z -> Z.

(** [fn.jsFunction(values)] *)
Definition callJsFunction (name : jsstring) (values : list EVLObject) : M World Result :=
fun w =>
  let '(r, (gv, gf)) := jsFunction name values (w.(globalValue), w.(globalFunction)) in
  match r with
  | inl e => Throw e (setGlobals gv gf w)
  | inr x => Ok x (setGlobals gv gf w)
  end.

(** [abortSignalArray !== null && abortSignalArray[0] === 1] *)
Definition abortRequested : M World bool :=
fun w =>
  match w.(abortSignalArray) with
  | None => Ok false w
  | Some b =>
      let b' := host w.(clock) b in
      Ok (b' =? 1)%Z (setAbort (Some b') (S w.(clock)) w)
  end.

(** *** Plain recursive evaluator *)

Section PlainrecBody.

(** [plainrecEvalForm], one call deeper. *)
Variable plainrecEvalForm : EVLObject -> DefiniteEnv -> DefiniteEnv -> M World Result.

Definition plainrecEvalQuote (form : EVLObject) (lenv denv : DefiniteEnv) : M World Result :=
literal <- liftE (analyzeQuote form);;
ret (EVLObject_ literal).

Fixpoint plainrecEvalForms (forms : EVLObject) (lenv denv : DefiniteEnv) : M World Result :=
match forms with
| EVLEmptyList => ret (EVLObject_ VOID_)
| EVLCons car EVLEmptyList => plainrecEvalForm car lenv denv
| EVLCons car cdr =>
    plainrecEvalForm car lenv denv;;;
    plainrecEvalForms cdr lenv denv
| _ => throw TypeError
end.

Definition plainrecEvalProgn (form : EVLObject) (lenv denv : DefiniteEnv) : M World Result :=
forms <- liftE (analyzeProgn form);;
plainrecEvalForms forms lenv denv.

Definition plainrecEvalIf (form : EVLObject) (lenv denv : DefiniteEnv) : M World Result :=
parts <- liftE (analyzeIf form);;
let '(testForm, thenForm, elseForm) := parts in
result <- plainrecEvalForm testForm lenv denv;;
match primaryValue result with
| EVLBoolean true => plainrecEvalForm thenForm lenv denv
| EVLBoolean false => plainrecEvalForm elseForm lenv denv
| _ => throw ifTestFormError
end.

Definition plainrecEvalLambda (scope : Scope) (namespace : Namespace) (macro : bool)
  (form : EVLObject) (lenv denv : DefiniteEnv) : M World Result :=
parts <- liftE (analyzeLambda form);;
let '(parameters, rest, forms) := parts in
ret (EVLObject_ (EVLClosure scope namespace macro parameters rest forms lenv)).

Definition plainrecEvalRef (scope : Scope) (namespace : Namespace) (form : EVLObject)
  (lenv denv : DefiniteEnv) : M World Result :=
variable <- liftE (analyzeRef form);;
value <- match scope with
         | LEX_SCOPE => DefiniteEnv_ref lenv namespace variable
         | DYN_SCOPE => DefiniteEnv_ref denv namespace variable
         end;;
ret (EVLObject_ value).

Definition plainrecEvalSet (scope : Scope) (namespace : Namespace) (form : EVLObject)
  (lenv denv : DefiniteEnv) : M World Result :=
parts <- liftE (analyzeSet form);;
let '(variable, valueForm) := parts in
result <- plainrecEvalForm valueForm lenv denv;;
let value := primaryValue result in
value <- match scope with
         | LEX_SCOPE => DefiniteEnv_set lenv namespace variable value
         | DYN_SCOPE => DefiniteEnv_set denv namespace variable value
         end;;
ret (EVLObject_ value).

Definition plainrecEvalCatchErrors (form : EVLObject) (lenv denv : DefiniteEnv)
  : M World Result :=
tryForm <- liftE (analyzeCatchErrors form);;
fun w =>
  match plainrecEvalForm tryForm lenv denv w with
  | Ok _ w' => Ok (EVLObject_ VOID_) w'
  | Throw exception w' => Ok (EVLObject_ (EVLString (exception_name exception))) w'
  | OutOfFuel => OutOfFuel
  end.

Definition plainrecEvalOperator (operator : EVLObject) (lenv denv : DefiniteEnv)
  : M World Result :=
match operator with
| EVLVariable name => value <- DefiniteEnv_ref lenv FUN_NS name;; ret (EVLObject_ value)
| _ => plainrecEvalForm operator lenv denv
end.

Fixpoint plainrecEvalOperands (mv macro : bool) (operands : EVLObject)
  (args : list EVLObject) (lenv denv : DefiniteEnv) : M World (list EVLObject) :=
match operands with
| EVLEmptyList => ret args
| EVLCons car cdr =>
    if macro
    then plainrecEvalOperands mv macro cdr (args ++ [car]) lenv denv
    else
      result <- plainrecEvalForm car lenv denv;;
      plainrecEvalOperands mv macro cdr (pushValues mv args result) lenv denv
| _ => throw TypeError
end.

Definition plainrecInvokeFun (apply macro : bool) (fn : EVLObject) (args : list EVLObject)
  (lenv denv : DefiniteEnv) : M World Result :=
match fn with
| EVLPrimitiveFunction arityMin arityMax name =>
    values <- liftE (pairPrimFunParameters apply args arityMin arityMax);;
    callJsFunction name values
| EVLClosure scope namespace _ parameters rest forms fnlenv =>
    values <- liftE (pairClosureParameters apply args parameters rest);;
    match scope with
    | LEX_SCOPE =>
        a <- newFrame namespace parameters values;;
        let elenv := a :: fnlenv in
        if macro
        then
          result <- plainrecEvalForms forms elenv denv;;
          let expansion := primaryValue result in
          plainrecEvalForm expansion lenv denv
        else plainrecEvalForms forms elenv denv
    | DYN_SCOPE =>
        a <- newFrame namespace parameters values;;
        let edenv := a :: denv in
        plainrecEvalForms forms fnlenv edenv
    end
| _ => throw callOperatorFormError
end.

Definition plainrecEvalCall (mv apply : bool) (form : EVLObject) (lenv denv : DefiniteEnv)
  : M World Result :=
parts <- liftE (analyzeCall mv apply form);;
let '(operator, operands) := parts in
result <- plainrecEvalOperator operator lenv denv;;
let fn := primaryValue result in
let macro := instanceofEVLVariable operator && isMacroClosure fn in
args <- plainrecEvalOperands mv macro operands [] lenv denv;;
plainrecInvokeFun apply macro fn args lenv denv.

(** The body of [plainrecEvalForm]. *)
Definition plainrecEvalForm_ (form : EVLObject) (lenv denv : DefiniteEnv) : M World Result :=
match form with
| EVLEmptyList => throw emptyListError
| EVLCons car _ =>
    match specialOperator car with
    | SO_quote => plainrecEvalQuote form lenv denv
    | SO_progn => plainrecEvalProgn form lenv denv
    | SO_if => plainrecEvalIf form lenv denv
    | SO_lambda scope namespace macro => plainrecEvalLambda scope namespace macro form lenv denv
    | SO_ref scope namespace => plainrecEvalRef scope namespace form lenv denv
    | SO_set scope namespace => plainrecEvalSet scope namespace form lenv denv
    | SO_forEach => throw forEachNotImplemented
    | SO_catchErrors => plainrecEvalCatchErrors form lenv denv
    | SO_call mv apply => plainrecEvalCall mv apply form lenv denv
    end
| EVLVariable name => value <- DefiniteEnv_ref lenv VAL_NS name;; ret (EVLObject_ value)
| _ => ret (EVLObject_ form)
end.

End PlainrecBody.

Fixpoint plainrecEvalForm (fuel : nat) (form : EVLObject) (lenv denv : DefiniteEnv)
  : M World Result :=
match fuel with
| O => outOfFuel
| S fuel' => plainrecEvalForm_ (plainrecEvalForm fuel') form lenv denv
end.

Definition nullDefiniteEnv : DefiniteEnv := [].

Definition plainrecEval (fuel : nat) (form : EVLObject) : M World Result :=
plainrecEvalForm fuel form nullDefiniteEnv nullDefiniteEnv.

(** *** Continuation passing style evaluator *)

Definition cpsEndCont : Result -> M World Result := fun result => ret result.

Section CpsBody.

(** [cpsEvalForm], one call deeper. *)
Variable cpsEvalForm :
  EVLObject -> DefiniteEnv -> DefiniteEnv -> (Result -> M World Result) -> M World Result.

Definition cpsEvalQuote (form : EVLObject) (lenv denv : DefiniteEnv)
  (k : Result -> M World Result) : M World Result :=
literal <- liftE (analyzeQuote form);;
k (EVLObject_ literal).

Fixpoint cpsEvalForms (forms : EVLObject) (lenv denv : DefiniteEnv)
  (k : Result -> M World Result) : M World Result :=
match forms with
| EVLEmptyList => k (EVLObject_ VOID_)
| EVLCons car EVLEmptyList => cpsEvalForm car lenv denv k
| EVLCons car cdr =>
    cpsEvalForm car lenv denv
      (fun result => (* ButLastFormCont *) cpsEvalForms cdr lenv denv k)
| _ => throw TypeError
end.

Definition cpsEvalProgn (form : EVLObject) (lenv denv : DefiniteEnv)
  (k : Result -> M World Result) : M World Result :=
forms <- liftE (analyzeProgn form);;
cpsEvalForms forms lenv denv k.

Definition cpsEvalIf (form : EVLObject) (lenv denv : DefiniteEnv)
  (k : Result -> M World Result) : M World Result :=
parts <- liftE (analyzeIf form);;
let '(testForm, thenForm, elseForm) := parts in
cpsEvalForm testForm lenv denv
  (fun result => (* IfTestFormCont *)
     match primaryValue result with
     | EVLBoolean true => cpsEvalForm thenForm lenv denv k
     | EVLBoolean false => cpsEvalForm elseForm lenv denv k
     | _ => throw ifTestFormError
     end).

Definition cpsEvalLambda (scope : Scope) (namespace : Namespace) (macro : bool)
  (form : EVLObject) (lenv denv : DefiniteEnv) (k : Result -> M World Result)
  : M World Result :=
parts <- liftE (analyzeLambda form);;
let '(parameters, rest, forms) := parts in
k (EVLObject_ (EVLClosure scope namespace macro parameters rest forms lenv)).

Definition cpsEvalRef (scope : Scope) (namespace : Namespace) (form : EVLObject)
  (lenv denv : DefiniteEnv) (k : Result -> M World Result) : M World Result :=
variable <- liftE (analyzeRef form);;
value <- match scope with
         | LEX_SCOPE => DefiniteEnv_ref lenv namespace variable
         | DYN_SCOPE => DefiniteEnv_ref denv namespace variable
         end;;
k (EVLObject_ value).

Definition cpsEvalSet (scope : Scope) (namespace : Namespace) (form : EVLObject)
  (lenv denv : DefiniteEnv) (k : Result -> M World Result) : M World Result :=
parts <- liftE (analyzeSet form);;
let '(variable, valueForm) := parts in
cpsEvalForm valueForm lenv denv
  (fun result => (* SetValueFormCont *)
     let value := primaryValue result in
     value <- match scope with
              | LEX_SCOPE => DefiniteEnv_set lenv namespace variable value
              | DYN_SCOPE => DefiniteEnv_set denv namespace variable value
              end;;
     k (EVLObject_ value)).

Definition cpsInvokeFun (apply macro : bool) (fn : EVLObject) (args : list EVLObject)
  (lenv denv : DefiniteEnv) (k : Result -> M World Result) : M World Result :=
match fn with
| EVLPrimitiveFunction arityMin arityMax name =>
    values <- liftE (pairPrimFunParameters apply args arityMin arityMax);;
    result <- callJsFunction name values;;
    k result
| EVLClosure scope namespace _ parameters rest forms fnlenv =>
    values <- liftE (pairClosureParameters apply args parameters rest);;
    match scope with
    | LEX_SCOPE =>
        a <- newFrame namespace parameters values;;
        let elenv := a :: fnlenv in
        if macro
        then
          result <- cpsEvalForms forms elenv denv cpsEndCont;;
          let expansion := primaryValue result in
          cpsEvalForm expansion lenv denv k
        else cpsEvalForms forms elenv denv k
    | DYN_SCOPE =>
        a <- newFrame namespace parameters values;;
        let edenv := a :: denv in
        cpsEvalForms forms fnlenv edenv k
    end
| _ => throw callOperatorFormError
end.

(** The loop of the [ForEachListFormCont]. *)
Fixpoint cpsForEachLoop (fn : EVLObject) (list_ : EVLObject) (lenv denv : DefiniteEnv)
  : M World unit :=
match list_ with
| EVLEmptyList => ret tt
| EVLCons car cdr =>
    cpsInvokeFun false false fn [car] lenv denv cpsEndCont;;;
    cpsForEachLoop fn cdr lenv denv
| _ => throw forEachListFormError
end.

Definition cpsEvalForEach (form : EVLObject) (lenv denv : DefiniteEnv)
  (k : Result -> M World Result) : M World Result :=
parts <- liftE (analyzeForEach form);;
let '(functionForm, listForm) := parts in
cpsEvalForm functionForm lenv denv
  (fun result => (* ForEachFunctionFormCont *)
     let fn := primaryValue result in
     if negb (instanceofEVLFunction fn) then throw forEachFunctionFormError
     else
       cpsEvalForm listForm lenv denv
         (fun result => (* ForEachListFormCont *)
            cpsForEachLoop fn (primaryValue result) lenv denv;;;
            k (EVLObject_ VOID_))).

Definition cpsEvalCatchErrors (form : EVLObject) (lenv denv : DefiniteEnv)
  (k : Result -> M World Result) : M World Result :=
tryForm <- liftE (analyzeCatchErrors form);;
fun w =>
  match cpsEvalForm tryForm lenv denv cpsEndCont w with
  | Ok _ w' => k (EVLObject_ VOID_) w'
  | Throw exception w' => k (EVLObject_ (EVLString (exception_name exception))) w'
  | OutOfFuel => OutOfFuel
  end.

Definition cpsEvalOperator (operator : EVLObject) (lenv denv : DefiniteEnv)
  (k : Result -> M World Result) : M World Result :=
match operator with
| EVLVariable name => value <- DefiniteEnv_ref lenv FUN_NS name;; k (EVLObject_ value)
| _ => cpsEvalForm operator lenv denv k
end.

Fixpoint cpsEvalOperands (mv macro : bool) (operands : EVLObject) (args : list EVLObject)
  (lenv denv : DefiniteEnv) (k : list EVLObject -> M World Result) : M World Result :=
match operands with
| EVLEmptyList => k args
| EVLCons car cdr =>
    if macro
    then cpsEvalOperands mv macro cdr (args ++ [car]) lenv denv k
    else
      cpsEvalForm car lenv denv
        (fun result => (* OperandCont *)
           cpsEvalOperands mv macro cdr (pushValues mv args result) lenv denv k)
| _ => throw TypeError
end.

Definition cpsEvalCall (mv apply : bool) (form : EVLObject) (lenv denv : DefiniteEnv)
  (k : Result -> M World Result) : M World Result :=
parts <- liftE (analyzeCall mv apply form);;
let '(operator, operands) := parts in
cpsEvalOperator operator lenv denv
  (fun result => (* OperatorCont *)
     let fn := primaryValue result in
     let macro := instanceofEVLVariable operator && isMacroClosure fn in
     cpsEvalOperands mv macro operands [] lenv denv
       (fun args => (* OperandsCont *)
          cpsInvokeFun apply macro fn args lenv denv k)).

(** The body of [cpsEvalForm]. *)
Definition cpsEvalForm_ (form : EVLObject) (lenv denv : DefiniteEnv)
  (k : Result -> M World Result) : M World Result :=
match form with
| EVLEmptyList => throw emptyListError
| EVLCons car _ =>
    match specialOperator car with
    | SO_quote => cpsEvalQuote form lenv denv k
    | SO_progn => cpsEvalProgn form lenv denv k
    | SO_if => cpsEvalIf form lenv denv k
    | SO_lambda scope namespace macro => cpsEvalLambda scope namespace macro form lenv denv k
    | SO_ref scope namespace => cpsEvalRef scope namespace form lenv denv k
    | SO_set scope namespace => cpsEvalSet scope namespace form lenv denv k
    | SO_forEach => cpsEvalForEach form lenv denv k
    | SO_catchErrors => cpsEvalCatchErrors form lenv denv k
    | SO_call mv apply => cpsEvalCall mv apply form lenv denv k
    end
| EVLVariable name => value <- DefiniteEnv_ref lenv VAL_NS name;; k (EVLObject_ value)
| _ => k (EVLObject_ form)
end.

End CpsBody.

Fixpoint cpsEvalForm (fuel : nat) (form : EVLObject) (lenv denv : DefiniteEnv)
  (k : Result -> M World Result) : M World Result :=
match fuel with
| O => outOfFuel
| S fuel' => cpsEvalForm_ (cpsEvalForm fuel') form lenv denv k
end.

Definition cpsEval (fuel : nat) (form : EVLObject) : M World Result :=
cpsEvalForm fuel form nullDefiniteEnv nullDefiniteEnv cpsEndCont.

(** *** Object-oriented CPS evaluator *)

Inductive OOCPSCont : Type :=
| OOCPSEndCont
| OOCPSButLastFormCont (forms : EVLObject) (lenv denv : DefiniteEnv) (k : OOCPSCont)
| OOCPSIfTestFormCont (thenForm elseForm : EVLObject) (lenv denv : DefiniteEnv) (k : OOCPSCont)
| OOCPSSetValueFormCont (scope : Scope) (namespace : Namespace) (variable : jsstring)
    (lenv denv : DefiniteEnv) (k : OOCPSCont)
| OOCPSForEachFunctionFormCont (listForm : EVLObject) (lenv denv : DefiniteEnv) (k : OOCPSCont)
| OOCPSForEachListFormCont (fn : EVLObject) (lenv denv : DefiniteEnv) (k : OOCPSCont)
| OOCPSOperatorCont (mv apply : bool) (operator operands : EVLObject)
    (lenv denv : DefiniteEnv) (k : OOCPSCont)
| OOCPSOperandCont (mv macro : bool) (operands : EVLObject) (args : list EVLObject)
    (lenv denv : DefiniteEnv) (k : OOCPSCont)
| OOCPSOperandsCont (apply macro : bool) (fn : EVLObject) (lenv denv : DefiniteEnv)
    (k : OOCPSCont).

(** What a continuation is invoked on: a result, or the array of the
    arguments of a call. *)
Inductive Invoked : Type :=
| OnResult (result : Result)
| OnArgs (args : list EVLObject).

Definition oocpsEndCont : OOCPSCont := OOCPSEndCont.

Section OOCPSBody.

(** [oocpsEvalForm] and [k.invoke], one call deeper. *)
Variable oocpsEvalForm : EVLObject -> DefiniteEnv -> DefiniteEnv -> OOCPSCont -> M World Result.
Variable invoke : OOCPSCont -> Invoked -> M World Result.

Definition oocpsEvalQuote (form : EVLObject) (lenv denv : DefiniteEnv) (k : OOCPSCont)
  : M World Result :=
literal <- liftE (analyzeQuote form);;
invoke k (OnResult (EVLObject_ literal)).

Definition oocpsEvalForms (forms : EVLObject) (lenv denv : DefiniteEnv) (k : OOCPSCont)
  : M World Result :=
match forms with
| EVLEmptyList => invoke k (OnResult (EVLObject_ VOID_))
| EVLCons car EVLEmptyList => oocpsEvalForm car lenv denv k
| EVLCons car cdr => oocpsEvalForm car lenv denv (OOCPSButLastFormCont forms lenv denv k)
| _ => throw TypeError
end.

Definition oocpsEvalProgn (form : EVLObject) (lenv denv : DefiniteEnv) (k : OOCPSCont)
  : M World Result :=
forms <- liftE (analyzeProgn form);;
oocpsEvalForms forms lenv denv k.

Definition oocpsEvalIf (form : EVLObject) (lenv denv : DefiniteEnv) (k : OOCPSCont)
  : M World Result :=
parts <- liftE (analyzeIf form);;
let '(testForm, thenForm, elseForm) := parts in
oocpsEvalForm testForm lenv denv (OOCPSIfTestFormCont thenForm elseForm lenv denv k).

Definition oocpsEvalLambda (scope : Scope) (namespace : Namespace) (macro : bool)
  (form : EVLObject) (lenv denv : DefiniteEnv) (k : OOCPSCont) : M World Result :=
parts <- liftE (analyzeLambda form);;
let '(parameters, rest, forms) := parts in
invoke k (OnResult (EVLObject_ (EVLClosure scope namespace macro parameters rest forms lenv))).

Definition oocpsEvalRef (scope : Scope) (namespace : Namespace) (form : EVLObject)
  (lenv denv : DefiniteEnv) (k : OOCPSCont) : M World Result :=
variable <- liftE (analyzeRef form);;
value <- match scope with
         | LEX_SCOPE => DefiniteEnv_ref lenv namespace variable
         | DYN_SCOPE => DefiniteEnv_ref denv namespace variable
         end;;
invoke k (OnResult (EVLObject_ value)).

Definition oocpsEvalSet (scope : Scope) (namespace : Namespace) (form : EVLObject)
  (lenv denv : DefiniteEnv) (k : OOCPSCont) : M World Result :=
parts <- liftE (analyzeSet form);;
let '(variable, valueForm) := parts in
oocpsEvalForm valueForm lenv denv (OOCPSSetValueFormCont scope namespace variable lenv denv k).

Definition oocpsEvalForEach (form : EVLObject) (lenv denv : DefiniteEnv) (k : OOCPSCont)
  : M World Result :=
parts <- liftE (analyzeForEach form);;
let '(functionForm, listForm) := parts in
oocpsEvalForm functionForm lenv denv (OOCPSForEachFunctionFormCont listForm lenv denv k).

Definition oocpsEvalCatchErrors (form : EVLObject) (lenv denv : DefiniteEnv) (k : OOCPSCont)
  : M World Result :=
tryForm <- liftE (analyzeCatchErrors form);;
fun w =>
  match oocpsEvalForm tryForm lenv denv oocpsEndCont w with
  | Ok _ w' => invoke k (OnResult (EVLObject_ VOID_)) w'
  | Throw exception w' =>
      invoke k (OnResult (EVLObject_ (EVLString (exception_name exception)))) w'
  | OutOfFuel => OutOfFuel
  end.

Definition oocpsEvalOperator (operator : EVLObject) (lenv denv : DefiniteEnv) (k : OOCPSCont)
  : M World Result :=
match operator with
| EVLVariable name =>
    value <- DefiniteEnv_ref lenv FUN_NS name;; invoke k (OnResult (EVLObject_ value))
| _ => oocpsEvalForm operator lenv denv k
end.

Definition oocpsEvalCall (mv apply : bool) (form : EVLObject) (lenv denv : DefiniteEnv)
  (k : OOCPSCont) : M World Result :=
parts <- liftE (analyzeCall mv apply form);;
let '(operator, operands) := parts in
oocpsEvalOperator operator lenv denv (OOCPSOperatorCont mv apply operator operands lenv denv k).

Fixpoint oocpsEvalOperands (mv macro : bool) (operands : EVLObject) (args : list EVLObject)
  (lenv denv : DefiniteEnv) (k : OOCPSCont) : M World Result :=
match operands with
| EVLEmptyList => invoke k (OnArgs args)
| EVLCons car cdr =>
    if macro
    then oocpsEvalOperands mv macro cdr (args ++ [car]) lenv denv k
    else oocpsEvalForm car lenv denv (OOCPSOperandCont mv macro operands args lenv denv k)
| _ => throw TypeError
end.

Definition oocpsInvokeFun (apply macro : bool) (fn : EVLObject) (args : list EVLObject)
  (lenv denv : DefiniteEnv) (k : OOCPSCont) : M World Result :=
match fn with
| EVLPrimitiveFunction arityMin arityMax name =>
    values <- liftE (pairPrimFunParameters apply args arityMin arityMax);;
    result <- callJsFunction name values;;
    invoke k (OnResult result)
| EVLClosure scope namespace _ parameters rest forms fnlenv =>
    values <- liftE (pairClosureParameters apply args parameters rest);;
    match scope with
    | LEX_SCOPE =>
        a <- newFrame namespace parameters values;;
        let elenv := a :: fnlenv in
        if macro
        then
          result <- oocpsEvalForms forms elenv denv oocpsEndCont;;
          let expansion := primaryValue result in
          oocpsEvalForm expansion lenv denv k
        else oocpsEvalForms forms elenv denv k
    | DYN_SCOPE =>
        a <- newFrame namespace parameters values;;
        let edenv := a :: denv in
        oocpsEvalForms forms fnlenv edenv k
    end
| _ => throw callOperatorFormError
end.

(** The loop of [OOCPSForEachListFormCont.invoke]. *)
Fixpoint oocpsForEachLoop (fn : EVLObject) (list_ : EVLObject) (lenv denv : DefiniteEnv)
  : M World unit :=
match list_ with
| EVLEmptyList => ret tt
| EVLCons car cdr =>
    oocpsInvokeFun false false fn [car] lenv denv oocpsEndCont;;;
    oocpsForEachLoop fn cdr lenv denv
| _ => throw forEachListFormError
end.

(** The body of [oocpsEvalForm]. *)
Definition oocpsEvalForm_ (form : EVLObject) (lenv denv : DefiniteEnv) (k : OOCPSCont)
  : M World Result :=
match form with
| EVLEmptyList => throw emptyListError
| EVLCons car _ =>
    match specialOperator car with
    | SO_quote => oocpsEvalQuote form lenv denv k
    | SO_progn => oocpsEvalProgn form lenv denv k
    | SO_if => oocpsEvalIf form lenv denv k
    | SO_lambda scope namespace macro => oocpsEvalLambda scope namespace macro form lenv denv k
    | SO_ref scope namespace => oocpsEvalRef scope namespace form lenv denv k
    | SO_set scope namespace => oocpsEvalSet scope namespace form lenv denv k
    | SO_forEach => oocpsEvalForEach form lenv denv k
    | SO_catchErrors => oocpsEvalCatchErrors form lenv denv k
    | SO_call mv apply => oocpsEvalCall mv apply form lenv denv k
    end
| EVLVariable name =>
    value <- DefiniteEnv_ref lenv VAL_NS name;; invoke k (OnResult (EVLObject_ value))
| _ => invoke k (OnResult (EVLObject_ form))
end.

(** The [invoke] methods of the continuation classes.  A continuation
    invoked on the wrong kind of object fails in the host. *)
Definition invoke_ (k : OOCPSCont) (x : Invoked) : M World Result :=
match k, x with
| OOCPSEndCont, OnResult result => ret result
| OOCPSButLastFormCont forms lenv denv k, _ => oocpsEvalForms (formCdr forms) lenv denv k
| OOCPSIfTestFormCont thenForm elseForm lenv denv k, OnResult result =>
    match primaryValue result with
    | EVLBoolean true => oocpsEvalForm thenForm lenv denv k
    | EVLBoolean false => oocpsEvalForm elseForm lenv denv k
    | _ => throw ifTestFormError
    end
| OOCPSSetValueFormCont scope namespace variable lenv denv k, OnResult result =>
    let value := primaryValue result in
    value <- match scope with
             | LEX_SCOPE => DefiniteEnv_set lenv namespace variable value
             | DYN_SCOPE => DefiniteEnv_set denv namespace variable value
             end;;
    invoke k (OnResult (EVLObject_ value))
| OOCPSForEachFunctionFormCont listForm lenv denv k, OnResult result =>
    let fn := primaryValue result in
    if negb (instanceofEVLFunction fn) then throw forEachFunctionFormError
    else oocpsEvalForm listForm lenv denv (OOCPSForEachListFormCont fn lenv denv k)
| OOCPSForEachListFormCont fn lenv denv k, OnResult result =>
    oocpsForEachLoop fn (primaryValue result) lenv denv;;;
    invoke k (OnResult (EVLObject_ VOID_))
| OOCPSOperatorCont mv apply operator operands lenv denv k, OnResult result =>
    let fn := primaryValue result in
    let macro := instanceofEVLVariable operator && isMacroClosure fn in
    oocpsEvalOperands mv macro operands [] lenv denv
      (OOCPSOperandsCont apply macro fn lenv denv k)
| OOCPSOperandCont mv macro operands args lenv denv k, OnResult result =>
    oocpsEvalOperands mv macro (formCdr operands) (pushValues mv args result) lenv denv k
| OOCPSOperandsCont apply macro fn lenv denv k, OnArgs args =>
    oocpsInvokeFun apply macro fn args lenv denv k
| _, _ => throw TypeError
end.

End OOCPSBody.

Fixpoint oocpsEvalForm (fuel : nat) (form : EVLObject) (lenv denv : DefiniteEnv)
  (k : OOCPSCont) : M World Result :=
match fuel with
| O => outOfFuel
| S fuel' => oocpsEvalForm_ (oocpsEvalForm fuel') (oocpsInvoke fuel') form lenv denv k
end
with oocpsInvoke (fuel : nat) (k : OOCPSCont) (x : Invoked) : M World Result :=
match fuel with
| O => outOfFuel
| S fuel' => invoke_ (oocpsEvalForm fuel') (oocpsInvoke fuel') k x
end.

Definition oocpsEval (fuel : nat) (form : EVLObject) : M World Result :=
oocpsEvalForm fuel form nullDefiniteEnv nullDefiniteEnv oocpsEndCont.

(** *** Stack-based object-oriented CPS evaluator *)

Inductive SBOOCPSCont : Type :=
| SBOOCPSEndCont
| SBOOCPSButLastFormCont (forms : EVLObject) (lenv : DefiniteEnv)
| SBOOCPSIfTestFormCont (thenForm elseForm : EVLObject) (lenv : DefiniteEnv)
| SBOOCPSSetValueFormCont (scope : Scope) (namespace : Namespace) (variable : jsstring)
    (lenv : DefiniteEnv)
| SBOOCPSForEachFunctionFormCont (listForm : EVLObject) (lenv : DefiniteEnv)
| SBOOCPSForEachListFormCont (fn : EVLObject) (lenv : DefiniteEnv)
| SBOOCPSOperatorCont (mv apply : bool) (operator operands : EVLObject) (lenv : DefiniteEnv)
| SBOOCPSOperandCont (mv macro : bool) (operands : EVLObject) (args : list EVLObject)
    (lenv : DefiniteEnv)
| SBOOCPSOperandsCont (apply macro : bool) (fn : EVLObject) (lenv : DefiniteEnv).

(** An element of the control stack: a continuation, or (the address of) a
    frame of the dynamic environment. *)
Inductive SBOOCPSElement : Type :=
| SBCont (k : SBOOCPSCont)
| SBFrame (a : nat).

(** The control stack (its top at the head of the list) and the state of
    the core. *)
Record SBOOCPSState : Type := mkSBOOCPSState {
  sbStack : list SBOOCPSElement;
  sbWorld : World
}.

Definition sboocpsEndCont : SBOOCPSCont := SBOOCPSEndCont.

Definition sbOnWorld {A : Type} (m : M World A) : M SBOOCPSState A :=
fun s =>
  match m s.(sbWorld) with
  | Ok a w => Ok a (mkSBOOCPSState s.(sbStack) w)
  | Throw e w => Throw e (mkSBOOCPSState s.(sbStack) w)
  | OutOfFuel => OutOfFuel
  end.

(** [kStack.push(element)] *)
Definition sbPush (element : SBOOCPSElement) : M SBOOCPSState unit :=
modify (fun s => mkSBOOCPSState (element :: s.(sbStack)) s.(sbWorld)).

(** [kStack.trim(size)]: the loop does not end on a shorter stack. *)
Definition sbTrim (size : nat) : M SBOOCPSState unit :=
fun s =>
  if length s.(sbStack) <? size then OutOfFuel
  else Ok tt (mkSBOOCPSState (skipn (length s.(sbStack) - size) s.(sbStack)) s.(sbWorld)).

(** The frames of a control stack, the innermost first. *)
Fixpoint sbFrames (stack : list SBOOCPSElement) : DefiniteEnv :=
match stack with
| [] => []
| SBFrame a :: r => a :: sbFrames r
| SBCont _ :: r => sbFrames r
end.

(** [kStack.ref(namespace, variable)] and [kStack.set(namespace, variable,
    value)]: the frames on the stack from the top, then the global
    environment. *)
Definition sbRef (namespace : Namespace) (variable : jsstring) : M SBOOCPSState EVLObject :=
fun s => sbOnWorld (DefiniteEnv_ref (sbFrames s.(sbStack)) namespace variable) s.

Definition sbSet (namespace : Namespace) (variable : jsstring) (value : EVLObject)
  : M SBOOCPSState EVLObject :=
fun s => sbOnWorld (DefiniteEnv_set (sbFrames s.(sbStack)) namespace variable value) s.

Section SBOOCPSBody.

(** [sboocpsEvalForm] and [element.invoke], one call deeper. *)
Variable sboocpsEvalForm : EVLObject -> DefiniteEnv -> M SBOOCPSState Result.
Variable invoke : SBOOCPSCont -> Invoked -> M SBOOCPSState Result.

(** [kStack.invokeCont(result)]: pops until a continuation is found; on an
    empty stack the loop does not end. *)
Fixpoint popAndInvoke (stack : list SBOOCPSElement) (x : Invoked) (w : World)
  : res SBOOCPSState Result :=
match stack with
| [] => OutOfFuel
| SBCont k :: r => invoke k x (mkSBOOCPSState r w)
| SBFrame _ :: r => popAndInvoke r x w
end.

Definition invokeCont (x : Invoked) : M SBOOCPSState Result :=
fun s => popAndInvoke s.(sbStack) x s.(sbWorld).

Definition sboocpsEvalQuote (form : EVLObject) (lenv : DefiniteEnv) : M SBOOCPSState Result :=
literal <- liftE (analyzeQuote form);;
invokeCont (OnResult (EVLObject_ literal)).

Definition sboocpsEvalForms (forms : EVLObject) (lenv : DefiniteEnv) : M SBOOCPSState Result :=
match forms with
| EVLEmptyList => invokeCont (OnResult (EVLObject_ VOID_))
| EVLCons car EVLEmptyList => sboocpsEvalForm car lenv
| EVLCons car cdr =>
    sbPush (SBCont (SBOOCPSButLastFormCont forms lenv));;;
    sboocpsEvalForm car lenv
| _ => throw TypeError
end.

Definition sboocpsEvalProgn (form : EVLObject) (lenv : DefiniteEnv) : M SBOOCPSState Result :=
forms <- liftE (analyzeProgn form);;
sboocpsEvalForms forms lenv.

Definition sboocpsEvalIf (form : EVLObject) (lenv : DefiniteEnv) : M SBOOCPSState Result :=
parts <- liftE (analyzeIf form);;
let '(testForm, thenForm, elseForm) := parts in
sbPush (SBCont (SBOOCPSIfTestFormCont thenForm elseForm lenv));;;
sboocpsEvalForm testForm lenv.

Definition sboocpsEvalLambda (scope : Scope) (namespace : Namespace) (macro : bool)
  (form : EVLObject) (lenv : DefiniteEnv) : M SBOOCPSState Result :=
parts <- liftE (analyzeLambda form);;
let '(parameters, rest, forms) := parts in
invokeCont (OnResult (EVLObject_ (EVLClosure scope namespace macro parameters rest forms lenv))).

Definition sboocpsEvalRef (scope : Scope) (namespace : Namespace) (form : EVLObject)
  (lenv : DefiniteEnv) : M SBOOCPSState Result :=
variable <- liftE (analyzeRef form);;
value <- match scope with
         | LEX_SCOPE => sbOnWorld (DefiniteEnv_ref lenv namespace variable)
         | DYN_SCOPE => sbRef namespace variable
         end;;
invokeCont (OnResult (EVLObject_ value)).

Definition sboocpsEvalSet (scope : Scope) (namespace : Namespace) (form : EVLObject)
  (lenv : DefiniteEnv) : M SBOOCPSState Result :=
parts <- liftE (analyzeSet form);;
let '(variable, valueForm) := parts in
sbPush (SBCont (SBOOCPSSetValueFormCont scope namespace variable lenv));;;
sboocpsEvalForm valueForm lenv.

Definition sboocpsEvalForEach (form : EVLObject) (lenv : DefiniteEnv) : M SBOOCPSState Result :=
parts <- liftE (analyzeForEach form);;
let '(functionForm, listForm) := parts in
sbPush (SBCont (SBOOCPSForEachFunctionFormCont listForm lenv));;;
sboocpsEvalForm functionForm lenv.

Definition sboocpsEvalCatchErrors (form : EVLObject) (lenv : DefiniteEnv)
  : M SBOOCPSState Result :=
tryForm <- liftE (analyzeCatchErrors form);;
fun s =>
  let kStackSize := length s.(sbStack) in
  match (sbPush (SBCont sboocpsEndCont);;; sboocpsEvalForm tryForm lenv) s with
  | Ok _ s' => invokeCont (OnResult (EVLObject_ VOID_)) s'
  | Throw exception s' =>
      (sbTrim kStackSize;;;
       invokeCont (OnResult (EVLObject_ (EVLString (exception_name exception))))) s'
  | OutOfFuel => OutOfFuel
  end.

Definition sboocpsEvalOperator (operator : EVLObject) (lenv : DefiniteEnv)
  : M SBOOCPSState Result :=
match operator with
| EVLVariable name =>
    value <- sbOnWorld (DefiniteEnv_ref lenv FUN_NS name);;
    invokeCont (OnResult (EVLObject_ value))
| _ => sboocpsEvalForm operator lenv
end.

Definition sboocpsEvalCall (mv apply : bool) (form : EVLObject) (lenv : DefiniteEnv)
  : M SBOOCPSState Result :=
parts <- liftE (analyzeCall mv apply form);;
let '(operator, operands) := parts in
sbPush (SBCont (SBOOCPSOperatorCont mv apply operator operands lenv));;;
sboocpsEvalOperator operator lenv.

Fixpoint sboocpsEvalOperands (mv macro : bool) (operands : EVLObject) (args : list EVLObject)
  (lenv : DefiniteEnv) : M SBOOCPSState Result :=
match operands with
| EVLEmptyList => invokeCont (OnArgs args)
| EVLCons car cdr =>
    if macro
    then sboocpsEvalOperands mv macro cdr (args ++ [car]) lenv
    else
      sbPush (SBCont (SBOOCPSOperandCont mv macro operands args lenv));;;
      sboocpsEvalForm car lenv
| _ => throw TypeError
end.

Definition sboocpsInvokeFun (apply macro : bool) (fn : EVLObject) (args : list EVLObject)
  (lenv : DefiniteEnv) : M SBOOCPSState Result :=
match fn with
| EVLPrimitiveFunction arityMin arityMax name =>
    values <- liftE (pairPrimFunParameters apply args arityMin arityMax);;
    result <- sbOnWorld (callJsFunction name values);;
    invokeCont (OnResult result)
| EVLClosure scope namespace _ parameters rest forms fnlenv =>
    values <- liftE (pairClosureParameters apply args parameters rest);;
    match scope with
    | LEX_SCOPE =>
        a <- sbOnWorld (newFrame namespace parameters values);;
        let elenv := a :: fnlenv in
        if macro
        then
          sbPush (SBCont sboocpsEndCont);;;
          result <- sboocpsEvalForms forms elenv;;
          let expansion := primaryValue result in
          sboocpsEvalForm expansion lenv
        else sboocpsEvalForms forms elenv
    | DYN_SCOPE =>
        a <- sbOnWorld (newFrame namespace parameters values);;
        sbPush (SBFrame a);;;
        sboocpsEvalForms forms fnlenv
    end
| _ => throw callOperatorFormError
end.

(** The loop of [SBOOCPSForEachListFormCont.invoke]. *)
Fixpoint sboocpsForEachLoop (fn : EVLObject) (list_ : EVLObject) (lenv : DefiniteEnv)
  : M SBOOCPSState unit :=
match list_ with
| EVLEmptyList => ret tt
| EVLCons car cdr =>
    sbPush (SBCont sboocpsEndCont);;;
    sboocpsInvokeFun false false fn [car] lenv;;;
    sboocpsForEachLoop fn cdr lenv
| _ => throw forEachListFormError
end.

(** The body of [sboocpsEvalForm]. *)
Definition sboocpsEvalForm_ (form : EVLObject) (lenv : DefiniteEnv) : M SBOOCPSState Result :=
match form with
| EVLEmptyList => throw emptyListError
| EVLCons car _ =>
    match specialOperator car with
    | SO_quote => sboocpsEvalQuote form lenv
    | SO_progn => sboocpsEvalProgn form lenv
    | SO_if => sboocpsEvalIf form lenv
    | SO_lambda scope namespace macro => sboocpsEvalLambda scope namespace macro form lenv
    | SO_ref scope namespace => sboocpsEvalRef scope namespace form lenv
    | SO_set scope namespace => sboocpsEvalSet scope namespace form lenv
    | SO_forEach => sboocpsEvalForEach form lenv
    | SO_catchErrors => sboocpsEvalCatchErrors form lenv
    | SO_call mv apply => sboocpsEvalCall mv apply form lenv
    end
| EVLVariable name =>
    value <- sbOnWorld (DefiniteEnv_ref lenv VAL_NS name);;
    invokeCont (OnResult (EVLObject_ value))
| _ => invokeCont (OnResult (EVLObject_ form))
end.

(** The [invoke] methods of the continuation classes. *)
Definition sbInvoke_ (k : SBOOCPSCont) (x : Invoked) : M SBOOCPSState Result :=
match k, x with
| SBOOCPSEndCont, OnResult result => ret result
| SBOOCPSButLastFormCont forms lenv, _ => sboocpsEvalForms (formCdr forms) lenv
| SBOOCPSIfTestFormCont thenForm elseForm lenv, OnResult result =>
    match primaryValue result with
    | EVLBoolean true => sboocpsEvalForm thenForm lenv
    | EVLBoolean false => sboocpsEvalForm elseForm lenv
    | _ => throw ifTestFormError
    end
| SBOOCPSSetValueFormCont scope namespace variable lenv, OnResult result =>
    let value := primaryValue result in
    value <- match scope with
             | LEX_SCOPE => sbOnWorld (DefiniteEnv_set lenv namespace variable value)
             | DYN_SCOPE => sbSet namespace variable value
             end;;
    invokeCont (OnResult (EVLObject_ value))
| SBOOCPSForEachFunctionFormCont listForm lenv, OnResult result =>
    let fn := primaryValue result in
    if negb (instanceofEVLFunction fn) then throw forEachFunctionFormError
    else
      sbPush (SBCont (SBOOCPSForEachListFormCont fn lenv));;;
      sboocpsEvalForm listForm lenv
| SBOOCPSForEachListFormCont fn lenv, OnResult result =>
    sboocpsForEachLoop fn (primaryValue result) lenv;;;
    invokeCont (OnResult (EVLObject_ VOID_))
| SBOOCPSOperatorCont mv apply operator operands lenv, OnResult result =>
    let fn := primaryValue result in
    let macro := instanceofEVLVariable operator && isMacroClosure fn in
    sbPush (SBCont (SBOOCPSOperandsCont apply macro fn lenv));;;
    sboocpsEvalOperands mv macro operands [] lenv
| SBOOCPSOperandCont mv macro operands args lenv, OnResult result =>
    sboocpsEvalOperands mv macro (formCdr operands) (pushValues mv args result) lenv
| SBOOCPSOperandsCont apply macro fn lenv, OnArgs args =>
    sboocpsInvokeFun apply macro fn args lenv
| _, _ => throw TypeError
end.

End SBOOCPSBody.

Fixpoint sboocpsEvalForm (fuel : nat) (form : EVLObject) (lenv : DefiniteEnv)
  : M SBOOCPSState Result :=
match fuel with
| O => outOfFuel
| S fuel' => sboocpsEvalForm_ (sboocpsEvalForm fuel') (sboocpsInvoke fuel') form lenv
end
with sboocpsInvoke (fuel : nat) (k : SBOOCPSCont) (x : Invoked) : M SBOOCPSState Result :=
match fuel with
| O => outOfFuel
| S fuel' => sbInvoke_ (sboocpsEvalForm fuel') (sboocpsInvoke fuel') k x
end.

(** [sboocpsEval]: the control stack is local to the call. *)
Definition sboocpsEval (fuel : nat) (form : EVLObject) : M World Result :=
fun w =>
  match sboocpsEvalForm fuel form nullDefiniteEnv
          (mkSBOOCPSState [SBCont sboocpsEndCont] w) with
  | Ok result s => Ok result s.(sbWorld)
  | Throw e s => Throw e s.(sbWorld)
  | OutOfFuel => OutOfFuel
  end.

(** *** Trampoline evaluator *)

(** What the evaluator hands back to the driver loop: an evaluation request,
    a result, or the array of the arguments of a call. *)
Inductive Bounce : Type :=
| EvalReq (form : EVLObject) (lenv : DefiniteEnv)
| Bounced (x : Invoked).

Inductive TrampolineCont : Type :=
| TrampolineEndCont
| TrampolineButLastFormCont (forms : EVLObject) (lenv : DefiniteEnv)
| TrampolineIfTestFormCont (thenForm elseForm : EVLObject) (lenv : DefiniteEnv)
| TrampolineSetValueFormCont (scope : Scope) (namespace : Namespace) (variable : jsstring)
    (lenv : DefiniteEnv)
| TrampolineCatchErrorsTryFormCont (lenv : DefiniteEnv)
| TrampolineOperatorCont (mv apply : bool) (operator operands : EVLObject) (lenv : DefiniteEnv)
| TrampolineOperandCont (mv macro : bool) (operands : EVLObject) (args : list EVLObject)
    (lenv : DefiniteEnv)
| TrampolineOperandsCont (apply macro : bool) (fn : EVLObject) (lenv : DefiniteEnv)
| TrampolineMacroCont (lenv : DefiniteEnv).

(** An element of the control stack: a continuation, an error handler, or
    (the address of) a frame of the dynamic environment. *)
Inductive TrampolineElement : Type :=
| TCont (k : TrampolineCont)
| TErrorHandler
| TFrame (a : nat).

Record TrampolineState : Type := mkTrampolineState {
  tStack : list TrampolineElement;
  tWorld : World
}.

Definition trampolineEndCont : TrampolineCont := TrampolineEndCont.

Definition tOnWorld {A : Type} (m : M World A) : M TrampolineState A :=
fun s =>
  match m s.(tWorld) with
  | Ok a w => Ok a (mkTrampolineState s.(tStack) w)
  | Throw e w => Throw e (mkTrampolineState s.(tStack) w)
  | OutOfFuel => OutOfFuel
  end.

Definition tPush (element : TrampolineElement) : M TrampolineState unit :=
modify (fun s => mkTrampolineState (element :: s.(tStack)) s.(tWorld)).

(** [kStack.popCont()]: on an empty stack the loop does not end. *)
Fixpoint popContFrom (stack : list TrampolineElement)
  : option (TrampolineCont * list TrampolineElement) :=
match stack with
| [] => None
| TCont k :: r => Some (k, r)
| _ :: r => popContFrom r
end.

Definition tPopCont : M TrampolineState TrampolineCont :=
fun s =>
  match popContFrom s.(tStack) with
  | Some (k, r) => Ok k (mkTrampolineState r s.(tWorld))
  | None => OutOfFuel
  end.

(** The stack [kStack.handleError] leaves below the handler it finds:
    [inl] when it finds the end continuation first and rethrows, [None] when
    the loop does not end. *)
Fixpoint handlerFrom (stack : list TrampolineElement)
  : option (list TrampolineElement + list TrampolineElement) :=
match stack with
| [] => None
| TErrorHandler :: r => Some (inr r)
| TCont TrampolineEndCont :: r => Some (inl r)
| _ :: r => handlerFrom r
end.

Definition tHandleError (exception : exception) : M TrampolineState Bounce :=
fun s =>
  match handlerFrom s.(tStack) with
  | Some (inr r) =>
      Ok (Bounced (OnResult (EVLObject_ (EVLString (exception_name exception)))))
         (mkTrampolineState r s.(tWorld))
  | Some (inl r) => Throw exception (mkTrampolineState r s.(tWorld))
  | None => OutOfFuel
  end.

Fixpoint tFrames (stack : list TrampolineElement) : DefiniteEnv :=
match stack with
| [] => []
| TFrame a :: r => a :: tFrames r
| _ :: r => tFrames r
end.

Definition tRef (namespace : Namespace) (variable : jsstring) : M TrampolineState EVLObject :=
fun s => tOnWorld (DefiniteEnv_ref (tFrames s.(tStack)) namespace variable) s.

Definition tSet (namespace : Namespace) (variable : jsstring) (value : EVLObject)
  : M TrampolineState EVLObject :=
fun s => tOnWorld (DefiniteEnv_set (tFrames s.(tStack)) namespace variable value) s.

Definition bounceObject (o : EVLObject) : Bounce := Bounced (OnResult (EVLObject_ o)).

Definition trampolineEvalQuote (form : EVLObject) (lenv : DefiniteEnv)
  : M TrampolineState Bounce :=
literal <- liftE (analyzeQuote form);;
ret (bounceObject literal).

Definition trampolineEvalForms (forms : EVLObject) (lenv : DefiniteEnv)
  : M TrampolineState Bounce :=
match forms with
| EVLEmptyList => ret (bounceObject VOID_)
| EVLCons car EVLEmptyList => ret (EvalReq car lenv)
| EVLCons car cdr =>
    tPush (TCont (TrampolineButLastFormCont forms lenv));;;
    ret (EvalReq car lenv)
| _ => throw TypeError
end.

Definition trampolineEvalProgn (form : EVLObject) (lenv : DefiniteEnv)
  : M TrampolineState Bounce :=
forms <- liftE (analyzeProgn form);;
trampolineEvalForms forms lenv.

Definition trampolineEvalIf (form : EVLObject) (lenv : DefiniteEnv)
  : M TrampolineState Bounce :=
parts <- liftE (analyzeIf form);;
let '(testForm, thenForm, elseForm) := parts in
tPush (TCont (TrampolineIfTestFormCont thenForm elseForm lenv));;;
ret (EvalReq testForm lenv).

Definition trampolineEvalLambda (scope : Scope) (namespace : Namespace) (macro : bool)
  (form : EVLObject) (lenv : DefiniteEnv) : M TrampolineState Bounce :=
parts <- liftE (analyzeLambda form);;
let '(parameters, rest, forms) := parts in
ret (bounceObject (EVLClosure scope namespace macro parameters rest forms lenv)).

Definition trampolineEvalRef (scope : Scope) (namespace : Namespace) (form : EVLObject)
  (lenv : DefiniteEnv) : M TrampolineState Bounce :=
variable <- liftE (analyzeRef form);;
value <- match scope with
         | LEX_SCOPE => tOnWorld (DefiniteEnv_ref lenv namespace variable)
         | DYN_SCOPE => tRef namespace variable
         end;;
ret (bounceObject value).

Definition trampolineEvalSet (scope : Scope) (namespace : Namespace) (form : EVLObject)
  (lenv : DefiniteEnv) : M TrampolineState Bounce :=
parts <- liftE (analyzeSet form);;
let '(variable, valueForm) := parts in
tPush (TCont (TrampolineSetValueFormCont scope namespace variable lenv));;;
ret (EvalReq valueForm lenv).

Definition trampolineEvalCatchErrors (form : EVLObject) (lenv : DefiniteEnv)
  : M TrampolineState Bounce :=
tryForm <- liftE (analyzeCatchErrors form);;
tPush TErrorHandler;;;
tPush (TCont (TrampolineCatchErrorsTryFormCont lenv));;;
ret (EvalReq tryForm lenv).

Definition trampolineEvalOperator (operator : EVLObject) (lenv : DefiniteEnv)
  : M TrampolineState Bounce :=
match operator with
| EVLVariable name =>
    value <- tOnWorld (DefiniteEnv_ref lenv FUN_NS name);; ret (bounceObject value)
| _ => ret (EvalReq operator lenv)
end.

Definition trampolineEvalCall (mv apply : bool) (form : EVLObject) (lenv : DefiniteEnv)
  : M TrampolineState Bounce :=
parts <- liftE (analyzeCall mv apply form);;
let '(operator, operands) := parts in
tPush (TCont (TrampolineOperatorCont mv apply operator operands lenv));;;
trampolineEvalOperator operator lenv.

Fixpoint trampolineEvalOperands (mv macro : bool) (operands : EVLObject)
  (args : list EVLObject) (lenv : DefiniteEnv) : M TrampolineState Bounce :=
match operands with
| EVLEmptyList => ret (Bounced (OnArgs args))
| EVLCons car cdr =>
    if macro
    then trampolineEvalOperands mv macro cdr (args ++ [car]) lenv
    else
      tPush (TCont (TrampolineOperandCont mv macro operands args lenv));;;
      ret (EvalReq car lenv)
| _ => throw TypeError
end.

Definition trampolineInvokeFun (apply macro : bool) (fn : EVLObject) (args : list EVLObject)
  (lenv : DefiniteEnv) : M TrampolineState Bounce :=
match fn with
| EVLPrimitiveFunction arityMin arityMax name =>
    values <- liftE (pairPrimFunParameters apply args arityMin arityMax);;
    result <- tOnWorld (callJsFunction name values);;
    ret (Bounced (OnResult result))
| EVLClosure scope namespace _ parameters rest forms fnlenv =>
    values <- liftE (pairClosureParameters apply args parameters rest);;
    match scope with
    | LEX_SCOPE =>
        a <- tOnWorld (newFrame namespace parameters values);;
        let elenv := a :: fnlenv in
        (if macro then tPush (TCont (TrampolineMacroCont lenv)) else ret tt);;;
        trampolineEvalForms forms elenv
    | DYN_SCOPE =>
        a <- tOnWorld (newFrame namespace parameters values);;
        tPush (TFrame a);;;
        trampolineEvalForms forms fnlenv
    end
| _ => throw callOperatorFormError
end.

Definition trampolineEvalForm (form : EVLObject) (lenv : DefiniteEnv)
  : M TrampolineState Bounce :=
match form with
| EVLEmptyList => throw emptyListError
| EVLCons car _ =>
    match specialOperator car with
    | SO_quote => trampolineEvalQuote form lenv
    | SO_progn => trampolineEvalProgn form lenv
    | SO_if => trampolineEvalIf form lenv
    | SO_lambda scope namespace macro => trampolineEvalLambda scope namespace macro form lenv
    | SO_ref scope namespace => trampolineEvalRef scope namespace form lenv
    | SO_set scope namespace => trampolineEvalSet scope namespace form lenv
    | SO_forEach => throw forEachNotImplemented
    | SO_catchErrors => trampolineEvalCatchErrors form lenv
    | SO_call mv apply => trampolineEvalCall mv apply form lenv
    end
| EVLVariable name =>
    value <- tOnWorld (DefiniteEnv_ref lenv VAL_NS name);; ret (bounceObject value)
| _ => ret (bounceObject form)
end.

(** The [invoke] methods of the continuation classes.  The end continuation
    has none. *)
Definition trampolineInvoke (k : TrampolineCont) (x : Invoked) : M TrampolineState Bounce :=
match k, x with
| TrampolineButLastFormCont forms lenv, _ => trampolineEvalForms (formCdr forms) lenv
| TrampolineIfTestFormCont thenForm elseForm lenv, OnResult result =>
    match primaryValue result with
    | EVLBoolean true => ret (EvalReq thenForm lenv)
    | EVLBoolean false => ret (EvalReq elseForm lenv)
    | _ => throw ifTestFormError
    end
| TrampolineSetValueFormCont scope namespace variable lenv, OnResult result =>
    let value := primaryValue result in
    value <- match scope with
             | LEX_SCOPE => tOnWorld (DefiniteEnv_set lenv namespace variable value)
             | DYN_SCOPE => tSet namespace variable value
             end;;
    ret (bounceObject value)
| TrampolineCatchErrorsTryFormCont lenv, _ => ret (bounceObject VOID_)
| TrampolineOperatorCont mv apply operator operands lenv, OnResult result =>
    let fn := primaryValue result in
    let macro := instanceofEVLVariable operator && isMacroClosure fn in
    tPush (TCont (TrampolineOperandsCont apply macro fn lenv));;;
    trampolineEvalOperands mv macro operands [] lenv
| TrampolineOperandCont mv macro operands args lenv, OnResult result =>
    trampolineEvalOperands mv macro (formCdr operands) (pushValues mv args result) lenv
| TrampolineOperandsCont apply macro fn lenv, OnArgs args =>
    trampolineInvokeFun apply macro fn args lenv
| TrampolineMacroCont lenv, OnResult result =>
    let expansion := primaryValue result in
    ret (EvalReq expansion lenv)
| _, _ => throw TypeError
end.

(** [try { m } catch (exception) { bounce = kStack.handleError(exception) }] *)
Definition tCatching (m : M TrampolineState Bounce) : M TrampolineState Bounce :=
fun s =>
  match m s with
  | Ok b s' => Ok b s'
  | Throw exception s' => tHandleError exception s'
  | OutOfFuel => OutOfFuel
  end.

(** The driver loop of [trampolineEval]: one unit of fuel per iteration. *)
Fixpoint trampolineLoop (fuel : nat) (bounce : Bounce) : M TrampolineState Result :=
match fuel with
| O => outOfFuel
| S fuel' =>
    aborted <- tOnWorld abortRequested;;
    if aborted then throw Aborted
    else
      match bounce with
      | EvalReq form lenv =>
          bounce <- tCatching (trampolineEvalForm form lenv);;
          trampolineLoop fuel' bounce
      | Bounced x =>
          k <- tPopCont;;
          match k with
          | TrampolineEndCont =>
              match x with
              | OnResult result => ret result
              | OnArgs _ => throw TypeError
              end
          | _ =>
              bounce <- tCatching (trampolineInvoke k x);;
              trampolineLoop fuel' bounce
          end
      end
end.

(** [trampolineEval]: the control stack is local to the call. *)
Definition trampolineEval (fuel : nat) (form : EVLObject) : M World Result :=
fun w =>
  match trampolineLoop fuel (EvalReq form nullDefiniteEnv)
          (mkTrampolineState [TCont trampolineEndCont] w) with
  | Ok result s => Ok result s.(tWorld)
  | Throw e s => Throw e s.(tWorld)
  | OutOfFuel => OutOfFuel
  end.

(** *** Trampoline++ evaluator *)

Inductive TrampolineppCont : Type :=
| TrampolineppEndCont
| TrampolineppButLastFormCont (forms : EVLObject) (lenv : DefiniteEnv)
| TrampolineppIfTestFormCont (thenForm elseForm : TrampolineppForm) (lenv : DefiniteEnv)
| TrampolineppSetValueFormCont (scope : Scope) (namespace : Namespace) (variable : jsstring)
    (lenv : DefiniteEnv)
| TrampolineppLSetValueFormCont (i j : nat) (lenv : DefiniteEnv)
| TrampolineppGSetValueFormCont (namespace : Namespace) (variable : jsstring)
    (lenv : DefiniteEnv)
| TrampolineppDSetValueFormCont (namespace : Namespace) (variable : jsstring)
    (lenv : DefiniteEnv)
| TrampolineppCatchErrorsTryFormCont (lenv : DefiniteEnv)
| TrampolineppOperatorCont (mv apply : bool) (operands : EVLObject) (lenv : DefiniteEnv)
| TrampolineppOperandCont (mv : bool) (operands : EVLObject) (args : list EVLObject)
    (lenv : DefiniteEnv)
| TrampolineppOperandsCont (apply : bool) (fn : EVLObject) (lenv : DefiniteEnv).

Inductive TrampolineppElement : Type :=
| PPCont (k : TrampolineppCont)
| PPErrorHandler
| PPFrame (a : nat).

Record TrampolineppState : Type := mkTrampolineppState {
  ppStack : list TrampolineppElement;
  ppWorld : World
}.

Definition trampolineppEndCont : TrampolineppCont := TrampolineppEndCont.

Definition ppOnWorld {A : Type} (m : M World A) : M TrampolineppState A :=
fun s =>
  match m s.(ppWorld) with
  | Ok a w => Ok a (mkTrampolineppState s.(ppStack) w)
  | Throw e w => Throw e (mkTrampolineppState s.(ppStack) w)
  | OutOfFuel => OutOfFuel
  end.

Definition ppPush (element : TrampolineppElement) : M TrampolineppState unit :=
modify (fun s => mkTrampolineppState (element :: s.(ppStack)) s.(ppWorld)).

Fixpoint ppPopContFrom (stack : list TrampolineppElement)
  : option (TrampolineppCont * list TrampolineppElement) :=
match stack with
| [] => None
| PPCont k :: r => Some (k, r)
| _ :: r => ppPopContFrom r
end.

Definition ppPopCont : M TrampolineppState TrampolineppCont :=
fun s =>
  match ppPopContFrom s.(ppStack) with
  | Some (k, r) => Ok k (mkTrampolineppState r s.(ppWorld))
  | None => OutOfFuel
  end.

Fixpoint ppHandlerFrom (stack : list TrampolineppElement)
  : option (list TrampolineppElement + list TrampolineppElement) :=
match stack with
| [] => None
| PPErrorHandler :: r => Some (inr r)
| PPCont TrampolineppEndCont :: r => Some (inl r)
| _ :: r => ppHandlerFrom r
end.

Definition ppHandleError (exception : exception) : M TrampolineppState Bounce :=
fun s =>
  match ppHandlerFrom s.(ppStack) with
  | Some (inr r) =>
      Ok (Bounced (OnResult (EVLObject_ (EVLString (exception_name exception)))))
         (mkTrampolineppState r s.(ppWorld))
  | Some (inl r) => Throw exception (mkTrampolineppState r s.(ppWorld))
  | None => OutOfFuel
  end.

Fixpoint ppFrames (stack : list TrampolineppElement) : DefiniteEnv :=
match stack with
| [] => []
| PPFrame a :: r => a :: ppFrames r
| _ :: r => ppFrames r
end.

Definition ppRef (namespace : Namespace) (variable : jsstring)
  : M TrampolineppState EVLObject :=
fun s => ppOnWorld (DefiniteEnv_ref (ppFrames s.(ppStack)) namespace variable) s.

Definition ppSet (namespace : Namespace) (variable : jsstring) (value : EVLObject)
  : M TrampolineppState EVLObject :=
fun s => ppOnWorld (DefiniteEnv_set (ppFrames s.(ppStack)) namespace variable value) s.

(** [frame = lenv; for (n = i; n > 0; n--) frame = frame.next]: the address
    of the frame. *)
Definition frameAt (lenv : DefiniteEnv) (i : nat) : M World nat :=
match nth_error lenv i with
| Some a => ret a
| None => throw TypeError
end.

Definition trampolineppEvalForms (forms : EVLObject) (lenv : DefiniteEnv)
  : M TrampolineppState Bounce :=
match forms with
| EVLEmptyList => ret (bounceObject VOID_)
| EVLCons car EVLEmptyList => ret (EvalReq car lenv)
| EVLCons car cdr =>
    ppPush (PPCont (TrampolineppButLastFormCont forms lenv));;;
    ret (EvalReq car lenv)
| _ => throw TypeError
end.

Definition trampolineppEvalOperator (operator : TrampolineppForm) (lenv : DefiniteEnv)
  : M TrampolineppState Bounce :=
ret (EvalReq (TrampolineppNode operator) lenv).

Definition trampolineppEvalOperands (mv : bool) (operands : EVLObject) (args : list EVLObject)
  (lenv : DefiniteEnv) : M TrampolineppState Bounce :=
match operands with
| EVLEmptyList => ret (Bounced (OnArgs args))
| EVLCons car _ =>
    ppPush (PPCont (TrampolineppOperandCont mv operands args lenv));;;
    ret (EvalReq car lenv)
| _ => throw TypeError
end.

Definition trampolineppInvokeFun (apply : bool) (fn : EVLObject) (args : list EVLObject)
  (lenv : DefiniteEnv) : M TrampolineppState Bounce :=
match fn with
| EVLPrimitiveFunction arityMin arityMax name =>
    values <- liftE (pairPrimFunParameters apply args arityMin arityMax);;
    result <- ppOnWorld (callJsFunction name values);;
    ret (Bounced (OnResult result))
| EVLClosure scope namespace _ parameters rest forms fnlenv =>
    values <- liftE (pairClosureParameters apply args parameters rest);;
    match scope with
    | LEX_SCOPE =>
        a <- ppOnWorld (newFrame namespace parameters values);;
        let elenv := a :: fnlenv in
        trampolineppEvalForms forms elenv
    | DYN_SCOPE =>
        a <- ppOnWorld (newFrame namespace parameters values);;
        ppPush (PPFrame a);;;
        trampolineppEvalForms forms fnlenv
    end
| _ => throw callOperatorFormError
end.

(** The [eval] methods of the preprocessed forms. *)
Definition trampolineppFormEval (form : TrampolineppForm) (lenv : DefiniteEnv)
  : M TrampolineppState Bounce :=
match form with
| TrampolineppQuote literal => ret (bounceObject literal)
| TrampolineppProgn forms => trampolineppEvalForms forms lenv
| TrampolineppIf testForm thenForm elseForm =>
    ppPush (PPCont (TrampolineppIfTestFormCont thenForm elseForm lenv));;;
    ret (EvalReq (TrampolineppNode testForm) lenv)
| TrampolineppLambda scope namespace macro parameters rest forms =>
    ret (bounceObject (EVLClosure scope namespace macro parameters rest forms lenv))
| TrampolineppRef scope namespace variable =>
    value <- match scope with
             | LEX_SCOPE => ppOnWorld (DefiniteEnv_ref lenv namespace variable)
             | DYN_SCOPE => ppRef namespace variable
             end;;
    ret (bounceObject value)
| TrampolineppLRef i j =>
    value <- ppOnWorld (a <- frameAt lenv i;; frameValue a j);;
    ret (bounceObject value)
| TrampolineppGRef namespace variable =>
    value <- ppOnWorld (GlobalEnv_ref namespace variable);;
    ret (bounceObject value)
| TrampolineppDRef namespace variable =>
    value <- ppRef namespace variable;;
    ret (bounceObject value)
| TrampolineppSet scope namespace variable valueForm =>
    ppPush (PPCont (TrampolineppSetValueFormCont scope namespace variable lenv));;;
    ret (EvalReq (TrampolineppNode valueForm) lenv)
| TrampolineppLSet i j valueForm =>
    ppPush (PPCont (TrampolineppLSetValueFormCont i j lenv));;;
    ret (EvalReq (TrampolineppNode valueForm) lenv)
| TrampolineppGSet namespace variable valueForm =>
    ppPush (PPCont (TrampolineppGSetValueFormCont namespace variable lenv));;;
    ret (EvalReq (TrampolineppNode valueForm) lenv)
| TrampolineppDSet namespace variable valueForm =>
    ppPush (PPCont (TrampolineppDSetValueFormCont namespace variable lenv));;;
    ret (EvalReq (TrampolineppNode valueForm) lenv)
| TrampolineppForEach _ _ => throw forEachNotImplemented
| TrampolineppCatchErrors tryForm =>
    ppPush PPErrorHandler;;;
    ppPush (PPCont (TrampolineppCatchErrorsTryFormCont lenv));;;
    ret (EvalReq (TrampolineppNode tryForm) lenv)
| TrampolineppCall mv apply operator operands =>
    ppPush (PPCont (TrampolineppOperatorCont mv apply operands lenv));;;
    trampolineppEvalOperator operator lenv
end.

(** [bounce.form.eval(bounce.lenv, kStack)]: only a preprocessed form has an
    [eval] method. *)
Definition trampolineppEvalReq (form : EVLObject) (lenv : DefiniteEnv)
  : M TrampolineppState Bounce :=
match form with
| TrampolineppNode node => trampolineppFormEval node lenv
| _ => throw TypeError
end.

Definition trampolineppInvoke (k : TrampolineppCont) (x : Invoked)
  : M TrampolineppState Bounce :=
match k, x with
| TrampolineppButLastFormCont forms lenv, _ => trampolineppEvalForms (formCdr forms) lenv
| TrampolineppIfTestFormCont thenForm elseForm lenv, OnResult result =>
    match primaryValue result with
    | EVLBoolean true => ret (EvalReq (TrampolineppNode thenForm) lenv)
    | EVLBoolean false => ret (EvalReq (TrampolineppNode elseForm) lenv)
    | _ => throw ifTestFormError
    end
| TrampolineppSetValueFormCont scope namespace variable lenv, OnResult result =>
    let value := primaryValue result in
    value <- match scope with
             | LEX_SCOPE => ppOnWorld (DefiniteEnv_set lenv namespace variable value)
             | DYN_SCOPE => ppSet namespace variable value
             end;;
    ret (bounceObject value)
| TrampolineppLSetValueFormCont i j lenv, OnResult result =>
    let value := primaryValue result in
    value <- ppOnWorld (a <- frameAt lenv i;; setFrameValue a j value);;
    ret (bounceObject value)
| TrampolineppGSetValueFormCont namespace variable lenv, OnResult result =>
    let value := primaryValue result in
    value <- ppOnWorld (GlobalEnv_set namespace variable value);;
    ret (bounceObject value)
| TrampolineppDSetValueFormCont namespace variable lenv, OnResult result =>
    let value := primaryValue result in
    value <- ppSet namespace variable value;;
    ret (bounceObject value)
| TrampolineppCatchErrorsTryFormCont lenv, _ => ret (bounceObject VOID_)
| TrampolineppOperatorCont mv apply operands lenv, OnResult result =>
    let fn := primaryValue result in
    ppPush (PPCont (TrampolineppOperandsCont apply fn lenv));;;
    trampolineppEvalOperands mv operands [] lenv
| TrampolineppOperandCont mv operands args lenv, OnResult result =>
    trampolineppEvalOperands mv (formCdr operands) (pushValues mv args result) lenv
| TrampolineppOperandsCont apply fn lenv, OnArgs args =>
    trampolineppInvokeFun apply fn args lenv
| _, _ => throw TypeError
end.

Definition ppCatching (m : M TrampolineppState Bounce) : M TrampolineppState Bounce :=
fun s =>
  match m s with
  | Ok b s' => Ok b s'
  | Throw exception s' => ppHandleError exception s'
  | OutOfFuel => OutOfFuel
  end.

(** The driver loop of [trampolineppEval]. *)
Fixpoint trampolineppLoop (fuel : nat) (bounce : Bounce) : M TrampolineppState Result :=
match fuel with
| O => outOfFuel
| S fuel' =>
    aborted <- ppOnWorld abortRequested;;
    if aborted then throw Aborted
    else
      match bounce with
      | EvalReq form lenv =>
          bounce <- ppCatching (trampolineppEvalReq form lenv);;
          trampolineppLoop fuel' bounce
      | Bounced x =>
          k <- ppPopCont;;
          match k with
          | TrampolineppEndCont =>
              match x with
              | OnResult result => ret result
              | OnArgs _ => throw TypeError
              end
          | _ =>
              bounce <- ppCatching (trampolineppInvoke k x);;
              trampolineppLoop fuel' bounce
          end
      end
end.

(** [trampolineppEval(form, lenv)] on a preprocessed form. *)
Definition trampolineppRun (fuel : nat) (form : TrampolineppForm) (lenv : DefiniteEnv)
  : M World Result :=
fun w =>
  match trampolineppLoop fuel (EvalReq (TrampolineppNode form) lenv)
          (mkTrampolineppState [PPCont trampolineppEndCont] w) with
  | Ok result s => Ok result s.(ppWorld)
  | Throw e s => Throw e s.(ppWorld)
  | OutOfFuel => OutOfFuel
  end.

(** The frames of the lexical environment of the preprocessor: the
    variables of a frame, and its values ([None] is [null]). *)
Record CompileFrame : Type := mkCompileFrame {
  cNamespace : Namespace;
  cVariables : list jsstring;
  cValues : list (option EVLObject)
}.

Definition CompileEnv := list CompileFrame.

(** [lenv.preprocessorRef(namespace, variable, i)]: [[i, j, value]], or
    [[null, null, value]] from the global environment. *)
Fixpoint preprocessorRef (lenv : CompileEnv) (namespace : Namespace) (variable : jsstring)
  (i : nat) (w : World) : option (nat * nat) * option EVLObject :=
match lenv with
| [] => (None, GlobalEnv_preprocessorRef namespace variable w)
| f :: next =>
    match (if Namespace_eqb f.(cNamespace) namespace
           then indexOfVariable variable f.(cVariables) else None) with
    | Some j => (Some (i, j), nth j f.(cValues) None)
    | None => preprocessorRef next namespace variable (S i) w
    end
end.

Definition optimizeLexicalVariables : bool := true.

Definition trampolineppPreprocessRef2 (scope : Scope) (namespace : Namespace)
  (variable : jsstring) (lenv : CompileEnv) : M World TrampolineppForm :=
if negb optimizeLexicalVariables then ret (TrampolineppRef scope namespace variable)
else
  match scope with
  | LEX_SCOPE =>
      w <- get;;
      match fst (preprocessorRef lenv namespace variable 0 w) with
      | Some (i, j) => ret (TrampolineppLRef i j)
      | None => ret (TrampolineppGRef namespace variable)
      end
  | DYN_SCOPE => ret (TrampolineppDRef namespace variable)
  end.

(** [isMacroLet(operator, operands)]; on operands that are not a proper
    list the loop reads [car] of a non-list. *)
Fixpoint allMlambda (operands : EVLObject) : exception + bool :=
match operands with
| EVLEmptyList => inr true
| EVLCons operand rest =>
    match operand with
    | EVLCons car _ => if isVariableNamed car mlambdaVariable then allMlambda rest else inr false
    | _ => inr false
    end
| _ => inl TypeError
end.

Definition isMacroLet (operator operands : EVLObject) : exception + bool :=
match operator with
| EVLCons car _ =>
    if negb (isVariableNamed car _flambdaVariable) then inr false
    else allMlambda operands
| _ => inr false
end.

(** [preprocessedOperand.eval(nullDefiniteEnv, null)]: the value, [None]
    when the method returns an evaluation request. *)
Definition evalWithoutStack (preprocessedOperand : EVLObject) : M World (option EVLObject) :=
match preprocessedOperand with
| TrampolineppNode (TrampolineppQuote literal) => ret (Some literal)
| TrampolineppNode (TrampolineppProgn EVLEmptyList) => ret (Some VOID_)
| TrampolineppNode (TrampolineppProgn (EVLCons _ EVLEmptyList)) => ret None
| TrampolineppNode (TrampolineppLambda scope namespace macro parameters rest forms) =>
    ret (Some (EVLClosure scope namespace macro parameters rest forms nullDefiniteEnv))
| TrampolineppNode (TrampolineppRef LEX_SCOPE namespace variable)
| TrampolineppNode (TrampolineppGRef namespace variable) =>
    value <- GlobalEnv_ref namespace variable;; ret (Some value)
| _ => throw TypeError
end.

Fixpoint mapM {S A B : Type} (f : A -> M S B) (l : list A) : M S (list B) :=
match l with
| [] => ret []
| x :: r => y <- f x;; ys <- mapM f r;; ret (y :: ys)
end.

Section TrampolineppPreprocessBody.

(** [trampolineppPreprocessForm], one call deeper, and the fuel of the
    evaluations of the preprocessor. *)
Variable trampolineppPreprocessForm : EVLObject -> CompileEnv -> M World TrampolineppForm.
Variable fuel : nat.

Fixpoint trampolineppPreprocessForms (forms : EVLObject) (lenv : CompileEnv)
  : M World EVLObject :=
match forms with
| EVLEmptyList => ret NIL
| EVLCons car cdr =>
    car' <- trampolineppPreprocessForm car lenv;;
    cdr' <- trampolineppPreprocessForms cdr lenv;;
    ret (EVLCons (TrampolineppNode car') cdr')
| _ => throw TypeError
end.

Definition trampolineppPreprocessQuote (form : EVLObject) (lenv : CompileEnv)
  : M World TrampolineppForm :=
literal <- liftE (analyzeQuote form);;
ret (TrampolineppQuote literal).

Definition trampolineppPreprocessProgn (form : EVLObject) (lenv : CompileEnv)
  : M World TrampolineppForm :=
forms <- liftE (analyzeProgn form);;
preprocessedForms <- trampolineppPreprocessForms forms lenv;;
ret (TrampolineppProgn preprocessedForms).

Definition trampolineppPreprocessIf (form : EVLObject) (lenv : CompileEnv)
  : M World TrampolineppForm :=
parts <- liftE (analyzeIf form);;
let '(testForm, thenForm, elseForm) := parts in
preprocessedTestForm <- trampolineppPreprocessForm testForm lenv;;
preprocessedThenForm <- trampolineppPreprocessForm thenForm lenv;;
preprocessedElseForm <- trampolineppPreprocessForm elseForm lenv;;
ret (TrampolineppIf preprocessedTestForm preprocessedThenForm preprocessedElseForm).

Definition trampolineppPreprocessLambda (scope : Scope) (namespace : Namespace) (macro : bool)
  (form : EVLObject) (lenv : CompileEnv) : M World TrampolineppForm :=
parts <- liftE (analyzeLambda form);;
let '(parameters, rest, forms) := parts in
match scope with
| LEX_SCOPE =>
    let elenv :=
      mkCompileFrame namespace parameters (repeat None (length parameters)) :: lenv in
    preprocessedForms <- trampolineppPreprocessForms forms elenv;;
    ret (TrampolineppLambda scope namespace macro parameters rest preprocessedForms)
| DYN_SCOPE =>
    preprocessedForms <- trampolineppPreprocessForms forms lenv;;
    ret (TrampolineppLambda scope namespace macro parameters rest preprocessedForms)
end.

Definition trampolineppPreprocessRef (scope : Scope) (namespace : Namespace)
  (form : EVLObject) (lenv : CompileEnv) : M World TrampolineppForm :=
variable <- liftE (analyzeRef form);;
trampolineppPreprocessRef2 scope namespace variable lenv.

Definition trampolineppPreprocessSet (scope : Scope) (namespace : Namespace)
  (form : EVLObject) (lenv : CompileEnv) : M World TrampolineppForm :=
parts <- liftE (analyzeSet form);;
let '(variable, valueForm) := parts in
preprocessedValueForm <- trampolineppPreprocessForm valueForm lenv;;
if negb optimizeLexicalVariables
then ret (TrampolineppSet scope namespace variable preprocessedValueForm)
else
  match scope with
  | LEX_SCOPE =>
      w <- get;;
      match fst (preprocessorRef lenv namespace variable 0 w) with
      | Some (i, j) => ret (TrampolineppLSet i j preprocessedValueForm)
      | None => ret (TrampolineppGSet namespace variable preprocessedValueForm)
      end
  | DYN_SCOPE => ret (TrampolineppDSet namespace variable preprocessedValueForm)
  end.

Definition trampolineppPreprocessForEach (form : EVLObject) (lenv : CompileEnv)
  : M World TrampolineppForm :=
parts <- liftE (analyzeForEach form);;
let '(functionForm, listForm) := parts in
preprocessedFunctionForm <- trampolineppPreprocessForm functionForm lenv;;
preprocessedListForm <- trampolineppPreprocessForm listForm lenv;;
ret (TrampolineppForEach preprocessedFunctionForm preprocessedListForm).

Definition trampolineppPreprocessCatchErrors (form : EVLObject) (lenv : CompileEnv)
  : M World TrampolineppForm :=
tryForm <- liftE (analyzeCatchErrors form);;
preprocessedTryForm <- trampolineppPreprocessForm tryForm lenv;;
ret (TrampolineppCatchErrors preprocessedTryForm).

Definition trampolineppPreprocessCall (mv apply : bool) (form : EVLObject) (lenv : CompileEnv)
  : M World TrampolineppForm :=
parts <- liftE (analyzeCall mv apply form);;
let '(operator, operands) := parts in
match operator with
| EVLVariable name =>
    w <- get;;
    match snd (preprocessorRef lenv FUN_NS name 0 w) with
    | Some (EVLClosure _ fnNamespace true fnParameters fnRest fnForms fnLenv) =>
        args <- liftE (listToArray operands);;
        values <- liftE (pairClosureParameters false args fnParameters fnRest);;
        a <- newFrame fnNamespace fnParameters values;;
        let elenv := a :: fnLenv in
        result <- trampolineppRun fuel (TrampolineppProgn fnForms) elenv;;
        let expansion := primaryValue result in
        trampolineppPreprocessForm expansion lenv
    | _ =>
        preprocessedOperator <- trampolineppPreprocessRef2 LEX_SCOPE FUN_NS name lenv;;
        preprocessedOperands <- trampolineppPreprocessForms operands lenv;;
        ret (TrampolineppCall mv apply preprocessedOperator preprocessedOperands)
    end
| _ =>
    macroLet <- liftE (isMacroLet operator operands);;
    if macroLet
    then
      preprocessedOperands <- trampolineppPreprocessForms operands lenv;;
      parts <- liftE (analyzeLambda operator);;
      let '(parameters, rest, forms) := parts in
      array <- liftE (listToArray preprocessedOperands);;
      values <- mapM evalWithoutStack array;;
      let elenv := mkCompileFrame FUN_NS parameters values :: lenv in
      preprocessedForms <- trampolineppPreprocessForms forms elenv;;
      let preprocessedOperator :=
        TrampolineppLambda LEX_SCOPE FUN_NS false parameters rest preprocessedForms in
      ret (TrampolineppCall mv apply preprocessedOperator preprocessedOperands)
    else
      preprocessedOperator <- trampolineppPreprocessForm operator lenv;;
      preprocessedOperands <- trampolineppPreprocessForms operands lenv;;
      ret (TrampolineppCall mv apply preprocessedOperator preprocessedOperands)
end.

(** The body of [trampolineppPreprocessForm]. *)
Definition trampolineppPreprocessForm_ (form : EVLObject) (lenv : CompileEnv)
  : M World TrampolineppForm :=
match form with
| EVLEmptyList => throw emptyListError
| EVLCons car _ =>
    match specialOperator car with
    | SO_quote => trampolineppPreprocessQuote form lenv
    | SO_progn => trampolineppPreprocessProgn form lenv
    | SO_if => trampolineppPreprocessIf form lenv
    | SO_lambda scope namespace macro =>
        trampolineppPreprocessLambda scope namespace macro form lenv
    | SO_ref scope namespace => trampolineppPreprocessRef scope namespace form lenv
    | SO_set scope namespace => trampolineppPreprocessSet scope namespace form lenv
    | SO_forEach => trampolineppPreprocessForEach form lenv
    | SO_catchErrors => trampolineppPreprocessCatchErrors form lenv
    | SO_call mv apply => trampolineppPreprocessCall mv apply form lenv
    end
| EVLVariable name => trampolineppPreprocessRef2 LEX_SCOPE VAL_NS name lenv
| _ => ret (TrampolineppQuote form)
end.

End TrampolineppPreprocessBody.

Fixpoint trampolineppPreprocessForm (fuel : nat) (form : EVLObject) (lenv : CompileEnv)
  : M World TrampolineppForm :=
match fuel with
| O => outOfFuel
| S fuel' => trampolineppPreprocessForm_ (trampolineppPreprocessForm fuel') fuel' form lenv
end.

(** [trampolineppEval(form)]: preprocessing, then the driver loop. *)
Definition trampolineppEval (fuel : nat) (form : EVLObject) : M World Result :=
node <- trampolineppPreprocessForm fuel form [];;
trampolineppRun fuel node nullDefiniteEnv.

(** *** The selected evaluator *)

Definition genericEval (fuel : nat) (form : EVLObject) : M World Result :=
fun w =>
  let e := w.(selectedEvaluator) in
  if jseqb e (js "plainrec") then plainrecEval fuel form w
  else if jseqb e (js "cps") then cpsEval fuel form w
  else if jseqb e (js "oocps") then oocpsEval fuel form w
  else if jseqb e (js "sboocps") then sboocpsEval fuel form w
  else if jseqb e (js "trampoline") then trampolineEval fuel form w
  else if jseqb e (js "trampolinepp") then trampolineppEval fuel form w
  else Throw (CannotHappen (js "genericEval")) w.

(** ** Interface (IDE) *)

Definition FOUND_NO_FORM : Z := 0%Z.
Definition SUCCESS : Z := 1%Z.
Definition ERROR : Z := 2%Z.
Definition ABORTED : Z := 3%Z.
Definition TERMINATED : Z := 4%Z.

Inductive Output : Type :=
| NoOutput
| OutputStrings (strings : list jsstring)
| OutputString (string : jsstring).

Record Response : Type := mkResponse {
  status : Z;
  output : Output
}.

Definition foundNoForm : Response := mkResponse FOUND_NO_FORM NoOutput.

Definition success (output : Output) : Response := mkResponse SUCCESS output.

Definition abortedOrError (exception : exception) : Response :=
if instanceofAborted exception then mkResponse ABORTED NoOutput
else mkResponse ERROR (OutputString (exception_message exception)).

(** [result.allValues().map(object => object.toString())] *)
Definition stringify (result : Result) : Output :=
OutputStrings (map toString (allValues result)).

Definition initializeFeatureList (features : list jsstring) : M World unit :=
GlobalEnv_set VAL_NS (js "*features*") (makeList (map internVariable features) NIL);;;
ret tt.

(** The [while (true)] loop of [initialize] and [evaluateAllForms] over one
    tokenizer: the response to return, or [None] at the end of the text. *)
Fixpoint evaluateForms_loop (fuel : nat) : M Reading (option Response) :=
match fuel with
| O => outOfFuel
| S fuel' =>
    fun r =>
      match read fuel' r with
      | Throw exception r' => Ok (Some (abortedOrError exception)) r'
      | OutOfFuel => OutOfFuel
      | Ok None r' => Ok None r'
      | Ok (Some object) r' =>
          match genericEval fuel' object r'.(world) with
          | Throw exception w => Ok (Some (abortedOrError exception))
                                    (mkReading r'.(tokenizer) w r'.(lastResult))
          | OutOfFuel => OutOfFuel
          | Ok result w =>
              evaluateForms_loop fuel' (mkReading r'.(tokenizer) w result)
          end
      end
end.

Record InitializeInput : Type := mkInitializeInput {
  abortSignalBuffer : Z;
  inputSelectedEvaluator : jsstring;
  evlFiles : list jsstring
}.

(** The [for] loop of [initialize] over the files. *)
Fixpoint initialize_files (fuel : nat) (files : list jsstring) (last : Result)
  : M World Response :=
match files with
| [] => ret (success (stringify last))
| evlFile :: rest =>
    fun w =>
      let tokenizer := setCallback (Some (genericEval fuel)) (newTokenizer evlFile false) in
      match evaluateForms_loop fuel (mkReading tokenizer w last) with
      | Ok (Some response) r => Ok response r.(world)
      | Ok None r => initialize_files fuel rest r.(lastResult) r.(world)
      | Throw e r => Throw e r.(world)
      | OutOfFuel => OutOfFuel
      end
end.

Definition initialize (fuel : nat) (input : InitializeInput) : M World Response :=
modify (fun w => setSelectedEvaluator input.(inputSelectedEvaluator)
                   (setAbort (Some input.(abortSignalBuffer)) w.(clock) w));;;
initializeFeatureList [input.(inputSelectedEvaluator)];;;
initialize_files fuel input.(evlFiles) (EVLObject_ VOID_).

(** [if (abortSignalArray !== null) { abortSignalArray[0] = 0; }] *)
Definition clearAbortSignal : M World unit :=
modify (fun w =>
  match w.(abortSignalArray) with
  | None => w
  | Some _ => setAbort (Some 0%Z) w.(clock) w
  end).

Definition evaluateFirstForm (fuel : nat) (text : jsstring) : M World Response :=
clearAbortSignal;;;
fun w =>
  let tokenizer := newTokenizer text false in
  match read fuel (mkReading tokenizer w (EVLObject_ VOID_)) with
  | Throw exception r =>
      if instanceofTruncatedToken exception || instanceofUnexpectedEndOfInput exception
      then Ok foundNoForm r.(world)
      else Ok (abortedOrError exception) r.(world)
  | OutOfFuel => OutOfFuel
  | Ok None r => Ok foundNoForm r.(world)
  | Ok (Some object) r =>
      match genericEval fuel object r.(world) with
      | Throw exception w' => Ok (abortedOrError exception) w'
      | OutOfFuel => OutOfFuel
      | Ok result w' => Ok (success (stringify result)) w'
      end
  end.

Definition evaluateAllForms (fuel : nat) (text : jsstring) : M World Response :=
clearAbortSignal;;;
fun w =>
  let tokenizer := setCallback (Some (genericEval fuel)) (newTokenizer text false) in
  match evaluateForms_loop fuel (mkReading tokenizer w (EVLObject_ VOID_)) with
  | Ok (Some response) r => Ok response r.(world)
  | Ok None r => Ok (success (stringify r.(lastResult))) r.(world)
  | Throw e r => Throw e r.(world)
  | OutOfFuel => OutOfFuel
  end.

Definition convertEVLToXML (fuel : nat) (text : jsstring) : M World Response :=
fun w =>
  let tokenizer := newTokenizer text true in
  match doConvertEVLToXML fuel tokenizer with
  | Ok xml _ => Ok (success (OutputString xml)) w
  | Throw exception _ => Ok (abortedOrError exception) w
  | OutOfFuel => OutOfFuel
  end.

End Core.

(** ** Primitive function definitions

    The primitive functions of the source that the object model can
    express: [eq?], [eql?], [set-car!], [set-cdr!], [make-keyword] and
    [make-variable] depend on the identity of objects, [%] and [now] on host
    operations that are not modelled. *)

Definition evlBoolean (jsBoolean : bool) : EVLObject := EVLBoolean jsBoolean.

Definition nullToVoid (x : option EVLObject) : EVLObject :=
match x with
| None => EVLVoid
| Some o => o
end.

Definition ordinalNumber (n : nat) : jsstring :=
match n with
| 1 => js "1st"
| 2 => js "2nd"
| 3 => js "3rd"
| _ => natToString n ++ js "th"
end.

Definition checkTypeError (n : nat) (constructorName : string) : exception :=
EvaluatorError (js "The " ++ ordinalNumber (n + 1) ++ js " argument is not of type "
                ++ js constructorName ++ js ".").

Arguments checkTypeError n constructorName%_string.

(** [args[n]]; the arity was checked by the pairing. *)
Definition arg (args : list EVLObject) (n : nat) : EVLObject := nth n args EVLVoid.

Definition checkNumber (args : list EVLObject) (n : nat) : exception + spec_float :=
match arg args n with
| EVLNumber x => inr x
| _ => inl (checkTypeError n "EVLNumber")
end.

Definition checkVariableArg (args : list EVLObject) (n : nat) : exception + jsstring :=
match arg args n with
| EVLVariable name => inr name
| _ => inl (checkTypeError n "EVLVariable")
end.

Definition numberFunction (f : spec_float -> spec_float -> EVLObject) (args : list EVLObject)
  : exception + Result :=
bindE (checkNumber args 0) (fun x =>
bindE (checkNumber args 1) (fun y =>
inr (EVLObject_ (f x y)))).

Definition predicate (p : EVLObject -> bool) (args : list EVLObject) : exception + Result :=
inr (EVLObject_ (evlBoolean (p (arg args 0)))).

Definition isNumber (o : EVLObject) : bool := match o with EVLNumber _ => true | _ => false end.
Definition isVoid (o : EVLObject) : bool := match o with EVLVoid => true | _ => false end.
Definition isBoolean (o : EVLObject) : bool := match o with EVLBoolean _ => true | _ => false end.
Definition isCharacter (o : EVLObject) : bool :=
match o with EVLCharacter _ => true | _ => false end.
Definition isString (o : EVLObject) : bool := match o with EVLString _ => true | _ => false end.
Definition isKeyword (o : EVLObject) : bool := match o with EVLKeyword _ => true | _ => false end.
Definition isSymbol (o : EVLObject) : bool := isKeyword o || instanceofEVLVariable o.
Definition isEmptyList (o : EVLObject) : bool :=
match o with EVLEmptyList => true | _ => false end.
Definition isCons (o : EVLObject) : bool := match o with EVLCons _ _ => true | _ => false end.
Definition isVector (o : EVLObject) : bool := match o with EVLVector _ => true | _ => false end.
Definition isPrimitiveFunction (o : EVLObject) : bool :=
match o with EVLPrimitiveFunction _ _ _ => true | _ => false end.
Definition isClosure (o : EVLObject) : bool :=
match o with EVLClosure _ _ _ _ _ _ _ => true | _ => false end.
Definition isObject (o : EVLObject) : bool :=
match o with TrampolineppNode _ => false | _ => true end.

(** The table of [primitiveFunction(name, arityMin, arityMax, jsFunction)]:
    the arities by name. *)
Definition primitiveFunctions : list (string * nat * option nat) :=
[ ("object?", 1, Some 1); ("void?", 1, Some 1); ("boolean?", 1, Some 1);
  ("number?", 1, Some 1); ("_+", 2, Some 2); ("_-", 2, Some 2); ("_*", 2, Some 2);
  ("_/", 2, Some 2); ("=", 2, Some 2); ("/=", 2, Some 2); ("<", 2, Some 2);
  ("<=", 2, Some 2); (">", 2, Some 2); (">=", 2, Some 2); ("character?", 1, Some 1);
  ("string?", 1, Some 1); ("symbol?", 1, Some 1); ("keyword?", 1, Some 1);
  ("variable?", 1, Some 1); ("variable-value", 1, Some 1);
  ("variable-set-value!", 2, Some 2); ("variable-value-bound?", 1, Some 1);
  ("variable-unbind-value!", 1, Some 1); ("variable-function", 1, Some 1);
  ("variable-set-function!", 2, Some 2); ("variable-function-bound?", 1, Some 1);
  ("variable-unbind-function!", 1, Some 1); ("list?", 1, Some 1);
  ("empty-list?", 1, Some 1); ("cons?", 1, Some 1); ("cons", 2, Some 2);
  ("car", 1, Some 1); ("cdr", 1, Some 1); ("vector?", 1, Some 1);
  ("function?", 1, Some 1); ("primitive-function?", 1, Some 1); ("closure?", 1, Some 1);
  ("values", 0, None); ("error", 1, Some 1) ]%string.

Definition nameIs (name : jsstring) (s : string) : bool := jseqb name (js s).

Arguments nameIs name s%_string.

(** The host functions of the table. *)
Definition coreJsFunction (name : jsstring) (args : list EVLObject) (cells : Cells)
  : (exception + Result) * Cells :=
let '(value, function) := cells in
let pure (r : exception + Result) := (r, cells) in
if nameIs name "object?" then pure (predicate isObject args)
else if nameIs name "void?" then pure (predicate isVoid args)
else if nameIs name "boolean?" then pure (predicate isBoolean args)
else if nameIs name "number?" then pure (predicate isNumber args)
else if nameIs name "_+" then pure (numberFunction (fun x y => EVLNumber (SFadd prec emax x y)) args)
else if nameIs name "_-" then pure (numberFunction (fun x y => EVLNumber (SFsub prec emax x y)) args)
else if nameIs name "_*" then pure (numberFunction (fun x y => EVLNumber (SFmul prec emax x y)) args)
else if nameIs name "_/" then pure (numberFunction (fun x y => EVLNumber (SFdiv prec emax x y)) args)
else if nameIs name "=" then pure (numberFunction (fun x y => evlBoolean (SFeqb x y)) args)
else if nameIs name "/=" then pure (numberFunction (fun x y => evlBoolean (negb (SFeqb x y))) args)
else if nameIs name "<" then pure (numberFunction (fun x y => evlBoolean (SFltb x y)) args)
else if nameIs name "<=" then pure (numberFunction (fun x y => evlBoolean (SFleb x y)) args)
else if nameIs name ">" then pure (numberFunction (fun x y => evlBoolean (SFltb y x)) args)
else if nameIs name ">=" then pure (numberFunction (fun x y => evlBoolean (SFleb y x)) args)
else if nameIs name "character?" then pure (predicate isCharacter args)
else if nameIs name "string?" then pure (predicate isString args)
else if nameIs name "symbol?" then pure (predicate isSymbol args)
else if nameIs name "keyword?" then pure (predicate isKeyword args)
else if nameIs name "variable?" then pure (predicate instanceofEVLVariable args)
else if nameIs name "variable-value"
then pure (bindE (checkVariableArg args 0) (fun v => inr (EVLObject_ (nullToVoid (value v)))))
else if nameIs name "variable-set-value!"
then match checkVariableArg args 0 with
     | inr v => (inr (EVLObject_ (arg args 1)), (updateCell value v (Some (arg args 1)), function))
     | inl e => pure (inl e)
     end
else if nameIs name "variable-value-bound?"
then pure (bindE (checkVariableArg args 0) (fun v =>
           inr (EVLObject_ (evlBoolean (match value v with Some _ => true | None => false end)))))
else if nameIs name "variable-unbind-value!"
then match checkVariableArg args 0 with
     | inr v => (inr (EVLObject_ EVLVoid), (updateCell value v None, function))
     | inl e => pure (inl e)
     end
else if nameIs name "variable-function"
then pure (bindE (checkVariableArg args 0) (fun v =>
           inr (EVLObject_ (nullToVoid (function v)))))
else if nameIs name "variable-set-function!"
then match checkVariableArg args 0 with
     | inr v => (inr (EVLObject_ (arg args 1)), (value, updateCell function v (Some (arg args 1))))
     | inl e => pure (inl e)
     end
else if nameIs name "variable-function-bound?"
then pure (bindE (checkVariableArg args 0) (fun v =>
           inr (EVLObject_
                  (evlBoolean (match function v with Some _ => true | None => false end)))))
else if nameIs name "variable-unbind-function!"
then match checkVariableArg args 0 with
     | inr v => (inr (EVLObject_ EVLVoid), (value, updateCell function v None))
     | inl e => pure (inl e)
     end
else if nameIs name "list?" then pure (predicate instanceofEVLList args)
else if nameIs name "empty-list?" then pure (predicate isEmptyList args)
else if nameIs name "cons?" then pure (predicate isCons args)
else if nameIs name "cons" then pure (inr (EVLObject_ (EVLCons (arg args 0) (arg args 1))))
else if nameIs name "car"
then pure (match arg args 0 with
           | EVLCons car _ => inr (EVLObject_ car)
           | _ => inl (checkTypeError 0 "EVLCons")
           end)
else if nameIs name "cdr"
then pure (match arg args 0 with
           | EVLCons _ cdr => inr (EVLObject_ cdr)
           | _ => inl (checkTypeError 0 "EVLCons")
           end)
else if nameIs name "vector?" then pure (predicate isVector args)
else if nameIs name "function?" then pure (predicate instanceofEVLFunction args)
else if nameIs name "primitive-function?" then pure (predicate isPrimitiveFunction args)
else if nameIs name "closure?" then pure (predicate isClosure args)
else if nameIs name "values" then pure (inr (EVLObjects args))
else if nameIs name "error"
then pure (match arg args 0 with
           | EVLString message => inl (HostError (js "Error") message)
           | _ => inl (checkTypeError 0 "EVLString")
           end)
else pure (inl TypeError).

(** The function cells after [GlobalEnv.set(FUN_NS, internVariable(name),
    new EVLPrimitiveFunction(arityMin, arityMax, jsFunction))] for every
    entry of the table. *)
Fixpoint primitiveFunctionCell (table : list (string * nat * option nat)) (name : jsstring)
  : option EVLObject :=
match table with
| [] => None
| (n, arityMin, arityMax) :: r =>
    if jseqb name (js n) then Some (EVLPrimitiveFunction arityMin arityMax (js n))
    else primitiveFunctionCell r name
end.

(** The state of the core when the module is loaded: the primitive
    functions are bound, no abort buffer is installed and no evaluator is
    selected. *)
Definition initialWorld : World :=
mkWorld (fun _ => None) (primitiveFunctionCell primitiveFunctions) [] None 0 [].

(** A host that never requests an abort. *)
Definition idleHost : nat -> Z -> Z := fun _ b => b.

(** The value a computation returns, if it returns. *)
Definition returned {S A : Type} (r : res S A) : option A :=
match r with
| Ok a _ => Some a
| _ => None
end.

(** The exception a computation throws, if it throws. *)
Definition thrown {S A : Type} (r : res S A) : option exception :=
match r with
| Throw e _ => Some e
| _ => None
end.

(** The state a computation ends in. *)
Definition finalState {S A : Type} (r : res S A) : option S :=
match r with
| Ok _ s => Some s
| Throw _ s => Some s
| OutOfFuel => None
end.

(** * Properties *)

(** ** Definitions for the statements *)

(** The state in which [evaluateFirstForm] and [evaluateAllForms] start to
    read: the abort byte is 0 when there is one. *)
Definition clearedWorld (w : World) : World :=
match w.(abortSignalArray) with
| None => w
| Some _ => setAbort (Some 0%Z) w.(clock) w
end.

(** The reader of [evaluateFirstForm] before it reads. *)
Definition firstFormReading (text : jsstring) (w : World) : Reading :=
mkReading (newTokenizer text false) (clearedWorld w) (EVLObject_ VOID_).

(** The status of a response, if the entry point returns. *)
Definition statusOf {S : Type} (r : res S Response) : option Z :=
match r with
| Ok response _ => Some response.(status)
| _ => None
end.

(** The state of the core after [initialize] without files. *)
Definition initializedWorld (evaluator : string) (buffer : Z) : World :=
match initialize coreJsFunction idleHost 0 (mkInitializeInput buffer (js evaluator) [])
        initialWorld with
| Ok _ w => w
| _ => initialWorld
end.

Arguments initializedWorld evaluator%_string buffer%_Z.

(** The elements of a proper list. *)
Fixpoint properListElements (l : EVLObject) : option (list EVLObject) :=
match l with
| EVLEmptyList => Some []
| EVLCons a r => option_map (cons a) (properListElements r)
| _ => None
end.

(** A symbol is a feature when it is an element of the feature list. *)
Definition isFeature (features : list EVLObject) (symbol : EVLObject) : bool :=
existsb (fun feature => sameSymbol feature symbol) features.

(** The feature expressions: a symbol, [(not e)], [(and e ...)] and
    [(or e ...)]. *)
Fixpoint wellFormedFeatureExpression (featureExpression : EVLObject) : bool :=
match featureExpression with
| EVLKeyword _ | EVLVariable _ => true
| EVLCons car operands =>
    if isVariableNamed car notVariable
    then match operands with
         | EVLCons operand EVLEmptyList => wellFormedFeatureExpression operand
         | _ => false
         end
    else if isVariableNamed car andVariable || isVariableNamed car orVariable
    then (fix all (operands : EVLObject) : bool :=
            match operands with
            | EVLEmptyList => true
            | EVLCons operand rest => wellFormedFeatureExpression operand && all rest
            | _ => false
            end) operands
    else false
| _ => false
end.

(** What a feature expression denotes, given the features. *)
Fixpoint featureExpressionHolds (features : list EVLObject) (featureExpression : EVLObject)
  : bool :=
match featureExpression with
| EVLKeyword _ | EVLVariable _ => isFeature features featureExpression
| EVLCons car operands =>
    if isVariableNamed car notVariable
    then match operands with
         | EVLCons operand _ => negb (featureExpressionHolds features operand)
         | _ => false
         end
    else if isVariableNamed car andVariable
    then (fix all (operands : EVLObject) : bool :=
            match operands with
            | EVLCons operand rest => featureExpressionHolds features operand && all rest
            | _ => true
            end) operands
    else if isVariableNamed car orVariable
    then (fix any (operands : EVLObject) : bool :=
            match operands with
            | EVLCons operand rest => featureExpressionHolds features operand || any rest
            | _ => false
            end) operands
    else false
| _ => false
end.

(** A reader on a text, in a state of the core. *)
Definition readerOn (text : string) (w : World) : Reading :=
mkReading (newTokenizer (js text) false) w (EVLObject_ VOID_).

Arguments readerOn text%_string w.

(** The state a computation ends in, or the given one. *)
Definition stateAfter {S A : Type} (r : res S A) (s : S) : S :=
match r with
| Ok _ s' => s'
| Throw _ s' => s'
| OutOfFuel => s
end.

(** The six evaluators, by the names [initialize] takes. *)
Definition evaluators : list string :=
["plainrec"; "cps"; "oocps"; "sboocps"; "trampoline"; "trampolinepp"]%string.

(** The response of [evaluateFirstForm] to a text once the core is
    initialized for an evaluator, with the table of primitive functions
    and a host that requests no abort. *)
Definition respond (fuel : nat) (evaluator text : string) : option Response :=
returned (evaluateFirstForm coreJsFunction idleHost fuel (js text)
            (initializedWorld evaluator 0)).

Arguments respond fuel evaluator%_string text%_string.

Definition respondAll (fuel : nat) (text : string) : list (option Response) :=
map (fun evaluator => respond fuel evaluator text) evaluators.

Arguments respondAll fuel text%_string.

(** The responses: values printed, or an error message. *)
Definition answers (printed : list string) : option Response :=
Some (success (OutputStrings (map js printed))).

Definition failure (message : string) : option Response :=
Some (mkResponse ERROR (OutputString (js message))).

Arguments failure message%_string.

(** The range of the numbers of arguments a primitive function accepts is
    not empty. *)
Definition saneArity (arityMin : nat) (arityMax : option nat) : Prop :=
  match arityMax with
  | Some m => arityMin <= m
  | None => True
  end.

Definition aboveArityMax (arityMax : option nat) (n : nat) : bool :=
match arityMax with
| Some m => m <? n
| None => false
end.

(** The functions whose range of accepted numbers of arguments is not
    empty: every closure, and the primitive functions of the table. *)
Definition saneFunction (fn : EVLObject) : Prop :=
  match fn with
  | EVLPrimitiveFunction arityMin arityMax _ => saneArity arityMin arityMax
  | _ => True
  end.


(** A form of an operator: a cons whose [car] is the variable of that
    name. *)
Definition isFormOf (operator : string) (form : EVLObject) : bool :=
match form with
| EVLCons car _ => isVariableNamed car (js operator)
| _ => false
end.

Arguments isFormOf operator%_string form.

(** A proper list of forms of an operator. *)
Fixpoint allFormsOf (operator : string) (forms : EVLObject) : bool :=
match forms with
| EVLEmptyList => true
| EVLCons form rest => isFormOf operator form && allFormsOf operator rest
| _ => false
end.

Arguments allFormsOf operator%_string forms.

(** The expansion of a scope-local macro binding by the preprocessor of
    the trampoline++ evaluator: the operands are preprocessed and evaluated
    without an environment, their values are bound in a frame of the function
    namespace that extends the environment of the preprocessor, the body of
    the operator is preprocessed in that environment, and the call is built
    with the operator made of it. *)
Definition macroLetExpansion
  (trampolineppPreprocessForm : EVLObject -> CompileEnv -> M World TrampolineppForm)
  (mv apply : bool) (operator operands : EVLObject) (lenv : CompileEnv)
  : M World TrampolineppForm :=
preprocessedOperands <- trampolineppPreprocessForms trampolineppPreprocessForm operands lenv;;
parts <- liftE (analyzeLambda operator);;
let '(parameters, rest, forms) := parts in
array <- liftE (listToArray preprocessedOperands);;
closures <- mapM evalWithoutStack array;;
let elenv := mkCompileFrame FUN_NS parameters closures :: lenv in
preprocessedForms <- trampolineppPreprocessForms trampolineppPreprocessForm forms elenv;;
ret (TrampolineppCall mv apply
       (TrampolineppLambda LEX_SCOPE FUN_NS false parameters rest preprocessedForms)
       preprocessedOperands).

(** The preprocessing of a call that is neither a macro call nor a
    scope-local macro binding. *)
Definition ordinaryCall
  (trampolineppPreprocessForm : EVLObject -> CompileEnv -> M World TrampolineppForm)
  (mv apply : bool) (operator operands : EVLObject) (lenv : CompileEnv)
  : M World TrampolineppForm :=
preprocessedOperator <- trampolineppPreprocessForm operator lenv;;
preprocessedOperands <- trampolineppPreprocessForms trampolineppPreprocessForm operands lenv;;
ret (TrampolineppCall mv apply preprocessedOperator preprocessedOperands).

(** The object the reader reads first in a text. *)
Definition parse (text : string) : EVLObject :=
match read 100 (readerOn text initialWorld) with
| Ok (Some object) _ => object
| _ => EVLVoid
end.

Arguments parse text%_string.

(** The response of [evaluateAllForms], as [respond]. *)
Definition respondToAll (fuel : nat) (evaluator text : string) : option Response :=
returned (evaluateAllForms coreJsFunction idleHost fuel (js text)
            (initializedWorld evaluator 0)).

Arguments respondToAll fuel evaluator%_string text%_string.

(** One iteration of the driver loop of the trampoline evaluator: the next
    bounce, or the result that ends the loop. *)
Definition trampolineIteration
  (jsFunction : jsstring -> list EVLObject -> Cells -> (exception + Result) * Cells)
  (host : nat -> Z -> Z) (bounce : Bounce) : M TrampolineState (Bounce + Result) :=
aborted <- tOnWorld (abortRequested host);;
if aborted then throw Aborted
else
  match bounce with
  | EvalReq form lenv =>
      bounce <- tCatching (trampolineEvalForm form lenv);;
      ret (inl bounce)
  | Bounced x =>
      k <- tPopCont;;
      match k with
      | TrampolineEndCont =>
          match x with
          | OnResult result => ret (inr result)
          | OnArgs _ => throw TypeError
          end
      | _ =>
          bounce <- tCatching (trampolineInvoke jsFunction k x);;
          ret (inl bounce)
      end
  end.

(** The same for the trampoline++ evaluator. *)
Definition trampolineppIteration
  (jsFunction : jsstring -> list EVLObject -> Cells -> (exception + Result) * Cells)
  (host : nat -> Z -> Z) (bounce : Bounce) : M TrampolineppState (Bounce + Result) :=
aborted <- ppOnWorld (abortRequested host);;
if aborted then throw Aborted
else
  match bounce with
  | EvalReq form lenv =>
      bounce <- ppCatching (trampolineppEvalReq form lenv);;
      ret (inl bounce)
  | Bounced x =>
      k <- ppPopCont;;
      match k with
      | TrampolineppEndCont =>
          match x with
          | OnResult result => ret (inr result)
          | OnArgs _ => throw TypeError
          end
      | _ =>
          bounce <- ppCatching (trampolineppInvoke jsFunction k x);;
          ret (inl bounce)
      end
  end.

(** The host requests an abort before the core reads the abort byte for the
    [k]-th time. *)
Definition requestsAbortAt (host : nat -> Z -> Z) (k : nat) : Prop :=
  forall b, host k b = 1%Z.

(** A host that requests an abort before the [k]-th reading. *)
Definition abortingHost (k : nat) : nat -> Z -> Z :=
fun n b => if n =? k then 1%Z else b.

(** The control stacks of the trampoline evaluators in an evaluation: the
    end continuation is at the bottom. *)
Definition tBottomed (stack : list TrampolineElement) : Prop :=
  exists above, stack = above ++ [TCont TrampolineEndCont].

Definition ppBottomed (stack : list TrampolineppElement) : Prop :=
  exists above, stack = above ++ [PPCont TrampolineppEndCont].

(** A host that requests an abort all the time. *)
Definition insistentHost : nat -> Z -> Z := fun _ _ => 1%Z.

(** The response of [evaluateFirstForm] with a host, as [respond]. *)
Definition respondUnder (host : nat -> Z -> Z) (fuel : nat) (evaluator text : string)
  : option Response :=
returned (evaluateFirstForm coreJsFunction host fuel (js text) (initializedWorld evaluator 0)).

Arguments respondUnder host fuel evaluator%_string text%_string.

Definition aborted : option Response := Some (mkResponse ABORTED NoOutput).

(** The abort byte and the number of times it was read are the same. *)
Definition sameAbort (w w' : World) : Prop :=
  w'.(abortSignalArray) = w.(abortSignalArray) /\ w'.(clock) = w.(clock).

(** A step of the trampoline evaluator pushes on the control stack and
    leaves the abort byte alone. *)
Definition tExtends (s s' : TrampolineState) : Prop :=
  (exists pushed, tStack s' = pushed ++ tStack s) /\ sameAbort (tWorld s) (tWorld s').

(** What the driver loops rely on: an abort byte is installed, and the end
    continuation is at the bottom of the control stack. *)
Definition tReady (s : TrampolineState) : Prop :=
  s.(tWorld).(abortSignalArray) <> None /\ tBottomed s.(tStack).

(** A step of the trampoline++ evaluator pushes on the control stack and
    leaves the abort byte alone. *)
Definition ppExtends (s s' : TrampolineppState) : Prop :=
  (exists pushed, ppStack s' = pushed ++ ppStack s) /\ sameAbort (ppWorld s) (ppWorld s').

(** What the driver loop of the trampoline++ evaluator relies on: an abort byte is installed, and the end
    continuation is at the bottom of the control stack. *)
Definition ppReady (s : TrampolineppState) : Prop :=
  s.(ppWorld).(abortSignalArray) <> None /\ ppBottomed s.(ppStack).


(** No abort buffer is installed. *)
Definition noAbort (w : World) : Prop := w.(abortSignalArray) = None.

(** The continuations but the end continuation. *)
Definition isTrampolineEndCont (k : TrampolineCont) : bool :=
match k with
| TrampolineEndCont => true
| _ => false
end.

Section TrampolineRuns.

Variable jsFunction : jsstring -> list EVLObject -> Cells -> (exception + Result) * Cells.
Variable host : nat -> Z -> Z.

(** The driver loop from a bounce, a control stack and a state of the
    core. *)
Definition tRun (fuel : nat) (bounce : Bounce) (stack : list TrampolineElement) (w : World)
  : res TrampolineState Result :=
trampolineLoop jsFunction host fuel bounce (mkTrampolineState stack w).

(** The driver loop from the middle of an iteration: what is left of the
    iteration, then the loop. *)
Definition tStepRun (fuel : nat) (step : M TrampolineState Bounce)
  (stack : list TrampolineElement) (w : World) : res TrampolineState Result :=
bind (tCatching step) (trampolineLoop jsFunction host fuel) (mkTrampolineState stack w).

(** The driver loop from an exception thrown in an iteration. *)
Definition tRaise (fuel : nat) (exception : exception) (stack : list TrampolineElement)
  (w : World) : res TrampolineState Result :=
bind (tHandleError exception) (trampolineLoop jsFunction host fuel)
  (mkTrampolineState stack w).

(** The trampoline evaluator simulates a computation of the plain recursive
    evaluator: what is left of an iteration, on a control stack, leads in a
    number of iterations to the result bounced to the same control stack, or
    to the exception thrown on it, in the state of the core the computation
    ends in. *)
Definition tSimulates {X : Type} (r : res World X) (step : M TrampolineState Bounce)
  (inject : X -> Invoked) (stack : list TrampolineElement) (w : World) : Prop :=
  match r with
  | Ok x w' =>
      noAbort w' /\
      exists m, forall extra,
        tStepRun (m + extra) step stack w = tRun extra (Bounced (inject x)) stack w'
  | Throw e w' =>
      noAbort w' /\
      exists m, forall extra,
        tStepRun (m + extra) step stack w = tRaise extra e stack w'
  | OutOfFuel => True
  end.

End TrampolineRuns.

(** *** A reference evaluator

    The plain recursive evaluator with [_for-each] evaluated as the CPS
    evaluators evaluate it: what the CPS evaluators are compared with. *)

Section DirectBody.

Variable jsFunction : jsstring -> list EVLObject -> Cells -> (exception + Result) * Cells.

(** [directEvalForm], one call deeper. *)
Variable directEvalForm : EVLObject -> DefiniteEnv -> DefiniteEnv -> M World Result.

Fixpoint directForEachLoop (fn : EVLObject) (list_ : EVLObject) (lenv denv : DefiniteEnv)
  : M World unit :=
match list_ with
| EVLEmptyList => ret tt
| EVLCons car cdr =>
    plainrecInvokeFun jsFunction directEvalForm false false fn [car] lenv denv;;;
    directForEachLoop fn cdr lenv denv
| _ => throw forEachListFormError
end.

Definition directEvalForEach (form : EVLObject) (lenv denv : DefiniteEnv) : M World Result :=
parts <- liftE (analyzeForEach form);;
let '(functionForm, listForm) := parts in
result <- directEvalForm functionForm lenv denv;;
let fn := primaryValue result in
if negb (instanceofEVLFunction fn) then throw forEachFunctionFormError
else
  result <- directEvalForm listForm lenv denv;;
  directForEachLoop fn (primaryValue result) lenv denv;;;
  ret (EVLObject_ VOID_).

Definition isForEachForm (form : EVLObject) : bool :=
match form with
| EVLCons car _ =>
    match specialOperator car with
    | SO_forEach => true
    | _ => false
    end
| _ => false
end.

Definition directEvalForm_ (form : EVLObject) (lenv denv : DefiniteEnv) : M World Result :=
if isForEachForm form then directEvalForEach form lenv denv
else plainrecEvalForm_ jsFunction directEvalForm form lenv denv.

End DirectBody.

Fixpoint directEvalForm
  (jsFunction : jsstring -> list EVLObject -> Cells -> (exception + Result) * Cells)
  (fuel : nat) (form : EVLObject) (lenv denv : DefiniteEnv) : M World Result :=
match fuel with
| O => outOfFuel
| S fuel' => directEvalForm_ jsFunction (directEvalForm jsFunction fuel') form lenv denv
end.

Definition directEval
  (jsFunction : jsstring -> list EVLObject -> Cells -> (exception + Result) * Cells)
  (fuel : nat) (form : EVLObject) : M World Result :=
directEvalForm jsFunction fuel form nullDefiniteEnv nullDefiniteEnv.

(** The object-oriented CPS evaluator simulates a computation of the
    reference evaluator: with enough fuel, the evaluator with a continuation
    does what the continuation does when it is invoked on the result of the
    computation in the state the computation ends in, or throws the exception
    the computation throws. *)
Definition ooSimulates
  (jsFunction : jsstring -> list EVLObject -> Cells -> (exception + Result) * Cells)
  {X : Type} (r : res World X) (c : nat -> OOCPSCont -> M World Result)
  (inject : X -> Invoked) (w : World) : Prop :=
  match r with
  | Ok x w' =>
      forall k f,
        oocpsInvoke jsFunction f k (inject x) w' <> OutOfFuel ->
        exists m, forall m', m <= m' ->
          c m' k w = oocpsInvoke jsFunction f k (inject x) w'
  | Throw e w' =>
      forall k, exists m, forall m', m <= m' -> c m' k w = Throw e w'
  | OutOfFuel => True
  end.

(** The stack-based evaluator simulates a computation of the reference
    evaluator on a control stack: with enough fuel, the evaluator does what
    the topmost continuation of the stack does when it is invoked on the
    result of the computation, or throws the exception the computation
    throws, leaving the stack under what it has pushed. *)
Definition sbSimulates
  (jsFunction : jsstring -> list EVLObject -> Cells -> (exception + Result) * Cells)
  {X : Type} (r : res World X) (c : nat -> M SBOOCPSState Result)
  (inject : X -> Invoked) (stack : list SBOOCPSElement) (w : World) : Prop :=
  match r with
  | Ok x w' =>
      forall f,
        popAndInvoke (sboocpsInvoke jsFunction f) stack (inject x) w' <> OutOfFuel ->
        exists m, forall m', m <= m' ->
          c m' (mkSBOOCPSState stack w)
          = popAndInvoke (sboocpsInvoke jsFunction f) stack (inject x) w'
  | Throw e w' =>
      exists m pushed, forall m', m <= m' ->
        c m' (mkSBOOCPSState stack w) = Throw e (mkSBOOCPSState (pushed ++ stack) w')
  | OutOfFuel => True
  end.

(** *** Evaluations that reach no [_for-each] form

    The plain recursive evaluator, but for a [_for-each] form, whose
    evaluation is counted as one that does not end: the evaluation of a form
    ends here exactly when it ends without a [_for-each] form being
    evaluated on the way, whatever the evaluator does with such a form. *)

Section ForEachFreeBody.

Variable jsFunction : jsstring -> list EVLObject -> Cells -> (exception + Result) * Cells.
Variable forEachFreeEvalForm : EVLObject -> DefiniteEnv -> DefiniteEnv -> M World Result.

Definition forEachFreeEvalForm_ (form : EVLObject) (lenv denv : DefiniteEnv)
  : M World Result :=
if isForEachForm form then outOfFuel
else plainrecEvalForm_ jsFunction forEachFreeEvalForm form lenv denv.

End ForEachFreeBody.

Fixpoint forEachFreeEvalForm
  (jsFunction : jsstring -> list EVLObject -> Cells -> (exception + Result) * Cells)
  (fuel : nat) (form : EVLObject) (lenv denv : DefiniteEnv) : M World Result :=
match fuel with
| O => outOfFuel
| S fuel' => forEachFreeEvalForm_ jsFunction (forEachFreeEvalForm jsFunction fuel') form lenv denv
end.

(** The evaluation of the form ends, and no [_for-each] form is evaluated. *)
Definition reachesNoForEach
  (jsFunction : jsstring -> list EVLObject -> Cells -> (exception + Result) * Cells)
  (form : EVLObject) (w : World) : Prop :=
  exists fuel,
    forEachFreeEvalForm jsFunction fuel form nullDefiniteEnv nullDefiniteEnv w <> OutOfFuel.

(** The primary value an evaluation returns, if it returns. *)
Definition valueOf (r : res World Result) : option EVLObject :=
option_map primaryValue (returned r).

(** *** The control stack of the trampoline++ evaluator under a step *)

(** What a computation ends with: the exception it throws or the value it
    returns. *)
Definition outcome {S A : Type} (o : exception + A) (s : S) : res S A :=
match o with
| inl e => Throw e s
| inr a => Ok a s
end.

(** The elements that any step pushes: all but the end continuation and the
    continuation of an operand. *)
Definition ppPlainElement (element : TrampolineppElement) : bool :=
match element with
| PPCont TrampolineppEndCont => false
| PPCont (TrampolineppOperandCont _ _ _ _) => false
| _ => true
end.

Definition ppPlain (pushed : list TrampolineppElement) : Prop :=
  forallb ppPlainElement pushed = true.

(** The bounce is the array of the arguments of a call. *)
Definition isArgs (bounce : Bounce) : bool :=
match bounce with
| Bounced (OnArgs _) => true
| _ => false
end.

Definition ppPlainBounce (pushed : list TrampolineppElement) (bounce : Bounce) : Prop :=
  ppPlain pushed /\ isArgs bounce = false.

Definition isOperandsCont (element : TrampolineppElement) : bool :=
match element with
| PPCont (TrampolineppOperandsCont _ _ _) => true
| _ => false
end.

Definition isOperandCont (element : TrampolineppElement) : bool :=
match element with
| PPCont (TrampolineppOperandCont _ _ _ _) => true
| _ => false
end.

Definition headIsOperands (stack : list TrampolineppElement) : bool :=
match stack with
| element :: _ => isOperandsCont element
| [] => false
end.

(** A step of the evaluator, as a function of the frames of the control
    stack and of the state of the core: it pushes elements on the control
    stack, whatever is below, leaves the abort byte alone, and throws an
    exception or returns a value; [P] relates what is pushed to the value
    returned. *)
Definition ppPushes {A : Type} (P : list TrampolineppElement -> A -> Prop)
  (m : M TrampolineppState A) : Prop :=
  forall (frames : DefiniteEnv) (w : World),
    exists pushed w' o,
      sameAbort w w'
      /\ match o with
         | inr a => P pushed a
         | inl _ => ppPlain pushed
         end
      /\ forall stack, ppFrames stack = frames ->
           m (mkTrampolineppState stack w)
           = outcome o (mkTrampolineppState (pushed ++ stack) w').

(** What [trampolineppEvalOperands] pushes: nothing when it returns the
    arguments, the continuation of an operand otherwise. *)
Definition ppOperandsShape (pushed : list TrampolineppElement) (bounce : Bounce) : Prop :=
  (pushed = [] /\ isArgs bounce = true)
  \/ (exists element, pushed = [element] /\ isOperandCont element = true
                      /\ isArgs bounce = false).

(** What the [invoke] method of a continuation pushes. *)
Definition ppInvokeShape (k : TrampolineppCont) (pushed : list TrampolineppElement)
  (bounce : Bounce) : Prop :=
  match k with
  | TrampolineppOperatorCont _ _ _ _ =>
      exists pushed0 element,
        ppOperandsShape pushed0 bounce /\ pushed = pushed0 ++ [element]
        /\ isOperandsCont element = true
  | TrampolineppOperandCont _ _ _ _ => ppOperandsShape pushed bounce
  | _ => ppPlainBounce pushed bounce
  end.

(** The part of a control stack above the end continuation, in an
    evaluation: the continuation of an operand is right above the
    continuation of the operands. *)
Fixpoint ppWellStacked (stack : list TrampolineppElement) : bool :=
match stack with
| [] => true
| PPCont TrampolineppEndCont :: _ => false
| PPCont (TrampolineppOperandCont _ _ _ _) :: r => headIsOperands r && ppWellStacked r
| _ :: r => ppWellStacked r
end.

(** The arguments of a call are bounced to the continuation of the
    operands. *)
Definition ppExpected (bounce : Bounce) (stack : list TrampolineppElement) : bool :=
if isArgs bounce then headIsOperands stack else true.

(** The form [(_catch-errors tryForm)]. *)
Definition catchErrorsForm (tryForm : EVLObject) : EVLObject :=
EVLCons (EVLVariable (js "_catch-errors")) (EVLCons tryForm EVLEmptyList).

(** What [_catch-errors] makes of the evaluation of its operand: the void
    object when the evaluation returns, the name of the exception when it
    throws one. *)
Definition caught {S : Type} (r : res S Result) : res S Result :=
match r with
| Ok _ s => Ok (EVLObject_ VOID_) s
| Throw exception s => Ok (EVLObject_ (EVLString (exception_name exception))) s
| OutOfFuel => OutOfFuel
end.

(** What the driver loop of the trampoline++ evaluator does above an error
    handler ([run2], by the number of iterations), given what it does above
    the end continuation ([r1]): where the latter returns a value, the former
    goes on with the void object bounced to the stack the handler is on;
    where the latter throws an exception, the former goes on with the name
    of the exception bounced to the stack under the handler. *)
Definition ppUnderHandler
  (jsFunction : jsstring -> list EVLObject -> Cells -> (exception + Result) * Cells)
  (host : nat -> Z -> Z) (rest : list TrampolineppElement)
  (r1 : res TrampolineppState Result) (run2 : nat -> res TrampolineppState Result) : Prop :=
  match r1 with
  | Ok _ s' =>
      noAbort (ppWorld s')
      /\ exists m, forall extra,
           run2 (m + extra)
           = trampolineppLoop jsFunction host extra (bounceObject VOID_)
               (mkTrampolineppState (PPErrorHandler :: rest) (ppWorld s'))
  | Throw e s' =>
      noAbort (ppWorld s')
      /\ exists m, forall extra,
           run2 (m + extra)
           = trampolineppLoop jsFunction host extra
               (Bounced (OnResult (EVLObject_ (EVLString (exception_name e)))))
               (mkTrampolineppState rest (ppWorld s'))
  | OutOfFuel => True
  end.

(** *** Objects that are read back from what is printed *)

(** A code unit that the tokenizer takes for a character of its own and
    accepts: no surrogate, no control character but whitespace, no
    noncharacter. *)
Definition isPlainUnit (c : Z) : bool :=
negb (isSurrogate c)
&& negb (isControlCharacter c && negb (isWhitespaceCharacter c))
&& negb (isNoncharacter c).

(** A code unit that is printed as it is in the name of a symbol, and read
    as a character of a proto-token. *)
Definition isProtoUnit (c : Z) : bool :=
isPlainUnit c
&& negb (isWhitespaceCharacter c || isSyntaxCharacter c)
&& negb (c =? BACKSLASH)%Z && negb (c =? ch "<")%Z.

(** The name of a symbol that is printed as it is: not empty, without a
    colon. *)
Definition isProtoName (name : jsstring) : bool :=
match name with
| [] => false
| _ :: _ => forallb isProtoUnit name && noColon name
end.

(** [x === y] on numbers. *)
Definition numberEql (x y : spec_float) : bool := SFeqb x y.

(** The printed number is read as a number, and as that number. *)
Definition numberReadsBack (x : spec_float) : bool :=
numberRegExp_test (Number_toString x)
&& numberEql (Number_parseFloat (Number_toString x)) x.

(** The objects of the claim: numbers, booleans, the void object, the empty
    list, strings, keywords, variables, and the conses of such objects. *)
Fixpoint readable (o : EVLObject) : bool :=
match o with
| EVLVoid | EVLBoolean _ | EVLEmptyList => true
| EVLNumber x => numberReadsBack x
| EVLString s => forallb isPlainUnit s
| EVLKeyword name => isProtoName name
| EVLVariable name =>
    isProtoName name && negb (numberRegExp_test name) && negb (charIs name ".")
| EVLCons car cdr => readable car && readable cdr
| _ => false
end.

(** What the reader makes of a printed object: the number is the one the
    printed number denotes. *)
Fixpoint reread (o : EVLObject) : EVLObject :=
match o with
| EVLNumber x => EVLNumber (Number_parseFloat (Number_toString x))
| EVLCons car cdr => EVLCons (reread car) (reread cdr)
| _ => o
end.

(** The contents of two objects are the same: [eql] on numbers and strings,
    the same singleton, the same interned symbol, and conses alike. *)
Fixpoint alike (a b : EVLObject) : bool :=
match a, b with
| EVLVoid, EVLVoid => true
| EVLBoolean x, EVLBoolean y => Bool.eqb x y
| EVLNumber x, EVLNumber y => numberEql x y
| EVLString x, EVLString y => jseqb x y
| EVLKeyword x, EVLKeyword y => jseqb x y
| EVLVariable x, EVLVariable y => jseqb x y
| EVLEmptyList, EVLEmptyList => true
| EVLCons a1 d1, EVLCons a2 d2 => alike a1 a2 && alike d1 d2
| _, _ => false
end.

(** The reader on the printed object. *)
Definition readPrinted (fuel : nat) (o : EVLObject) (w : World)
  : res Reading (option EVLObject) :=
read fuel (mkReading (newTokenizer (toString o) false) w (EVLObject_ VOID_)).

(** What is left of the text for the tokenizer to read. *)
Definition inputIs (t : Tokenizer) (s : jsstring) : Prop :=
  skipn t.(position) t.(text) = s /\ t.(position) <= length t.(text).

(** The tokenizer has moved by [n] code units in the same text, outside XML
    elements and with no code unit saved. *)
Definition moved (t t' : Tokenizer) (n : nat) : Prop :=
  t'.(text) = t.(text) /\ t'.(position) = t.(position) + n
  /\ t'.(savedCodeUnits) = t.(savedCodeUnits) /\ t'.(xmlStack) = t.(xmlStack)
  /\ t'.(convertEVLToXML_) = t.(convertEVLToXML_) /\ t'.(callback) = t.(callback).

(** The tokenizer is between two tokens of an EVL text. *)
Definition betweenTokens (t : Tokenizer) : Prop :=
  t.(savedCodeUnits) = [] /\ t.(xmlStack) = [] /\ t.(convertEVLToXML_) = false.

(** What ends a proto-token: the end of the text, whitespace, or a syntax
    character that is a character of its own. *)
Definition delimited (post : jsstring) : Prop :=
  match post with
  | [] => True
  | c :: _ =>
      isPlainUnit c = true
      /\ (isWhitespaceCharacter c || isSyntaxCharacter c) = true
  end.

(** What starts a token: the end of the text, or a character of its own
    that is not whitespace. *)
Definition tokenStart (s : jsstring) : Prop :=
  match s with
  | [] => True
  | c :: _ => isPlainUnit c = true /\ isWhitespaceCharacter c = false
  end.

Definition isPlainWhitespace (c : Z) : bool := isPlainUnit c && isWhitespaceCharacter c.

(** The tokenizer after [consumeCharacter(char)]. *)
Definition consumed (t : Tokenizer) (char : jsstring) : Tokenizer :=
setPosition (t.(position) + length char) (setLexeme (t.(lexeme) ++ char) t).

(** What is printed of the tail of a list, after its first element. *)
Fixpoint toStringRest (list : EVLObject) : jsstring :=
match list with
| EVLEmptyList => []
| EVLCons a d => js " " ++ toString a ++ toStringRest d
| x => js " . " ++ toString x
end.

(** The reader reads the printed object, after whitespace and before a
    delimiter, with enough fuel. *)
Definition readsObject (v : EVLObject) : Prop :=
  forall (ws post : jsstring) (r : Reading) (fuel : nat),
    betweenTokens r.(tokenizer) -> forallb isPlainWhitespace ws = true ->
    delimited post ->
    inputIs r.(tokenizer) (ws ++ toString v ++ post) ->
    length ws + length (toString v) + 3 <= fuel ->
    exists r',
      readObject fuel r = Ok (R_Object (reread v)) r'
      /\ moved r.(tokenizer) r'.(tokenizer) (length ws + length (toString v))
      /\ r'.(world) = r.(world) /\ r'.(lastResult) = r.(lastResult).

(** The loop of [readList] reads the printed tail of a list up to the closing
    parenthesis. *)
Definition readsTail (v : EVLObject) : Prop :=
  forall (elements : list EVLObject) (post : jsstring) (r : Reading) (fuel n : nat),
    elements <> [] ->
    betweenTokens r.(tokenizer) ->
    inputIs r.(tokenizer) (toStringRest v ++ ch ")" :: post) ->
    length (toStringRest v) + 4 <= fuel -> length (toStringRest v) < n ->
    exists r',
      readList_loop (readObject fuel) n elements r
      = Ok (R_Object (makeList elements (reread v))) r'
      /\ moved r.(tokenizer) r'.(tokenizer) (length (toStringRest v) + 1)
      /\ r'.(world) = r.(world) /\ r'.(lastResult) = r.(lastResult).

(** The categories of the tokens that are objects. *)
Definition isAtomCategory (cat : Category) : bool :=
match cat with
| VOID | BOOLEAN | NUMBER | STRING | KEYWORD | VARIABLE => true
| _ => false
end.

(** *** Environments: what a lookup finds *)

(** The outcome of a computation, in another state. *)
Definition retarget {S A : Type} (r : res S A) (s : S) : res S A :=
match r with
| Ok a _ => Ok a s
| Throw e _ => Throw e s
| OutOfFuel => OutOfFuel
end.

(** The frames of the environment are allocated. *)
Definition allocated (env : DefiniteEnv) (w : World) : Prop :=
  Forall (fun a => a < length w.(frames)) env.

(** A frame as the evaluators make it: one value for each variable. *)
Definition fullFrame (f : Frame) : Prop :=
  length f.(frame_values) = length f.(frame_variables).

(** The frames of the environment have one value for each variable. *)
Definition fullFrames (env : DefiniteEnv) (w : World) : Prop :=
  Forall (fun a => match nth_error w.(frames) a with
                   | Some f => fullFrame f
                   | None => False
                   end) env.

(** The state after [this.values[j] = value] in the frame at [a]. *)
Definition frameWritten (a j : nat) (value : EVLObject) (w : World) : World :=
setFrames
  (updateFrame a
     (fun f => mkFrame f.(frame_namespace) f.(frame_variables)
                 (setNth j value f.(frame_values)))
     w.(frames)) w.

(** What an assignment writes: the slot of the variable in a frame, or the
    cell of the variable in the global environment. *)
Definition assigned (namespace : Namespace) (variable : jsstring) (value : EVLObject)
  (w w' : World) : Prop :=
  (exists a j f,
      nth_error w.(frames) a = Some f /\ frameSlot f namespace variable = Some j
      /\ w' = frameWritten a j value w)
  \/ GlobalEnv_set namespace variable value w = Ok value w'.


(** *** Parameter lists *)

(** The parameter list of a lambda form with these parameters: a proper list
    of variables, or with a rest parameter a dotted list that ends in it (the
    variable alone when it is the only parameter). *)
Fixpoint parameterListOf (parameters : list jsstring) (rest : bool) : EVLObject :=
match parameters with
| [] => EVLEmptyList
| [p] => if rest then EVLVariable p else EVLCons (EVLVariable p) EVLEmptyList
| p :: ps => EVLCons (EVLVariable p) (parameterListOf ps rest)
end.

(** *** Forms that evaluate to themselves *)

(** The objects of the last branch of the [evalForm] functions: neither the
    empty list, nor a cons, nor a variable. *)
Definition selfEvaluating (form : EVLObject) : bool :=
match form with
| EVLEmptyList | EVLCons _ _ | EVLVariable _ | TrampolineppNode _ => false
| _ => true
end.

(** One of the six evaluators is selected. *)
Definition evaluatorSelected (w : World) : Prop :=
  In w.(selectedEvaluator) (map js evaluators).

(** *** Lexical addresses *)

(** The run-time frame has the namespace and the variables of the frame of
    the preprocessor. *)
Definition frameMatches (c : CompileFrame) (f : Frame) : Prop :=
  f.(frame_namespace) = c.(cNamespace) /\ f.(frame_variables) = c.(cVariables).

(** The run-time environment has the frames the preprocessor counted on when
    it preprocessed a form in [cenv]. *)
Fixpoint matchesCompileEnv (cenv : CompileEnv) (lenv : DefiniteEnv) (w : World) : Prop :=
  match cenv, lenv with
  | [], [] => True
  | c :: cenv', a :: lenv' =>
      (exists f, nth_error w.(frames) a = Some f /\ frameMatches c f)
      /\ matchesCompileEnv cenv' lenv' w
  | _, _ => False
  end.

(** The compile-time frame of the body of a lambda form. *)
Definition bodyFrame (namespace : Namespace) (parameters : list jsstring) : CompileFrame :=
mkCompileFrame namespace parameters (repeat None (length parameters)).

(** *** The frames through an evaluation *)

(** What never changes in a frame: its namespace, its variables and the
    number of its values. *)
Definition frameShape (f : Frame) : Namespace * list jsstring * nat :=
(f.(frame_namespace), f.(frame_variables), length f.(frame_values)).

(** The frames of [w] are in [w'], at the same addresses and with the same
    shapes; [w'] may have more frames. *)
Definition framesKept (w w' : World) : Prop :=
  exists more, map frameShape w'.(frames) = map frameShape w.(frames) ++ more.

Definition ppFramesKept (s s' : TrampolineppState) : Prop :=
  framesKept s.(ppWorld) s'.(ppWorld).

(** *** The answers of the interface *)

(** A response that reports an exception: ABORTED for [Aborted], otherwise
    ERROR with the message of the exception. *)
Definition reportsException (response : Response) : Prop :=
  exists exception, response = abortedOrError exception.

(** A response with the printed values of a result. *)
Definition reportsValues (response : Response) : Prop :=
  exists result, response = success (stringify result).

(** *** The objects that have a read syntax *)

(** A UTF-16 code unit. *)
Definition isCodeUnit (c : Z) : bool := ((0 <=? c) && (c <=? 0xFFFF))%Z.

(** A JavaScript string: a sequence of code units. *)
Definition codeUnits (s : jsstring) : bool := forallb isCodeUnit s.

(** The name of a symbol that has a syntax: not empty and without a
    colon. *)
Definition isSymbolName (name : jsstring) : bool :=
match name with
| [] => false
| _ :: _ => codeUnits name && noColon name
end.

(** The objects the reader has a syntax for: numbers that are printed in
    the syntax of numbers, characters, strings, symbols with a name that does
    not read as something else, and the lists and vectors of such
    objects. *)
Fixpoint printable (o : EVLObject) : bool :=
match o with
| EVLVoid | EVLBoolean _ | EVLEmptyList => true
| EVLNumber x => numberReadsBack x
| EVLCharacter c => isCodeUnit c
| EVLString s => codeUnits s
| EVLKeyword name => isSymbolName name
| EVLVariable name =>
    isSymbolName name && negb (numberRegExp_test name) && negb (charIs name ".")
| EVLCons car cdr => printable car && printable cdr
| EVLVector elements => forallb printable elements
| _ => false
end.

(** What the reader makes of a printed object: the numbers are the ones the
    printed numbers denote. *)
Fixpoint rereadAll (o : EVLObject) : EVLObject :=
match o with
| EVLNumber x => EVLNumber (Number_parseFloat (Number_toString x))
| EVLCons car cdr => EVLCons (rereadAll car) (rereadAll cdr)
| EVLVector elements => EVLVector (map rereadAll elements)
| _ => o
end.

(** The contents of two objects are the same: [eql] on numbers, characters
    and strings, the same singleton, the same interned symbol, and conses
    and vectors with the same contents. *)
Fixpoint sameContents (a b : EVLObject) : bool :=
match a, b with
| EVLVoid, EVLVoid => true
| EVLBoolean x, EVLBoolean y => Bool.eqb x y
| EVLNumber x, EVLNumber y => numberEql x y
| EVLCharacter x, EVLCharacter y => (x =? y)%Z
| EVLString x, EVLString y => jseqb x y
| EVLKeyword x, EVLKeyword y => jseqb x y
| EVLVariable x, EVLVariable y => jseqb x y
| EVLEmptyList, EVLEmptyList => true
| EVLCons a1 d1, EVLCons a2 d2 => sameContents a1 a2 && sameContents d1 d2
| EVLVector xs, EVLVector ys =>
    (fix all (xs ys : list EVLObject) : bool :=
       match xs, ys with
       | [], [] => true
       | x :: xs', y :: ys' => sameContents x y && all xs' ys'
       | _, _ => false
       end) xs ys
| _, _ => false
end.

(** The digits of [toString(16).toUpperCase()]. *)
Definition isUpperHexDigit (c : Z) : bool :=
((48 <=? c) && (c <=? 57) || (65 <=? c) && (c <=? 70))%Z.

(** What starts a token: a character of its own that is not whitespace, or
    a surrogate pair that is a character. *)
Definition startsToken (s : jsstring) : Prop :=
  match s with
  | [] => True
  | c :: r =>
      (isPlainUnit c = true /\ isWhitespaceCharacter c = false)
      \/ match r with
         | c2 :: _ =>
             isLeadingSurrogate c = true /\ isTrailingSurrogate c2 = true
             /\ isNoncharacter (codePointAt0 [c; c2]) = false
         | [] => False
         end
  end.

(** The categories of the tokens that are objects, characters included. *)
Definition isObjectCategory (cat : Category) : bool :=
match cat with
| VOID | BOOLEAN | NUMBER | CHARACTER | STRING | KEYWORD | VARIABLE => true
| _ => false
end.

(** The reader reads the printed object [v] as [v'], after whitespace and
    before a delimiter, with enough fuel. *)
Definition readsAs (v v' : EVLObject) : Prop :=
  forall (ws post : jsstring) (r : Reading) (fuel : nat),
    betweenTokens r.(tokenizer) -> forallb isPlainWhitespace ws = true ->
    delimited post ->
    inputIs r.(tokenizer) (ws ++ toString v ++ post) ->
    length ws + length (toString v) + 12 <= fuel ->
    exists r',
      readObject fuel r = Ok (R_Object v') r'
      /\ moved r.(tokenizer) r'.(tokenizer) (length ws + length (toString v))
      /\ r'.(world) = r.(world) /\ r'.(lastResult) = r.(lastResult).

(** The loop of [readList] reads the printed tail [v] of a list as [v'], up
    to the closing parenthesis. *)
Definition readsTailAs (v v' : EVLObject) : Prop :=
  forall (elements : list EVLObject) (post : jsstring) (r : Reading) (fuel n : nat),
    elements <> [] ->
    betweenTokens r.(tokenizer) ->
    inputIs r.(tokenizer) (toStringRest v ++ ch ")" :: post) ->
    length (toStringRest v) + 13 <= fuel -> length (toStringRest v) < n ->
    exists r',
      readList_loop (readObject fuel) n elements r
      = Ok (R_Object (makeList elements v')) r'
      /\ moved r.(tokenizer) r'.(tokenizer) (length (toStringRest v) + 1)
      /\ r'.(world) = r.(world) /\ r'.(lastResult) = r.(lastResult).

(** What is printed of the elements of a vector, after the first one. *)
Fixpoint toStringElements (elements : list EVLObject) : jsstring :=
match elements with
| [] => []
| x :: r => js " " ++ toString x ++ toStringElements r
end.

(** The loop of [readVector] reads the printed elements [l] of a vector as
    [l'], up to the closing parenthesis. *)
Definition readsElementsAs (l l' : list EVLObject) : Prop :=
  forall (elements : list EVLObject) (post : jsstring) (r : Reading) (fuel n : nat),
    betweenTokens r.(tokenizer) ->
    inputIs r.(tokenizer) (toStringElements l ++ ch ")" :: post) ->
    length (toStringElements l) + 13 <= fuel -> length (toStringElements l) < n ->
    exists r',
      readVector_loop (readObject fuel) n elements r
      = Ok (R_Object (EVLVector (elements ++ l'))) r'
      /\ moved r.(tokenizer) r'.(tokenizer) (length (toStringElements l) + 1)
      /\ r'.(world) = r.(world) /\ r'.(lastResult) = r.(lastResult).

(** The depth of the conses and vectors of an object. *)
Fixpoint objectDepth (o : EVLObject) : nat :=
match o with
| EVLCons car cdr => S (Nat.max (objectDepth car) (objectDepth cdr))
| EVLVector elements =>
    S ((fix deepest (l : list EVLObject) : nat :=
          match l with
          | [] => 0
          | x :: r => Nat.max (objectDepth x) (deepest r)
          end) elements)
| _ => 0
end.

(** What starts a proto-token: a character of its own that is neither
    whitespace, nor a syntax character, nor [<], or a surrogate pair that is
    a character. *)
Definition startsProtoToken (s : jsstring) : Prop :=
  match s with
  | [] => False
  | c :: r =>
      (isPlainUnit c = true
       /\ (isWhitespaceCharacter c || isSyntaxCharacter c) = false
       /\ (c =? ch "<")%Z = false)
      \/ match r with
         | c2 :: _ =>
             isLeadingSurrogate c = true /\ isTrailingSurrogate c2 = true
             /\ isNoncharacter (codePointAt0 [c; c2]) = false
         | [] => False
         end
  end.

(** *** Abbreviations *)

(** The abbreviations of the reader: the characters, and the variable
    [readObject] puts in front of the object that follows them. *)
Definition abbreviations : list (jsstring * jsstring) :=
[ (js "'", quoteVariable); (js "`", quasiquoteVariable);
  (js ",", unquoteVariable); (js ",@", unquoteSplicingVariable) ].

(** The object [(variable object)]. *)
Definition abbreviated (variable : jsstring) (object : EVLObject) : EVLObject :=
EVLCons (internVariable variable) (EVLCons object NIL).

(** *** Malformed forms *)

(** The error of an analysis, if it fails. *)
Definition errorOf {A : Type} (x : exception + A) : option exception :=
match x with
| inl e => Some e
| inr _ => None
end.

(** The error of the analyzer of the form: the analyzer the evaluators
    select by the operator of the form.  [_for-each] is left out: the
    evaluators that do not implement it do not analyze it. *)
Definition analysisError (form : EVLObject) : option exception :=
match form with
| EVLCons car _ =>
    match specialOperator car with
    | SO_quote => errorOf (analyzeQuote form)
    | SO_progn => errorOf (analyzeProgn form)
    | SO_if => errorOf (analyzeIf form)
    | SO_lambda _ _ _ => errorOf (analyzeLambda form)
    | SO_ref _ _ => errorOf (analyzeRef form)
    | SO_set _ _ => errorOf (analyzeSet form)
    | SO_forEach => None
    | SO_catchErrors => errorOf (analyzeCatchErrors form)
    | SO_call mv apply => errorOf (analyzeCall mv apply form)
    end
| _ => None
end.

(** ** The monad *)

Lemma bind_Ok {S A B : Type} (m : M S A) (k : A -> M S B) (s s' : S) (a : A) :
  m s = Ok a s' -> bind m k s = k a s'.
Proof. intros H. unfold bind. rewrite H. reflexivity. Qed.

Lemma bind_Throw {S A B : Type} (m : M S A) (k : A -> M S B) (s s' : S) (e : exception) :
  m s = Throw e s' -> bind m k s = Throw e s'.
Proof. intros H. unfold bind. rewrite H. reflexivity. Qed.

Lemma bind_OutOfFuel {S A B : Type} (m : M S A) (k : A -> M S B) (s : S) :
  m s = OutOfFuel -> bind m k s = OutOfFuel.
Proof. intros H. unfold bind. rewrite H. reflexivity. Qed.

Lemma bind_assoc {S A B C : Type} (m : M S A) (k : A -> M S B) (h : B -> M S C) (s : S) :
  bind (bind m k) h s = bind m (fun a => bind (k a) h) s.
Proof. unfold bind. destruct (m s); reflexivity. Qed.

Lemma bind_ext {S A B : Type} (m : M S A) (k k' : A -> M S B) (s : S) :
  (forall a s', k a s' = k' a s') -> bind m k s = bind m k' s.
Proof. intros H. unfold bind. destruct (m s); auto. Qed.

(** ** The converter *)

(** C3: the converter does not emit the whitespace of the top-level context
    as it is.  On the text [a <b>x</b>], whose tokens are all read outside
    every XML element and every EVL form, the space before the XML element
    goes through [convertEVLWhitespace] and comes out behind the closing tag
    of a block of code and the opening tags of a comment: the test
    [context = EVL_CONTEXT] of [doConvertEVLToXML] is an assignment, and its
    value is always true. *)
Theorem C3_top_level_whitespace_is_converted :
  returned (doConvertEVLToXML 20 (newTokenizer (js "a <b>x</b>") true))
  = Some (js "a</blockcode><indentation style=" ++ [DQUOTE] ++ js "margin-left: 0ch;"
          ++ [DQUOTE] ++ js "><blockcomment> <b>x</b>")
  /\ returned (doConvertEVLToXML 20 (newTokenizer (js "a <b>x</b>") true))
     <> Some (js "a <b>x</b>").
Proof. split; [vm_compute; reflexivity | vm_compute; discriminate]. Qed.

(** ** The interface *)

Section InterfaceProperties.

Variable jsFunction : jsstring -> list EVLObject -> Cells -> (exception + Result) * Cells.
Variable host : nat -> Z -> Z.

Lemma evaluateFirstForm_unfold (fuel : nat) (text : jsstring) (w : World) :
  evaluateFirstForm jsFunction host fuel text w
  = match read fuel (firstFormReading text w) with
    | Throw exception r =>
        if instanceofTruncatedToken exception || instanceofUnexpectedEndOfInput exception
        then Ok foundNoForm r.(world)
        else Ok (abortedOrError exception) r.(world)
    | OutOfFuel => OutOfFuel
    | Ok None r => Ok foundNoForm r.(world)
    | Ok (Some object) r =>
        match genericEval jsFunction host fuel object r.(world) with
        | Throw exception w' => Ok (abortedOrError exception) w'
        | OutOfFuel => OutOfFuel
        | Ok result w' => Ok (success (stringify result)) w'
        end
    end.
Proof. reflexivity. Qed.

Lemma evaluateFirstForm_cases (fuel : nat) (text : jsstring) (w : World) :
  match read fuel (firstFormReading text w) with
  | Throw exception r =>
      if instanceofTruncatedToken exception || instanceofUnexpectedEndOfInput exception
      then evaluateFirstForm jsFunction host fuel text w = Ok foundNoForm r.(world)
      else instanceofAborted exception = false ->
           evaluateFirstForm jsFunction host fuel text w
           = Ok (mkResponse ERROR (OutputString (exception_message exception))) r.(world)
  | Ok None r => evaluateFirstForm jsFunction host fuel text w = Ok foundNoForm r.(world)
  | Ok (Some object) r =>
      statusOf (evaluateFirstForm jsFunction host fuel text w) <> Some FOUND_NO_FORM
  | OutOfFuel => evaluateFirstForm jsFunction host fuel text w = OutOfFuel
  end.
Proof.
  rewrite evaluateFirstForm_unfold.
  destruct (read fuel (firstFormReading text w)) as [[object|] r|exception r|];
    try reflexivity.
  - destruct (genericEval jsFunction host fuel object (world r)) as [result w'|e w'|];
      simpl; try discriminate.
    unfold abortedOrError. destruct (instanceofAborted e); simpl; discriminate.
  - destruct (instanceofTruncatedToken exception || instanceofUnexpectedEndOfInput exception);
      [reflexivity|].
    intros Ha. unfold abortedOrError. rewrite Ha. reflexivity.
Qed.

End InterfaceProperties.

(** C8: [evaluateFirstForm] answers FOUND_NO_FORM when reading the first
    form throws [TruncatedToken] or [UnexpectedEndOfInput] and when the
    reader finds no object in the text; any other error of the tokenizer or
    of the reader is answered with the status ERROR and its message; when an
    object is read, the answer is never FOUND_NO_FORM.  The unclosed text
    [( 1 2], an unterminated string, the empty text and a blank text are
    answered with FOUND_NO_FORM, an unexpected closing parenthesis with
    ERROR. *)
Theorem C8_evaluateFirstForm_found_no_form :
  (forall jsFunction host fuel text w,
     match read fuel (firstFormReading text w) with
     | Throw exception r =>
         if instanceofTruncatedToken exception || instanceofUnexpectedEndOfInput exception
         then evaluateFirstForm jsFunction host fuel text w = Ok foundNoForm r.(world)
         else instanceofAborted exception = false ->
              evaluateFirstForm jsFunction host fuel text w
              = Ok (mkResponse ERROR (OutputString (exception_message exception))) r.(world)
     | Ok None r => evaluateFirstForm jsFunction host fuel text w = Ok foundNoForm r.(world)
     | Ok (Some object) r =>
         statusOf (evaluateFirstForm jsFunction host fuel text w) <> Some FOUND_NO_FORM
     | OutOfFuel => evaluateFirstForm jsFunction host fuel text w = OutOfFuel
     end)
  /\ thrown (read 20 (firstFormReading (js "( 1 2") initialWorld)) = Some UnexpectedEndOfInput
  /\ statusOf (evaluateFirstForm coreJsFunction idleHost 20 (js "( 1 2") initialWorld)
     = Some FOUND_NO_FORM
  /\ option_map instanceofTruncatedToken
       (thrown (read 20 (firstFormReading (DQUOTE :: js "abc") initialWorld))) = Some true
  /\ statusOf (evaluateFirstForm coreJsFunction idleHost 20 (DQUOTE :: js "abc") initialWorld)
     = Some FOUND_NO_FORM
  /\ statusOf (evaluateFirstForm coreJsFunction idleHost 20 [] initialWorld)
     = Some FOUND_NO_FORM
  /\ statusOf (evaluateFirstForm coreJsFunction idleHost 20 (js "   ") initialWorld)
     = Some FOUND_NO_FORM
  /\ statusOf (evaluateFirstForm coreJsFunction idleHost 20 (js ") 1") initialWorld)
     = Some ERROR.
Proof.
  split; [exact evaluateFirstForm_cases|].
  repeat split; vm_compute; reflexivity.
Qed.

Section AbortByte.

Variable jsFunction : jsstring -> list EVLObject -> Cells -> (exception + Result) * Cells.
Variable host : nat -> Z -> Z.

Lemma clearAbortSignal_clearedWorld (w : World) : clearAbortSignal w = Ok tt (clearedWorld w).
Proof. reflexivity. Qed.

Lemma clearedWorld_idempotent (w : World) : clearedWorld (clearedWorld w) = clearedWorld w.
Proof. unfold clearedWorld. destruct w as [gv gf fr [b|] c e]; reflexivity. Qed.

Lemma clearedWorld_setAbort (b b' : Z) (c : nat) (w : World) :
  clearedWorld (setAbort (Some b) c w) = clearedWorld (setAbort (Some b') c w).
Proof. reflexivity. Qed.

Lemma evaluateFirstForm_clears (fuel : nat) (text : jsstring) (w : World) :
  evaluateFirstForm jsFunction host fuel text w
  = evaluateFirstForm jsFunction host fuel text (clearedWorld w).
Proof.
  unfold evaluateFirstForm, bind. rewrite !clearAbortSignal_clearedWorld.
  rewrite clearedWorld_idempotent. reflexivity.
Qed.

Lemma evaluateAllForms_clears (fuel : nat) (text : jsstring) (w : World) :
  evaluateAllForms jsFunction host fuel text w
  = evaluateAllForms jsFunction host fuel text (clearedWorld w).
Proof.
  unfold evaluateAllForms, bind. rewrite !clearAbortSignal_clearedWorld.
  rewrite clearedWorld_idempotent. reflexivity.
Qed.

Lemma convertEVLToXML_state (fuel : nat) (text : jsstring) (w : World) :
  match convertEVLToXML fuel text w with
  | Ok _ w' => w' = w
  | Throw _ _ => False
  | OutOfFuel => True
  end.
Proof.
  unfold convertEVLToXML.
  destruct (doConvertEVLToXML fuel (newTokenizer text true)); auto.
Qed.

Lemma initialize_installs (fuel : nat) (input : InitializeInput) (w : World) :
  exists w1,
    initialize jsFunction host fuel input w
    = initialize_files jsFunction host fuel input.(evlFiles) (EVLObject_ VOID_) w1
    /\ w1.(abortSignalArray) = Some input.(abortSignalBuffer)
    /\ w1.(clock) = w.(clock).
Proof.
  unfold initialize, initializeFeatureList, bind, modify, ret, GlobalEnv_set. simpl.
  eexists. split; [reflexivity|]. split; reflexivity.
Qed.

End AbortByte.


(** ** The reader *)

Lemma evaluateSymbolFeatureExpression_isFeature (symbol featureList : EVLObject)
  (features : list EVLObject) (w : World) :
  w.(globalValue) (js "*features*") = Some featureList ->
  properListElements featureList = Some features ->
  evaluateSymbolFeatureExpression symbol w = Ok (isFeature features symbol) w.
Proof.
  intros Hg Hl. unfold evaluateSymbolFeatureExpression, bind, GlobalEnv_ref. rewrite Hg.
  clear Hg. revert features Hl.
  induction featureList; intros features Hl; simpl in Hl; try discriminate.
  - injection Hl as <-. reflexivity.
  - destruct (properListElements featureList2) as [fs|] eqn:E; simpl in Hl; [|discriminate].
    injection Hl as <-. simpl.
    destruct (sameSymbol featureList1 symbol); [reflexivity|].
    simpl. apply IHfeatureList2. reflexivity.
Qed.

Section FeatureExpressions.

Variable w : World.
Variable featureList : EVLObject.
Variable features : list EVLObject.
Hypothesis Hglobal : w.(globalValue) (js "*features*") = Some featureList.
Hypothesis Hproper : properListElements featureList = Some features.

Let evaluates (featureExpression : EVLObject) : Prop :=
  wellFormedFeatureExpression featureExpression = true ->
  evaluateFeatureExpression featureExpression w
  = Ok (featureExpressionHolds features featureExpression) w.

Let allOperands : EVLObject -> bool :=
  fix all (operands : EVLObject) : bool :=
    match operands with
    | EVLEmptyList => true
    | EVLCons operand rest => wellFormedFeatureExpression operand && all rest
    | _ => false
    end.

Let andLoop : EVLObject -> M World bool :=
  fix loop (operands : EVLObject) : M World bool :=
    match operands with
    | EVLEmptyList => ret true
    | EVLCons operand rest =>
        b <- evaluateFeatureExpression operand;;
        if b then loop rest else ret false
    | _ => throw malformedFeatureExpression
    end.

Let orLoop : EVLObject -> M World bool :=
  fix loop (operands : EVLObject) : M World bool :=
    match operands with
    | EVLEmptyList => ret false
    | EVLCons operand rest =>
        b <- evaluateFeatureExpression operand;;
        if b then ret true else loop rest
    | _ => throw malformedFeatureExpression
    end.

Let allHold : EVLObject -> bool :=
  fix all (operands : EVLObject) : bool :=
    match operands with
    | EVLCons operand rest => featureExpressionHolds features operand && all rest
    | _ => true
    end.

Let anyHolds : EVLObject -> bool :=
  fix any (operands : EVLObject) : bool :=
    match operands with
    | EVLCons operand rest => featureExpressionHolds features operand || any rest
    | _ => false
    end.

Lemma evaluateFeatureExpression_strong (x : EVLObject) :
  evaluates x
  /\ match x with EVLCons operand _ => evaluates operand | _ => True end
  /\ (allOperands x = true -> andLoop x w = Ok (allHold x) w)
  /\ (allOperands x = true -> orLoop x w = Ok (anyHolds x) w).
Proof.
  induction x as [| | | | | name | name | | car IHcar cdr IHcdr | | | |];
    try (repeat split; try exact I; intros H; simpl in H; try discriminate; reflexivity).
  - repeat split; try exact I; try discriminate. intros _.
    apply evaluateSymbolFeatureExpression_isFeature with (featureList := featureList); assumption.
  - repeat split; try exact I; try discriminate. intros _.
    apply evaluateSymbolFeatureExpression_isFeature with (featureList := featureList); assumption.
  - destruct IHcar as [Hcar _]. destruct IHcdr as (_ & Hoperand & Hand & Hor).
    split; [|split; [exact Hcar|split]].
    + intros Hwf. simpl in Hwf |- *.
      destruct (isVariableNamed car notVariable).
      * destruct cdr as [| | | | | | | | operand rest | | | |]; try discriminate.
        destruct rest; try discriminate.
        unfold bind. rewrite (Hoperand Hwf). reflexivity.
      * destruct (isVariableNamed car andVariable); simpl in Hwf.
        { exact (Hand Hwf). }
        destruct (isVariableNamed car orVariable); simpl in Hwf; [|discriminate].
        exact (Hor Hwf).
    + intros Hall. simpl in Hall. apply andb_prop in Hall. destruct Hall as [H1 H2].
      simpl. unfold bind. rewrite (Hcar H1).
      destruct (featureExpressionHolds features car); simpl; [|reflexivity].
      exact (Hand H2).
    + intros Hall. simpl in Hall. apply andb_prop in Hall. destruct Hall as [H1 H2].
      simpl. unfold bind. rewrite (Hcar H1).
      destruct (featureExpressionHolds features car); simpl; [reflexivity|].
      exact (Hor H2).
Qed.

Lemma evaluateFeatureExpression_holds (featureExpression : EVLObject) :
  wellFormedFeatureExpression featureExpression = true ->
  evaluateFeatureExpression featureExpression w
  = Ok (featureExpressionHolds features featureExpression) w.
Proof. exact (proj1 (evaluateFeatureExpression_strong featureExpression)). Qed.

End FeatureExpressions.

(** A computation that reads the state only, and returns or throws. *)
Definition readsOnly {S A : Type} (m : M S A) : Prop :=
  forall s, (exists a, m s = Ok a s) \/ (exists e, m s = Throw e s).

Lemma readsOnly_ret {S A : Type} (a : A) : readsOnly (@ret S A a).
Proof. intros s. left. exists a. reflexivity. Qed.

Lemma readsOnly_throw {S A : Type} (e : exception) : readsOnly (@throw S A e).
Proof. intros s. right. exists e. reflexivity. Qed.

Lemma readsOnly_bind {S A B : Type} (m : M S A) (k : A -> M S B) :
  readsOnly m -> (forall a, readsOnly (k a)) -> readsOnly (bind m k).
Proof.
  intros Hm Hk s. unfold bind. destruct (Hm s) as [[a ->]|[e ->]].
  - apply Hk.
  - right. exists e. reflexivity.
Qed.

Lemma readsOnly_GlobalEnv_ref (namespace : Namespace) (variable : jsstring) :
  readsOnly (GlobalEnv_ref namespace variable).
Proof.
  intros w. unfold GlobalEnv_ref. destruct namespace.
  - destruct (globalValue w variable); [left|right]; eexists; reflexivity.
  - destruct (globalFunction w variable); [left|right]; eexists; reflexivity.
Qed.

Lemma readsOnly_evaluateSymbolFeatureExpression (symbol : EVLObject) :
  readsOnly (evaluateSymbolFeatureExpression symbol).
Proof.
  unfold evaluateSymbolFeatureExpression. apply readsOnly_bind.
  - apply readsOnly_GlobalEnv_ref.
  - intros l. induction l; try apply readsOnly_throw.
    + apply readsOnly_ret.
    + destruct (sameSymbol l1 symbol); [apply readsOnly_ret|exact IHl2].
Qed.

Lemma readsOnly_evaluateFeatureExpression_strong (x : EVLObject) :
  readsOnly (evaluateFeatureExpression x)
  /\ match x with
     | EVLCons operand _ => readsOnly (evaluateFeatureExpression operand)
     | _ => True
     end
  /\ readsOnly
       ((fix loop (operands : EVLObject) : M World bool :=
           match operands with
           | EVLEmptyList => ret true
           | EVLCons operand rest =>
               b <- evaluateFeatureExpression operand;;
               if b then loop rest else ret false
           | _ => throw malformedFeatureExpression
           end) x)
  /\ readsOnly
       ((fix loop (operands : EVLObject) : M World bool :=
           match operands with
           | EVLEmptyList => ret false
           | EVLCons operand rest =>
               b <- evaluateFeatureExpression operand;;
               if b then ret true else loop rest
           | _ => throw malformedFeatureExpression
           end) x).
Proof.
  induction x as [| | | | | name | name | | car IHcar cdr IHcdr | | | |];
    try (repeat split; try exact I;
         first [apply readsOnly_throw | apply readsOnly_ret
               | apply readsOnly_evaluateSymbolFeatureExpression]).
  destruct IHcar as [Hcar _]. destruct IHcdr as (_ & Hoperand & Hand & Hor).
  split; [|split; [exact Hcar|split]].
  - simpl. destruct (isVariableNamed car notVariable).
    + destruct cdr as [| | | | | | | | operand rest | | | |]; try apply readsOnly_throw.
      destruct rest; try apply readsOnly_throw.
      apply readsOnly_bind; [exact Hoperand|intros b; apply readsOnly_ret].
    + destruct (isVariableNamed car andVariable); [exact Hand|].
      destruct (isVariableNamed car orVariable); [exact Hor|apply readsOnly_throw].
  - apply readsOnly_bind; [exact Hcar|].
    intros [|]; [exact Hand|apply readsOnly_ret].
  - apply readsOnly_bind; [exact Hcar|].
    intros [|]; [apply readsOnly_ret|exact Hor].
Qed.

Lemma readsOnly_evaluateFeatureExpression (featureExpression : EVLObject) :
  readsOnly (evaluateFeatureExpression featureExpression).
Proof. exact (proj1 (readsOnly_evaluateFeatureExpression_strong featureExpression)). Qed.

(** What [readReadTimeConditional] does once the feature expression and the
    conditionalized object are read. *)
Lemma readReadTimeConditional_consumes (fuel : nat) (polarity : bool) (r r1 r2 : Reading)
  (featureExpression conditionalizedObject : EVLObject) :
  readFeatureExpression fuel r = Ok featureExpression r1 ->
  readConditionalizedObject fuel r1 = Ok conditionalizedObject r2 ->
  readReadTimeConditional fuel polarity r
  = match evaluateFeatureExpression featureExpression r2.(world) with
    | Ok b _ => Ok (if Bool.eqb b polarity then Some conditionalizedObject else None) r2
    | Throw e _ => Throw e r2
    | OutOfFuel => OutOfFuel
    end.
Proof.
  intros H1 H2. unfold readReadTimeConditional, readReadTimeConditional_.
  fold (readFeatureExpression fuel) (readConditionalizedObject fuel).
  rewrite (bind_Ok _ _ _ H1), (bind_Ok _ _ _ H2).
  unfold bind, onWorld.
  destruct (readsOnly_evaluateFeatureExpression featureExpression (world r2))
    as [[b Hb]|[e He]].
  - rewrite Hb. destruct r2 as [t w l]. simpl. destruct (Bool.eqb b polarity); reflexivity.
  - rewrite He. destruct r2 as [t w l]. reflexivity.
Qed.

(** C7: [readReadTimeConditional] reads the feature expression and then the
    conditionalized object before it looks at either: whether the object is
    kept or discarded, the reader is left in the state reached after both.
    With a proper list in the global variable [*features*], a feature
    expression built from [not], [and] and [or] over symbols evaluates to
    what it denotes over the elements of that list, and the object is kept
    exactly when that value is the polarity of the conditional. *)
Theorem C7_read_time_conditional (fuel : nat) (polarity : bool) (r r1 r2 : Reading)
  (featureExpression conditionalizedObject featureList : EVLObject)
  (features : list EVLObject) :
  readFeatureExpression fuel r = Ok featureExpression r1 ->
  readConditionalizedObject fuel r1 = Ok conditionalizedObject r2 ->
  r2.(world).(globalValue) (js "*features*") = Some featureList ->
  properListElements featureList = Some features ->
  wellFormedFeatureExpression featureExpression = true ->
  readReadTimeConditional fuel polarity r
  = Ok (if Bool.eqb (featureExpressionHolds features featureExpression) polarity
        then Some conditionalizedObject else None) r2.
Proof.
  intros H1 H2 Hg Hl Hwf.
  rewrite readReadTimeConditional_consumes
    with (r1 := r1) (r2 := r2) (featureExpression := featureExpression)
         (conditionalizedObject := conditionalizedObject) by assumption.
  rewrite evaluateFeatureExpression_holds
    with (featureList := featureList) (features := features) by assumption.
  reflexivity.
Qed.

Lemma C7_read_time_conditional_witness :
  let r := readerOn "(or a plainrec) x y" (initializedWorld "plainrec" 0) in
  let r1 := stateAfter (readFeatureExpression 20 r) r in
  let r2 := stateAfter (readConditionalizedObject 20 r1) r1 in
  readReadTimeConditional 20 true r = Ok (Some (EVLVariable (js "x"))) r2
  /\ readReadTimeConditional 20 false r = Ok None r2.
Proof.
  cbv zeta.
  set (r := readerOn "(or a plainrec) x y" (initializedWorld "plainrec" 0)).
  set (r1 := stateAfter (readFeatureExpression 20 r) r).
  set (r2 := stateAfter (readConditionalizedObject 20 r1) r1).
  pose (featureExpression :=
          makeList [EVLVariable (js "or"); EVLVariable (js "a"); EVLVariable (js "plainrec")]
            NIL).
  pose (featureList := makeList [EVLVariable (js "plainrec")] NIL).
  assert (H1 : readFeatureExpression 20 r = Ok featureExpression r1)
    by (vm_compute; reflexivity).
  assert (H2 : readConditionalizedObject 20 r1 = Ok (EVLVariable (js "x")) r2)
    by (vm_compute; reflexivity).
  assert (Hg : r2.(world).(globalValue) (js "*features*") = Some featureList)
    by (vm_compute; reflexivity).
  split.
  - exact (@C7_read_time_conditional _ true _ _ _ _ _ _ _ H1 H2 Hg eq_refl eq_refl).
  - exact (@C7_read_time_conditional _ false _ _ _ _ _ _ _ H1 H2 Hg eq_refl eq_refl).
Defined.

(** ** Pairing parameters with arguments *)

Lemma splitLast_app (leading : list EVLObject) (last : EVLObject) :
  splitLast (leading ++ [last]) = Some (leading, last).
Proof.
  induction leading as [|x r IH]; [reflexivity|].
  simpl. rewrite IH. destruct (r ++ [last]) eqn:E; [|reflexivity].
  destruct r; discriminate.
Qed.

Lemma makeList_app (a b : list EVLObject) (tail : EVLObject) :
  makeList (a ++ b) tail = makeList a (makeList b tail).
Proof. induction a as [|x r IH]; simpl; [reflexivity|]. rewrite IH. reflexivity. Qed.

Lemma instanceofEVLList_makeList (elements : list EVLObject) :
  instanceofEVLList (makeList elements NIL) = true.
Proof. destruct elements; reflexivity. Qed.

Lemma spreadLeading_spec (arityMax : option nat) (leading : list EVLObject) :
  forall (i : nat) (spreadArgs : list EVLObject),
    aboveArityMax arityMax i = false ->
    spreadLeading arityMax leading i spreadArgs
    = if aboveArityMax arityMax (i + length leading) then inl TooManyArguments
      else inr (i + length leading, spreadArgs ++ leading).
Proof.
  induction leading as [|x r IH]; intros i acc Hi; simpl.
  - rewrite Nat.add_0_r, app_nil_r, Hi. reflexivity.
  - destruct arityMax as [m|]; simpl in *.
    + apply Nat.ltb_ge in Hi. destruct (i <? m) eqn:E.
      * apply Nat.ltb_lt in E. rewrite IH by (apply Nat.ltb_ge; lia).
        replace (S i + length r) with (i + S (length r)) by lia.
        rewrite <- app_assoc. reflexivity.
      * apply Nat.ltb_ge in E.
        replace (m <? i + S (length r)) with true by (symmetry; apply Nat.ltb_lt; lia).
        reflexivity.
    + rewrite IH by reflexivity.
      replace (S i + length r) with (i + S (length r)) by lia.
      rewrite <- app_assoc. reflexivity.
Qed.

Lemma spreadList_spec (arityMax : option nat) (elements : list EVLObject) :
  forall (i : nat) (spreadArgs : list EVLObject),
    aboveArityMax arityMax i = false ->
    spreadList arityMax (makeList elements NIL) i spreadArgs
    = if aboveArityMax arityMax (i + length elements) then inl TooManyArguments
      else inr (i + length elements, spreadArgs ++ elements).
Proof.
  induction elements as [|x r IH]; intros i acc Hi; simpl.
  - rewrite Nat.add_0_r, app_nil_r, Hi. reflexivity.
  - destruct arityMax as [m|]; simpl in *.
    + apply Nat.ltb_ge in Hi. destruct (i <? m) eqn:E.
      * apply Nat.ltb_lt in E. rewrite IH by (apply Nat.ltb_ge; lia).
        replace (S i + length r) with (i + S (length r)) by lia.
        rewrite <- app_assoc. reflexivity.
      * apply Nat.ltb_ge in E.
        replace (m <? i + S (length r)) with true by (symmetry; apply Nat.ltb_lt; lia).
        reflexivity.
    + rewrite IH by reflexivity.
      replace (S i + length r) with (i + S (length r)) by lia.
      rewrite <- app_assoc. reflexivity.
Qed.

(** Spreading a proper list: a primitive function. *)
Lemma pairPrimFunParameters_spread (leading elements : list EVLObject) (arityMin : nat)
  (arityMax : option nat) :
  saneArity arityMin arityMax ->
  pairPrimFunParameters true (leading ++ [makeList elements NIL]) arityMin arityMax
  = pairPrimFunParameters false (leading ++ elements) arityMin arityMax.
Proof.
  intros Hsane. unfold pairPrimFunParameters. simpl.
  unfold pairPrimFunParametersApply, pairPrimFunParametersNoApply.
  rewrite splitLast_app, length_app.
  rewrite spreadLeading_spec by (destruct arityMax; reflexivity). simpl.
  destruct arityMax as [m|]; simpl in *.
  - destruct (m <? length leading) eqn:E1; simpl.
    + apply Nat.ltb_lt in E1.
      replace (length leading + length elements <? arityMin) with false
        by (symmetry; apply Nat.ltb_ge; lia).
      replace (m <? length leading + length elements) with true
        by (symmetry; apply Nat.ltb_lt; lia).
      reflexivity.
    + rewrite instanceofEVLList_makeList. simpl.
      rewrite spreadList_spec by exact E1. simpl.
      destruct (m <? length leading + length elements) eqn:E2; simpl.
      * apply Nat.ltb_lt in E2.
        replace (length leading + length elements <? arityMin) with false
          by (symmetry; apply Nat.ltb_ge; lia).
        reflexivity.
      * reflexivity.
  - rewrite instanceofEVLList_makeList. simpl.
    rewrite spreadList_spec by reflexivity. simpl. reflexivity.
Qed.

Lemma pairLeadingNoRest_spreadLeading (nparameters : nat) (leading : list EVLObject) :
  forall i values,
    pairLeadingNoRest nparameters leading i values
    = spreadLeading (Some nparameters) leading i values.
Proof.
  induction leading as [|x r IH]; intros i values; simpl; [reflexivity|].
  rewrite IH. reflexivity.
Qed.

Lemma pairListNoRest_spreadList (nparameters : nat) (argList : EVLObject) :
  forall i values,
    pairListNoRest nparameters argList i values
    = spreadList (Some nparameters) argList i values.
Proof.
  induction argList; intros i values; simpl; try reflexivity.
  rewrite IHargList2. reflexivity.
Qed.

(** Without a rest parameter a closure pairs as a primitive function that
    accepts exactly as many arguments as there are parameters. *)
Lemma pairClosureParameters_noRest (apply : bool) (args : list EVLObject)
  (parameters : list jsstring) :
  pairClosureParameters apply args parameters false
  = pairPrimFunParameters apply args (length parameters) (Some (length parameters)).
Proof.
  unfold pairClosureParameters, pairPrimFunParameters. destruct apply; simpl.
  - unfold pairClosureParametersApplyNoRest, pairPrimFunParametersApply.
    destruct (splitLast args) as [[leading last]|]; [|reflexivity].
    rewrite pairLeadingNoRest_spreadLeading.
    destruct (spreadLeading (Some (length parameters)) leading 0 []) as [e|[i values]];
      [reflexivity|]. simpl.
    destruct (instanceofEVLList last); [|reflexivity]. simpl.
    rewrite pairListNoRest_spreadList. reflexivity.
  - reflexivity.
Qed.

Lemma pairLeadingRest_spec (fixed : nat) (leading : list EVLObject) :
  forall (i : nat) (values list_ : list EVLObject),
    pairLeadingRest fixed leading i values list_
    = (i + length leading,
       values ++ firstn (fixed - i) leading,
       list_ ++ skipn (fixed - i) leading).
Proof.
  induction leading as [|x r IH]; intros i values list_; simpl.
  - rewrite Nat.add_0_r, firstn_nil, skipn_nil, !app_nil_r. reflexivity.
  - destruct (i <? fixed) eqn:E.
    + apply Nat.ltb_lt in E. rewrite IH.
      replace (fixed - i) with (S (fixed - S i)) by lia. simpl.
      rewrite <- app_assoc. f_equal. f_equal. lia.
    + apply Nat.ltb_ge in E. rewrite IH.
      replace (fixed - i) with 0 by lia. replace (fixed - S i) with 0 by lia. simpl.
      rewrite <- app_assoc, app_nil_r. f_equal. f_equal. lia.
Qed.

Lemma pairListRest_spec (fixed : nat) (elements : list EVLObject) :
  forall (i : nat) (values list_ : list EVLObject),
    exists i',
      pairListRest fixed (makeList elements NIL) i values list_
      = inr (i', values ++ firstn (fixed - i) elements,
             makeList (list_ ++ skipn (fixed - i) elements) NIL)
      /\ (i' <? fixed) = (i + length elements <? fixed).
Proof.
  induction elements as [|x r IH]; intros i values list_; simpl.
  - exists i. rewrite firstn_nil, skipn_nil, !app_nil_r, Nat.add_0_r. split; reflexivity.
  - destruct (i <? fixed) eqn:E.
    + apply Nat.ltb_lt in E.
      destruct (IH (S i) (values ++ [x]) list_) as (i' & H1 & H2).
      exists i'. rewrite H1.
      replace (fixed - i) with (S (fixed - S i)) by lia. simpl.
      rewrite <- app_assoc. split; [reflexivity|].
      rewrite H2. f_equal. lia.
    + exists i. apply Nat.ltb_ge in E.
      replace (fixed - i) with 0 by lia. simpl. rewrite app_nil_r.
      split.
      * f_equal. f_equal. rewrite makeList_app. reflexivity.
      * transitivity false; [apply Nat.ltb_ge; lia|symmetry; apply Nat.ltb_ge; lia].
Qed.

(** Spreading a proper list: a closure. *)
Lemma pairClosureParameters_spread (leading elements : list EVLObject)
  (parameters : list jsstring) (rest : bool) :
  pairClosureParameters true (leading ++ [makeList elements NIL]) parameters rest
  = pairClosureParameters false (leading ++ elements) parameters rest.
Proof.
  destruct rest.
  - unfold pairClosureParameters. simpl.
    unfold pairClosureParametersApplyRest, pairClosureParametersNoApplyRest.
    rewrite splitLast_app, !pairLeadingRest_spec. simpl.
    rewrite instanceofEVLList_makeList, Nat.sub_0_r. simpl.
    destruct (pairListRest_spec (length parameters - 1) elements (length leading)
                (firstn (length parameters - 1) leading)
                (skipn (length parameters - 1) leading)) as (i' & H1 & H2).
    rewrite H1. simpl. rewrite H2, length_app.
    destruct (length leading + length elements <? length parameters - 1); [reflexivity|].
    f_equal. f_equal.
    + rewrite firstn_app. reflexivity.
    + rewrite skipn_app. reflexivity.
  - rewrite !pairClosureParameters_noRest.
    apply pairPrimFunParameters_spread. simpl. lia.
Qed.

(** The final argument of an [apply] is not a list. *)
Lemma pairPrimFunParameters_not_a_list (leading : list EVLObject) (last : EVLObject)
  (arityMin : nat) (arityMax : option nat) :
  instanceofEVLList last = false ->
  pairPrimFunParameters true (leading ++ [last]) arityMin arityMax
  = if aboveArityMax arityMax (length leading) then inl TooManyArguments
    else inl MalformedSpreadableSequenceOfObjects.
Proof.
  intros Hlast. unfold pairPrimFunParameters. simpl. unfold pairPrimFunParametersApply.
  rewrite splitLast_app, spreadLeading_spec by (destruct arityMax; reflexivity). simpl.
  destruct (aboveArityMax arityMax (length leading)); [reflexivity|].
  simpl. rewrite Hlast. reflexivity.
Qed.

Lemma pairClosureParameters_rest_not_a_list (leading : list EVLObject) (last : EVLObject)
  (parameters : list jsstring) :
  instanceofEVLList last = false ->
  pairClosureParameters true (leading ++ [last]) parameters true
  = inl MalformedSpreadableSequenceOfObjects.
Proof.
  intros Hlast. unfold pairClosureParameters. simpl. unfold pairClosureParametersApplyRest.
  rewrite splitLast_app, pairLeadingRest_spec, Hlast. reflexivity.
Qed.

(** The final argument of an [apply] is a dotted list: its last [cdr] is
    not a list. *)
Lemma spreadList_dotted (arityMax : option nat) (elements : list EVLObject)
  (tail : EVLObject) :
  instanceofEVLList tail = false ->
  forall (i : nat) (spreadArgs : list EVLObject),
    aboveArityMax arityMax i = false ->
    spreadList arityMax (makeList elements tail) i spreadArgs
    = if aboveArityMax arityMax (i + length elements) then inl TooManyArguments
      else inl MalformedSpreadableSequenceOfObjects.
Proof.
  intros Htail. induction elements as [|x r IH]; intros i acc Hi; simpl.
  - rewrite Nat.add_0_r, Hi. destruct tail; try reflexivity; discriminate.
  - destruct arityMax as [m|]; simpl in *.
    + apply Nat.ltb_ge in Hi. destruct (i <? m) eqn:E.
      * apply Nat.ltb_lt in E. rewrite IH by (apply Nat.ltb_ge; lia).
        replace (S i + length r) with (i + S (length r)) by lia. reflexivity.
      * apply Nat.ltb_ge in E.
        replace (m <? i + S (length r)) with true by (symmetry; apply Nat.ltb_lt; lia).
        reflexivity.
    + rewrite IH by reflexivity. reflexivity.
Qed.

Lemma pairPrimFunParameters_dotted (leading elements : list EVLObject) (tail : EVLObject)
  (arityMin : nat) (arityMax : option nat) :
  instanceofEVLList tail = false ->
  pairPrimFunParameters true (leading ++ [makeList elements tail]) arityMin arityMax
  = if aboveArityMax arityMax (length leading + length elements) then inl TooManyArguments
    else inl MalformedSpreadableSequenceOfObjects.
Proof.
  intros Htail. destruct elements as [|x r].
  - simpl. rewrite Nat.add_0_r. apply pairPrimFunParameters_not_a_list. exact Htail.
  - unfold pairPrimFunParameters. simpl negb. cbv iota.
    unfold pairPrimFunParametersApply.
    rewrite splitLast_app, spreadLeading_spec by (destruct arityMax; reflexivity).
    rewrite Nat.add_0_l.
    destruct (aboveArityMax arityMax (length leading)) eqn:E1.
    + destruct arityMax as [m|]; simpl in *; [|discriminate].
      apply Nat.ltb_lt in E1.
      replace (m <? length leading + S (length r)) with true
        by (symmetry; apply Nat.ltb_lt; lia).
      reflexivity.
    + unfold bindE at 1.
      change (instanceofEVLList (makeList (x :: r) tail)) with true.
      simpl negb. cbv iota.
      rewrite (@spreadList_dotted arityMax (x :: r) tail Htail) by exact E1.
      destruct (aboveArityMax arityMax (length leading + length (x :: r))); reflexivity.
Qed.

Lemma pairListRest_dotted (fixed : nat) (tail : EVLObject) (r : list EVLObject) :
  instanceofEVLList tail = false ->
  forall (x : EVLObject) (i : nat) (values list_ : list EVLObject),
    pairListRest fixed (makeList (x :: r) tail) i values list_
    = if i + length (x :: r) <=? fixed then inl MalformedSpreadableSequenceOfObjects
      else inr (Nat.max i fixed, values ++ firstn (fixed - i) (x :: r),
                makeList (list_ ++ skipn (fixed - i) (x :: r)) tail).
Proof.
  intros Htail. induction r as [|y r IH]; intros x i values list_.
  - simpl. destruct (i <? fixed) eqn:E.
    + apply Nat.ltb_lt in E.
      replace (i + 1 <=? fixed) with true by (symmetry; apply Nat.leb_le; lia).
      destruct tail; try reflexivity; discriminate.
    + apply Nat.ltb_ge in E.
      replace (i + 1 <=? fixed) with false by (symmetry; apply Nat.leb_gt; lia).
      replace (fixed - i) with 0 by lia. simpl.
      rewrite app_nil_r, makeList_app. f_equal. f_equal. f_equal. lia.
  - change (makeList (x :: y :: r) tail) with (EVLCons x (makeList (y :: r) tail)).
    simpl pairListRest. destruct (i <? fixed) eqn:E.
    + apply Nat.ltb_lt in E. change (makeList (y :: r) tail) with (makeList (y :: r) tail).
      specialize (IH y (S i) (values ++ [x]) list_). simpl makeList in IH.
      simpl pairListRest in IH. rewrite IH.
      replace (i + length (x :: y :: r)) with (S i + length (y :: r)) by (simpl; lia).
      destruct (S i + length (y :: r) <=? fixed); [reflexivity|].
      replace (fixed - i) with (S (fixed - S i)) by lia.
      cbn [firstn skipn]. rewrite <- app_assoc. simpl app.
      f_equal. f_equal. f_equal. lia.
    + apply Nat.ltb_ge in E.
      replace (i + length (x :: y :: r) <=? fixed) with false
        by (symmetry; apply Nat.leb_gt; simpl; lia).
      replace (fixed - i) with 0 by lia. cbn [firstn skipn].
      rewrite app_nil_r, makeList_app. f_equal. f_equal. f_equal. lia.
Qed.

(** With a rest parameter the pairing of an [apply] stops at the rest
    parameter and adopts what is left of the final argument. *)
Lemma pairClosureParameters_rest_dotted (leading r : list EVLObject) (x tail : EVLObject)
  (parameters : list jsstring) :
  instanceofEVLList tail = false ->
  pairClosureParameters true (leading ++ [makeList (x :: r) tail]) parameters true
  = if length leading + length (x :: r) <=? length parameters - 1
    then inl MalformedSpreadableSequenceOfObjects
    else inr (storeRest (length parameters)
                (firstn (length parameters - 1) (leading ++ x :: r))
                (makeList (skipn (length parameters - 1) (leading ++ x :: r)) tail)).
Proof.
  intros Htail. unfold pairClosureParameters. simpl negb. cbv iota.
  unfold pairClosureParametersApplyRest.
  rewrite splitLast_app, pairLeadingRest_spec. simpl instanceofEVLList. simpl negb.
  cbv iota. rewrite (@pairListRest_dotted (length parameters - 1) tail r Htail).
  rewrite Nat.add_0_l, Nat.sub_0_r.
  destruct (length leading + length (x :: r) <=? length parameters - 1) eqn:E;
    [reflexivity|].
  simpl bindE. apply Nat.leb_gt in E.
  replace (Nat.max (length leading) (length parameters - 1) <? length parameters - 1)
    with false by (symmetry; apply Nat.ltb_ge; lia).
  simpl app. rewrite firstn_app, skipn_app. reflexivity.
Qed.

Section InvokeFunSpread.

Variable jsFunction : jsstring -> list EVLObject -> Cells -> (exception + Result) * Cells.
Variables (fn : EVLObject) (leading elements : list EVLObject).
Hypothesis Hsane : saneFunction fn.

Let spread := leading ++ [makeList elements NIL].
Let plain := leading ++ elements.

Ltac invokeFun_spread :=
  destruct fn as [| | | | | | | | | | arityMin arityMax name
                 | scope namespace m parameters rest forms fnlenv |];
  try reflexivity; cbn beta iota delta -[pairPrimFunParameters pairClosureParameters];
  unfold spread, plain;
  [rewrite pairPrimFunParameters_spread by exact Hsane
  |rewrite pairClosureParameters_spread];
  reflexivity.

Lemma plainrecInvokeFun_spread rec macro lenv denv :
  plainrecInvokeFun jsFunction rec true macro fn spread lenv denv
  = plainrecInvokeFun jsFunction rec false macro fn plain lenv denv.
Proof. unfold plainrecInvokeFun. invokeFun_spread. Qed.

Lemma cpsInvokeFun_spread rec macro lenv denv k :
  cpsInvokeFun jsFunction rec true macro fn spread lenv denv k
  = cpsInvokeFun jsFunction rec false macro fn plain lenv denv k.
Proof. unfold cpsInvokeFun. invokeFun_spread. Qed.

Lemma oocpsInvokeFun_spread rec invoke macro lenv denv k :
  oocpsInvokeFun jsFunction rec invoke true macro fn spread lenv denv k
  = oocpsInvokeFun jsFunction rec invoke false macro fn plain lenv denv k.
Proof. unfold oocpsInvokeFun. invokeFun_spread. Qed.

Lemma sboocpsInvokeFun_spread rec invoke macro lenv :
  sboocpsInvokeFun jsFunction rec invoke true macro fn spread lenv
  = sboocpsInvokeFun jsFunction rec invoke false macro fn plain lenv.
Proof. unfold sboocpsInvokeFun. invokeFun_spread. Qed.

Lemma trampolineInvokeFun_spread macro lenv :
  trampolineInvokeFun jsFunction true macro fn spread lenv
  = trampolineInvokeFun jsFunction false macro fn plain lenv.
Proof. unfold trampolineInvokeFun. invokeFun_spread. Qed.

Lemma trampolineppInvokeFun_spread lenv :
  trampolineppInvokeFun jsFunction true fn spread lenv
  = trampolineppInvokeFun jsFunction false fn plain lenv.
Proof. unfold trampolineppInvokeFun. invokeFun_spread. Qed.

End InvokeFunSpread.

(** C6 (as stated, refuted): an [apply] whose final argument is an improper
    list does not always signal MalformedSpreadableSequenceOfObjects.  With a
    rest parameter the pairing stops at the rest parameter and adopts what
    is left of the final argument without looking at it: the dotted pair
    [(2 . 3)] becomes the value of the rest parameter.  Without a rest
    parameter too many arguments are signalled before the final argument is
    looked at. *)
Lemma C6_improper_tail_is_adopted :
  properListElements (EVLCons (EVLVariable (js "b")) (EVLVariable (js "c"))) = None
  /\ pairClosureParameters true
       [EVLVariable (js "a"); EVLCons (EVLVariable (js "b")) (EVLVariable (js "c"))]
       [js "x"; js "z"] true
     = inr [EVLVariable (js "a"); EVLCons (EVLVariable (js "b")) (EVLVariable (js "c"))]
  /\ respondAll 100 "(apply (_vlambda (x . z) z) 1 '(2 . 3))"
     = map (fun _ => answers ["(2 . 3)"%string]) evaluators
  /\ respondAll 100 "(apply car 1 2 3)"
     = map (fun _ => failure "Too many arguments.") evaluators.
Proof. repeat split; vm_compute; reflexivity. Qed.

(** C6 (amended): spreading a proper list is the call on its elements, for
    the pairing of primitive functions and of closures and so for the
    function invocation of each of the six evaluators; without [apply] the
    pairing signals TooFewArguments or TooManyArguments exactly when the
    number of arguments is outside the accepted range; with [apply] a final
    argument that is not a list, and a dotted list that is walked to its end,
    signal MalformedSpreadableSequenceOfObjects unless too many arguments are
    counted before; and with a rest parameter a dotted list longer than the
    remaining fixed parameters is adopted as it is, without an error. *)
Theorem C6_pairing_of_parameters_with_arguments :
  (* spreading *)
  (forall leading elements arityMin arityMax,
     saneArity arityMin arityMax ->
     pairPrimFunParameters true (leading ++ [makeList elements NIL]) arityMin arityMax
     = pairPrimFunParameters false (leading ++ elements) arityMin arityMax)
  /\ (forall leading elements parameters rest,
        pairClosureParameters true (leading ++ [makeList elements NIL]) parameters rest
        = pairClosureParameters false (leading ++ elements) parameters rest)
  /\ (forall jsFunction fn leading elements,
        saneFunction fn ->
        let spread := leading ++ [makeList elements NIL] in
        let plain := leading ++ elements in
        (forall rec macro lenv denv,
           plainrecInvokeFun jsFunction rec true macro fn spread lenv denv
           = plainrecInvokeFun jsFunction rec false macro fn plain lenv denv)
        /\ (forall rec macro lenv denv k,
              cpsInvokeFun jsFunction rec true macro fn spread lenv denv k
              = cpsInvokeFun jsFunction rec false macro fn plain lenv denv k)
        /\ (forall rec invoke macro lenv denv k,
              oocpsInvokeFun jsFunction rec invoke true macro fn spread lenv denv k
              = oocpsInvokeFun jsFunction rec invoke false macro fn plain lenv denv k)
        /\ (forall rec invoke macro lenv,
              sboocpsInvokeFun jsFunction rec invoke true macro fn spread lenv
              = sboocpsInvokeFun jsFunction rec invoke false macro fn plain lenv)
        /\ (forall macro lenv,
              trampolineInvokeFun jsFunction true macro fn spread lenv
              = trampolineInvokeFun jsFunction false macro fn plain lenv)
        /\ (forall lenv,
              trampolineppInvokeFun jsFunction true fn spread lenv
              = trampolineppInvokeFun jsFunction false fn plain lenv))
  (* the accepted range *)
  /\ (forall args arityMin arityMax,
        pairPrimFunParameters false args arityMin arityMax
        = if length args <? arityMin then inl TooFewArguments
          else if aboveArityMax arityMax (length args) then inl TooManyArguments
          else inr args)
  /\ (forall args parameters,
        pairClosureParameters false args parameters false
        = if length args <? length parameters then inl TooFewArguments
          else if length parameters <? length args then inl TooManyArguments
          else inr args)
  /\ (forall args parameters,
        pairClosureParameters false args parameters true
        = if length args <? length parameters - 1 then inl TooFewArguments
          else inr (storeRest (length parameters)
                      (firstn (length parameters - 1) args)
                      (makeList (skipn (length parameters - 1) args) NIL)))
  (* a final argument that is not a list *)
  /\ (forall arityMin arityMax,
        pairPrimFunParameters true [] arityMin arityMax
        = inl MalformedSpreadableSequenceOfObjects)
  /\ (forall parameters rest,
        pairClosureParameters true [] parameters rest
        = inl MalformedSpreadableSequenceOfObjects)
  /\ (forall leading last arityMin arityMax,
        instanceofEVLList last = false ->
        pairPrimFunParameters true (leading ++ [last]) arityMin arityMax
        = if aboveArityMax arityMax (length leading) then inl TooManyArguments
          else inl MalformedSpreadableSequenceOfObjects)
  /\ (forall leading last parameters,
        instanceofEVLList last = false ->
        pairClosureParameters true (leading ++ [last]) parameters false
        = if length parameters <? length leading then inl TooManyArguments
          else inl MalformedSpreadableSequenceOfObjects)
  /\ (forall leading last parameters,
        instanceofEVLList last = false ->
        pairClosureParameters true (leading ++ [last]) parameters true
        = inl MalformedSpreadableSequenceOfObjects)
  (* a final argument that is a dotted list *)
  /\ (forall leading elements tail arityMin arityMax,
        instanceofEVLList tail = false ->
        pairPrimFunParameters true (leading ++ [makeList elements tail]) arityMin arityMax
        = if aboveArityMax arityMax (length leading + length elements)
          then inl TooManyArguments
          else inl MalformedSpreadableSequenceOfObjects)
  /\ (forall leading elements tail parameters,
        instanceofEVLList tail = false ->
        pairClosureParameters true (leading ++ [makeList elements tail]) parameters false
        = if length parameters <? length leading + length elements
          then inl TooManyArguments
          else inl MalformedSpreadableSequenceOfObjects)
  /\ (forall leading x r tail parameters,
        instanceofEVLList tail = false ->
        pairClosureParameters true (leading ++ [makeList (x :: r) tail]) parameters true
        = if length leading + length (x :: r) <=? length parameters - 1
          then inl MalformedSpreadableSequenceOfObjects
          else inr (storeRest (length parameters)
                      (firstn (length parameters - 1) (leading ++ x :: r))
                      (makeList (skipn (length parameters - 1) (leading ++ x :: r)) tail))).
Proof.
  split; [exact pairPrimFunParameters_spread|].
  split; [exact pairClosureParameters_spread|].
  split.
  { intros jsFunction fn leading elements Hsane spread plain.
    split; [intros; apply plainrecInvokeFun_spread; exact Hsane|].
    split; [intros; apply cpsInvokeFun_spread; exact Hsane|].
    split; [intros; apply oocpsInvokeFun_spread; exact Hsane|].
    split; [intros; apply sboocpsInvokeFun_spread; exact Hsane|].
    split; [intros; apply trampolineInvokeFun_spread; exact Hsane|].
    intros; apply trampolineppInvokeFun_spread; exact Hsane. }
  split.
  { intros args arityMin arityMax. unfold pairPrimFunParameters. simpl.
    unfold pairPrimFunParametersNoApply. destruct arityMax; reflexivity. }
  split; [reflexivity|].
  split.
  { intros args parameters. unfold pairClosureParameters. simpl.
    unfold pairClosureParametersNoApplyRest. rewrite pairLeadingRest_spec. simpl.
    rewrite Nat.sub_0_r. reflexivity. }
  split; [reflexivity|].
  split; [intros parameters [|]; reflexivity|].
  split; [exact pairPrimFunParameters_not_a_list|].
  split.
  { intros leading last parameters Hlast. rewrite pairClosureParameters_noRest.
    rewrite pairPrimFunParameters_not_a_list by exact Hlast. reflexivity. }
  split; [exact pairClosureParameters_rest_not_a_list|].
  split; [exact pairPrimFunParameters_dotted|].
  split.
  { intros leading elements tail parameters Htail. rewrite pairClosureParameters_noRest.
    rewrite pairPrimFunParameters_dotted by exact Htail. reflexivity. }
  intros leading x r tail parameters Htail.
  apply pairClosureParameters_rest_dotted. exact Htail.
Qed.

Lemma C6_pairing_of_parameters_with_arguments_witness :
  pairPrimFunParameters true
    ([EVLVariable (js "a")] ++ [makeList [EVLVariable (js "b")] NIL]) 2 (Some 2)
  = pairPrimFunParameters false ([EVLVariable (js "a")] ++ [EVLVariable (js "b")]) 2 (Some 2).
Proof.
  apply (proj1 C6_pairing_of_parameters_with_arguments). simpl. lia.
Defined.

(** ** The preprocessor of the trampoline++ evaluator *)

Lemma allMlambda_allFormsOf (operands : EVLObject) :
  allMlambda operands = inr true <-> allFormsOf "mlambda" operands = true.
Proof.
  induction operands as [| | | | | | | | operand _ rest IH | | | |];
    cbn [allMlambda allFormsOf]; try (split; discriminate).
  - split; reflexivity.
  - destruct operand as [| | | | | | | | car cdr | | | |]; cbn [isFormOf andb];
      try (split; discriminate).
    change (js "mlambda") with mlambdaVariable.
    destruct (isVariableNamed car mlambdaVariable); cbn [andb]; [exact IH|].
    split; discriminate.
Qed.

Lemma isMacroLet_recognizes (operator operands : EVLObject) :
  isMacroLet operator operands = inr true
  <-> isFormOf "_flambda" operator = true /\ allFormsOf "mlambda" operands = true.
Proof.
  unfold isMacroLet.
  destruct operator as [| | | | | | | | car cdr | | | |]; cbn [isFormOf];
    try (split; [discriminate|intros [H _]; discriminate]).
  change (js "_flambda") with _flambdaVariable.
  destruct (isVariableNamed car _flambdaVariable); cbn [negb].
  - rewrite allMlambda_allFormsOf. split; [intros H; split; [reflexivity|exact H]|].
    intros [_ H]; exact H.
  - split; [discriminate|intros [H _]; discriminate].
Qed.

(** The variables [_mlambda] and [mlambda] are not the same. *)
Lemma allFormsOf__mlambda (operand rest : EVLObject) :
  allFormsOf "_mlambda" (EVLCons operand rest) = true ->
  allFormsOf "mlambda" (EVLCons operand rest) = false.
Proof.
  cbn [allFormsOf]. intros H. apply andb_prop in H. destruct H as [H _].
  destruct operand as [| | | | | | | | car cdr | | | |]; try discriminate.
  cbn [isFormOf] in *.
  destruct car; try discriminate. cbn [isVariableNamed] in *.
  replace (jseqb name (js "mlambda")) with false; [reflexivity|].
  symmetry.
  destruct name as [|c name]; [reflexivity|].
  simpl in H |- *. destruct (Z.eqb_spec c 95); [subst c; reflexivity|discriminate].
Qed.

Section MacroLet.

Variable jsFunction : jsstring -> list EVLObject -> Cells -> (exception + Result) * Cells.
Variable host : nat -> Z -> Z.
Variable trampolineppPreprocessForm : EVLObject -> CompileEnv -> M World TrampolineppForm.

Lemma trampolineppPreprocessCall_macroLet (fuel : nat) (mv apply : bool)
  (form operator operands : EVLObject) (lenv : CompileEnv) (w : World) :
  analyzeCall mv apply form = inr (operator, operands) ->
  instanceofEVLVariable operator = false ->
  trampolineppPreprocessCall jsFunction host trampolineppPreprocessForm fuel mv apply form
    lenv w
  = match isMacroLet operator operands with
    | inr true => macroLetExpansion trampolineppPreprocessForm mv apply operator operands lenv w
    | inr false => ordinaryCall trampolineppPreprocessForm mv apply operator operands lenv w
    | inl e => Throw e w
    end.
Proof.
  intros Ha Hv. unfold trampolineppPreprocessCall. rewrite Ha.
  unfold liftE at 1. unfold bind at 1. unfold ret at 1.
  destruct operator; try discriminate; cbv beta iota;
    (destruct (isMacroLet _ operands) as [e|[|]]; reflexivity).
Qed.

End MacroLet.

Lemma isMacroLet__mlambda (operator operand rest : EVLObject) :
  isFormOf "_flambda" operator = true ->
  isFormOf "_mlambda" operand = true ->
  isMacroLet operator (EVLCons operand rest) = inr false.
Proof.
  intros Hf Hm. unfold isMacroLet.
  destruct operator as [| | | | | | | | car cdr | | | |]; try discriminate.
  cbn [isFormOf] in Hf. change (js "_flambda") with _flambdaVariable in Hf.
  rewrite Hf. cbn [negb allMlambda].
  destruct operand as [| | | | | | | | ocar ocdr | | | |]; try discriminate.
  cbn [isFormOf] in Hm. destruct ocar; try discriminate. cbn [isVariableNamed] in *.
  replace (jseqb name mlambdaVariable) with false; [reflexivity|].
  symmetry. destruct name as [|c name]; [reflexivity|].
  simpl in Hm |- *. destruct (Z.eqb_spec c 95); [subst c; reflexivity|discriminate].
Qed.




(** ** Computations that keep a relation between the states *)

Section Keeps.

Variable S : Type.
Variable R : S -> S -> Prop.
Hypothesis R_refl : forall s, R s s.
Hypothesis R_trans : forall s1 s2 s3, R s1 s2 -> R s2 s3 -> R s1 s3.

(** [m] returns or throws, without running out of fuel, in a state related
    to the one it starts in. *)
Definition keeps {A : Type} (m : M S A) : Prop :=
  forall s,
    match m s with
    | Ok _ s' => R s s'
    | Throw _ s' => R s s'
    | OutOfFuel => False
    end.

Lemma keeps_ret {A : Type} (a : A) : keeps (ret a).
Proof. intros s. apply R_refl. Qed.

Lemma keeps_throw {A : Type} (e : exception) : keeps (@throw S A e).
Proof. intros s. apply R_refl. Qed.

Lemma keeps_get : keeps get.
Proof. intros s. apply R_refl. Qed.

Lemma keeps_liftE {A : Type} (x : exception + A) : keeps (liftE x).
Proof. destruct x; [apply keeps_throw|apply keeps_ret]. Qed.

Lemma keeps_bind {A B : Type} (m : M S A) (k : A -> M S B) :
  keeps m -> (forall a, keeps (k a)) -> keeps (bind m k).
Proof.
  intros Hm Hk s. unfold bind. specialize (Hm s).
  destruct (m s) as [a s'|e s'|]; [|exact Hm|exact Hm].
  specialize (Hk a s'). destruct (k a s'); eauto.
Qed.

End Keeps.

(** *** The abort byte and the evaluators *)

Lemma sameAbort_refl (w : World) : sameAbort w w.
Proof. split; reflexivity. Qed.

Lemma sameAbort_trans (w1 w2 w3 : World) :
  sameAbort w1 w2 -> sameAbort w2 w3 -> sameAbort w1 w3.
Proof. intros [H1 H2] [H3 H4]. split; congruence. Qed.

Create HintDb keeps.

#[export] Hint Resolve sameAbort_refl sameAbort_trans : keeps.

Ltac keeps_world :=
  repeat first
    [ apply (keeps_ret _ sameAbort_refl)
    | apply (keeps_throw _ sameAbort_refl)
    | apply (keeps_liftE _ sameAbort_refl)
    | apply (keeps_bind sameAbort_trans); [|intros]
    | progress auto with keeps ].

Lemma keeps_GlobalEnv_ref (namespace : Namespace) (variable : jsstring) :
  keeps sameAbort (GlobalEnv_ref namespace variable).
Proof.
  intros w. unfold GlobalEnv_ref.
  destruct namespace;
    [destruct (globalValue w variable)|destruct (globalFunction w variable)];
    apply sameAbort_refl.
Qed.

Lemma keeps_GlobalEnv_set (namespace : Namespace) (variable : jsstring) (value : EVLObject) :
  keeps sameAbort (GlobalEnv_set namespace variable value).
Proof. intros w. unfold GlobalEnv_set. destruct namespace; split; reflexivity. Qed.

Lemma keeps_frameValue (a j : nat) : keeps sameAbort (frameValue a j).
Proof.
  intros w. unfold frameValue. destruct (nth_error (frames w) a) as [f|];
    [destruct (nth_error (frame_values f) j)|]; apply sameAbort_refl.
Qed.

Lemma keeps_setFrameValue (a j : nat) (value : EVLObject) :
  keeps sameAbort (setFrameValue a j value).
Proof. intros w. split; reflexivity. Qed.

Lemma keeps_newFrame (namespace : Namespace) (variables : list jsstring)
  (values : list EVLObject) : keeps sameAbort (newFrame namespace variables values).
Proof. intros w. split; reflexivity. Qed.

Lemma keeps_frameAt (lenv : DefiniteEnv) (i : nat) : keeps sameAbort (frameAt lenv i).
Proof.
  unfold frameAt. destruct (nth_error lenv i);
    [apply keeps_ret|apply keeps_throw]; apply sameAbort_refl.
Qed.

Lemma keeps_DefiniteEnv_ref (env : DefiniteEnv) (namespace : Namespace) (variable : jsstring) :
  keeps sameAbort (DefiniteEnv_ref env namespace variable).
Proof.
  induction env as [|a next IH]; intros w; simpl.
  - apply keeps_GlobalEnv_ref.
  - destruct (nth_error (frames w) a) as [f|]; [|apply sameAbort_refl].
    destruct (frameSlot f namespace variable); [apply keeps_frameValue|apply IH].
Qed.

Lemma keeps_DefiniteEnv_set (env : DefiniteEnv) (namespace : Namespace) (variable : jsstring)
  (value : EVLObject) : keeps sameAbort (DefiniteEnv_set env namespace variable value).
Proof.
  induction env as [|a next IH]; intros w; simpl.
  - apply keeps_GlobalEnv_set.
  - destruct (nth_error (frames w) a) as [f|]; [|apply sameAbort_refl].
    destruct (frameSlot f namespace variable); [apply keeps_setFrameValue|apply IH].
Qed.

Section KeepsAbort.

Variable jsFunction : jsstring -> list EVLObject -> Cells -> (exception + Result) * Cells.

Lemma keeps_callJsFunction (name : jsstring) (values : list EVLObject) :
  keeps sameAbort (callJsFunction jsFunction name values).
Proof.
  intros w. unfold callJsFunction.
  destruct (jsFunction name values (globalValue w, globalFunction w)) as [[e|x] [gv gf]];
    split; reflexivity.
Qed.

End KeepsAbort.

#[export] Hint Resolve keeps_GlobalEnv_ref keeps_GlobalEnv_set keeps_frameValue
  keeps_setFrameValue keeps_newFrame keeps_frameAt keeps_DefiniteEnv_ref
  keeps_DefiniteEnv_set keeps_callJsFunction : keeps.

Lemma tExtends_refl (s : TrampolineState) : tExtends s s.
Proof. split; [exists []; reflexivity|apply sameAbort_refl]. Qed.

Lemma tExtends_trans (s1 s2 s3 : TrampolineState) :
  tExtends s1 s2 -> tExtends s2 s3 -> tExtends s1 s3.
Proof.
  intros [[p1 H1] A1] [[p2 H2] A2]. split; [|eapply sameAbort_trans; eassumption].
  exists (p2 ++ p1). rewrite H2, H1, app_assoc. reflexivity.
Qed.

#[export] Hint Resolve tExtends_refl tExtends_trans : keeps.

Lemma keeps_tOnWorld {A : Type} (m : M World A) :
  keeps sameAbort m -> keeps tExtends (tOnWorld m).
Proof.
  intros Hm s. unfold tOnWorld. specialize (Hm (tWorld s)).
  destruct (m (tWorld s)); try exact Hm; (split; [exists []; reflexivity|exact Hm]).
Qed.

Lemma keeps_tPush (element : TrampolineElement) : keeps tExtends (tPush element).
Proof. intros s. split; [exists [element]; reflexivity|apply sameAbort_refl]. Qed.

Lemma keeps_tRef (namespace : Namespace) (variable : jsstring) :
  keeps tExtends (tRef namespace variable).
Proof. intros s. unfold tRef. apply (keeps_tOnWorld (keeps_DefiniteEnv_ref _ _ _)). Qed.

Lemma keeps_tSet (namespace : Namespace) (variable : jsstring) (value : EVLObject) :
  keeps tExtends (tSet namespace variable value).
Proof. intros s. unfold tSet. apply (keeps_tOnWorld (keeps_DefiniteEnv_set _ _ _ _)). Qed.

#[export] Hint Resolve keeps_tPush keeps_tRef keeps_tSet : keeps.

Ltac keeps_step R_refl R_trans onWorld :=
  repeat first
    [ apply (keeps_ret _ R_refl)
    | apply (keeps_throw _ R_refl)
    | apply (keeps_liftE _ R_refl)
    | apply (keeps_bind R_trans); [|intros]
    | apply onWorld; solve [keeps_world]
    | solve [auto with keeps]
    | match goal with
      | |- keeps _ (match ?x with _ => _ end) => destruct x
      | |- keeps _ (if ?b then _ else _) => destruct b
      | |- keeps _ (let '(_, _) := ?p in _) => destruct p
      end ].

Section TrampolineSteps.

Variable jsFunction : jsstring -> list EVLObject -> Cells -> (exception + Result) * Cells.

Ltac step := keeps_step tExtends_refl tExtends_trans (@keeps_tOnWorld).

Lemma keeps_trampolineEvalForms (forms : EVLObject) (lenv : DefiniteEnv) :
  keeps tExtends (trampolineEvalForms forms lenv).
Proof. unfold trampolineEvalForms. step. Qed.

Lemma keeps_trampolineEvalOperands (mv macro : bool) (operands : EVLObject)
  (args : list EVLObject) (lenv : DefiniteEnv) :
  keeps tExtends (trampolineEvalOperands mv macro operands args lenv).
Proof.
  revert args. induction operands; intros args; simpl; step.
Qed.

#[local] Hint Resolve keeps_trampolineEvalForms keeps_trampolineEvalOperands : keeps.

Lemma keeps_trampolineInvokeFun (apply macro : bool) (fn : EVLObject)
  (args : list EVLObject) (lenv : DefiniteEnv) :
  keeps tExtends (trampolineInvokeFun jsFunction apply macro fn args lenv).
Proof. unfold trampolineInvokeFun. step. Qed.

#[local] Hint Resolve keeps_trampolineInvokeFun : keeps.

Lemma keeps_trampolineEvalForm (form : EVLObject) (lenv : DefiniteEnv) :
  keeps tExtends (trampolineEvalForm form lenv).
Proof.
  unfold trampolineEvalForm, trampolineEvalQuote, trampolineEvalProgn, trampolineEvalIf,
    trampolineEvalLambda, trampolineEvalRef, trampolineEvalSet, trampolineEvalCatchErrors,
    trampolineEvalCall, trampolineEvalOperator, bounceObject.
  step.
Qed.

Lemma keeps_trampolineInvoke (k : TrampolineCont) (x : Invoked) :
  keeps tExtends (trampolineInvoke jsFunction k x).
Proof. unfold trampolineInvoke, bounceObject. step. Qed.

End TrampolineSteps.

Section TrampolineLoop.

Variable jsFunction : jsstring -> list EVLObject -> Cells -> (exception + Result) * Cells.
Variable host : nat -> Z -> Z.

Lemma trampolineLoop_iteration (fuel : nat) (bounce : Bounce) (s : TrampolineState) :
  trampolineLoop jsFunction host (S fuel) bounce s
  = bind (trampolineIteration jsFunction host bounce)
      (fun x => match x with
                | inl bounce' => trampolineLoop jsFunction host fuel bounce'
                | inr result => ret result
                end) s.
Proof.
  unfold trampolineIteration. cbn [trampolineLoop]. rewrite bind_assoc.
  apply bind_ext. intros aborted s1. destruct aborted; [reflexivity|].
  destruct bounce as [form lenv|x].
  - rewrite bind_assoc. reflexivity.
  - rewrite bind_assoc. apply bind_ext. intros k s2.
    destruct k; try (rewrite bind_assoc; reflexivity).
    destruct x; reflexivity.
Qed.

(** The loop tests the abort byte before anything else: when the host has
    requested an abort, the loop throws [Aborted], whatever the bounce and
    whatever the control stack holds. *)
Lemma trampolineLoop_aborts (fuel : nat) (bounce : Bounce) (s : TrampolineState) (b : Z) :
  s.(tWorld).(abortSignalArray) = Some b ->
  host s.(tWorld).(clock) b = 1%Z ->
  trampolineLoop jsFunction host (S fuel) bounce s
  = Throw Aborted
      (mkTrampolineState s.(tStack)
         (setAbort (Some 1%Z) (S s.(tWorld).(clock)) s.(tWorld))).
Proof.
  intros Hb Hh. cbn [trampolineLoop]. unfold bind, tOnWorld, abortRequested.
  rewrite Hb, Hh. reflexivity.
Qed.

End TrampolineLoop.

Lemma tBottomed_push (pushed stack : list TrampolineElement) :
  tBottomed stack -> tBottomed (pushed ++ stack).
Proof. intros [above ->]. exists (pushed ++ above). rewrite app_assoc. reflexivity. Qed.

Lemma popContFrom_bottomed (stack : list TrampolineElement) :
  tBottomed stack ->
  exists k r, popContFrom stack = Some (k, r) /\ (k = TrampolineEndCont \/ tBottomed r).
Proof.
  intros [above ->]. induction above as [|element above IH]; simpl.
  - exists TrampolineEndCont, []. split; [reflexivity|left; reflexivity].
  - destruct element as [k| |a]; try exact IH.
    exists k, (above ++ [TCont TrampolineEndCont]). split; [reflexivity|].
    right. exists above. reflexivity.
Qed.

Lemma handlerFrom_bottomed (stack : list TrampolineElement) :
  tBottomed stack ->
  (exists r, handlerFrom stack = Some (inr r) /\ tBottomed r)
  \/ (exists r, handlerFrom stack = Some (inl r)).
Proof.
  intros [above ->]. induction above as [|element above IH]; simpl.
  - right. exists []. reflexivity.
  - destruct element as [k| |a]; try exact IH.
    + destruct k; try exact IH. right. eexists. reflexivity.
    + left. exists (above ++ [TCont TrampolineEndCont]). split; [reflexivity|].
      exists above. reflexivity.
Qed.

Lemma tCatching_ready (m : M TrampolineState Bounce) (s : TrampolineState) :
  keeps tExtends m -> tReady s ->
  match tCatching m s with
  | Ok _ s' => tReady s' /\ s'.(tWorld).(clock) = s.(tWorld).(clock)
  | Throw _ _ => True
  | OutOfFuel => False
  end.
Proof.
  intros Hm [Hb Hs]. unfold tCatching, tReady. specialize (Hm s).
  destruct (m s) as [bounce s'|e s'|]; [| |exact Hm].
  - destruct Hm as [[pushed Hp] [Ha Hc]]. split; [split|exact Hc].
    + rewrite Ha. exact Hb.
    + rewrite Hp. apply tBottomed_push. exact Hs.
  - destruct Hm as [[pushed Hp] [Ha Hc]]. unfold tHandleError.
    assert (Hs' : tBottomed (tStack s')) by (rewrite Hp; apply tBottomed_push; exact Hs).
    destruct (handlerFrom_bottomed Hs') as [[r [-> Hr]]|[r ->]]; [|exact I].
    simpl. split; [split|exact Hc]; [rewrite Ha; exact Hb|exact Hr].
Qed.

Section TrampolineAbort.

Variable jsFunction : jsstring -> list EVLObject -> Cells -> (exception + Result) * Cells.
Variable host : nat -> Z -> Z.

Lemma trampolineIteration_ready (bounce : Bounce) (s : TrampolineState) :
  tReady s ->
  match trampolineIteration jsFunction host bounce s with
  | Ok (inl _) s' => tReady s' /\ s'.(tWorld).(clock) = S s.(tWorld).(clock)
  | Ok (inr _) _ => True
  | Throw _ _ => True
  | OutOfFuel => False
  end.
Proof.
  intros [Hb Hs]. unfold trampolineIteration.
  unfold bind at 1. unfold tOnWorld, abortRequested.
  destruct (abortSignalArray (tWorld s)) as [b|] eqn:Eb; [|contradiction].
  destruct (host (clock (tWorld s)) b =? 1)%Z; [exact I|].
  set (s1 := mkTrampolineState (tStack s)
               (setAbort (Some (host (clock (tWorld s)) b)) (S (clock (tWorld s)))
                  (tWorld s))).
  assert (H1 : tReady s1) by (split; [discriminate|exact Hs]).
  destruct bounce as [form lenv|x].
  - unfold bind.
    pose proof (tCatching_ready (@keeps_trampolineEvalForm form lenv) H1) as Hc.
    destruct (tCatching (trampolineEvalForm form lenv) s1) as [bounce s2|e s2|];
      [|exact I|exact Hc].
    exact Hc.
  - unfold bind at 1. unfold tPopCont.
    destruct (popContFrom_bottomed (proj2 H1)) as (k & r & Hp & Hk). rewrite Hp.
    assert (Hend : forall s', match (match x with
                                     | OnResult result => ret (inr result)
                                     | OnArgs _ => throw TypeError
                                     end : M TrampolineState (Bounce + Result)) s' with
                              | Ok (inl _) s'' =>
                                  tReady s'' /\ clock (tWorld s'') = S (clock (tWorld s))
                              | Ok (inr _) _ => True
                              | Throw _ _ => True
                              | OutOfFuel => False
                              end) by (intros s'; destruct x; exact I).
    destruct Hk as [->|Hr]; [apply Hend|].
    assert (H2 : tReady (mkTrampolineState r (tWorld s1))) by (split; [discriminate|exact Hr]).
    destruct k; try apply Hend;
      (unfold bind;
       match goal with
       | |- context [tCatching (trampolineInvoke jsFunction ?k x) ?s2] =>
           pose proof (tCatching_ready (keeps_trampolineInvoke jsFunction k x) H2) as Hc;
           destruct (tCatching (trampolineInvoke jsFunction k x) s2) as [bounce s3|e s3|];
           [exact Hc|exact I|exact Hc]
       end).
Qed.

(** The driver loop of the trampoline evaluator does not run past a request
    to abort: when the host requests an abort before the loop reads the byte
    for the [m]-th next time, the loop ends by then, with [Aborted] unless
    the evaluation has ended before. *)
Lemma trampolineLoop_aborts_in_time (m : nat) :
  forall (bounce : Bounce) (s : TrampolineState),
    tReady s ->
    requestsAbortAt host (s.(tWorld).(clock) + m) ->
    (exists s', trampolineLoop jsFunction host (S m) bounce s = Throw Aborted s')
    \/ (trampolineLoop jsFunction host (S m) bounce s
        = trampolineLoop jsFunction host m bounce s
        /\ trampolineLoop jsFunction host m bounce s <> OutOfFuel).
Proof.
  induction m as [|m IH]; intros bounce s Hs Hr.
  - left. destruct Hs as [Hb Hs].
    destruct (abortSignalArray (tWorld s)) as [b|] eqn:Eb; [|contradiction].
    eexists. apply trampolineLoop_aborts with (b := b); [exact Eb|].
    rewrite Nat.add_0_r in Hr. apply Hr.
  - rewrite (trampolineLoop_iteration jsFunction host (S m)).
    rewrite (trampolineLoop_iteration jsFunction host m).
    pose proof (trampolineIteration_ready bounce Hs) as Hi. unfold bind.
    destruct (trampolineIteration jsFunction host bounce s) as [[bounce'|result] s'|e s'|].
    + destruct Hi as [Hs' Hc].
      apply IH; [exact Hs'|]. rewrite Hc.
      replace (S (clock (tWorld s)) + m) with (clock (tWorld s) + S m) by lia. exact Hr.
    + right. split; [reflexivity|discriminate].
    + right. split; [reflexivity|discriminate].
    + contradiction.
Qed.

End TrampolineAbort.

(** *** The same for the trampoline++ evaluator *)

Lemma ppExtends_refl (s : TrampolineppState) : ppExtends s s.
Proof. split; [exists []; reflexivity|apply sameAbort_refl]. Qed.

Lemma ppExtends_trans (s1 s2 s3 : TrampolineppState) :
  ppExtends s1 s2 -> ppExtends s2 s3 -> ppExtends s1 s3.
Proof.
  intros [[p1 H1] A1] [[p2 H2] A2]. split; [|eapply sameAbort_trans; eassumption].
  exists (p2 ++ p1). rewrite H2, H1, app_assoc. reflexivity.
Qed.

#[export] Hint Resolve ppExtends_refl ppExtends_trans : keeps.

Lemma keeps_ppOnWorld {A : Type} (m : M World A) :
  keeps sameAbort m -> keeps ppExtends (ppOnWorld m).
Proof.
  intros Hm s. unfold ppOnWorld. specialize (Hm (ppWorld s)).
  destruct (m (ppWorld s)); try exact Hm; (split; [exists []; reflexivity|exact Hm]).
Qed.

Lemma keeps_ppPush (element : TrampolineppElement) : keeps ppExtends (ppPush element).
Proof. intros s. split; [exists [element]; reflexivity|apply sameAbort_refl]. Qed.

Lemma keeps_ppRef (namespace : Namespace) (variable : jsstring) :
  keeps ppExtends (ppRef namespace variable).
Proof. intros s. unfold ppRef. apply (keeps_ppOnWorld (keeps_DefiniteEnv_ref _ _ _)). Qed.

Lemma keeps_ppSet (namespace : Namespace) (variable : jsstring) (value : EVLObject) :
  keeps ppExtends (ppSet namespace variable value).
Proof. intros s. unfold ppSet. apply (keeps_ppOnWorld (keeps_DefiniteEnv_set _ _ _ _)). Qed.

#[export] Hint Resolve keeps_ppPush keeps_ppRef keeps_ppSet : keeps.



Section TrampolineppSteps.

Variable jsFunction : jsstring -> list EVLObject -> Cells -> (exception + Result) * Cells.

Ltac step := keeps_step ppExtends_refl ppExtends_trans (@keeps_ppOnWorld).

Lemma keeps_trampolineppEvalForms (forms : EVLObject) (lenv : DefiniteEnv) :
  keeps ppExtends (trampolineppEvalForms forms lenv).
Proof. unfold trampolineppEvalForms. step. Qed.

Lemma keeps_trampolineppEvalOperands (mv : bool) (operands : EVLObject)
  (args : list EVLObject) (lenv : DefiniteEnv) :
  keeps ppExtends (trampolineppEvalOperands mv operands args lenv).
Proof. unfold trampolineppEvalOperands. step. Qed.

#[local] Hint Resolve keeps_trampolineppEvalForms keeps_trampolineppEvalOperands : keeps.

Lemma keeps_trampolineppInvokeFun (apply : bool) (fn : EVLObject)
  (args : list EVLObject) (lenv : DefiniteEnv) :
  keeps ppExtends (trampolineppInvokeFun jsFunction apply fn args lenv).
Proof. unfold trampolineppInvokeFun. step. Qed.

#[local] Hint Resolve keeps_trampolineppInvokeFun : keeps.

Lemma keeps_trampolineppEvalReq (form : EVLObject) (lenv : DefiniteEnv) :
  keeps ppExtends (trampolineppEvalReq form lenv).
Proof.
  unfold trampolineppEvalReq, trampolineppFormEval, trampolineppEvalOperator, bounceObject.
  step.
Qed.

Lemma keeps_trampolineppInvoke (k : TrampolineppCont) (x : Invoked) :
  keeps ppExtends (trampolineppInvoke jsFunction k x).
Proof. unfold trampolineppInvoke, bounceObject. step. Qed.

End TrampolineppSteps.


Section TrampolineppLoop.

Variable jsFunction : jsstring -> list EVLObject -> Cells -> (exception + Result) * Cells.
Variable host : nat -> Z -> Z.

Lemma trampolineppLoop_iteration (fuel : nat) (bounce : Bounce) (s : TrampolineppState) :
  trampolineppLoop jsFunction host (S fuel) bounce s
  = bind (trampolineppIteration jsFunction host bounce)
      (fun x => match x with
                | inl bounce' => trampolineppLoop jsFunction host fuel bounce'
                | inr result => ret result
                end) s.
Proof.
  unfold trampolineppIteration. cbn [trampolineppLoop]. rewrite bind_assoc.
  apply bind_ext. intros aborted s1. destruct aborted; [reflexivity|].
  destruct bounce as [form lenv|x].
  - rewrite bind_assoc. reflexivity.
  - rewrite bind_assoc. apply bind_ext. intros k s2.
    destruct k; try (rewrite bind_assoc; reflexivity).
    destruct x; reflexivity.
Qed.

(** The loop tests the abort byte before anything else: when the host has
    requested an abort, the loop throws [Aborted], whatever the bounce and
    whatever the control stack holds. *)
Lemma trampolineppLoop_aborts (fuel : nat) (bounce : Bounce) (s : TrampolineppState) (b : Z) :
  s.(ppWorld).(abortSignalArray) = Some b ->
  host s.(ppWorld).(clock) b = 1%Z ->
  trampolineppLoop jsFunction host (S fuel) bounce s
  = Throw Aborted
      (mkTrampolineppState s.(ppStack)
         (setAbort (Some 1%Z) (S s.(ppWorld).(clock)) s.(ppWorld))).
Proof.
  intros Hb Hh. cbn [trampolineppLoop]. unfold bind, ppOnWorld, abortRequested.
  rewrite Hb, Hh. reflexivity.
Qed.

End TrampolineppLoop.

Lemma ppBottomed_push (pushed stack : list TrampolineppElement) :
  ppBottomed stack -> ppBottomed (pushed ++ stack).
Proof. intros [above ->]. exists (pushed ++ above). rewrite app_assoc. reflexivity. Qed.

Lemma ppPopContFrom_bottomed (stack : list TrampolineppElement) :
  ppBottomed stack ->
  exists k r, ppPopContFrom stack = Some (k, r) /\ (k = TrampolineppEndCont \/ ppBottomed r).
Proof.
  intros [above ->]. induction above as [|element above IH]; simpl.
  - exists TrampolineppEndCont, []. split; [reflexivity|left; reflexivity].
  - destruct element as [k| |a]; try exact IH.
    exists k, (above ++ [PPCont TrampolineppEndCont]). split; [reflexivity|].
    right. exists above. reflexivity.
Qed.

Lemma ppHandlerFrom_bottomed (stack : list TrampolineppElement) :
  ppBottomed stack ->
  (exists r, ppHandlerFrom stack = Some (inr r) /\ ppBottomed r)
  \/ (exists r, ppHandlerFrom stack = Some (inl r)).
Proof.
  intros [above ->]. induction above as [|element above IH]; simpl.
  - right. exists []. reflexivity.
  - destruct element as [k| |a]; try exact IH.
    + destruct k; try exact IH. right. eexists. reflexivity.
    + left. exists (above ++ [PPCont TrampolineppEndCont]). split; [reflexivity|].
      exists above. reflexivity.
Qed.

Lemma ppCatching_ready (m : M TrampolineppState Bounce) (s : TrampolineppState) :
  keeps ppExtends m -> ppReady s ->
  match ppCatching m s with
  | Ok _ s' => ppReady s' /\ s'.(ppWorld).(clock) = s.(ppWorld).(clock)
  | Throw _ _ => True
  | OutOfFuel => False
  end.
Proof.
  intros Hm [Hb Hs]. unfold ppCatching, ppReady. specialize (Hm s).
  destruct (m s) as [bounce s'|e s'|]; [| |exact Hm].
  - destruct Hm as [[pushed Hp] [Ha Hc]]. split; [split|exact Hc].
    + rewrite Ha. exact Hb.
    + rewrite Hp. apply ppBottomed_push. exact Hs.
  - destruct Hm as [[pushed Hp] [Ha Hc]]. unfold ppHandleError.
    assert (Hs' : ppBottomed (ppStack s')) by (rewrite Hp; apply ppBottomed_push; exact Hs).
    destruct (ppHandlerFrom_bottomed Hs') as [[r [-> Hr]]|[r ->]]; [|exact I].
    simpl. split; [split|exact Hc]; [rewrite Ha; exact Hb|exact Hr].
Qed.

Section TrampolineppAbort.

Variable jsFunction : jsstring -> list EVLObject -> Cells -> (exception + Result) * Cells.
Variable host : nat -> Z -> Z.

Lemma trampolineppIteration_ready (bounce : Bounce) (s : TrampolineppState) :
  ppReady s ->
  match trampolineppIteration jsFunction host bounce s with
  | Ok (inl _) s' => ppReady s' /\ s'.(ppWorld).(clock) = S s.(ppWorld).(clock)
  | Ok (inr _) _ => True
  | Throw _ _ => True
  | OutOfFuel => False
  end.
Proof.
  intros [Hb Hs]. unfold trampolineppIteration.
  unfold bind at 1. unfold ppOnWorld, abortRequested.
  destruct (abortSignalArray (ppWorld s)) as [b|] eqn:Eb; [|contradiction].
  destruct (host (clock (ppWorld s)) b =? 1)%Z; [exact I|].
  set (s1 := mkTrampolineppState (ppStack s)
               (setAbort (Some (host (clock (ppWorld s)) b)) (S (clock (ppWorld s)))
                  (ppWorld s))).
  assert (H1 : ppReady s1) by (split; [discriminate|exact Hs]).
  destruct bounce as [form lenv|x].
  - unfold bind.
    pose proof (ppCatching_ready (@keeps_trampolineppEvalReq form lenv) H1) as Hc.
    destruct (ppCatching (trampolineppEvalReq form lenv) s1) as [bounce s2|e s2|];
      [|exact I|exact Hc].
    exact Hc.
  - unfold bind at 1. unfold ppPopCont.
    destruct (ppPopContFrom_bottomed (proj2 H1)) as (k & r & Hp & Hk). rewrite Hp.
    assert (Hend : forall s', match (match x with
                                     | OnResult result => ret (inr result)
                                     | OnArgs _ => throw TypeError
                                     end : M TrampolineppState (Bounce + Result)) s' with
                              | Ok (inl _) s'' =>
                                  ppReady s'' /\ clock (ppWorld s'') = S (clock (ppWorld s))
                              | Ok (inr _) _ => True
                              | Throw _ _ => True
                              | OutOfFuel => False
                              end) by (intros s'; destruct x; exact I).
    destruct Hk as [->|Hr]; [apply Hend|].
    assert (H2 : ppReady (mkTrampolineppState r (ppWorld s1))) by (split; [discriminate|exact Hr]).
    destruct k; try apply Hend;
      (unfold bind;
       match goal with
       | |- context [ppCatching (trampolineppInvoke jsFunction ?k x) ?s2] =>
           pose proof (ppCatching_ready (keeps_trampolineppInvoke jsFunction k x) H2) as Hc;
           destruct (ppCatching (trampolineppInvoke jsFunction k x) s2) as [bounce s3|e s3|];
           [exact Hc|exact I|exact Hc]
       end).
Qed.

(** The driver loop of the trampoline++ evaluator does not run past a request
    to abort: when the host requests an abort before the loop reads the byte
    for the [m]-th next time, the loop ends by then, with [Aborted] unless
    the evaluation has ended before. *)
Lemma trampolineppLoop_aborts_in_time (m : nat) :
  forall (bounce : Bounce) (s : TrampolineppState),
    ppReady s ->
    requestsAbortAt host (s.(ppWorld).(clock) + m) ->
    (exists s', trampolineppLoop jsFunction host (S m) bounce s = Throw Aborted s')
    \/ (trampolineppLoop jsFunction host (S m) bounce s
        = trampolineppLoop jsFunction host m bounce s
        /\ trampolineppLoop jsFunction host m bounce s <> OutOfFuel).
Proof.
  induction m as [|m IH]; intros bounce s Hs Hr.
  - left. destruct Hs as [Hb Hs].
    destruct (abortSignalArray (ppWorld s)) as [b|] eqn:Eb; [|contradiction].
    eexists. apply trampolineppLoop_aborts with (b := b); [exact Eb|].
    rewrite Nat.add_0_r in Hr. apply Hr.
  - rewrite (trampolineppLoop_iteration jsFunction host (S m)).
    rewrite (trampolineppLoop_iteration jsFunction host m).
    pose proof (trampolineppIteration_ready bounce Hs) as Hi. unfold bind.
    destruct (trampolineppIteration jsFunction host bounce s) as [[bounce'|result] s'|e s'|].
    + destruct Hi as [Hs' Hc].
      apply IH; [exact Hs'|]. rewrite Hc.
      replace (S (clock (ppWorld s)) + m) with (clock (ppWorld s) + S m) by lia. exact Hr.
    + right. split; [reflexivity|discriminate].
    + right. split; [reflexivity|discriminate].
    + contradiction.
Qed.

End TrampolineppAbort.

(** *** The abort byte and the interface *)

Section AbortedStatus.

Variable jsFunction : jsstring -> list EVLObject -> Cells -> (exception + Result) * Cells.
Variable host : nat -> Z -> Z.

Lemma trampolineEval_aborts_in_time (m : nat) (form : EVLObject) (w : World) :
  w.(abortSignalArray) <> None ->
  requestsAbortAt host (w.(clock) + m) ->
  (exists w', trampolineEval jsFunction host (S m) form w = Throw Aborted w')
  \/ (trampolineEval jsFunction host (S m) form w = trampolineEval jsFunction host m form w
      /\ trampolineEval jsFunction host m form w <> OutOfFuel).
Proof.
  intros Hb Hr. unfold trampolineEval.
  destruct (@trampolineLoop_aborts_in_time jsFunction host m (EvalReq form nullDefiniteEnv)
              (mkTrampolineState [TCont trampolineEndCont] w))
    as [[s' ->]|[-> Hn]].
  - split; [exact Hb|exists []; reflexivity].
  - exact Hr.
  - left. eexists. reflexivity.
  - right. split; [reflexivity|].
    destruct (trampolineLoop jsFunction host m (EvalReq form nullDefiniteEnv)
                (mkTrampolineState [TCont trampolineEndCont] w));
      [discriminate|discriminate|contradiction].
Qed.

Lemma trampolineppRun_aborts_in_time (m : nat) (node : TrampolineppForm) (lenv : DefiniteEnv)
  (w : World) :
  w.(abortSignalArray) <> None ->
  requestsAbortAt host (w.(clock) + m) ->
  (exists w', trampolineppRun jsFunction host (S m) node lenv w = Throw Aborted w')
  \/ (trampolineppRun jsFunction host (S m) node lenv w
      = trampolineppRun jsFunction host m node lenv w
      /\ trampolineppRun jsFunction host m node lenv w <> OutOfFuel).
Proof.
  intros Hb Hr. unfold trampolineppRun.
  destruct (@trampolineppLoop_aborts_in_time jsFunction host m
              (EvalReq (TrampolineppNode node) lenv)
              (mkTrampolineppState [PPCont trampolineppEndCont] w))
    as [[s' ->]|[-> Hn]].
  - split; [exact Hb|exists []; reflexivity].
  - exact Hr.
  - left. eexists. reflexivity.
  - right. split; [reflexivity|].
    destruct (trampolineppLoop jsFunction host m (EvalReq (TrampolineppNode node) lenv)
                (mkTrampolineppState [PPCont trampolineppEndCont] w));
      [discriminate|discriminate|contradiction].
Qed.

(** [Aborted] thrown by the evaluator is reported with the status
    ABORTED. *)
Lemma evaluateFirstForm_aborted (fuel : nat) (text : jsstring) (w w' : World)
  (form : EVLObject) (r : Reading) :
  read fuel (firstFormReading text w) = Ok (Some form) r ->
  genericEval jsFunction host fuel form r.(world) = Throw Aborted w' ->
  evaluateFirstForm jsFunction host fuel text w = Ok (mkResponse ABORTED NoOutput) w'.
Proof.
  intros Hr He. rewrite evaluateFirstForm_unfold, Hr, He. reflexivity.
Qed.

End AbortedStatus.

(** The four evaluators that are not driven by a loop do not depend on the
    host. *)
Lemma genericEval_ignores_the_host jsFunction (host host' : nat -> Z -> Z) (fuel : nat)
  (form : EVLObject) (w : World) :
  In w.(selectedEvaluator) [js "plainrec"; js "cps"; js "oocps"; js "sboocps"] ->
  genericEval jsFunction host fuel form w = genericEval jsFunction host' fuel form w.
Proof.
  intros Hin. unfold genericEval.
  destruct Hin as [<-|[<-|[<-|[<-|[]]]]]; reflexivity.
Qed.

(** C2 (as stated, refuted): the plain recursive, CPS, object-oriented CPS
    and stack-based object-oriented CPS evaluators never test the abort
    flag.  With a host that requests an abort all the time they evaluate
    [(_+ 1 2)] to the end and the answer is the value, not ABORTED; only the
    two trampoline evaluators answer ABORTED. *)
Lemma C2_recursive_evaluators_do_not_test_the_flag :
  map (fun evaluator => respondUnder insistentHost 100 evaluator "(_+ 1 2)") evaluators
  = [answers ["3"%string]; answers ["3"%string]; answers ["3"%string];
     answers ["3"%string]; aborted; aborted].
Proof. vm_compute. reflexivity. Qed.

(** C2 (amended): the two trampoline evaluators test the abort flag at each
    iteration of their driver loop, before anything else.  When the flag is
    set the loop throws [Aborted], whatever the control stack holds, error
    handlers of [_catch-errors] included; so the loop does not run past a
    request to abort: when the host sets the flag before the loop reads it
    for the [m]-th next time, the evaluation ends within [m] further
    iterations, and with [Aborted] unless it has ended before.  [Aborted] is
    reported to the host with the status ABORTED.  The four other evaluators
    do not depend on the host at all. *)
Theorem C2_abort_check :
  (forall jsFunction host fuel bounce s b,
     s.(tWorld).(abortSignalArray) = Some b ->
     host s.(tWorld).(clock) b = 1%Z ->
     trampolineLoop jsFunction host (S fuel) bounce s
     = Throw Aborted
         (mkTrampolineState s.(tStack)
            (setAbort (Some 1%Z) (S s.(tWorld).(clock)) s.(tWorld))))
  /\ (forall jsFunction host fuel bounce s b,
        s.(ppWorld).(abortSignalArray) = Some b ->
        host s.(ppWorld).(clock) b = 1%Z ->
        trampolineppLoop jsFunction host (S fuel) bounce s
        = Throw Aborted
            (mkTrampolineppState s.(ppStack)
               (setAbort (Some 1%Z) (S s.(ppWorld).(clock)) s.(ppWorld))))
  /\ (forall jsFunction host m bounce s,
        tReady s ->
        requestsAbortAt host (s.(tWorld).(clock) + m) ->
        (exists s', trampolineLoop jsFunction host (S m) bounce s = Throw Aborted s')
        \/ (trampolineLoop jsFunction host (S m) bounce s
            = trampolineLoop jsFunction host m bounce s
            /\ trampolineLoop jsFunction host m bounce s <> OutOfFuel))
  /\ (forall jsFunction host m bounce s,
        ppReady s ->
        requestsAbortAt host (s.(ppWorld).(clock) + m) ->
        (exists s', trampolineppLoop jsFunction host (S m) bounce s = Throw Aborted s')
        \/ (trampolineppLoop jsFunction host (S m) bounce s
            = trampolineppLoop jsFunction host m bounce s
            /\ trampolineppLoop jsFunction host m bounce s <> OutOfFuel))
  /\ (forall jsFunction host m form w,
        w.(abortSignalArray) <> None ->
        requestsAbortAt host (w.(clock) + m) ->
        (exists w', trampolineEval jsFunction host (S m) form w = Throw Aborted w')
        \/ (trampolineEval jsFunction host (S m) form w
            = trampolineEval jsFunction host m form w
            /\ trampolineEval jsFunction host m form w <> OutOfFuel))
  /\ (forall jsFunction host m node lenv w,
        w.(abortSignalArray) <> None ->
        requestsAbortAt host (w.(clock) + m) ->
        (exists w', trampolineppRun jsFunction host (S m) node lenv w = Throw Aborted w')
        \/ (trampolineppRun jsFunction host (S m) node lenv w
            = trampolineppRun jsFunction host m node lenv w
            /\ trampolineppRun jsFunction host m node lenv w <> OutOfFuel))
  /\ (forall jsFunction host fuel text w w' form r,
        read fuel (firstFormReading text w) = Ok (Some form) r ->
        genericEval jsFunction host fuel form r.(world) = Throw Aborted w' ->
        evaluateFirstForm jsFunction host fuel text w = Ok (mkResponse ABORTED NoOutput) w')
  /\ (forall jsFunction host host' fuel form w,
        In w.(selectedEvaluator) [js "plainrec"; js "cps"; js "oocps"; js "sboocps"] ->
        genericEval jsFunction host fuel form w = genericEval jsFunction host' fuel form w)
  /\ respondUnder (abortingHost 3) 100 "trampoline" "(_catch-errors (_+ 1 2))" = aborted
  /\ respondUnder (abortingHost 3) 100 "trampolinepp" "(_catch-errors (_+ 1 2))" = aborted
  /\ respondUnder idleHost 100 "trampoline" "(_catch-errors (_+ 1 2))"
     = answers ["#v"%string].
Proof.
  split; [exact trampolineLoop_aborts|].
  split; [exact trampolineppLoop_aborts|].
  split; [intros; apply trampolineLoop_aborts_in_time; assumption|].
  split; [intros; apply trampolineppLoop_aborts_in_time; assumption|].
  split; [intros; apply trampolineEval_aborts_in_time; assumption|].
  split; [intros; apply trampolineppRun_aborts_in_time; assumption|].
  split; [exact evaluateFirstForm_aborted|].
  split; [exact genericEval_ignores_the_host|].
  repeat split; vm_compute; reflexivity.
Qed.

Lemma C2_abort_check_witness :
  exists w',
    trampolineEval coreJsFunction (abortingHost 0) 1 (parse "(_catch-errors (_+ 1 2))")
      (initializedWorld "trampoline" 0)
    = Throw Aborted w'.
Proof.
  destruct (proj1 (proj2 (proj2 (proj2 (proj2 C2_abort_check)))) coreJsFunction
              (abortingHost 0) 0 (parse "(_catch-errors (_+ 1 2))")
              (initializedWorld "trampoline" 0)) as [H|[_ H]].
  - vm_compute. discriminate.
  - intros b. reflexivity.
  - exact H.
  - exfalso. apply H. reflexivity.
Defined.
(** ** More fuel does not change a result *)

(** [r'] is [r], unless [r] is out of fuel. *)
Definition resLe {S A : Type} (r r' : res S A) : Prop :=
  r = OutOfFuel \/ r = r'.

Lemma resLe_refl {S A : Type} (r : res S A) : resLe r r.
Proof. right. reflexivity. Qed.

Lemma resLe_OutOfFuel {S A : Type} (r : res S A) : resLe OutOfFuel r.
Proof. left. reflexivity. Qed.

Lemma resLe_trans {S A : Type} (r1 r2 r3 : res S A) :
  resLe r1 r2 -> resLe r2 r3 -> resLe r1 r3.
Proof.
  intros [-> | ->]; [intros _; apply resLe_OutOfFuel|intros H; exact H].
Qed.

Lemma resLe_eq {S A : Type} (r r' : res S A) :
  resLe r r' -> r <> OutOfFuel -> r' = r.
Proof. intros [-> | ->] H; [contradiction|reflexivity]. Qed.

Lemma resLe_bind {S A B : Type} (m m' : M S A) (k k' : A -> M S B) (s : S) :
  resLe (m s) (m' s) ->
  (forall a s', resLe (k a s') (k' a s')) ->
  resLe (bind m k s) (bind m' k' s).
Proof.
  intros [H|H] Hk; unfold bind.
  - rewrite H. apply resLe_OutOfFuel.
  - rewrite <- H. destruct (m s); [apply Hk|apply resLe_refl|apply resLe_refl].
Qed.

(** [try { m } catch (exception) { ... }] around a computation. *)
Lemma resLe_match {S A B : Type} (r r' : res S A) (f : A -> S -> res S B)
  (g : exception -> S -> res S B) (f' : A -> S -> res S B) (g' : exception -> S -> res S B) :
  resLe r r' ->
  (forall a s, resLe (f a s) (f' a s)) ->
  (forall e s, resLe (g e s) (g' e s)) ->
  resLe (match r with Ok a s => f a s | Throw e s => g e s | OutOfFuel => OutOfFuel end)
        (match r' with Ok a s => f' a s | Throw e s => g' e s | OutOfFuel => OutOfFuel end).
Proof.
  intros [-> | <-] Hf Hg; [apply resLe_OutOfFuel|].
  destruct r; [apply Hf|apply Hg|apply resLe_refl].
Qed.

Ltac mono_step Hrec :=
  first
    [ apply resLe_refl
    | apply resLe_OutOfFuel
    | apply Hrec
    | apply resLe_bind; [|intros]
    | apply resLe_match; [|intros|intros]
    | match goal with
      | |- resLe ((match ?x with _ => _ end) _) _ => destruct x
      | |- resLe (match ?x with _ => _ end) _ => destruct x
      | |- resLe ((if ?b then _ else _) _) _ => destruct b
      | |- resLe (if ?b then _ else _) _ => destruct b
      | |- resLe ((let '(_, _) := ?p in _) _) _ => destruct p
      end ].

Ltac mono Hrec := repeat (mono_step Hrec).

Section PlainrecMono.

Variable jsFunction : jsstring -> list EVLObject -> Cells -> (exception + Result) * Cells.
Variables rec rec' : EVLObject -> DefiniteEnv -> DefiniteEnv -> M World Result.
Hypothesis Hrec : forall form lenv denv w, resLe (rec form lenv denv w) (rec' form lenv denv w).

Lemma plainrecEvalForms_mono (forms : EVLObject) (lenv denv : DefiniteEnv) (w : World) :
  resLe (plainrecEvalForms rec forms lenv denv w) (plainrecEvalForms rec' forms lenv denv w).
Proof.
  revert w. induction forms as [| | | | | | | | car _ cdr IH | | | |]; intros w; simpl;
    try apply resLe_refl.
  destruct cdr; mono Hrec; apply IH.
Qed.

Lemma plainrecEvalOperands_mono (mv macro : bool) (operands : EVLObject)
  (args : list EVLObject) (lenv denv : DefiniteEnv) (w : World) :
  resLe (plainrecEvalOperands rec mv macro operands args lenv denv w)
        (plainrecEvalOperands rec' mv macro operands args lenv denv w).
Proof.
  revert args w. induction operands as [| | | | | | | | car _ cdr IH | | | |];
    intros args w; simpl; try apply resLe_refl.
  destruct macro; [apply IH|]. mono Hrec. apply IH.
Qed.

Lemma plainrecInvokeFun_mono (apply macro : bool) (fn : EVLObject) (args : list EVLObject)
  (lenv denv : DefiniteEnv) (w : World) :
  resLe (plainrecInvokeFun jsFunction rec apply macro fn args lenv denv w)
        (plainrecInvokeFun jsFunction rec' apply macro fn args lenv denv w).
Proof.
  unfold plainrecInvokeFun.
  destruct fn; try apply resLe_refl; mono Hrec; try apply plainrecEvalForms_mono.
Qed.

Lemma plainrecEvalForm__mono (form : EVLObject) (lenv denv : DefiniteEnv) (w : World) :
  resLe (plainrecEvalForm_ jsFunction rec form lenv denv w)
        (plainrecEvalForm_ jsFunction rec' form lenv denv w).
Proof.
  unfold plainrecEvalForm_, plainrecEvalQuote, plainrecEvalProgn, plainrecEvalIf,
    plainrecEvalLambda, plainrecEvalRef, plainrecEvalSet, plainrecEvalCatchErrors,
    plainrecEvalCall, plainrecEvalOperator.
  destruct form; try apply resLe_refl.
  destruct (specialOperator form1); mono Hrec;
    first [apply plainrecEvalForms_mono | apply plainrecEvalOperands_mono
          | apply plainrecInvokeFun_mono | idtac].
Qed.

End PlainrecMono.

Lemma plainrecEvalForm_mono jsFunction (fuel : nat) :
  forall form lenv denv w,
    resLe (plainrecEvalForm jsFunction fuel form lenv denv w)
          (plainrecEvalForm jsFunction (S fuel) form lenv denv w).
Proof.
  induction fuel as [|fuel IH]; intros form lenv denv w; [apply resLe_OutOfFuel|].
  change (resLe (plainrecEvalForm_ jsFunction (plainrecEvalForm jsFunction fuel) form lenv denv w)
            (plainrecEvalForm_ jsFunction (plainrecEvalForm jsFunction (S fuel)) form lenv denv w)).
  apply plainrecEvalForm__mono. exact IH.
Qed.
(** ** The evaluators and the abort byte *)

Section Preserves.

Variable S : Type.
Variable R : S -> S -> Prop.
Hypothesis R_refl : forall s, R s s.
Hypothesis R_trans : forall s1 s2 s3, R s1 s2 -> R s2 s3 -> R s1 s3.

(** [m] ends, if it does, in a state related to the one it starts in. *)
Definition preserves {A : Type} (m : M S A) : Prop :=
  forall s,
    match m s with
    | Ok _ s' => R s s'
    | Throw _ s' => R s s'
    | OutOfFuel => True
    end.

Lemma keeps_preserves {A : Type} (m : M S A) : keeps R m -> preserves m.
Proof. intros H s. specialize (H s). destruct (m s); auto. Qed.

Lemma preserves_ret {A : Type} (a : A) : preserves (ret a).
Proof. intros s. apply R_refl. Qed.

Lemma preserves_throw {A : Type} (e : exception) : preserves (@throw S A e).
Proof. intros s. apply R_refl. Qed.

Lemma preserves_outOfFuel {A : Type} : preserves (@outOfFuel S A).
Proof. intros s. exact I. Qed.

Lemma preserves_liftE {A : Type} (x : exception + A) : preserves (liftE x).
Proof. destruct x; [apply preserves_throw|apply preserves_ret]. Qed.

Lemma preserves_bind {A B : Type} (m : M S A) (k : A -> M S B) :
  preserves m -> (forall a, preserves (k a)) -> preserves (bind m k).
Proof.
  intros Hm Hk s. unfold bind. specialize (Hm s).
  destruct (m s) as [a s'|e s'|]; [|exact Hm|exact I].
  specialize (Hk a s'). destruct (k a s'); eauto.
Qed.

(** [try { m } catch (exception) { ... }] *)
Lemma preserves_catch {A B : Type} (m : M S A) (f : A -> M S B) (g : exception -> M S B) :
  preserves m -> (forall a, preserves (f a)) -> (forall e, preserves (g e)) ->
  preserves (fun s => match m s with
                      | Ok a s' => f a s'
                      | Throw e s' => g e s'
                      | OutOfFuel => OutOfFuel
                      end).
Proof.
  intros Hm Hf Hg s. specialize (Hm s).
  destruct (m s) as [a s'|e s'|]; [| |exact I].
  - specialize (Hf a s'). destruct (f a s'); eauto.
  - specialize (Hg e s'). destruct (g e s'); eauto.
Qed.

End Preserves.

Ltac preserves_step R_refl R_trans :=
  first
    [ apply (preserves_ret _ R_refl)
    | apply (preserves_throw _ R_refl)
    | apply (preserves_liftE _ R_refl)
    | apply preserves_outOfFuel
    | apply (preserves_bind R_trans); [|intros]
    | apply (preserves_catch R_trans); [|intros|intros]
    | apply keeps_preserves; solve [auto with keeps]
    | solve [auto with keeps]
    | match goal with
      | |- preserves _ (match ?x with _ => _ end) => destruct x
      | |- preserves _ (if ?b then _ else _) => destruct b
      | |- preserves _ (let '(_, _) := ?p in _) => destruct p
      end ].

Section PlainrecAbort.

Variable jsFunction : jsstring -> list EVLObject -> Cells -> (exception + Result) * Cells.
Variable rec : EVLObject -> DefiniteEnv -> DefiniteEnv -> M World Result.
Hypothesis Hrec : forall form lenv denv, preserves sameAbort (rec form lenv denv).

Ltac step := repeat (preserves_step sameAbort_refl sameAbort_trans).

Lemma preserves_plainrecEvalForms (forms : EVLObject) (lenv denv : DefiniteEnv) :
  preserves sameAbort (plainrecEvalForms rec forms lenv denv).
Proof.
  induction forms as [| | | | | | | | car _ cdr IH | | | |]; simpl; step.
Qed.

Lemma preserves_plainrecEvalOperands (mv macro : bool) (operands : EVLObject)
  (args : list EVLObject) (lenv denv : DefiniteEnv) :
  preserves sameAbort (plainrecEvalOperands rec mv macro operands args lenv denv).
Proof.
  revert args. induction operands as [| | | | | | | | car _ cdr IH | | | |];
    intros args; simpl; step.
Qed.

#[local] Hint Resolve preserves_plainrecEvalForms preserves_plainrecEvalOperands : keeps.

Lemma preserves_plainrecInvokeFun (apply macro : bool) (fn : EVLObject)
  (args : list EVLObject) (lenv denv : DefiniteEnv) :
  preserves sameAbort (plainrecInvokeFun jsFunction rec apply macro fn args lenv denv).
Proof. unfold plainrecInvokeFun. step. Qed.

#[local] Hint Resolve preserves_plainrecInvokeFun : keeps.

Lemma preserves_plainrecEvalForm_ (form : EVLObject) (lenv denv : DefiniteEnv) :
  preserves sameAbort (plainrecEvalForm_ jsFunction rec form lenv denv).
Proof.
  unfold plainrecEvalForm_, plainrecEvalQuote, plainrecEvalProgn, plainrecEvalIf,
    plainrecEvalLambda, plainrecEvalRef, plainrecEvalSet, plainrecEvalCatchErrors,
    plainrecEvalCall, plainrecEvalOperator.
  step.
Qed.

End PlainrecAbort.

Lemma preserves_plainrecEvalForm jsFunction (fuel : nat) :
  forall form lenv denv,
    preserves sameAbort (plainrecEvalForm jsFunction fuel form lenv denv).
Proof.
  induction fuel as [|fuel IH]; intros form lenv denv; [intros w; exact I|].
  apply preserves_plainrecEvalForm_. exact IH.
Qed.
(** ** The trampoline evaluator simulates the plain recursive evaluator *)

Section TrampolineSimulation.

Variable jsFunction : jsstring -> list EVLObject -> Cells -> (exception + Result) * Cells.
Variable host : nat -> Z -> Z.

#[local] Abbreviation run := (tRun jsFunction host).
#[local] Abbreviation stepRun := (tStepRun jsFunction host).
#[local] Abbreviation raise := (tRaise jsFunction host).
#[local] Abbreviation simulates := (tSimulates jsFunction host).

Lemma abortRequested_noAbort (w : World) :
  noAbort w -> abortRequested host w = Ok false w.
Proof. intros H. unfold abortRequested. rewrite H. reflexivity. Qed.

Lemma sameAbort_noAbort (w w' : World) : sameAbort w w' -> noAbort w -> noAbort w'.
Proof. intros [H _] Hw. unfold noAbort in *. congruence. Qed.

Lemma tRun_EvalReq (fuel : nat) (form : EVLObject) (lenv : DefiniteEnv)
  (stack : list TrampolineElement) (w : World) :
  noAbort w ->
  run (S fuel) (EvalReq form lenv) stack w
  = stepRun fuel (trampolineEvalForm form lenv) stack w.
Proof.
  intros Hw. unfold tRun, tStepRun. cbn [trampolineLoop].
  unfold bind at 1. unfold tOnWorld. cbn [tWorld tStack]. rewrite (abortRequested_noAbort Hw).
  reflexivity.
Qed.

Lemma tRun_Bounced (fuel : nat) (k : TrampolineCont) (x : Invoked)
  (stack : list TrampolineElement) (w : World) :
  noAbort w -> isTrampolineEndCont k = false ->
  run (S fuel) (Bounced x) (TCont k :: stack) w
  = stepRun fuel (trampolineInvoke jsFunction k x) stack w.
Proof.
  intros Hw Hk. unfold tRun, tStepRun. cbn [trampolineLoop].
  unfold bind at 1. unfold tOnWorld. cbn [tWorld tStack]. rewrite (abortRequested_noAbort Hw).
  unfold bind at 1. unfold tPopCont. cbn [tStack tWorld popContFrom].
  destruct k; try reflexivity; discriminate.
Qed.

Lemma tRun_Bounced_popCont (fuel : nat) (x : Invoked) (stack : list TrampolineElement)
  (w : World) :
  noAbort w ->
  run (S fuel) (Bounced x) stack w
  = match popContFrom stack with
    | Some (k, r) =>
        if isTrampolineEndCont k
        then match x with
             | OnResult result => Ok result (mkTrampolineState r w)
             | OnArgs _ => Throw TypeError (mkTrampolineState r w)
             end
        else stepRun fuel (trampolineInvoke jsFunction k x) r w
    | None => OutOfFuel
    end.
Proof.
  intros Hw. unfold tRun, tStepRun. cbn [trampolineLoop].
  unfold bind at 1. unfold tOnWorld. cbn [tWorld tStack]. rewrite (abortRequested_noAbort Hw).
  unfold bind at 1. unfold tPopCont. cbn [tStack tWorld].
  destruct (popContFrom stack) as [[k r]|]; [|reflexivity].
  destruct k; try reflexivity. destruct x; reflexivity.
Qed.

Lemma tRun_Bounced_junk (fuel : nat) (element : TrampolineElement) (x : Invoked)
  (stack : list TrampolineElement) (w : World) :
  noAbort w ->
  match element with TCont _ => False | _ => True end ->
  run fuel (Bounced x) (element :: stack) w = run fuel (Bounced x) stack w.
Proof.
  intros Hw He. destruct fuel as [|fuel]; [reflexivity|].
  rewrite !tRun_Bounced_popCont by exact Hw.
  destruct element; [contradiction|reflexivity|reflexivity].
Qed.

Lemma tRaise_skip (fuel : nat) (element : TrampolineElement) (e : exception)
  (stack : list TrampolineElement) (w : World) :
  match element with
  | TCont k => isTrampolineEndCont k = false
  | TErrorHandler => False
  | TFrame _ => True
  end ->
  raise fuel e (element :: stack) w = raise fuel e stack w.
Proof.
  intros He. unfold tRaise, bind, tHandleError. cbn [tStack tWorld].
  destruct element as [k| |a]; [|contradiction|reflexivity].
  destruct k; try reflexivity; discriminate.
Qed.

Lemma tRaise_handler (fuel : nat) (e : exception) (stack : list TrampolineElement)
  (w : World) :
  raise fuel e (TErrorHandler :: stack) w
  = run fuel (Bounced (OnResult (EVLObject_ (EVLString (exception_name e))))) stack w.
Proof. reflexivity. Qed.

Lemma tStepRun_ret (fuel : nat) (bounce : Bounce) (stack : list TrampolineElement)
  (w : World) : stepRun fuel (ret bounce) stack w = run fuel bounce stack w.
Proof. reflexivity. Qed.

Lemma tStepRun_throw (fuel : nat) (e : exception) (stack : list TrampolineElement)
  (w : World) : stepRun fuel (throw e) stack w = raise fuel e stack w.
Proof. reflexivity. Qed.

Lemma tStepRun_push (fuel : nat) (element : TrampolineElement)
  (step : M TrampolineState Bounce) (stack : list TrampolineElement) (w : World) :
  stepRun fuel (tPush element;;; step) stack w = stepRun fuel step (element :: stack) w.
Proof. reflexivity. Qed.

Lemma tStepRun_onWorld_Ok {A : Type} (fuel : nat) (m : M World A)
  (k : A -> M TrampolineState Bounce) (stack : list TrampolineElement) (w w1 : World)
  (a : A) :
  m w = Ok a w1 ->
  stepRun fuel (bind (tOnWorld m) k) stack w = stepRun fuel (k a) stack w1.
Proof.
  intros H. unfold tStepRun, bind, tCatching, tOnWorld. cbn [tWorld tStack].
  rewrite H. reflexivity.
Qed.

Lemma tStepRun_onWorld_Throw {A : Type} (fuel : nat) (m : M World A)
  (k : A -> M TrampolineState Bounce) (stack : list TrampolineElement) (w w1 : World)
  (e : exception) :
  m w = Throw e w1 ->
  stepRun fuel (bind (tOnWorld m) k) stack w = raise fuel e stack w1.
Proof.
  intros H. unfold tStepRun, tRaise, bind, tCatching, tOnWorld.
  cbn [tWorld tStack]. rewrite H. reflexivity.
Qed.

(** *** Simulations compose *)

Lemma sim_ret {X : Type} (x : X) (inject : X -> Invoked) (stack : list TrampolineElement)
  (w : World) :
  noAbort w -> simulates (Ok x w) (ret (Bounced (inject x))) inject stack w.
Proof. intros Hw. split; [exact Hw|]. exists 0. intros extra. reflexivity. Qed.

Lemma sim_throw {X : Type} (e : exception) (inject : X -> Invoked)
  (stack : list TrampolineElement) (w : World) :
  noAbort w -> simulates (Throw e w) (throw e) inject stack w.
Proof. intros Hw. split; [exact Hw|]. exists 0. intros extra. reflexivity. Qed.

Lemma sim_liftE {A X : Type} (x : exception + A) (K : A -> M World X)
  (k : A -> M TrampolineState Bounce) (inject : X -> Invoked)
  (stack : list TrampolineElement) (w : World) :
  noAbort w ->
  (forall a, x = inr a -> simulates (K a w) (k a) inject stack w) ->
  simulates (bind (liftE x) K w) (bind (liftE x) k) inject stack w.
Proof.
  intros Hw H. destruct x as [e|a].
  - apply sim_throw. exact Hw.
  - exact (H a eq_refl).
Qed.

Lemma sim_onWorld {A X : Type} (m : M World A) (K : A -> M World X)
  (k : A -> M TrampolineState Bounce) (inject : X -> Invoked)
  (stack : list TrampolineElement) (w : World) :
  keeps sameAbort m -> noAbort w ->
  (forall a w1, m w = Ok a w1 -> noAbort w1 -> simulates (K a w1) (k a) inject stack w1) ->
  simulates (bind m K w) (bind (tOnWorld m) k) inject stack w.
Proof.
  intros Hm Hw H. specialize (Hm w). unfold bind at 1.
  destruct (m w) as [a w1|e w1|] eqn:E; [| |contradiction].
  - assert (Hw1 : noAbort w1) by (eapply sameAbort_noAbort; eassumption).
    specialize (H a w1 eq_refl Hw1).
    destruct (K a w1) as [x w'|e w'|]; [| |exact I].
    + destruct H as [Hw' [n Hn]]. split; [exact Hw'|]. exists n. intros extra.
      erewrite tStepRun_onWorld_Ok by exact E. apply Hn.
    + destruct H as [Hw' [n Hn]]. split; [exact Hw'|]. exists n. intros extra.
      erewrite tStepRun_onWorld_Ok by exact E. apply Hn.
  - split; [eapply sameAbort_noAbort; eassumption|]. exists 0. intros extra.
    eapply tStepRun_onWorld_Throw. exact E.
Qed.

Lemma sim_EvalReq {X : Type} (r : res World X) (form : EVLObject) (lenv : DefiniteEnv)
  (inject : X -> Invoked) (stack : list TrampolineElement) (w : World) :
  noAbort w ->
  simulates r (trampolineEvalForm form lenv) inject stack w ->
  simulates r (ret (EvalReq form lenv)) inject stack w.
Proof.
  intros Hw H. destruct r as [x w'|e w'|]; [| |exact I];
    (destruct H as [Hw' [n Hn]]; split; [exact Hw'|]; exists (S n); intros extra;
     rewrite tStepRun_ret; cbn [Nat.add]; rewrite tRun_EvalReq by exact Hw; apply Hn).
Qed.

Lemma sim_seq {V X : Type} (p : M World V) (K : V -> M World X)
  (c : M TrampolineState Bounce) (k : TrampolineCont) (inject1 : V -> Invoked)
  (inject : X -> Invoked) (stack : list TrampolineElement) (w : World) :
  isTrampolineEndCont k = false ->
  simulates (p w) c inject1 (TCont k :: stack) w ->
  (forall v w1, p w = Ok v w1 -> noAbort w1 ->
     simulates (K v w1) (trampolineInvoke jsFunction k (inject1 v)) inject stack w1) ->
  simulates (bind p K w) (tPush (TCont k);;; c) inject stack w.
Proof.
  intros Hk Hp HK. unfold bind at 1.
  destruct (p w) as [v w1|e w1|] eqn:E; [| |exact I].
  - destruct Hp as [Hw1 [n1 Hn1]]. specialize (HK v w1 eq_refl Hw1).
    destruct (K v w1) as [x w'|e w'|]; [| |exact I];
      (destruct HK as [Hw' [n2 Hn2]]; split; [exact Hw'|]; exists (n1 + S n2);
       intros extra; rewrite tStepRun_push;
       replace (n1 + S n2 + extra) with (n1 + S (n2 + extra)) by lia;
       rewrite Hn1, tRun_Bounced by assumption; apply Hn2).
  - destruct Hp as [Hw1 [n1 Hn1]]. split; [exact Hw1|]. exists n1. intros extra.
    rewrite tStepRun_push, Hn1. apply tRaise_skip. exact Hk.
Qed.

Lemma sim_frame {X : Type} (r : res World X) (c : M TrampolineState Bounce) (a : nat)
  (inject : X -> Invoked) (stack : list TrampolineElement) (w : World) :
  simulates r c inject (TFrame a :: stack) w ->
  simulates r (tPush (TFrame a);;; c) inject stack w.
Proof.
  intros H. destruct r as [x w'|e w'|]; [| |exact I];
    (destruct H as [Hw' [n Hn]]; split; [exact Hw'|]; exists n; intros extra;
     rewrite tStepRun_push, Hn).
  - apply tRun_Bounced_junk; [exact Hw'|exact I].
  - apply tRaise_skip. exact I.
Qed.

End TrampolineSimulation.

Section TrampolineSimulatesPlainrec.

Variable jsFunction : jsstring -> list EVLObject -> Cells -> (exception + Result) * Cells.
Variable host : nat -> Z -> Z.

#[local] Abbreviation simulates := (tSimulates jsFunction host).

Lemma sim_onWorld_ret {A : Type} (m : M World A) (inject : A -> Invoked)
  (stack : list TrampolineElement) (w : World) :
  keeps sameAbort m -> noAbort w ->
  simulates (m w) (bind (tOnWorld m) (fun a => ret (Bounced (inject a)))) inject stack w.
Proof.
  intros Hm Hw.
  assert (H : simulates (bind m ret w)
                (bind (tOnWorld m) (fun a => ret (Bounced (inject a)))) inject stack w).
  { apply sim_onWorld; [exact Hm|exact Hw|]. intros a w1 _ Hw1. apply sim_ret. exact Hw1. }
  unfold bind at 1 in H. destruct (m w); exact H.
Qed.

Variable rec : EVLObject -> DefiniteEnv -> DefiniteEnv -> M World Result.

Hypothesis IHrec :
  forall form lenv stack w,
    noAbort w ->
    simulates (rec form lenv (tFrames stack) w) (trampolineEvalForm form lenv) OnResult stack w.

Lemma sim_rec (form : EVLObject) (lenv : DefiniteEnv) (stack : list TrampolineElement)
  (w : World) :
  noAbort w ->
  simulates (rec form lenv (tFrames stack) w) (ret (EvalReq form lenv)) OnResult stack w.
Proof. intros Hw. apply sim_EvalReq; [exact Hw|]. apply IHrec. exact Hw. Qed.

Lemma sim_forms (forms : EVLObject) (lenv : DefiniteEnv) :
  forall stack w,
    noAbort w ->
    simulates (plainrecEvalForms rec forms lenv (tFrames stack) w)
      (trampolineEvalForms forms lenv) OnResult stack w.
Proof.
  induction forms as [| | | | | | | | car _ cdr IH | | | |]; intros stack w Hw;
    try (apply sim_throw; exact Hw).
  - apply (@sim_ret jsFunction host _ (EVLObject_ VOID_) OnResult). exact Hw.
  - destruct cdr as [| | | | | | | | cadr cddr | | | |].
    1-7,10-13:
      (cbn [plainrecEvalForms trampolineEvalForms];
       apply sim_seq with (inject1 := OnResult);
       [reflexivity
       |apply (@sim_rec car lenv (TCont _ :: stack)); exact Hw
       |intros v w1 _ Hw1; apply sim_throw; exact Hw1]).
    + apply sim_rec. exact Hw.
    + cbn [plainrecEvalForms trampolineEvalForms].
      apply sim_seq with (inject1 := OnResult); [reflexivity|apply (@sim_rec car lenv (TCont _ :: stack)); exact Hw|].
      intros v w1 _ Hw1. apply IH. exact Hw1.
Qed.

Lemma sim_operands (mv macro : bool) (operands : EVLObject) (lenv : DefiniteEnv) :
  forall args stack w,
    noAbort w ->
    simulates (plainrecEvalOperands rec mv macro operands args lenv (tFrames stack) w)
      (trampolineEvalOperands mv macro operands args lenv) OnArgs stack w.
Proof.
  induction operands as [| | | | | | | | car _ cdr IH | | | |]; intros args stack w Hw;
    try (apply sim_throw; exact Hw).
  - apply (@sim_ret jsFunction host _ args OnArgs). exact Hw.
  - cbn [plainrecEvalOperands trampolineEvalOperands]. destruct macro.
    + apply IH. exact Hw.
    + apply sim_seq with (inject1 := OnResult); [reflexivity|apply (@sim_rec car lenv (TCont _ :: stack)); exact Hw|].
      intros v w1 _ Hw1. apply IH. exact Hw1.
Qed.

Lemma sim_invokeFun (apply macro : bool) (fn : EVLObject) (args : list EVLObject)
  (lenv : DefiniteEnv) (stack : list TrampolineElement) (w : World) :
  noAbort w ->
  simulates (plainrecInvokeFun jsFunction rec apply macro fn args lenv (tFrames stack) w)
    (trampolineInvokeFun jsFunction apply macro fn args lenv) OnResult stack w.
Proof.
  intros Hw. unfold plainrecInvokeFun, trampolineInvokeFun.
  destruct fn as [| | | | | | | | | | arityMin arityMax name
                 | scope namespace m parameters rest forms fnlenv |];
    try (apply sim_throw; exact Hw).
  - apply sim_liftE; [exact Hw|]. intros values _.
    apply sim_onWorld_ret; [apply keeps_callJsFunction|exact Hw].
  - apply sim_liftE; [exact Hw|]. intros values _. destruct scope.
    + apply sim_onWorld; [apply keeps_newFrame|exact Hw|]. intros a w1 _ Hw1.
      destruct macro.
      * apply sim_seq with (inject1 := OnResult); [reflexivity|apply (@sim_forms forms (a :: fnlenv) (TCont _ :: stack)); exact Hw1|].
        intros v w2 _ Hw2. apply sim_rec. exact Hw2.
      * apply sim_forms. exact Hw1.
    + apply sim_onWorld; [apply keeps_newFrame|exact Hw|]. intros a w1 _ Hw1.
      apply sim_frame. apply (@sim_forms forms fnlenv (TFrame a :: stack)). exact Hw1.
Qed.

Lemma sim_operator (operator : EVLObject) (lenv : DefiniteEnv)
  (stack : list TrampolineElement) (w : World) :
  noAbort w ->
  simulates (plainrecEvalOperator rec operator lenv (tFrames stack) w)
    (trampolineEvalOperator operator lenv) OnResult stack w.
Proof.
  intros Hw. unfold plainrecEvalOperator, trampolineEvalOperator.
  destruct operator; try (apply sim_rec; exact Hw).
  apply sim_onWorld; [apply keeps_DefiniteEnv_ref|exact Hw|]. intros value w1 _ Hw1.
  apply (@sim_ret jsFunction host _ (EVLObject_ value) OnResult). exact Hw1.
Qed.

(** The error handler of [_catch-errors]. *)
Lemma sim_catchErrors (tryForm : EVLObject) (lenv : DefiniteEnv)
  (stack : list TrampolineElement) (w : World) :
  noAbort w ->
  simulates
    (match rec tryForm lenv (tFrames stack) w with
     | Ok _ w' => Ok (EVLObject_ VOID_) w'
     | Throw exception w' => Ok (EVLObject_ (EVLString (exception_name exception))) w'
     | OutOfFuel => OutOfFuel
     end)
    (tPush TErrorHandler;;;
     tPush (TCont (TrampolineCatchErrorsTryFormCont lenv));;;
     ret (EvalReq tryForm lenv)) OnResult stack w.
Proof.
  intros Hw.
  pose proof (@sim_rec tryForm lenv
                (TCont (TrampolineCatchErrorsTryFormCont lenv) :: TErrorHandler :: stack) w Hw)
    as H.
  cbn [tFrames] in H.
  destruct (rec tryForm lenv (tFrames stack) w) as [v w'|e w'|]; [| |exact I].
  - destruct H as [Hw' [n Hn]]. split; [exact Hw'|]. exists (n + 1). intros extra.
    rewrite !tStepRun_push.
    replace (n + 1 + extra) with (n + S extra) by lia.
    rewrite Hn, tRun_Bounced by (exact Hw' || reflexivity).
    cbn [trampolineInvoke]. unfold bounceObject. rewrite tStepRun_ret.
    apply tRun_Bounced_junk; [exact Hw'|exact I].
  - destruct H as [Hw' [n Hn]]. split; [exact Hw'|]. exists n. intros extra.
    rewrite !tStepRun_push, Hn.
    rewrite tRaise_skip by reflexivity. apply tRaise_handler.
Qed.

Lemma sim_form (form : EVLObject) (lenv : DefiniteEnv) (stack : list TrampolineElement)
  (w : World) :
  noAbort w ->
  simulates (plainrecEvalForm_ jsFunction rec form lenv (tFrames stack) w)
    (trampolineEvalForm form lenv) OnResult stack w.
Proof.
  intros Hw. unfold plainrecEvalForm_, trampolineEvalForm.
  destruct form as [| | | | | | name | | car cdr | | | |];
    try (apply (@sim_ret jsFunction host _ (EVLObject_ _) OnResult); exact Hw).
  - (* a variable *)
    apply sim_onWorld; [apply keeps_DefiniteEnv_ref|exact Hw|]. intros value w1 _ Hw1.
    apply (@sim_ret jsFunction host _ (EVLObject_ value) OnResult). exact Hw1.
  - (* the empty list *)
    apply sim_throw. exact Hw.
  - destruct (specialOperator car) as [| | | scope namespace macro | scope namespace
                                      | scope namespace | | | mv apply].
    + (* quote *)
      unfold plainrecEvalQuote, trampolineEvalQuote.
      apply sim_liftE; [exact Hw|]. intros literal _.
      apply (@sim_ret jsFunction host _ (EVLObject_ literal) OnResult). exact Hw.
    + (* progn *)
      unfold plainrecEvalProgn, trampolineEvalProgn.
      apply sim_liftE; [exact Hw|]. intros forms _. apply sim_forms. exact Hw.
    + (* if *)
      unfold plainrecEvalIf, trampolineEvalIf.
      apply sim_liftE; [exact Hw|]. intros [[testForm thenForm] elseForm] _.
      apply sim_seq with (inject1 := OnResult);
        [reflexivity|apply (@sim_rec testForm lenv (TCont _ :: stack)); exact Hw|].
      intros v w1 _ Hw1. cbn [trampolineInvoke].
      destruct (primaryValue v) as [| [|] | | | | | | | | | | |];
        try (apply sim_throw; exact Hw1); apply sim_rec; exact Hw1.
    + (* lambda *)
      unfold plainrecEvalLambda, trampolineEvalLambda.
      apply sim_liftE; [exact Hw|]. intros [[parameters rest] forms] _.
      apply (@sim_ret jsFunction host _ (EVLObject_ _) OnResult). exact Hw.
    + (* ref *)
      unfold plainrecEvalRef, trampolineEvalRef.
      apply sim_liftE; [exact Hw|]. intros variable _.
      destruct scope.
      * apply sim_onWorld; [apply keeps_DefiniteEnv_ref|exact Hw|]. intros value w1 _ Hw1.
        apply (@sim_ret jsFunction host _ (EVLObject_ value) OnResult). exact Hw1.
      * apply (@sim_onWorld jsFunction host _ _
                 (DefiniteEnv_ref (tFrames stack) namespace variable));
          [apply keeps_DefiniteEnv_ref|exact Hw|]. intros value w1 _ Hw1.
        apply (@sim_ret jsFunction host _ (EVLObject_ value) OnResult). exact Hw1.
    + (* set *)
      unfold plainrecEvalSet, trampolineEvalSet.
      apply sim_liftE; [exact Hw|]. intros [variable valueForm] _.
      apply sim_seq with (inject1 := OnResult);
        [reflexivity|apply (@sim_rec valueForm lenv (TCont _ :: stack)); exact Hw|].
      intros v w1 _ Hw1. cbn [trampolineInvoke]. destruct scope.
      * apply sim_onWorld; [apply keeps_DefiniteEnv_set|exact Hw1|]. intros value w2 _ Hw2.
        apply (@sim_ret jsFunction host _ (EVLObject_ value) OnResult). exact Hw2.
      * apply (@sim_onWorld jsFunction host _ _
                 (DefiniteEnv_set (tFrames stack) namespace variable (primaryValue v)));
          [apply keeps_DefiniteEnv_set|exact Hw1|]. intros value w2 _ Hw2.
        apply (@sim_ret jsFunction host _ (EVLObject_ value) OnResult). exact Hw2.
    + (* _for-each *)
      apply sim_throw. exact Hw.
    + (* _catch-errors *)
      unfold plainrecEvalCatchErrors, trampolineEvalCatchErrors.
      apply sim_liftE; [exact Hw|]. intros tryForm _. apply sim_catchErrors. exact Hw.
    + (* a call *)
      unfold plainrecEvalCall, trampolineEvalCall.
      apply sim_liftE; [exact Hw|]. intros [operator operands] _.
      apply sim_seq with (inject1 := OnResult);
        [reflexivity|apply (@sim_operator operator lenv (TCont _ :: stack)); exact Hw|].
      intros v w1 _ Hw1. cbn [trampolineInvoke].
      apply sim_seq with (inject1 := OnArgs);
        [reflexivity
        |apply (@sim_operands mv _ operands lenv [] (TCont _ :: stack)); exact Hw1|].
      intros args w2 _ Hw2. cbn [trampolineInvoke]. apply sim_invokeFun. exact Hw2.
Qed.

End TrampolineSimulatesPlainrec.

(** The trampoline evaluator simulates the plain recursive evaluator on
    every form, in every lexical environment and on every control stack; the
    dynamic environment of the plain recursive evaluator is made of the
    frames on the control stack. *)
Lemma trampoline_simulates_plainrec jsFunction host (fuel : nat) :
  forall form lenv stack w,
    noAbort w ->
    tSimulates jsFunction host (plainrecEvalForm jsFunction fuel form lenv (tFrames stack) w)
      (trampolineEvalForm form lenv) OnResult stack w.
Proof.
  induction fuel as [|fuel IH]; intros form lenv stack w Hw; [exact I|].
  apply sim_form; [exact IH|exact Hw].
Qed.

(** More fuel does not change what the driver loop returns. *)
Lemma trampolineLoop_mono jsFunction host (fuel : nat) :
  forall bounce s,
    resLe (trampolineLoop jsFunction host fuel bounce s)
          (trampolineLoop jsFunction host (S fuel) bounce s).
Proof.
  induction fuel as [|fuel IH]; intros bounce s; [apply resLe_OutOfFuel|].
  rewrite (trampolineLoop_iteration jsFunction host (S fuel)).
  rewrite (trampolineLoop_iteration jsFunction host fuel).
  apply resLe_bind; [apply resLe_refl|].
  intros [bounce'|result] s'; [apply IH|apply resLe_refl].
Qed.

Lemma resLe_le {S A : Type} (f : nat -> res S A) :
  (forall n, resLe (f n) (f (Datatypes.S n))) ->
  forall n m, n <= m -> resLe (f n) (f m).
Proof.
  intros H n m Hle. induction Hle as [|m Hle IH]; [apply resLe_refl|].
  eapply resLe_trans; [exact IH|apply H].
Qed.

(** Two results of a computation that more fuel does not change are the
    same. *)
Lemma resLe_same {S A : Type} (f : nat -> res S A) :
  (forall n, resLe (f n) (f (Datatypes.S n))) ->
  forall n m, f n <> OutOfFuel -> f m <> OutOfFuel -> f n = f m.
Proof.
  intros H n m Hn Hm. destruct (Nat.le_ge_cases n m) as [Hle|Hle].
  - symmetry. apply resLe_eq; [apply resLe_le; assumption|exact Hn].
  - apply resLe_eq; [apply resLe_le; assumption|exact Hm].
Qed.

Lemma trampolineEval_mono jsFunction host (form : EVLObject) (w : World) (fuel : nat) :
  resLe (trampolineEval jsFunction host fuel form w)
        (trampolineEval jsFunction host (S fuel) form w).
Proof.
  unfold trampolineEval.
  destruct (trampolineLoop_mono jsFunction host fuel (EvalReq form nullDefiniteEnv)
              (mkTrampolineState [TCont trampolineEndCont] w)) as [-> | <-].
  - apply resLe_OutOfFuel.
  - apply resLe_refl.
Qed.

Lemma plainrecEval_mono jsFunction (form : EVLObject) (w : World) (fuel : nat) :
  resLe (plainrecEval jsFunction fuel form w) (plainrecEval jsFunction (S fuel) form w).
Proof. apply plainrecEvalForm_mono. Qed.

(** When the plain recursive evaluator ends, the trampoline evaluator ends
    with the same result in the same state, given enough fuel. *)
Lemma trampolineEval_plainrecEval jsFunction host (fuel : nat) (form : EVLObject)
  (w : World) :
  noAbort w ->
  plainrecEval jsFunction fuel form w <> OutOfFuel ->
  exists m, forall m', m <= m' ->
    trampolineEval jsFunction host m' form w = plainrecEval jsFunction fuel form w.
Proof.
  intros Hw Hr. unfold plainrecEval in *.
  pose proof (@trampoline_simulates_plainrec jsFunction host fuel form nullDefiniteEnv
                [TCont trampolineEndCont] w Hw) as H.
  cbn [tFrames] in H. fold nullDefiniteEnv in H.
  destruct (plainrecEvalForm jsFunction fuel form nullDefiniteEnv nullDefiniteEnv w)
    as [v w'|e w'|]; [| |contradiction].
  - destruct H as [Hw' [n Hn]]. exists (S (n + 1)). intros m' Hle.
    replace m' with (S (n + S (m' - S (n + 1)))) by lia.
    unfold trampolineEval. fold (tRun jsFunction host (S (n + S (m' - S (n + 1))))
                                   (EvalReq form nullDefiniteEnv) [TCont trampolineEndCont] w).
    rewrite tRun_EvalReq by exact Hw. rewrite Hn.
    rewrite tRun_Bounced_popCont by exact Hw'. reflexivity.
  - destruct H as [Hw' [n Hn]]. exists (S n). intros m' Hle.
    replace m' with (S (n + (m' - S n))) by lia.
    unfold trampolineEval. fold (tRun jsFunction host (S (n + (m' - S n)))
                                   (EvalReq form nullDefiniteEnv) [TCont trampolineEndCont] w).
    rewrite tRun_EvalReq by exact Hw. rewrite Hn. reflexivity.
Qed.

(** The plain recursive and the trampoline evaluator agree: when both end,
    they end with the same result in the same state. *)
Lemma plainrec_trampoline_agree jsFunction host (n m : nat) (form : EVLObject) (w : World) :
  noAbort w ->
  plainrecEval jsFunction n form w <> OutOfFuel ->
  trampolineEval jsFunction host m form w <> OutOfFuel ->
  trampolineEval jsFunction host m form w = plainrecEval jsFunction n form w.
Proof.
  intros Hw Hn Hm.
  destruct (@trampolineEval_plainrecEval jsFunction host n form w Hw Hn) as [m0 H0].
  rewrite <- (H0 (Nat.max m m0)) by lia.
  apply (resLe_same (fun k => trampolineEval jsFunction host k form w)).
  - intros k. apply trampolineEval_mono.
  - exact Hm.
  - rewrite H0 by lia. exact Hn.
Qed.

(** ** The CPS evaluator is the reference evaluator in continuation passing
    style *)

Lemma bind_ret {S A : Type} (m : M S A) (s : S) : bind m ret s = m s.
Proof. unfold bind. destruct (m s); reflexivity. Qed.

Section DirectMono.

Variable jsFunction : jsstring -> list EVLObject -> Cells -> (exception + Result) * Cells.
Variables rec rec' : EVLObject -> DefiniteEnv -> DefiniteEnv -> M World Result.
Hypothesis Hrec : forall form lenv denv w, resLe (rec form lenv denv w) (rec' form lenv denv w).

Lemma directForEachLoop_mono (fn list_ : EVLObject) (lenv denv : DefiniteEnv) (w : World) :
  resLe (directForEachLoop jsFunction rec fn list_ lenv denv w)
        (directForEachLoop jsFunction rec' fn list_ lenv denv w).
Proof.
  revert w. induction list_ as [| | | | | | | | car _ cdr IH | | | |]; intros w; simpl;
    try apply resLe_refl.
  apply resLe_bind; [apply plainrecInvokeFun_mono; exact Hrec|]. intros _ w'. apply IH.
Qed.

Lemma directEvalForm__mono (form : EVLObject) (lenv denv : DefiniteEnv) (w : World) :
  resLe (directEvalForm_ jsFunction rec form lenv denv w)
        (directEvalForm_ jsFunction rec' form lenv denv w).
Proof.
  unfold directEvalForm_. destruct (isForEachForm form).
  - unfold directEvalForEach. mono Hrec. apply directForEachLoop_mono.
  - apply plainrecEvalForm__mono. exact Hrec.
Qed.

End DirectMono.

Lemma directEvalForm_mono jsFunction (fuel : nat) :
  forall form lenv denv w,
    resLe (directEvalForm jsFunction fuel form lenv denv w)
          (directEvalForm jsFunction (S fuel) form lenv denv w).
Proof.
  induction fuel as [|fuel IH]; intros form lenv denv w; [apply resLe_OutOfFuel|].
  apply (directEvalForm__mono jsFunction _ _ IH).
Qed.

Section CpsDirect.

Variable jsFunction : jsstring -> list EVLObject -> Cells -> (exception + Result) * Cells.
Variable rec : EVLObject -> DefiniteEnv -> DefiniteEnv -> M World Result.
Variable crec :
  EVLObject -> DefiniteEnv -> DefiniteEnv -> (Result -> M World Result) -> M World Result.
Hypothesis Hcrec :
  forall form lenv denv k w, crec form lenv denv k w = bind (rec form lenv denv) k w.

Lemma crec_cpsEndCont form lenv denv w : crec form lenv denv cpsEndCont w = rec form lenv denv w.
Proof. rewrite Hcrec. apply bind_ret. Qed.

Lemma cpsEvalForms_direct (forms : EVLObject) (lenv denv : DefiniteEnv)
  (k : Result -> M World Result) (w : World) :
  cpsEvalForms crec forms lenv denv k w = bind (plainrecEvalForms rec forms lenv denv) k w.
Proof.
  revert w. induction forms as [| | | | | | | | car _ cdr IH | | | |]; intros w;
    try reflexivity.
  destruct cdr; cbn [cpsEvalForms plainrecEvalForms]; rewrite ?Hcrec; try reflexivity;
    rewrite ?bind_assoc; apply bind_ext; intros result w'; try reflexivity.
  apply IH.
Qed.

Lemma cpsEvalOperands_direct (mv macro : bool) (operands : EVLObject)
  (args : list EVLObject) (lenv denv : DefiniteEnv) (k : list EVLObject -> M World Result)
  (w : World) :
  cpsEvalOperands crec mv macro operands args lenv denv k w
  = bind (plainrecEvalOperands rec mv macro operands args lenv denv) k w.
Proof.
  revert args w. induction operands as [| | | | | | | | car _ cdr IH | | | |];
    intros args w; try reflexivity.
  cbn [cpsEvalOperands plainrecEvalOperands]. destruct macro; [apply IH|].
  rewrite Hcrec, bind_assoc. apply bind_ext. intros result w'. apply IH.
Qed.

Lemma bind_cpsEndCont (m : M World Result) (w : World) : bind m cpsEndCont w = m w.
Proof. unfold bind, cpsEndCont, ret. destruct (m w); reflexivity. Qed.

Lemma bind_unfold {S A B : Type} (m : M S A) (k : A -> M S B) (s : S) :
  bind m k s
  = match m s with
    | Ok a s' => k a s'
    | Throw e s' => Throw e s'
    | OutOfFuel => OutOfFuel
    end.
Proof. reflexivity. Qed.

Lemma cpsInvokeFun_direct (apply macro : bool) (fn : EVLObject) (args : list EVLObject)
  (lenv denv : DefiniteEnv) (k : Result -> M World Result) (w : World) :
  cpsInvokeFun jsFunction crec apply macro fn args lenv denv k w
  = bind (plainrecInvokeFun jsFunction rec apply macro fn args lenv denv) k w.
Proof.
  unfold cpsInvokeFun, plainrecInvokeFun. destruct fn; try reflexivity.
  - rewrite bind_assoc. reflexivity.
  - rewrite bind_assoc. apply bind_ext. intros values w1.
    destruct scope; rewrite bind_assoc; apply bind_ext; intros a w2.
    + destruct macro; [|apply cpsEvalForms_direct].
      rewrite bind_assoc. rewrite (bind_unfold (cpsEvalForms _ _ _ _ _)).
      rewrite cpsEvalForms_direct, bind_cpsEndCont.
      rewrite <- bind_unfold. apply bind_ext. intros result w3. apply Hcrec.
    + apply cpsEvalForms_direct.
Qed.

Lemma cpsForEachLoop_direct (fn list_ : EVLObject) (lenv denv : DefiniteEnv) (w : World) :
  cpsForEachLoop jsFunction crec fn list_ lenv denv w
  = directForEachLoop jsFunction rec fn list_ lenv denv w.
Proof.
  revert w. induction list_ as [| | | | | | | | car _ cdr IH | | | |]; intros w;
    try reflexivity.
  cbn [cpsForEachLoop directForEachLoop].
  rewrite (bind_unfold (cpsInvokeFun _ _ _ _ _ _ _ _ _)).
  rewrite cpsInvokeFun_direct, bind_cpsEndCont. rewrite <- bind_unfold.
  apply bind_ext. intros _ w'. apply IH.
Qed.

Lemma cpsEvalForm__direct (form : EVLObject) (lenv denv : DefiniteEnv)
  (k : Result -> M World Result) (w : World) :
  cpsEvalForm_ jsFunction crec form lenv denv k w
  = bind (directEvalForm_ jsFunction rec form lenv denv) k w.
Proof.
  unfold cpsEvalForm_, directEvalForm_, isForEachForm, plainrecEvalForm_.
  destruct form as [| | | | | | name | | car cdr | | | |]; try reflexivity.
  - rewrite bind_assoc. reflexivity.
  - destruct (specialOperator car) as [| | | scope namespace macro | scope namespace
                                      | scope namespace | | | mv apply].
    + unfold cpsEvalQuote, plainrecEvalQuote. rewrite bind_assoc. reflexivity.
    + unfold cpsEvalProgn, plainrecEvalProgn. rewrite bind_assoc. apply bind_ext.
      intros forms w1. apply cpsEvalForms_direct.
    + unfold cpsEvalIf, plainrecEvalIf. rewrite bind_assoc. apply bind_ext.
      intros [[testForm thenForm] elseForm] w1. rewrite Hcrec, bind_assoc.
      apply bind_ext. intros result w2.
      destruct (primaryValue result) as [| [|] | | | | | | | | | | |];
        try reflexivity; apply Hcrec.
    + unfold cpsEvalLambda, plainrecEvalLambda. rewrite bind_assoc. apply bind_ext.
      intros [[parameters rest] forms] w1. reflexivity.
    + unfold cpsEvalRef, plainrecEvalRef. rewrite bind_assoc. apply bind_ext.
      intros variable w1. rewrite bind_assoc. reflexivity.
    + unfold cpsEvalSet, plainrecEvalSet. rewrite bind_assoc. apply bind_ext.
      intros [variable valueForm] w1. rewrite Hcrec, bind_assoc. apply bind_ext.
      intros result w2. rewrite bind_assoc. reflexivity.
    + unfold cpsEvalForEach, directEvalForEach. rewrite bind_assoc. apply bind_ext.
      intros [functionForm listForm] w1. rewrite Hcrec, bind_assoc. apply bind_ext.
      intros result w2. destruct (negb (instanceofEVLFunction (primaryValue result)));
        [reflexivity|].
      rewrite Hcrec, !bind_assoc. apply bind_ext. intros result' w3.
      rewrite bind_assoc.
      rewrite (bind_unfold (cpsForEachLoop _ _ _ _ _ _)), cpsForEachLoop_direct.
      reflexivity.
    + unfold cpsEvalCatchErrors, plainrecEvalCatchErrors. rewrite bind_assoc.
      apply bind_ext. intros tryForm w1. rewrite crec_cpsEndCont. unfold bind.
      destruct (rec tryForm lenv denv w1); reflexivity.
    + unfold cpsEvalCall, plainrecEvalCall. rewrite bind_assoc. apply bind_ext.
      intros [operator operands] w1.
      unfold cpsEvalOperator, plainrecEvalOperator.
      assert (Hop : forall K w,
                 match operator with
                 | EVLVariable name =>
                     value <- DefiniteEnv_ref lenv FUN_NS name;; K (EVLObject_ value)
                 | _ => crec operator lenv denv K
                 end w
                 = bind match operator with
                        | EVLVariable name =>
                            value <- DefiniteEnv_ref lenv FUN_NS name;; ret (EVLObject_ value)
                        | _ => rec operator lenv denv
                        end K w).
      { intros K w'. destruct operator; try apply Hcrec. rewrite bind_assoc. reflexivity. }
      rewrite Hop, bind_assoc. apply bind_ext. intros result w2.
      rewrite cpsEvalOperands_direct, bind_assoc. apply bind_ext. intros args w3.
      apply cpsInvokeFun_direct.
Qed.

End CpsDirect.

(** The CPS evaluator with a continuation is the reference evaluator
    followed by the continuation, with the same fuel. *)
Lemma cpsEvalForm_direct jsFunction (fuel : nat) :
  forall form lenv denv k w,
    cpsEvalForm jsFunction fuel form lenv denv k w
    = bind (directEvalForm jsFunction fuel form lenv denv) k w.
Proof.
  induction fuel as [|fuel IH]; intros form lenv denv k w; [reflexivity|].
  apply (cpsEvalForm__direct jsFunction _ _ IH).
Qed.

Lemma cpsEval_direct jsFunction (fuel : nat) (form : EVLObject) (w : World) :
  cpsEval jsFunction fuel form w = directEval jsFunction fuel form w.
Proof. unfold cpsEval, directEval. rewrite cpsEvalForm_direct. apply bind_cpsEndCont. Qed.

(** ** The object-oriented CPS evaluator *)

Section OocpsMono.

Variable jsFunction : jsstring -> list EVLObject -> Cells -> (exception + Result) * Cells.
Variables rec rec' : EVLObject -> DefiniteEnv -> DefiniteEnv -> OOCPSCont -> M World Result.
Variables inv inv' : OOCPSCont -> Invoked -> M World Result.
Hypothesis Hrec :
  forall form lenv denv k w, resLe (rec form lenv denv k w) (rec' form lenv denv k w).
Hypothesis Hinv : forall k x w, resLe (inv k x w) (inv' k x w).

Ltac mono2 := repeat first [apply Hinv | mono_step Hrec].

Lemma oocpsEvalForms_mono (forms : EVLObject) (lenv denv : DefiniteEnv) (k : OOCPSCont)
  (w : World) :
  resLe (oocpsEvalForms rec inv forms lenv denv k w)
        (oocpsEvalForms rec' inv' forms lenv denv k w).
Proof. unfold oocpsEvalForms. mono2. Qed.

Lemma oocpsEvalOperands_mono (mv macro : bool) (operands : EVLObject)
  (args : list EVLObject) (lenv denv : DefiniteEnv) (k : OOCPSCont) (w : World) :
  resLe (oocpsEvalOperands rec inv mv macro operands args lenv denv k w)
        (oocpsEvalOperands rec' inv' mv macro operands args lenv denv k w).
Proof.
  revert args w. induction operands as [| | | | | | | | car _ cdr IH | | | |];
    intros args w; simpl; mono2. apply IH.
Qed.

Lemma oocpsInvokeFun_mono (apply macro : bool) (fn : EVLObject) (args : list EVLObject)
  (lenv denv : DefiniteEnv) (k : OOCPSCont) (w : World) :
  resLe (oocpsInvokeFun jsFunction rec inv apply macro fn args lenv denv k w)
        (oocpsInvokeFun jsFunction rec' inv' apply macro fn args lenv denv k w).
Proof.
  unfold oocpsInvokeFun. mono2; apply oocpsEvalForms_mono.
Qed.

Lemma oocpsForEachLoop_mono (fn list_ : EVLObject) (lenv denv : DefiniteEnv) (w : World) :
  resLe (oocpsForEachLoop jsFunction rec inv fn list_ lenv denv w)
        (oocpsForEachLoop jsFunction rec' inv' fn list_ lenv denv w).
Proof.
  revert w. induction list_ as [| | | | | | | | car _ cdr IH | | | |]; intros w; simpl;
    try apply resLe_refl.
  apply resLe_bind; [apply oocpsInvokeFun_mono|]. intros _ w'. apply IH.
Qed.

Lemma oocpsEvalForm__mono (form : EVLObject) (lenv denv : DefiniteEnv) (k : OOCPSCont)
  (w : World) :
  resLe (oocpsEvalForm_ rec inv form lenv denv k w)
        (oocpsEvalForm_ rec' inv' form lenv denv k w).
Proof.
  unfold oocpsEvalForm_, oocpsEvalQuote, oocpsEvalProgn, oocpsEvalIf, oocpsEvalLambda,
    oocpsEvalRef, oocpsEvalSet, oocpsEvalForEach, oocpsEvalCatchErrors, oocpsEvalCall,
    oocpsEvalOperator.
  destruct form; try apply resLe_refl; mono2; try apply oocpsEvalForms_mono.
Qed.

Lemma oocpsInvoke__mono (k : OOCPSCont) (x : Invoked) (w : World) :
  resLe (invoke_ jsFunction rec inv k x w) (invoke_ jsFunction rec' inv' k x w).
Proof.
  unfold invoke_.
  destruct k; destruct x; mono2;
    first [apply oocpsEvalForms_mono | apply oocpsEvalOperands_mono
          | apply oocpsInvokeFun_mono | apply oocpsForEachLoop_mono | idtac].
Qed.

End OocpsMono.

Lemma oocps_mono jsFunction (fuel : nat) :
  (forall form lenv denv k w,
     resLe (oocpsEvalForm jsFunction fuel form lenv denv k w)
           (oocpsEvalForm jsFunction (S fuel) form lenv denv k w))
  /\ (forall k x w,
        resLe (oocpsInvoke jsFunction fuel k x w) (oocpsInvoke jsFunction (S fuel) k x w)).
Proof.
  induction fuel as [|fuel [IH1 IH2]]; (split; [intros form lenv denv k w|intros k x w]);
    try apply resLe_OutOfFuel.
  - apply (oocpsEvalForm__mono _ _ _ _ IH1 IH2).
  - apply (oocpsInvoke__mono jsFunction _ _ _ _ IH1 IH2).
Qed.

Section OocpsSimulation.

Variable jsFunction : jsstring -> list EVLObject -> Cells -> (exception + Result) * Cells.

#[local] Abbreviation evalForm := (oocpsEvalForm jsFunction).
#[local] Abbreviation invoke := (oocpsInvoke jsFunction).
#[local] Abbreviation simulates := (ooSimulates jsFunction).

Lemma oocpsInvoke_le (f f' : nat) (k : OOCPSCont) (x : Invoked) (w : World) :
  f <= f' -> invoke f k x w <> OutOfFuel -> invoke f' k x w = invoke f k x w.
Proof.
  intros Hle Hn. apply resLe_eq; [|exact Hn].
  apply (resLe_le (fun n => invoke n k x w)); [|exact Hle].
  intros n. apply oocps_mono.
Qed.

Lemma oocpsEvalForm_le (f f' : nat) form lenv denv (k : OOCPSCont) (w : World) :
  f <= f' -> evalForm f form lenv denv k w <> OutOfFuel ->
  evalForm f' form lenv denv k w = evalForm f form lenv denv k w.
Proof.
  intros Hle Hn. apply resLe_eq; [|exact Hn].
  apply (resLe_le (fun n => evalForm n form lenv denv k w)); [|exact Hle].
  intros n. apply oocps_mono.
Qed.

Lemma oo_ret {X : Type} (x : X) (inject : X -> Invoked) (w : World) :
  simulates (Ok x w) (fun m k => invoke m k (inject x)) inject w.
Proof.
  intros k f Hn. exists f. intros m' Hle. apply oocpsInvoke_le; assumption.
Qed.

Lemma oo_throw {X : Type} (e : exception) (inject : X -> Invoked) (w : World) :
  simulates (Throw e w) (fun _ _ => throw e) inject w.
Proof. intros k. exists 0. intros m' _. reflexivity. Qed.

Lemma oo_liftE {A X : Type} (x : exception + A) (K : A -> M World X)
  (c : A -> nat -> OOCPSCont -> M World Result) (inject : X -> Invoked) (w : World) :
  (forall a, x = inr a -> simulates (K a w) (c a) inject w) ->
  simulates (bind (liftE x) K w) (fun m k => bind (liftE x) (fun a => c a m k)) inject w.
Proof.
  intros H. destruct x as [e|a]; [apply (oo_throw e inject w)|exact (H a eq_refl)].
Qed.

Lemma oo_world {A X : Type} (m0 : M World A) (K : A -> M World X)
  (c : A -> nat -> OOCPSCont -> M World Result) (inject : X -> Invoked) (w : World) :
  (forall a w1, m0 w = Ok a w1 -> simulates (K a w1) (c a) inject w1) ->
  simulates (bind m0 K w) (fun m k => bind m0 (fun a => c a m k)) inject w.
Proof.
  intros H. unfold bind at 1. destruct (m0 w) as [a w1|e w1|] eqn:E; [| |exact I].
  - specialize (H a w1 eq_refl).
    destruct (K a w1) as [x w'|e w'|]; [| |exact I].
    + intros k f Hn. destruct (H k f Hn) as [m Hm]. exists m. intros m' Hle.
      unfold bind. rewrite E. apply Hm. exact Hle.
    + intros k. destruct (H k) as [m Hm]. exists m. intros m' Hle.
      unfold bind. rewrite E. apply Hm. exact Hle.
  - intros k. exists 0. intros m' _. unfold bind. rewrite E. reflexivity.
Qed.

Lemma oo_seq {V X : Type} (p : M World V) (K : V -> M World X)
  (cp : nat -> OOCPSCont -> M World Result) (cK : V -> nat -> OOCPSCont -> M World Result)
  (mk : OOCPSCont -> OOCPSCont) (inject1 : V -> Invoked) (inject : X -> Invoked)
  (w : World) :
  simulates (p w) cp inject1 w ->
  (forall v w1, p w = Ok v w1 -> simulates (K v w1) (cK v) inject w1) ->
  (forall m k v w1, invoke (S m) (mk k) (inject1 v) w1 = cK v m k w1) ->
  simulates (bind p K w) (fun m k => cp m (mk k)) inject w.
Proof.
  intros Hp HK Hmk. unfold bind at 1.
  destruct (p w) as [v w1|e w1|] eqn:E; [| |exact I].
  - specialize (HK v w1 eq_refl). cbn [ooSimulates] in Hp.
    destruct (K v w1) as [x w'|e w'|]; [| |exact I].
    + intros k f Hn. destruct (HK k f Hn) as [m2 Hm2].
      destruct (Hp (mk k) (S m2)) as [m1 Hm1].
      { rewrite Hmk, Hm2 by lia. exact Hn. }
      exists m1. intros m' Hle. rewrite Hm1 by exact Hle. rewrite Hmk. apply Hm2. lia.
    + intros k. destruct (HK k) as [m2 Hm2].
      destruct (Hp (mk k) (S m2)) as [m1 Hm1].
      { rewrite Hmk, Hm2 by lia. discriminate. }
      exists m1. intros m' Hle. rewrite Hm1 by exact Hle. rewrite Hmk. apply Hm2. lia.
  - intros k. apply Hp.
Qed.

(** An evaluation with the end continuation inside an evaluation. *)
Lemma oo_nested {X : Type} (p : M World Result) (K : Result -> M World X)
  (cp : nat -> OOCPSCont -> M World Result)
  (cK : Result -> nat -> OOCPSCont -> M World Result) (inject : X -> Invoked) (w : World) :
  simulates (p w) cp OnResult w ->
  (forall v w1, p w = Ok v w1 -> simulates (K v w1) (cK v) inject w1) ->
  simulates (bind p K w) (fun m k => bind (cp m oocpsEndCont) (fun v => cK v m k)) inject w.
Proof.
  intros Hp HK. unfold bind at 1.
  destruct (p w) as [v w1|e w1|] eqn:E; [| |exact I].
  - specialize (HK v w1 eq_refl). cbn [ooSimulates] in Hp.
    destruct (Hp oocpsEndCont 1) as [m1 Hm1]; [discriminate|].
    destruct (K v w1) as [x w'|e w'|]; [| |exact I].
    + intros k f Hn. destruct (HK k f Hn) as [m2 Hm2].
      exists (Nat.max m1 m2). intros m' Hle. unfold bind.
      rewrite Hm1 by lia. cbn. apply Hm2. lia.
    + intros k. destruct (HK k) as [m2 Hm2].
      exists (Nat.max m1 m2). intros m' Hle. unfold bind.
      rewrite Hm1 by lia. cbn. apply Hm2. lia.
  - intros k. destruct (Hp oocpsEndCont) as [m1 Hm1]. exists m1. intros m' Hle.
    unfold bind. rewrite Hm1 by exact Hle. reflexivity.
Qed.

(** [try { ... } catch (exception) { ... }] around an evaluation with the end
    continuation. *)
Lemma oo_catch (p : M World Result) (cp : nat -> OOCPSCont -> M World Result) (w : World) :
  simulates (p w) cp OnResult w ->
  simulates
    (match p w with
     | Ok _ w' => Ok (EVLObject_ VOID_) w'
     | Throw exception w' => Ok (EVLObject_ (EVLString (exception_name exception))) w'
     | OutOfFuel => OutOfFuel
     end)
    (fun m k w =>
       match cp m oocpsEndCont w with
       | Ok _ w' => invoke m k (OnResult (EVLObject_ VOID_)) w'
       | Throw exception w' =>
           invoke m k (OnResult (EVLObject_ (EVLString (exception_name exception)))) w'
       | OutOfFuel => OutOfFuel
       end) OnResult w.
Proof.
  intros Hp. destruct (p w) as [v w1|e w1|] eqn:E; [| |exact I]; cbn [ooSimulates] in *.
  - destruct (Hp oocpsEndCont 1) as [m1 Hm1]; [discriminate|].
    intros k f Hn. exists (Nat.max m1 f). intros m' Hle.
    rewrite Hm1 by lia. cbn. apply oocpsInvoke_le; [lia|exact Hn].
  - destruct (Hp oocpsEndCont) as [m1 Hm1].
    intros k f Hn. exists (Nat.max m1 f). intros m' Hle.
    rewrite Hm1 by lia. apply oocpsInvoke_le; [lia|exact Hn].
Qed.

(** From the body of [oocpsEvalForm] to [oocpsEvalForm]. *)
Lemma oo_evalForm {X : Type} (r : res World X) (form : EVLObject) (lenv denv : DefiniteEnv)
  (inject : X -> Invoked) (w : World) :
  simulates r (fun m k => oocpsEvalForm_ (evalForm m) (invoke m) form lenv denv k) inject w ->
  simulates r (fun m k => evalForm m form lenv denv k) inject w.
Proof.
  intros H. destruct r as [x w'|e w'|]; [| |exact I].
  - intros k f Hn. destruct (H k f Hn) as [m Hm]. exists (S m). intros m' Hle.
    destruct m' as [|m']; [lia|]. apply Hm. lia.
  - intros k. destruct (H k) as [m Hm]. exists (S m). intros m' Hle.
    destruct m' as [|m']; [lia|]. apply Hm. lia.
Qed.

End OocpsSimulation.

Section OocpsSimulatesDirect.

Variable jsFunction : jsstring -> list EVLObject -> Cells -> (exception + Result) * Cells.

#[local] Abbreviation evalForm := (oocpsEvalForm jsFunction).
#[local] Abbreviation invoke := (oocpsInvoke jsFunction).
#[local] Abbreviation simulates := (ooSimulates jsFunction).

Variable rec : EVLObject -> DefiniteEnv -> DefiniteEnv -> M World Result.

Hypothesis IHrec :
  forall form lenv denv w,
    simulates (rec form lenv denv w) (fun m k => evalForm m form lenv denv k) OnResult w.

Lemma oo_world_ret {A : Type} (m0 : M World A) (inject : A -> Invoked) (w : World) :
  simulates (m0 w) (fun m k => bind m0 (fun a => invoke m k (inject a))) inject w.
Proof.
  assert (H : simulates (bind m0 ret w)
                (fun m k => bind m0 (fun a => invoke m k (inject a))) inject w).
  { apply (@oo_world jsFunction _ _ m0 ret (fun a m k => invoke m k (inject a))).
    intros a w1 _. apply oo_ret. }
  rewrite bind_ret in H. exact H.
Qed.

Lemma oo_forms (forms : EVLObject) (lenv denv : DefiniteEnv) :
  forall w,
    simulates (plainrecEvalForms rec forms lenv denv w)
      (fun m k => oocpsEvalForms (evalForm m) (invoke m) forms lenv denv k) OnResult w.
Proof.
  induction forms as [| | | | | | | | car _ cdr IH | | | |]; intros w;
    try apply (@oo_throw jsFunction Result TypeError OnResult w).
  - apply (@oo_ret jsFunction Result (EVLObject_ VOID_) OnResult w).
  - destruct cdr as [| | | | | | | | cadr cddr | | | |].
    1-7,10-13:
      (apply (@oo_seq jsFunction _ _ (rec car lenv denv) _
                (fun m k => evalForm m car lenv denv k)
                (fun _ _ _ => throw TypeError)
                (OOCPSButLastFormCont (EVLCons car _) lenv denv) OnResult OnResult w);
       [apply IHrec|intros v w1 _; apply (@oo_throw jsFunction Result TypeError OnResult w1)
       |reflexivity]).
    + apply IHrec.
    + apply (@oo_seq jsFunction _ _ (rec car lenv denv) _
               (fun m k => evalForm m car lenv denv k)
               (fun _ m k => oocpsEvalForms (evalForm m) (invoke m) (EVLCons cadr cddr)
                               lenv denv k)
               (OOCPSButLastFormCont (EVLCons car (EVLCons cadr cddr)) lenv denv)
               OnResult OnResult w);
        [apply IHrec|intros v w1 _; apply IH|reflexivity].
Qed.

Lemma oo_operands (mv macro : bool) (operands : EVLObject) (lenv denv : DefiniteEnv) :
  forall args w,
    simulates (plainrecEvalOperands rec mv macro operands args lenv denv w)
      (fun m k => oocpsEvalOperands (evalForm m) (invoke m) mv macro operands args lenv denv k)
      OnArgs w.
Proof.
  induction operands as [| | | | | | | | car _ cdr IH | | | |]; intros args w;
    try apply (@oo_throw jsFunction _ TypeError OnArgs w).
  - apply (@oo_ret jsFunction _ args OnArgs w).
  - cbn [plainrecEvalOperands oocpsEvalOperands]. destruct macro; [apply IH|].
    apply (@oo_seq jsFunction _ _ (rec car lenv denv) _
             (fun m k => evalForm m car lenv denv k)
             (fun v m k => oocpsEvalOperands (evalForm m) (invoke m) mv false cdr
                             (pushValues mv args v) lenv denv k)
             (OOCPSOperandCont mv false (EVLCons car cdr) args lenv denv)
             OnResult OnArgs w);
      [apply IHrec|intros v w1 _; apply IH|reflexivity].
Qed.

Lemma oo_invokeFun (apply macro : bool) (fn : EVLObject) (args : list EVLObject)
  (lenv denv : DefiniteEnv) (w : World) :
  simulates (plainrecInvokeFun jsFunction rec apply macro fn args lenv denv w)
    (fun m k => oocpsInvokeFun jsFunction (evalForm m) (invoke m) apply macro fn args
                  lenv denv k) OnResult w.
Proof.
  unfold plainrecInvokeFun, oocpsInvokeFun.
  destruct fn as [| | | | | | | | | | arityMin arityMax name
                 | scope namespace m parameters rest forms fnlenv |];
    try apply (@oo_throw jsFunction _ callOperatorFormError OnResult w).
  - apply (@oo_liftE jsFunction _ _ _ _
             (fun values m k =>
                result <- callJsFunction jsFunction name values;;
                invoke m k (OnResult result))).
    intros values _. apply oo_world_ret.
  - destruct scope.
    + apply (@oo_liftE jsFunction _ _ _ _
               (fun values m k =>
                  a <- newFrame namespace parameters values;;
                  (if macro
                   then
                     result <- oocpsEvalForms (evalForm m) (invoke m) forms (a :: fnlenv) denv
                                 oocpsEndCont;;
                     evalForm m (primaryValue result) lenv denv k
                   else oocpsEvalForms (evalForm m) (invoke m) forms (a :: fnlenv) denv k))).
      intros values _.
      apply (@oo_world jsFunction _ _ _ _
               (fun a m k =>
                  if macro
                  then
                    result <- oocpsEvalForms (evalForm m) (invoke m) forms (a :: fnlenv) denv
                                oocpsEndCont;;
                    evalForm m (primaryValue result) lenv denv k
                  else oocpsEvalForms (evalForm m) (invoke m) forms (a :: fnlenv) denv k)).
      intros a w1 _. destruct macro.
      * apply (@oo_nested jsFunction _ _ _
                 (fun m k => oocpsEvalForms (evalForm m) (invoke m) forms (a :: fnlenv) denv k)
                 (fun v m k => evalForm m (primaryValue v) lenv denv k));
          [apply oo_forms|intros v w2 _; apply IHrec].
      * apply oo_forms.
    + apply (@oo_liftE jsFunction _ _ _ _
               (fun values m k =>
                  a <- newFrame namespace parameters values;;
                  oocpsEvalForms (evalForm m) (invoke m) forms fnlenv (a :: denv) k)).
      intros values _.
      apply (@oo_world jsFunction _ _ _ _
               (fun a m k => oocpsEvalForms (evalForm m) (invoke m) forms fnlenv (a :: denv) k)).
      intros a w1 _. apply oo_forms.
Qed.

(** The loop of [_for-each]: with enough fuel the loop ends as the loop of
    the reference evaluator. *)
Lemma oo_forEachLoop (fn list_ : EVLObject) (lenv denv : DefiniteEnv) :
  forall w,
    directForEachLoop jsFunction rec fn list_ lenv denv w <> OutOfFuel ->
    exists m, forall m', m <= m' ->
      oocpsForEachLoop jsFunction (evalForm m') (invoke m') fn list_ lenv denv w
      = directForEachLoop jsFunction rec fn list_ lenv denv w.
Proof.
  induction list_ as [| | | | | | | | car _ cdr IH | | | |]; intros w Hn;
    try (exists 0; intros m' _; reflexivity).
  cbn [directForEachLoop oocpsForEachLoop] in *.
  pose proof (oo_invokeFun false false fn [car] lenv denv w) as Hf.
  unfold bind in Hn |- *.
  destruct (plainrecInvokeFun jsFunction rec false false fn [car] lenv denv w)
    as [v w1|e w1|]; [| |contradiction]; cbn [ooSimulates] in Hf.
  - destruct (Hf oocpsEndCont 1) as [m1 Hm1]; [discriminate|].
    destruct (IH w1 Hn) as [m2 Hm2].
    exists (Nat.max m1 m2). intros m' Hle. rewrite Hm1 by lia. cbn. apply Hm2. lia.
  - destruct (Hf oocpsEndCont) as [m1 Hm1]. exists m1. intros m' Hle.
    rewrite Hm1 by exact Hle. reflexivity.
Qed.

Lemma oo_forEachList (fn list_ : EVLObject) (lenv denv : DefiniteEnv) (w : World) :
  simulates
    ((directForEachLoop jsFunction rec fn list_ lenv denv;;; ret (EVLObject_ VOID_)) w)
    (fun m k =>
       oocpsForEachLoop jsFunction (evalForm m) (invoke m) fn list_ lenv denv;;;
       invoke m k (OnResult (EVLObject_ VOID_))) OnResult w.
Proof.
  pose proof (oo_forEachLoop fn list_ lenv denv w) as H. unfold bind at 1.
  destruct (directForEachLoop jsFunction rec fn list_ lenv denv w) as [[] w1|e w1|];
    [| |exact I].
  - destruct H as [m1 Hm1]; [discriminate|].
    intros k f Hn. exists (Nat.max m1 f). intros m' Hle. unfold bind.
    rewrite Hm1 by lia. apply oocpsInvoke_le; [lia|exact Hn].
  - destruct H as [m1 Hm1]; [discriminate|].
    intros k. exists m1. intros m' Hle. unfold bind. rewrite Hm1 by exact Hle. reflexivity.
Qed.

Lemma oo_operator (operator : EVLObject) (lenv denv : DefiniteEnv) (w : World) :
  simulates (plainrecEvalOperator rec operator lenv denv w)
    (fun m k => oocpsEvalOperator (evalForm m) (invoke m) operator lenv denv k) OnResult w.
Proof.
  unfold plainrecEvalOperator, oocpsEvalOperator.
  destruct operator; try apply IHrec.
  apply (@oo_world jsFunction _ _ _ _
           (fun value m k => invoke m k (OnResult (EVLObject_ value)))).
  intros value w1 _. apply (@oo_ret jsFunction _ (EVLObject_ value) OnResult).
Qed.

Lemma oo_form (form : EVLObject) (lenv denv : DefiniteEnv) (w : World) :
  simulates (directEvalForm_ jsFunction rec form lenv denv w)
    (fun m k => oocpsEvalForm_ (evalForm m) (invoke m) form lenv denv k) OnResult w.
Proof.
  unfold directEvalForm_, isForEachForm, plainrecEvalForm_, oocpsEvalForm_.
  destruct form as [| | | | | | name | | car cdr | | | |];
    try apply (@oo_ret jsFunction _ (EVLObject_ _) OnResult).
  - (* a variable *)
    apply (@oo_world jsFunction _ _ _ _
             (fun value m k => invoke m k (OnResult (EVLObject_ value)))).
    intros value w1 _. apply (@oo_ret jsFunction _ (EVLObject_ value) OnResult).
  - (* the empty list *)
    apply (@oo_throw jsFunction _ emptyListError OnResult).
  - destruct (specialOperator car) as [| | | scope namespace macro | scope namespace
                                      | scope namespace | | | mv apply].
    + (* quote *)
      unfold plainrecEvalQuote, oocpsEvalQuote.
      apply (@oo_liftE jsFunction _ _ _ _
               (fun literal m k => invoke m k (OnResult (EVLObject_ literal)))).
      intros literal _. apply (@oo_ret jsFunction _ (EVLObject_ literal) OnResult).
    + (* progn *)
      unfold plainrecEvalProgn, oocpsEvalProgn.
      apply (@oo_liftE jsFunction _ _ _ _
               (fun forms m k => oocpsEvalForms (evalForm m) (invoke m) forms lenv denv k)).
      intros forms _. apply oo_forms.
    + (* if *)
      unfold plainrecEvalIf, oocpsEvalIf.
      apply (@oo_liftE jsFunction _ _ _ _
               (fun parts m k =>
                  let '(testForm, thenForm, elseForm) := parts in
                  evalForm m testForm lenv denv
                    (OOCPSIfTestFormCont thenForm elseForm lenv denv k))).
      intros [[testForm thenForm] elseForm] _.
      apply (@oo_seq jsFunction _ _ (rec testForm lenv denv) _
               (fun m k => evalForm m testForm lenv denv k)
               (fun v m k =>
                  match primaryValue v with
                  | EVLBoolean true => evalForm m thenForm lenv denv k
                  | EVLBoolean false => evalForm m elseForm lenv denv k
                  | _ => throw ifTestFormError
                  end)
               (OOCPSIfTestFormCont thenForm elseForm lenv denv) OnResult OnResult);
        [apply IHrec| |reflexivity].
      intros v w1 _.
      destruct (primaryValue v) as [| [|] | | | | | | | | | | |];
        try apply (@oo_throw jsFunction _ ifTestFormError OnResult); apply IHrec.
    + (* lambda *)
      unfold plainrecEvalLambda, oocpsEvalLambda.
      apply (@oo_liftE jsFunction _ _ _ _
               (fun parts m k =>
                  let '(parameters, rest, forms) := parts in
                  invoke m k (OnResult (EVLObject_
                    (EVLClosure scope namespace macro parameters rest forms lenv))))).
      intros [[parameters rest] forms] _.
      apply (@oo_ret jsFunction _ (EVLObject_ _) OnResult).
    + (* ref *)
      unfold plainrecEvalRef, oocpsEvalRef.
      apply (@oo_liftE jsFunction _ _ _ _
               (fun variable m k =>
                  value <- match scope with
                           | LEX_SCOPE => DefiniteEnv_ref lenv namespace variable
                           | DYN_SCOPE => DefiniteEnv_ref denv namespace variable
                           end;;
                  invoke m k (OnResult (EVLObject_ value)))).
      intros variable _.
      apply (@oo_world jsFunction _ _ _ _
               (fun value m k => invoke m k (OnResult (EVLObject_ value)))).
      intros value w1 _. apply (@oo_ret jsFunction _ (EVLObject_ value) OnResult).
    + (* set *)
      unfold plainrecEvalSet, oocpsEvalSet.
      apply (@oo_liftE jsFunction _ _ _ _
               (fun parts m k =>
                  let '(variable, valueForm) := parts in
                  evalForm m valueForm lenv denv
                    (OOCPSSetValueFormCont scope namespace variable lenv denv k))).
      intros [variable valueForm] _.
      apply (@oo_seq jsFunction _ _ (rec valueForm lenv denv) _
               (fun m k => evalForm m valueForm lenv denv k)
               (fun v m k =>
                  value <- match scope with
                           | LEX_SCOPE => DefiniteEnv_set lenv namespace variable
                                            (primaryValue v)
                           | DYN_SCOPE => DefiniteEnv_set denv namespace variable
                                            (primaryValue v)
                           end;;
                  invoke m k (OnResult (EVLObject_ value)))
               (OOCPSSetValueFormCont scope namespace variable lenv denv) OnResult OnResult);
        [apply IHrec| |reflexivity].
      intros v w1 _.
      apply (@oo_world jsFunction _ _ _ _
               (fun value m k => invoke m k (OnResult (EVLObject_ value)))).
      intros value w2 _. apply (@oo_ret jsFunction _ (EVLObject_ value) OnResult).
    + (* _for-each *)
      unfold directEvalForEach, oocpsEvalForEach.
      apply (@oo_liftE jsFunction _ _ _ _
               (fun parts m k =>
                  let '(functionForm, listForm) := parts in
                  evalForm m functionForm lenv denv
                    (OOCPSForEachFunctionFormCont listForm lenv denv k))).
      intros [functionForm listForm] _.
      apply (@oo_seq jsFunction _ _ (rec functionForm lenv denv) _
               (fun m k => evalForm m functionForm lenv denv k)
               (fun v m k =>
                  if negb (instanceofEVLFunction (primaryValue v))
                  then throw forEachFunctionFormError
                  else evalForm m listForm lenv denv
                         (OOCPSForEachListFormCont (primaryValue v) lenv denv k))
               (OOCPSForEachFunctionFormCont listForm lenv denv) OnResult OnResult);
        [apply IHrec| |reflexivity].
      intros v w1 _. destruct (negb (instanceofEVLFunction (primaryValue v)));
        [apply (@oo_throw jsFunction _ forEachFunctionFormError OnResult)|].
      apply (@oo_seq jsFunction _ _ (rec listForm lenv denv) _
               (fun m k => evalForm m listForm lenv denv k)
               (fun v' m k =>
                  oocpsForEachLoop jsFunction (evalForm m) (invoke m) (primaryValue v)
                    (primaryValue v') lenv denv;;;
                  invoke m k (OnResult (EVLObject_ VOID_)))
               (OOCPSForEachListFormCont (primaryValue v) lenv denv) OnResult OnResult);
        [apply IHrec| |reflexivity].
      intros v' w2 _. apply oo_forEachList.
    + (* _catch-errors *)
      unfold plainrecEvalCatchErrors, oocpsEvalCatchErrors.
      apply (@oo_liftE jsFunction _ _ _ _
               (fun tryForm m k w =>
                  match evalForm m tryForm lenv denv oocpsEndCont w with
                  | Ok _ w' => invoke m k (OnResult (EVLObject_ VOID_)) w'
                  | Throw exception w' =>
                      invoke m k
                        (OnResult (EVLObject_ (EVLString (exception_name exception)))) w'
                  | OutOfFuel => OutOfFuel
                  end)).
      intros tryForm _.
      apply (@oo_catch jsFunction (rec tryForm lenv denv)
               (fun m k => evalForm m tryForm lenv denv k)).
      apply IHrec.
    + (* a call *)
      unfold plainrecEvalCall, oocpsEvalCall.
      apply (@oo_liftE jsFunction _ _ _ _
               (fun parts m k =>
                  let '(operator, operands) := parts in
                  oocpsEvalOperator (evalForm m) (invoke m) operator lenv denv
                    (OOCPSOperatorCont mv apply operator operands lenv denv k))).
      intros [operator operands] _.
      apply (@oo_seq jsFunction _ _ (plainrecEvalOperator rec operator lenv denv) _
               (fun m k => oocpsEvalOperator (evalForm m) (invoke m) operator lenv denv k)
               (fun v m k =>
                  oocpsEvalOperands (evalForm m) (invoke m) mv
                    (instanceofEVLVariable operator && isMacroClosure (primaryValue v))
                    operands [] lenv denv
                    (OOCPSOperandsCont apply
                       (instanceofEVLVariable operator && isMacroClosure (primaryValue v))
                       (primaryValue v) lenv denv k))
               (OOCPSOperatorCont mv apply operator operands lenv denv) OnResult OnResult);
        [apply oo_operator| |reflexivity].
      intros v w1 _.
      apply (@oo_seq jsFunction _ _
               (plainrecEvalOperands rec mv
                  (instanceofEVLVariable operator && isMacroClosure (primaryValue v))
                  operands [] lenv denv) _
               (fun m k =>
                  oocpsEvalOperands (evalForm m) (invoke m) mv
                    (instanceofEVLVariable operator && isMacroClosure (primaryValue v))
                    operands [] lenv denv k)
               (fun args m k =>
                  oocpsInvokeFun jsFunction (evalForm m) (invoke m) apply
                    (instanceofEVLVariable operator && isMacroClosure (primaryValue v))
                    (primaryValue v) args lenv denv k)
               (OOCPSOperandsCont apply
                  (instanceofEVLVariable operator && isMacroClosure (primaryValue v))
                  (primaryValue v) lenv denv) OnArgs OnResult);
        [apply oo_operands| |reflexivity].
      intros args w2 _. apply oo_invokeFun.
Qed.

End OocpsSimulatesDirect.

(** The object-oriented CPS evaluator simulates the reference evaluator on
    every form. *)
Lemma oocps_simulates_direct jsFunction (fuel : nat) :
  forall form lenv denv w,
    ooSimulates jsFunction (directEvalForm jsFunction fuel form lenv denv w)
      (fun m k => oocpsEvalForm jsFunction m form lenv denv k) OnResult w.
Proof.
  induction fuel as [|fuel IH]; intros form lenv denv w; [exact I|].
  apply oo_evalForm. apply (@oo_form jsFunction _ IH).
Qed.

Lemma oocpsEval_mono jsFunction (form : EVLObject) (w : World) (fuel : nat) :
  resLe (oocpsEval jsFunction fuel form w) (oocpsEval jsFunction (S fuel) form w).
Proof. apply oocps_mono. Qed.

Lemma directEval_mono jsFunction (form : EVLObject) (w : World) (fuel : nat) :
  resLe (directEval jsFunction fuel form w) (directEval jsFunction (S fuel) form w).
Proof. apply directEvalForm_mono. Qed.

(** When the reference evaluator ends, the object-oriented CPS evaluator
    ends with the same result in the same state, given enough fuel. *)
Lemma oocpsEval_directEval jsFunction (fuel : nat) (form : EVLObject) (w : World) :
  directEval jsFunction fuel form w <> OutOfFuel ->
  exists m, forall m', m <= m' ->
    oocpsEval jsFunction m' form w = directEval jsFunction fuel form w.
Proof.
  intros Hr. unfold directEval, oocpsEval in *.
  pose proof (@oocps_simulates_direct jsFunction fuel form nullDefiniteEnv nullDefiniteEnv w)
    as H.
  destruct (directEvalForm jsFunction fuel form nullDefiniteEnv nullDefiniteEnv w)
    as [v w'|e w'|]; [| |contradiction].
  - apply (H oocpsEndCont 1). discriminate.
  - apply (H oocpsEndCont).
Qed.

(** ** The stack-based object-oriented CPS evaluator *)

Section SboocpsMono.

Variable jsFunction : jsstring -> list EVLObject -> Cells -> (exception + Result) * Cells.
Variables rec rec' : EVLObject -> DefiniteEnv -> M SBOOCPSState Result.
Variables inv inv' : SBOOCPSCont -> Invoked -> M SBOOCPSState Result.
Hypothesis Hrec : forall form lenv s, resLe (rec form lenv s) (rec' form lenv s).
Hypothesis Hinv : forall k x s, resLe (inv k x s) (inv' k x s).

Lemma popAndInvoke_mono (stack : list SBOOCPSElement) (x : Invoked) (w : World) :
  resLe (popAndInvoke inv stack x w) (popAndInvoke inv' stack x w).
Proof.
  induction stack as [|[k|a] stack IH]; simpl;
    [apply resLe_refl|apply Hinv|exact IH].
Qed.

Lemma invokeCont_mono (x : Invoked) (s : SBOOCPSState) :
  resLe (invokeCont inv x s) (invokeCont inv' x s).
Proof. apply popAndInvoke_mono. Qed.

Ltac mono2 := repeat first [apply invokeCont_mono | mono_step Hrec].

Lemma sboocpsEvalForms_mono (forms : EVLObject) (lenv : DefiniteEnv) (s : SBOOCPSState) :
  resLe (sboocpsEvalForms rec inv forms lenv s) (sboocpsEvalForms rec' inv' forms lenv s).
Proof. unfold sboocpsEvalForms. mono2. Qed.

Lemma sboocpsEvalOperands_mono (mv macro : bool) (operands : EVLObject)
  (args : list EVLObject) (lenv : DefiniteEnv) (s : SBOOCPSState) :
  resLe (sboocpsEvalOperands rec inv mv macro operands args lenv s)
        (sboocpsEvalOperands rec' inv' mv macro operands args lenv s).
Proof.
  revert args s. induction operands as [| | | | | | | | car _ cdr IH | | | |];
    intros args s; simpl; mono2. apply IH.
Qed.

Lemma sboocpsInvokeFun_mono (apply macro : bool) (fn : EVLObject) (args : list EVLObject)
  (lenv : DefiniteEnv) (s : SBOOCPSState) :
  resLe (sboocpsInvokeFun jsFunction rec inv apply macro fn args lenv s)
        (sboocpsInvokeFun jsFunction rec' inv' apply macro fn args lenv s).
Proof.
  unfold sboocpsInvokeFun. mono2; apply sboocpsEvalForms_mono.
Qed.

Lemma sboocpsForEachLoop_mono (fn list_ : EVLObject) (lenv : DefiniteEnv)
  (s : SBOOCPSState) :
  resLe (sboocpsForEachLoop jsFunction rec inv fn list_ lenv s)
        (sboocpsForEachLoop jsFunction rec' inv' fn list_ lenv s).
Proof.
  revert s. induction list_ as [| | | | | | | | car _ cdr IH | | | |]; intros s; simpl;
    try apply resLe_refl.
  apply resLe_bind; [apply resLe_refl|]. intros _ s1.
  apply resLe_bind; [apply sboocpsInvokeFun_mono|]. intros _ s2. apply IH.
Qed.

Lemma sboocpsEvalForm__mono (form : EVLObject) (lenv : DefiniteEnv) (s : SBOOCPSState) :
  resLe (sboocpsEvalForm_ rec inv form lenv s) (sboocpsEvalForm_ rec' inv' form lenv s).
Proof.
  unfold sboocpsEvalForm_, sboocpsEvalQuote, sboocpsEvalProgn, sboocpsEvalIf,
    sboocpsEvalLambda, sboocpsEvalRef, sboocpsEvalSet, sboocpsEvalForEach,
    sboocpsEvalCatchErrors, sboocpsEvalCall, sboocpsEvalOperator.
  destruct form; try apply invokeCont_mono; mono2; try apply sboocpsEvalForms_mono.
Qed.

Lemma sbInvoke__mono (k : SBOOCPSCont) (x : Invoked) (s : SBOOCPSState) :
  resLe (sbInvoke_ jsFunction rec inv k x s) (sbInvoke_ jsFunction rec' inv' k x s).
Proof.
  unfold sbInvoke_.
  destruct k; destruct x; mono2;
    first [apply sboocpsEvalForms_mono | apply sboocpsEvalOperands_mono
          | apply sboocpsInvokeFun_mono | apply sboocpsForEachLoop_mono | idtac].
Qed.

End SboocpsMono.

Lemma sboocps_mono jsFunction (fuel : nat) :
  (forall form lenv s,
     resLe (sboocpsEvalForm jsFunction fuel form lenv s)
           (sboocpsEvalForm jsFunction (S fuel) form lenv s))
  /\ (forall k x s,
        resLe (sboocpsInvoke jsFunction fuel k x s) (sboocpsInvoke jsFunction (S fuel) k x s)).
Proof.
  induction fuel as [|fuel [IH1 IH2]]; (split; [intros form lenv s|intros k x s]);
    try apply resLe_OutOfFuel.
  - apply (sboocpsEvalForm__mono _ _ _ _ IH1 IH2).
  - apply (sbInvoke__mono jsFunction _ _ _ _ IH1 IH2).
Qed.

Section SboocpsSimulation.

Variable jsFunction : jsstring -> list EVLObject -> Cells -> (exception + Result) * Cells.

#[local] Abbreviation evalForm := (sboocpsEvalForm jsFunction).
#[local] Abbreviation invoke := (sboocpsInvoke jsFunction).
#[local] Abbreviation simulates := (sbSimulates jsFunction).
#[local] Abbreviation state := mkSBOOCPSState.

Lemma sboocpsInvoke_le (f f' : nat) (k : SBOOCPSCont) (x : Invoked) (s : SBOOCPSState) :
  f <= f' -> invoke f k x s <> OutOfFuel -> invoke f' k x s = invoke f k x s.
Proof.
  intros Hle Hn. apply resLe_eq; [|exact Hn].
  apply (resLe_le (fun n => invoke n k x s)); [|exact Hle].
  intros n. apply sboocps_mono.
Qed.

Lemma popAndInvoke_le (f f' : nat) (stack : list SBOOCPSElement) (x : Invoked) (w : World) :
  f <= f' -> popAndInvoke (invoke f) stack x w <> OutOfFuel ->
  popAndInvoke (invoke f') stack x w = popAndInvoke (invoke f) stack x w.
Proof.
  intros Hle. induction stack as [|[k|a] stack IH]; simpl; intros Hn;
    [reflexivity|apply sboocpsInvoke_le; assumption|exact (IH Hn)].
Qed.

Lemma sbTrim_pushed (pushed stack : list SBOOCPSElement) (w : World) :
  sbTrim (length stack) (state (pushed ++ stack) w) = Ok tt (state stack w).
Proof.
  unfold sbTrim. cbn [sbStack sbWorld]. rewrite length_app.
  replace (length pushed + length stack <? length stack) with false
    by (symmetry; apply Nat.ltb_ge; lia).
  replace (length pushed + length stack - length stack) with (length pushed + 0) by lia.
  rewrite skipn_app, Nat.add_0_r, skipn_all, Nat.sub_diag. reflexivity.
Qed.

Lemma sb_ret {X : Type} (x : X) (inject : X -> Invoked) (stack : list SBOOCPSElement)
  (w : World) :
  simulates (Ok x w) (fun m => invokeCont (invoke m) (inject x)) inject stack w.
Proof.
  intros f Hn. exists f. intros m' Hle. apply popAndInvoke_le; assumption.
Qed.

Lemma sb_throw {X : Type} (e : exception) (inject : X -> Invoked)
  (stack : list SBOOCPSElement) (w : World) :
  simulates (Throw e w) (fun _ => throw e) inject stack w.
Proof. exists 0, []. intros m' _. reflexivity. Qed.

Lemma sb_liftE {A X : Type} (x : exception + A) (K : A -> M World X)
  (c : A -> nat -> M SBOOCPSState Result) (inject : X -> Invoked)
  (stack : list SBOOCPSElement) (w : World) :
  (forall a, x = inr a -> simulates (K a w) (c a) inject stack w) ->
  simulates (bind (liftE x) K w) (fun m => bind (liftE x) (fun a => c a m)) inject stack w.
Proof.
  intros H. destruct x as [e|a]; [apply (sb_throw e inject stack w)|exact (H a eq_refl)].
Qed.

(** A computation on the state of the core: the control stack is kept. *)
Lemma sb_world {A X : Type} (m0 : M World A) (ms : M SBOOCPSState A) (K : A -> M World X)
  (c : A -> nat -> M SBOOCPSState Result) (inject : X -> Invoked)
  (stack : list SBOOCPSElement) (w : World) :
  ms (state stack w) = sbOnWorld m0 (state stack w) ->
  (forall a w1, m0 w = Ok a w1 -> simulates (K a w1) (c a) inject stack w1) ->
  simulates (bind m0 K w) (fun m => bind ms (fun a => c a m)) inject stack w.
Proof.
  intros Hms H. unfold bind at 1.
  assert (Hs : forall m, bind ms (fun a => c a m) (state stack w)
                         = match m0 w with
                           | Ok a w1 => c a m (state stack w1)
                           | Throw e w1 => Throw e (state stack w1)
                           | OutOfFuel => OutOfFuel
                           end).
  { intros m. unfold bind. rewrite Hms. unfold sbOnWorld. cbn [sbStack sbWorld].
    destruct (m0 w); reflexivity. }
  destruct (m0 w) as [a w1|e w1|] eqn:E; [| |exact I].
  - specialize (H a w1 eq_refl).
    destruct (K a w1) as [x w'|e w'|]; [| |exact I].
    + intros f Hn. destruct (H f Hn) as [m Hm]. exists m. intros m' Hle.
      rewrite Hs. apply Hm. exact Hle.
    + destruct H as [m [pushed Hm]]. exists m, pushed. intros m' Hle.
      rewrite Hs. apply Hm. exact Hle.
  - exists 0, []. intros m' _. rewrite Hs. reflexivity.
Qed.

(** A continuation is pushed, and invoked on the value of the computation. *)
Lemma sb_seq {V X : Type} (p : M World V) (K : V -> M World X)
  (cp : nat -> M SBOOCPSState Result) (cK : V -> nat -> M SBOOCPSState Result)
  (k : SBOOCPSCont) (inject1 : V -> Invoked) (inject : X -> Invoked)
  (stack : list SBOOCPSElement) (w : World) :
  simulates (p w) cp inject1 (SBCont k :: stack) w ->
  (forall v w1, p w = Ok v w1 -> simulates (K v w1) (cK v) inject stack w1) ->
  (forall m v w1, invoke (S m) k (inject1 v) (state stack w1) = cK v m (state stack w1)) ->
  simulates (bind p K w) (fun m => sbPush (SBCont k);;; cp m) inject stack w.
Proof.
  intros Hp HK Hk. unfold bind at 1.
  assert (Hs : forall m, (sbPush (SBCont k);;; cp m) (state stack w)
                         = cp m (state (SBCont k :: stack) w)) by reflexivity.
  destruct (p w) as [v w1|e w1|] eqn:E; [| |exact I].
  - specialize (HK v w1 eq_refl). cbn [sbSimulates] in Hp.
    destruct (K v w1) as [x w'|e w'|]; [| |exact I].
    + intros f Hn. destruct (HK f Hn) as [m2 Hm2].
      destruct (Hp (S m2)) as [m1 Hm1].
      { cbn [popAndInvoke]. rewrite Hk, Hm2 by lia. exact Hn. }
      exists m1. intros m' Hle. rewrite Hs, Hm1 by exact Hle.
      cbn [popAndInvoke]. rewrite Hk. apply Hm2. lia.
    + destruct HK as [m2 [pushed Hm2]].
      destruct (Hp (S m2)) as [m1 Hm1].
      { cbn [popAndInvoke]. rewrite Hk, Hm2 by lia. discriminate. }
      exists m1, pushed. intros m' Hle. rewrite Hs, Hm1 by exact Hle.
      cbn [popAndInvoke]. rewrite Hk. apply Hm2. lia.
  - destruct Hp as [m1 [pushed Hm1]]. exists m1, (pushed ++ [SBCont k]).
    intros m' Hle. rewrite Hs, Hm1 by exact Hle. rewrite <- app_assoc. reflexivity.
Qed.

(** An evaluation above the end continuation inside an evaluation. *)
Lemma sb_nested {X : Type} (p : M World Result) (K : Result -> M World X)
  (cp : nat -> M SBOOCPSState Result) (cK : Result -> nat -> M SBOOCPSState Result)
  (inject : X -> Invoked) (stack : list SBOOCPSElement) (w : World) :
  simulates (p w) cp OnResult (SBCont sboocpsEndCont :: stack) w ->
  (forall v w1, p w = Ok v w1 -> simulates (K v w1) (cK v) inject stack w1) ->
  simulates (bind p K w)
    (fun m => sbPush (SBCont sboocpsEndCont);;; bind (cp m) (fun v => cK v m))
    inject stack w.
Proof.
  intros Hp HK. unfold bind at 1.
  assert (Hs : forall m,
             (sbPush (SBCont sboocpsEndCont);;; bind (cp m) (fun v => cK v m))
               (state stack w)
             = bind (cp m) (fun v => cK v m) (state (SBCont sboocpsEndCont :: stack) w))
    by reflexivity.
  destruct (p w) as [v w1|e w1|] eqn:E; [| |exact I].
  - specialize (HK v w1 eq_refl). cbn [sbSimulates] in Hp.
    destruct (Hp 1) as [m1 Hm1]; [discriminate|].
    destruct (K v w1) as [x w'|e w'|]; [| |exact I].
    + intros f Hn. destruct (HK f Hn) as [m2 Hm2].
      exists (Nat.max m1 m2). intros m' Hle. rewrite Hs. unfold bind.
      rewrite Hm1 by lia. cbn. apply Hm2. lia.
    + destruct HK as [m2 [pushed Hm2]].
      exists (Nat.max m1 m2), pushed. intros m' Hle. rewrite Hs. unfold bind.
      rewrite Hm1 by lia. cbn. apply Hm2. lia.
  - destruct Hp as [m1 [pushed Hm1]].
    exists m1, (pushed ++ [SBCont sboocpsEndCont]). intros m' Hle. rewrite Hs. unfold bind.
    rewrite Hm1 by exact Hle. rewrite <- app_assoc. reflexivity.
Qed.

(** [try { ... } catch (exception) { kStack.trim(kStackSize); ... }] around an
    evaluation above the end continuation. *)
Lemma sb_catch (p : M World Result) (cp : nat -> M SBOOCPSState Result)
  (stack : list SBOOCPSElement) (w : World) :
  simulates (p w) cp OnResult (SBCont sboocpsEndCont :: stack) w ->
  simulates
    (match p w with
     | Ok _ w' => Ok (EVLObject_ VOID_) w'
     | Throw exception w' => Ok (EVLObject_ (EVLString (exception_name exception))) w'
     | OutOfFuel => OutOfFuel
     end)
    (fun m s =>
       match (sbPush (SBCont sboocpsEndCont);;; cp m) s with
       | Ok _ s' => invokeCont (invoke m) (OnResult (EVLObject_ VOID_)) s'
       | Throw exception s' =>
           (sbTrim (length s.(sbStack));;;
            invokeCont (invoke m)
              (OnResult (EVLObject_ (EVLString (exception_name exception))))) s'
       | OutOfFuel => OutOfFuel
       end) OnResult stack w.
Proof.
  intros Hp.
  assert (Hs : forall m, (sbPush (SBCont sboocpsEndCont);;; cp m) (state stack w)
                         = cp m (state (SBCont sboocpsEndCont :: stack) w)) by reflexivity.
  destruct (p w) as [v w1|e w1|] eqn:E; [| |exact I]; cbn [sbSimulates] in *.
  - destruct (Hp 1) as [m1 Hm1]; [discriminate|].
    intros f Hn. exists (Nat.max m1 f). intros m' Hle.
    rewrite Hs, Hm1 by lia. cbn. apply popAndInvoke_le; [lia|exact Hn].
  - destruct Hp as [m1 [pushed Hm1]].
    intros f Hn. exists (Nat.max m1 f). intros m' Hle.
    rewrite Hs, Hm1 by lia. cbn [sbStack]. unfold bind.
    change (pushed ++ SBCont sboocpsEndCont :: stack)
      with (pushed ++ [SBCont sboocpsEndCont] ++ stack).
    rewrite app_assoc, sbTrim_pushed. cbn. apply popAndInvoke_le; [lia|exact Hn].
Qed.

(** From the body of [sboocpsEvalForm] to [sboocpsEvalForm]. *)
Lemma sb_evalForm {X : Type} (r : res World X) (form : EVLObject) (lenv : DefiniteEnv)
  (inject : X -> Invoked) (stack : list SBOOCPSElement) (w : World) :
  simulates r (fun m => sboocpsEvalForm_ (evalForm m) (invoke m) form lenv) inject stack w ->
  simulates r (fun m => evalForm m form lenv) inject stack w.
Proof.
  intros H. destruct r as [x w'|e w'|]; [| |exact I].
  - intros f Hn. destruct (H f Hn) as [m Hm]. exists (S m). intros m' Hle.
    destruct m' as [|m']; [lia|]. apply Hm. lia.
  - destruct H as [m [pushed Hm]]. exists (S m), pushed. intros m' Hle.
    destruct m' as [|m']; [lia|]. apply Hm. lia.
Qed.

End SboocpsSimulation.

Section SboocpsSimulatesDirect.

Variable jsFunction : jsstring -> list EVLObject -> Cells -> (exception + Result) * Cells.

#[local] Abbreviation evalForm := (sboocpsEvalForm jsFunction).
#[local] Abbreviation invoke := (sboocpsInvoke jsFunction).
#[local] Abbreviation simulates := (sbSimulates jsFunction).
#[local] Abbreviation state := mkSBOOCPSState.

Variable rec : EVLObject -> DefiniteEnv -> DefiniteEnv -> M World Result.

(** The dynamic environment of the reference evaluator is made of the frames
    of the control stack. *)
Hypothesis IHrec :
  forall form lenv stack w,
    simulates (rec form lenv (sbFrames stack) w) (fun m => evalForm m form lenv)
      OnResult stack w.

Lemma sb_world_ret {A : Type} (m0 : M World A) (ms : M SBOOCPSState A)
  (inject : A -> Invoked) (stack : list SBOOCPSElement) (w : World) :
  ms (state stack w) = sbOnWorld m0 (state stack w) ->
  simulates (m0 w) (fun m => bind ms (fun a => invokeCont (invoke m) (inject a)))
    inject stack w.
Proof.
  intros Hms.
  assert (H : simulates (bind m0 ret w)
                (fun m => bind ms (fun a => invokeCont (invoke m) (inject a)))
                inject stack w).
  { apply (@sb_world jsFunction _ _ m0 ms ret
             (fun a m => invokeCont (invoke m) (inject a))); [exact Hms|].
    intros a w1 _. apply sb_ret. }
  rewrite bind_ret in H. exact H.
Qed.

(** A frame of the dynamic environment is pushed. *)
Lemma sb_frame {X : Type} (r : res World X) (cp : nat -> M SBOOCPSState Result)
  (a : nat) (inject : X -> Invoked) (stack : list SBOOCPSElement) (w : World) :
  simulates r cp inject (SBFrame a :: stack) w ->
  simulates r (fun m => sbPush (SBFrame a);;; cp m) inject stack w.
Proof.
  intros H. destruct r as [x w'|e w'|]; [| |exact I].
  - exact H.
  - destruct H as [m [pushed Hm]]. exists m, (pushed ++ [SBFrame a]). intros m' Hle.
    rewrite <- app_assoc. apply Hm. exact Hle.
Qed.

Lemma sb_forms (forms : EVLObject) (lenv : DefiniteEnv) :
  forall stack w,
    simulates (plainrecEvalForms rec forms lenv (sbFrames stack) w)
      (fun m => sboocpsEvalForms (evalForm m) (invoke m) forms lenv) OnResult stack w.
Proof.
  induction forms as [| | | | | | | | car _ cdr IH | | | |]; intros stack w;
    try apply (@sb_throw jsFunction Result TypeError OnResult stack w).
  - apply (@sb_ret jsFunction Result (EVLObject_ VOID_) OnResult stack w).
  - destruct cdr as [| | | | | | | | cadr cddr | | | |].
    1-7,10-13:
      (apply (@sb_seq jsFunction _ _ (rec car lenv (sbFrames stack)) _
                (fun m => evalForm m car lenv)
                (fun _ _ => throw TypeError)
                (SBOOCPSButLastFormCont (EVLCons car _) lenv) OnResult OnResult stack w);
       [apply (IHrec car lenv (SBCont _ :: stack) w)
       |intros v w1 _; apply (@sb_throw jsFunction Result TypeError OnResult stack w1)
       |reflexivity]).
    + apply IHrec.
    + apply (@sb_seq jsFunction _ _ (rec car lenv (sbFrames stack)) _
               (fun m => evalForm m car lenv)
               (fun _ m => sboocpsEvalForms (evalForm m) (invoke m) (EVLCons cadr cddr) lenv)
               (SBOOCPSButLastFormCont (EVLCons car (EVLCons cadr cddr)) lenv)
               OnResult OnResult stack w);
        [apply (IHrec car lenv (SBCont _ :: stack) w)|intros v w1 _; apply IH|reflexivity].
Qed.

Lemma sb_operands (mv macro : bool) (operands : EVLObject) (lenv : DefiniteEnv) :
  forall args stack w,
    simulates (plainrecEvalOperands rec mv macro operands args lenv (sbFrames stack) w)
      (fun m => sboocpsEvalOperands (evalForm m) (invoke m) mv macro operands args lenv)
      OnArgs stack w.
Proof.
  induction operands as [| | | | | | | | car _ cdr IH | | | |]; intros args stack w;
    try apply (@sb_throw jsFunction _ TypeError OnArgs stack w).
  - apply (@sb_ret jsFunction _ args OnArgs stack w).
  - cbn [plainrecEvalOperands sboocpsEvalOperands]. destruct macro; [apply IH|].
    apply (@sb_seq jsFunction _ _ (rec car lenv (sbFrames stack)) _
             (fun m => evalForm m car lenv)
             (fun v m => sboocpsEvalOperands (evalForm m) (invoke m) mv false cdr
                           (pushValues mv args v) lenv)
             (SBOOCPSOperandCont mv false (EVLCons car cdr) args lenv)
             OnResult OnArgs stack w);
      [apply (IHrec car lenv (SBCont _ :: stack) w)|intros v w1 _; apply IH|reflexivity].
Qed.

Lemma sb_invokeFun (apply macro : bool) (fn : EVLObject) (args : list EVLObject)
  (lenv : DefiniteEnv) (stack : list SBOOCPSElement) (w : World) :
  simulates (plainrecInvokeFun jsFunction rec apply macro fn args lenv (sbFrames stack) w)
    (fun m => sboocpsInvokeFun jsFunction (evalForm m) (invoke m) apply macro fn args lenv)
    OnResult stack w.
Proof.
  unfold plainrecInvokeFun, sboocpsInvokeFun.
  destruct fn as [| | | | | | | | | | arityMin arityMax name
                 | scope namespace m parameters rest forms fnlenv |];
    try apply (@sb_throw jsFunction _ callOperatorFormError OnResult stack w).
  - apply (@sb_liftE jsFunction _ _ _ _
             (fun values m =>
                result <- sbOnWorld (callJsFunction jsFunction name values);;
                invokeCont (invoke m) (OnResult result))).
    intros values _. apply sb_world_ret. reflexivity.
  - destruct scope.
    + apply (@sb_liftE jsFunction _ _ _ _
               (fun values m =>
                  a <- sbOnWorld (newFrame namespace parameters values);;
                  (if macro
                   then
                     sbPush (SBCont sboocpsEndCont);;;
                     result <- sboocpsEvalForms (evalForm m) (invoke m) forms (a :: fnlenv);;
                     evalForm m (primaryValue result) lenv
                   else sboocpsEvalForms (evalForm m) (invoke m) forms (a :: fnlenv)))).
      intros values _.
      apply (@sb_world jsFunction _ _ (newFrame namespace parameters values)
               (sbOnWorld (newFrame namespace parameters values)) _
               (fun a m =>
                  if macro
                  then
                    sbPush (SBCont sboocpsEndCont);;;
                    result <- sboocpsEvalForms (evalForm m) (invoke m) forms (a :: fnlenv);;
                    evalForm m (primaryValue result) lenv
                  else sboocpsEvalForms (evalForm m) (invoke m) forms (a :: fnlenv)));
        [reflexivity|].
      intros a w1 _. destruct macro.
      * apply (@sb_nested jsFunction _ _ _
                 (fun m => sboocpsEvalForms (evalForm m) (invoke m) forms (a :: fnlenv))
                 (fun v m => evalForm m (primaryValue v) lenv));
          [apply (sb_forms forms (a :: fnlenv) (SBCont _ :: stack) w1)
          |intros v w2 _; apply IHrec].
      * apply sb_forms.
    + apply (@sb_liftE jsFunction _ _ _ _
               (fun values m =>
                  a <- sbOnWorld (newFrame namespace parameters values);;
                  sbPush (SBFrame a);;;
                  sboocpsEvalForms (evalForm m) (invoke m) forms fnlenv)).
      intros values _.
      apply (@sb_world jsFunction _ _ (newFrame namespace parameters values)
               (sbOnWorld (newFrame namespace parameters values)) _
               (fun a m =>
                  sbPush (SBFrame a);;;
                  sboocpsEvalForms (evalForm m) (invoke m) forms fnlenv));
        [reflexivity|].
      intros a w1 _.
      apply (@sb_frame _ _ (fun m => sboocpsEvalForms (evalForm m) (invoke m) forms fnlenv)).
      apply (sb_forms forms fnlenv (SBFrame a :: stack) w1).
Qed.

(** The loop of [_for-each]: with enough fuel the loop ends as the loop of
    the reference evaluator, on the stack it started on when it returns. *)
Lemma sb_forEachLoop (fn list_ : EVLObject) (lenv : DefiniteEnv)
  (stack : list SBOOCPSElement) :
  forall w,
    match directForEachLoop jsFunction rec fn list_ lenv (sbFrames stack) w with
    | Ok _ w' =>
        exists m, forall m', m <= m' ->
          sboocpsForEachLoop jsFunction (evalForm m') (invoke m') fn list_ lenv
            (state stack w) = Ok tt (state stack w')
    | Throw e w' =>
        exists m pushed, forall m', m <= m' ->
          sboocpsForEachLoop jsFunction (evalForm m') (invoke m') fn list_ lenv
            (state stack w) = Throw e (state (pushed ++ stack) w')
    | OutOfFuel => True
    end.
Proof.
  induction list_ as [| | | | | | | | car _ cdr IH | | | |]; intros w;
    try (exists 0, []; intros m' _; reflexivity).
  - exists 0. intros m' _. reflexivity.
  - cbn [directForEachLoop sboocpsForEachLoop].
    pose proof (sb_invokeFun false false fn [car] lenv (SBCont sboocpsEndCont :: stack) w)
      as Hf.
    cbn [sbFrames] in Hf. unfold bind at 1.
    assert (Hs : forall m',
               (sbPush (SBCont sboocpsEndCont);;;
                sboocpsInvokeFun jsFunction (evalForm m') (invoke m') false false fn [car]
                  lenv;;;
                sboocpsForEachLoop jsFunction (evalForm m') (invoke m') fn cdr lenv)
                 (state stack w)
               = bind (sboocpsInvokeFun jsFunction (evalForm m') (invoke m') false false fn
                         [car] lenv)
                   (fun _ => sboocpsForEachLoop jsFunction (evalForm m') (invoke m') fn cdr
                               lenv)
                   (state (SBCont sboocpsEndCont :: stack) w)) by reflexivity.
    destruct (plainrecInvokeFun jsFunction rec false false fn [car] lenv (sbFrames stack) w)
      as [v w1|e w1|]; [| |exact I]; cbn [sbSimulates] in Hf.
    + destruct (Hf 1) as [m1 Hm1]; [discriminate|].
      specialize (IH w1).
      destruct (directForEachLoop jsFunction rec fn cdr lenv (sbFrames stack) w1)
        as [[] w2|e w2|]; [| |exact I].
      * destruct IH as [m2 Hm2]. exists (Nat.max m1 m2). intros m' Hle.
        rewrite Hs. unfold bind. rewrite Hm1 by lia. cbn. apply Hm2. lia.
      * destruct IH as [m2 [pushed Hm2]]. exists (Nat.max m1 m2), pushed. intros m' Hle.
        rewrite Hs. unfold bind. rewrite Hm1 by lia. cbn. apply Hm2. lia.
    + destruct Hf as [m1 [pushed Hm1]].
      exists m1, (pushed ++ [SBCont sboocpsEndCont]). intros m' Hle.
      rewrite Hs. unfold bind. rewrite Hm1 by exact Hle. rewrite <- app_assoc. reflexivity.
Qed.

Lemma sb_forEachList (fn list_ : EVLObject) (lenv : DefiniteEnv)
  (stack : list SBOOCPSElement) (w : World) :
  simulates
    ((directForEachLoop jsFunction rec fn list_ lenv (sbFrames stack);;;
      ret (EVLObject_ VOID_)) w)
    (fun m =>
       sboocpsForEachLoop jsFunction (evalForm m) (invoke m) fn list_ lenv;;;
       invokeCont (invoke m) (OnResult (EVLObject_ VOID_))) OnResult stack w.
Proof.
  pose proof (sb_forEachLoop fn list_ lenv stack w) as H. unfold bind at 1.
  destruct (directForEachLoop jsFunction rec fn list_ lenv (sbFrames stack) w)
    as [[] w1|e w1|]; [| |exact I].
  - destruct H as [m1 Hm1].
    intros f Hn. exists (Nat.max m1 f). intros m' Hle. unfold bind.
    rewrite Hm1 by lia. apply popAndInvoke_le; [lia|exact Hn].
  - destruct H as [m1 [pushed Hm1]].
    exists m1, pushed. intros m' Hle. unfold bind. rewrite Hm1 by exact Hle. reflexivity.
Qed.

Lemma sb_operator (operator : EVLObject) (lenv : DefiniteEnv)
  (stack : list SBOOCPSElement) (w : World) :
  simulates (plainrecEvalOperator rec operator lenv (sbFrames stack) w)
    (fun m => sboocpsEvalOperator (evalForm m) (invoke m) operator lenv) OnResult stack w.
Proof.
  unfold plainrecEvalOperator, sboocpsEvalOperator.
  destruct operator; try apply IHrec.
  apply (@sb_world jsFunction _ _ _ (sbOnWorld (DefiniteEnv_ref lenv FUN_NS _)) _
           (fun value m => invokeCont (invoke m) (OnResult (EVLObject_ value))));
    [reflexivity|].
  intros value w1 _. apply (@sb_ret jsFunction _ (EVLObject_ value) OnResult).
Qed.

Lemma sb_form (form : EVLObject) (lenv : DefiniteEnv) (stack : list SBOOCPSElement)
  (w : World) :
  simulates (directEvalForm_ jsFunction rec form lenv (sbFrames stack) w)
    (fun m => sboocpsEvalForm_ (evalForm m) (invoke m) form lenv) OnResult stack w.
Proof.
  unfold directEvalForm_, isForEachForm, plainrecEvalForm_, sboocpsEvalForm_.
  destruct form as [| | | | | | name | | car cdr | | | |];
    try apply (@sb_ret jsFunction _ (EVLObject_ _) OnResult).
  - (* a variable *)
    apply (@sb_world jsFunction _ _ _ (sbOnWorld (DefiniteEnv_ref lenv VAL_NS name)) _
             (fun value m => invokeCont (invoke m) (OnResult (EVLObject_ value))));
      [reflexivity|].
    intros value w1 _. apply (@sb_ret jsFunction _ (EVLObject_ value) OnResult).
  - (* the empty list *)
    apply (@sb_throw jsFunction _ emptyListError OnResult).
  - destruct (specialOperator car) as [| | | scope namespace macro | scope namespace
                                      | scope namespace | | | mv apply].
    + (* quote *)
      unfold plainrecEvalQuote, sboocpsEvalQuote.
      apply (@sb_liftE jsFunction _ _ _ _
               (fun literal m => invokeCont (invoke m) (OnResult (EVLObject_ literal)))).
      intros literal _. apply (@sb_ret jsFunction _ (EVLObject_ literal) OnResult).
    + (* progn *)
      unfold plainrecEvalProgn, sboocpsEvalProgn.
      apply (@sb_liftE jsFunction _ _ _ _
               (fun forms m => sboocpsEvalForms (evalForm m) (invoke m) forms lenv)).
      intros forms _. apply sb_forms.
    + (* if *)
      unfold plainrecEvalIf, sboocpsEvalIf.
      apply (@sb_liftE jsFunction _ _ _ _
               (fun parts m =>
                  let '(testForm, thenForm, elseForm) := parts in
                  sbPush (SBCont (SBOOCPSIfTestFormCont thenForm elseForm lenv));;;
                  evalForm m testForm lenv)).
      intros [[testForm thenForm] elseForm] _.
      apply (@sb_seq jsFunction _ _ (rec testForm lenv (sbFrames stack)) _
               (fun m => evalForm m testForm lenv)
               (fun v m =>
                  match primaryValue v with
                  | EVLBoolean true => evalForm m thenForm lenv
                  | EVLBoolean false => evalForm m elseForm lenv
                  | _ => throw ifTestFormError
                  end)
               (SBOOCPSIfTestFormCont thenForm elseForm lenv) OnResult OnResult);
        [apply (IHrec testForm lenv (SBCont _ :: stack) w)| |reflexivity].
      intros v w1 _.
      destruct (primaryValue v) as [| [|] | | | | | | | | | | |];
        try apply (@sb_throw jsFunction _ ifTestFormError OnResult); apply IHrec.
    + (* lambda *)
      unfold plainrecEvalLambda, sboocpsEvalLambda.
      apply (@sb_liftE jsFunction _ _ _ _
               (fun parts m =>
                  let '(parameters, rest, forms) := parts in
                  invokeCont (invoke m) (OnResult (EVLObject_
                    (EVLClosure scope namespace macro parameters rest forms lenv))))).
      intros [[parameters rest] forms] _.
      apply (@sb_ret jsFunction _ (EVLObject_ _) OnResult).
    + (* ref *)
      unfold plainrecEvalRef, sboocpsEvalRef.
      apply (@sb_liftE jsFunction _ _ _ _
               (fun variable m =>
                  value <- match scope with
                           | LEX_SCOPE => sbOnWorld (DefiniteEnv_ref lenv namespace variable)
                           | DYN_SCOPE => sbRef namespace variable
                           end;;
                  invokeCont (invoke m) (OnResult (EVLObject_ value)))).
      intros variable _.
      destruct scope;
        [apply (@sb_world jsFunction _ _ _
                  (sbOnWorld (DefiniteEnv_ref lenv namespace variable)) _
                  (fun value m => invokeCont (invoke m) (OnResult (EVLObject_ value))))
        |apply (@sb_world jsFunction _ _ _ (sbRef namespace variable) _
                  (fun value m => invokeCont (invoke m) (OnResult (EVLObject_ value))))];
        try reflexivity;
        intros value w1 _; apply (@sb_ret jsFunction _ (EVLObject_ value) OnResult).
    + (* set *)
      unfold plainrecEvalSet, sboocpsEvalSet.
      apply (@sb_liftE jsFunction _ _ _ _
               (fun parts m =>
                  let '(variable, valueForm) := parts in
                  sbPush (SBCont (SBOOCPSSetValueFormCont scope namespace variable lenv));;;
                  evalForm m valueForm lenv)).
      intros [variable valueForm] _.
      apply (@sb_seq jsFunction _ _ (rec valueForm lenv (sbFrames stack)) _
               (fun m => evalForm m valueForm lenv)
               (fun v m =>
                  value <- match scope with
                           | LEX_SCOPE => sbOnWorld (DefiniteEnv_set lenv namespace variable
                                                       (primaryValue v))
                           | DYN_SCOPE => sbSet namespace variable (primaryValue v)
                           end;;
                  invokeCont (invoke m) (OnResult (EVLObject_ value)))
               (SBOOCPSSetValueFormCont scope namespace variable lenv) OnResult OnResult);
        [apply (IHrec valueForm lenv (SBCont _ :: stack) w)| |reflexivity].
      intros v w1 _.
      destruct scope;
        [apply (@sb_world jsFunction _ _ _
                  (sbOnWorld (DefiniteEnv_set lenv namespace variable (primaryValue v))) _
                  (fun value m => invokeCont (invoke m) (OnResult (EVLObject_ value))))
        |apply (@sb_world jsFunction _ _ _ (sbSet namespace variable (primaryValue v)) _
                  (fun value m => invokeCont (invoke m) (OnResult (EVLObject_ value))))];
        try reflexivity;
        intros value w2 _; apply (@sb_ret jsFunction _ (EVLObject_ value) OnResult).
    + (* _for-each *)
      unfold directEvalForEach, sboocpsEvalForEach.
      apply (@sb_liftE jsFunction _ _ _ _
               (fun parts m =>
                  let '(functionForm, listForm) := parts in
                  sbPush (SBCont (SBOOCPSForEachFunctionFormCont listForm lenv));;;
                  evalForm m functionForm lenv)).
      intros [functionForm listForm] _.
      apply (@sb_seq jsFunction _ _ (rec functionForm lenv (sbFrames stack)) _
               (fun m => evalForm m functionForm lenv)
               (fun v m =>
                  if negb (instanceofEVLFunction (primaryValue v))
                  then throw forEachFunctionFormError
                  else
                    sbPush (SBCont (SBOOCPSForEachListFormCont (primaryValue v) lenv));;;
                    evalForm m listForm lenv)
               (SBOOCPSForEachFunctionFormCont listForm lenv) OnResult OnResult);
        [apply (IHrec functionForm lenv (SBCont _ :: stack) w)| |reflexivity].
      intros v w1 _. destruct (negb (instanceofEVLFunction (primaryValue v)));
        [apply (@sb_throw jsFunction _ forEachFunctionFormError OnResult)|].
      apply (@sb_seq jsFunction _ _ (rec listForm lenv (sbFrames stack)) _
               (fun m => evalForm m listForm lenv)
               (fun v' m =>
                  sboocpsForEachLoop jsFunction (evalForm m) (invoke m) (primaryValue v)
                    (primaryValue v') lenv;;;
                  invokeCont (invoke m) (OnResult (EVLObject_ VOID_)))
               (SBOOCPSForEachListFormCont (primaryValue v) lenv) OnResult OnResult);
        [apply (IHrec listForm lenv (SBCont _ :: stack) w1)| |reflexivity].
      intros v' w2 _. apply sb_forEachList.
    + (* _catch-errors *)
      unfold plainrecEvalCatchErrors, sboocpsEvalCatchErrors.
      apply (@sb_liftE jsFunction _ _ _ _
               (fun tryForm m s =>
                  match (sbPush (SBCont sboocpsEndCont);;; evalForm m tryForm lenv) s with
                  | Ok _ s' => invokeCont (invoke m) (OnResult (EVLObject_ VOID_)) s'
                  | Throw exception s' =>
                      (sbTrim (length s.(sbStack));;;
                       invokeCont (invoke m)
                         (OnResult (EVLObject_ (EVLString (exception_name exception))))) s'
                  | OutOfFuel => OutOfFuel
                  end)).
      intros tryForm _.
      apply (@sb_catch jsFunction (rec tryForm lenv (sbFrames stack))
               (fun m => evalForm m tryForm lenv)).
      apply (IHrec tryForm lenv (SBCont _ :: stack) w).
    + (* a call *)
      unfold plainrecEvalCall, sboocpsEvalCall.
      apply (@sb_liftE jsFunction _ _ _ _
               (fun parts m =>
                  let '(operator, operands) := parts in
                  sbPush (SBCont (SBOOCPSOperatorCont mv apply operator operands lenv));;;
                  sboocpsEvalOperator (evalForm m) (invoke m) operator lenv)).
      intros [operator operands] _.
      apply (@sb_seq jsFunction _ _
               (plainrecEvalOperator rec operator lenv (sbFrames stack)) _
               (fun m => sboocpsEvalOperator (evalForm m) (invoke m) operator lenv)
               (fun v m =>
                  sbPush (SBCont (SBOOCPSOperandsCont apply
                    (instanceofEVLVariable operator && isMacroClosure (primaryValue v))
                    (primaryValue v) lenv));;;
                  sboocpsEvalOperands (evalForm m) (invoke m) mv
                    (instanceofEVLVariable operator && isMacroClosure (primaryValue v))
                    operands [] lenv)
               (SBOOCPSOperatorCont mv apply operator operands lenv) OnResult OnResult);
        [apply (sb_operator operator lenv (SBCont _ :: stack) w)| |reflexivity].
      intros v w1 _.
      apply (@sb_seq jsFunction _ _
               (plainrecEvalOperands rec mv
                  (instanceofEVLVariable operator && isMacroClosure (primaryValue v))
                  operands [] lenv (sbFrames stack)) _
               (fun m =>
                  sboocpsEvalOperands (evalForm m) (invoke m) mv
                    (instanceofEVLVariable operator && isMacroClosure (primaryValue v))
                    operands [] lenv)
               (fun args m =>
                  sboocpsInvokeFun jsFunction (evalForm m) (invoke m) apply
                    (instanceofEVLVariable operator && isMacroClosure (primaryValue v))
                    (primaryValue v) args lenv)
               (SBOOCPSOperandsCont apply
                  (instanceofEVLVariable operator && isMacroClosure (primaryValue v))
                  (primaryValue v) lenv) OnArgs OnResult);
        [apply (sb_operands mv _ operands lenv [] (SBCont _ :: stack) w1)| |reflexivity].
      intros args w2 _. apply sb_invokeFun.
Qed.

End SboocpsSimulatesDirect.

(** The stack-based evaluator simulates the reference evaluator on every
    form, on every control stack whose frames are the dynamic environment. *)
Lemma sboocps_simulates_direct jsFunction (fuel : nat) :
  forall form lenv stack w,
    sbSimulates jsFunction (directEvalForm jsFunction fuel form lenv (sbFrames stack) w)
      (fun m => sboocpsEvalForm jsFunction m form lenv) OnResult stack w.
Proof.
  induction fuel as [|fuel IH]; intros form lenv stack w; [exact I|].
  apply sb_evalForm. apply (@sb_form jsFunction _ IH).
Qed.

Lemma sboocpsEval_mono jsFunction (form : EVLObject) (w : World) (fuel : nat) :
  resLe (sboocpsEval jsFunction fuel form w) (sboocpsEval jsFunction (S fuel) form w).
Proof.
  unfold sboocpsEval.
  destruct (proj1 (sboocps_mono jsFunction fuel) form nullDefiniteEnv
              (mkSBOOCPSState [SBCont sboocpsEndCont] w)) as [H|H]; rewrite H;
    [apply resLe_OutOfFuel|apply resLe_refl].
Qed.

(** When the reference evaluator ends, the stack-based evaluator ends with
    the same result in the same state, given enough fuel. *)
Lemma sboocpsEval_directEval jsFunction (fuel : nat) (form : EVLObject) (w : World) :
  directEval jsFunction fuel form w <> OutOfFuel ->
  exists m, forall m', m <= m' ->
    sboocpsEval jsFunction m' form w = directEval jsFunction fuel form w.
Proof.
  intros Hr. unfold directEval, sboocpsEval in *.
  pose proof (@sboocps_simulates_direct jsFunction fuel form nullDefiniteEnv
                [SBCont sboocpsEndCont] w) as H.
  cbn [sbFrames] in H. change (@nil nat) with nullDefiniteEnv in H.
  destruct (directEvalForm jsFunction fuel form nullDefiniteEnv nullDefiniteEnv w)
    as [v w'|e w'|]; [| |contradiction]; cbn [sbSimulates] in H.
  - destruct (H 1) as [m Hm]; [discriminate|]. exists m. intros m' Hle.
    rewrite Hm by exact Hle. reflexivity.
  - destruct H as [m [pushed Hm]]. exists m. intros m' Hle.
    rewrite Hm by exact Hle. reflexivity.
Qed.

(** ** The evaluators agree *)

Section ForEachFree.

Variable jsFunction : jsstring -> list EVLObject -> Cells -> (exception + Result) * Cells.

(** An evaluation that reaches no [_for-each] form is an evaluation of the
    plain recursive evaluator, and of the reference evaluator. *)
Lemma forEachFree_plainrec (fuel : nat) :
  forall form lenv denv w,
    resLe (forEachFreeEvalForm jsFunction fuel form lenv denv w)
          (plainrecEvalForm jsFunction fuel form lenv denv w).
Proof.
  induction fuel as [|fuel IH]; intros form lenv denv w; [apply resLe_OutOfFuel|].
  cbn [forEachFreeEvalForm plainrecEvalForm]. unfold forEachFreeEvalForm_.
  destruct (isForEachForm form); [apply resLe_OutOfFuel|].
  apply plainrecEvalForm__mono. exact IH.
Qed.

Lemma forEachFree_direct (fuel : nat) :
  forall form lenv denv w,
    resLe (forEachFreeEvalForm jsFunction fuel form lenv denv w)
          (directEvalForm jsFunction fuel form lenv denv w).
Proof.
  induction fuel as [|fuel IH]; intros form lenv denv w; [apply resLe_OutOfFuel|].
  cbn [forEachFreeEvalForm directEvalForm]. unfold forEachFreeEvalForm_, directEvalForm_.
  destruct (isForEachForm form); [apply resLe_OutOfFuel|].
  apply plainrecEvalForm__mono. exact IH.
Qed.

(** When no [_for-each] form is reached, the plain recursive evaluator and
    the reference evaluator end with the same result in the same state. *)
Lemma plainrec_direct_agree (n m : nat) (form : EVLObject) (w : World) :
  reachesNoForEach jsFunction form w ->
  plainrecEval jsFunction n form w <> OutOfFuel ->
  directEval jsFunction m form w <> OutOfFuel ->
  plainrecEval jsFunction n form w = directEval jsFunction m form w.
Proof.
  intros [fuel Hf] Hn Hm.
  pose proof (resLe_eq (forEachFree_plainrec fuel form nullDefiniteEnv nullDefiniteEnv w) Hf)
    as Hp.
  pose proof (resLe_eq (forEachFree_direct fuel form nullDefiniteEnv nullDefiniteEnv w) Hf)
    as Hd.
  transitivity (plainrecEval jsFunction fuel form w).
  - apply (resLe_same (fun k => plainrecEval jsFunction k form w));
      [intros k; apply plainrecEval_mono|exact Hn|].
    unfold plainrecEval. rewrite Hp. exact Hf.
  - unfold plainrecEval at 1. rewrite Hp, <- Hd.
    apply (resLe_same (fun k => directEval jsFunction k form w));
      [intros k; apply directEval_mono| |exact Hm].
    unfold directEval. rewrite Hd. exact Hf.
Qed.

(** The three CPS evaluators end with the same result in the same state. *)
Lemma cps_oocps_agree (n m : nat) (form : EVLObject) (w : World) :
  cpsEval jsFunction n form w <> OutOfFuel ->
  oocpsEval jsFunction m form w <> OutOfFuel ->
  cpsEval jsFunction n form w = oocpsEval jsFunction m form w.
Proof.
  rewrite cpsEval_direct. intros Hn Hm.
  destruct (@oocpsEval_directEval jsFunction n form w Hn) as [m0 H0].
  rewrite <- (H0 (Nat.max m m0)) by lia.
  apply (resLe_same (fun k => oocpsEval jsFunction k form w)).
  - intros k. apply oocpsEval_mono.
  - rewrite H0 by lia. exact Hn.
  - exact Hm.
Qed.

Lemma cps_sboocps_agree (n m : nat) (form : EVLObject) (w : World) :
  cpsEval jsFunction n form w <> OutOfFuel ->
  sboocpsEval jsFunction m form w <> OutOfFuel ->
  cpsEval jsFunction n form w = sboocpsEval jsFunction m form w.
Proof.
  rewrite cpsEval_direct. intros Hn Hm.
  destruct (@sboocpsEval_directEval jsFunction n form w Hn) as [m0 H0].
  rewrite <- (H0 (Nat.max m m0)) by lia.
  apply (resLe_same (fun k => sboocpsEval jsFunction k form w)).
  - intros k. apply sboocpsEval_mono.
  - rewrite H0 by lia. exact Hn.
  - exact Hm.
Qed.

End ForEachFree.


(** The evaluator that preprocesses the form decides what is a macro call
    before the form runs: a macro that a call reaches through a local
    function is called as a function, and what the other evaluators take for
    the expansion of the call is the value of the call. *)
Lemma trampolinepp_decides_macro_calls_before_running :
  let form := parse "((_flambda (m) (m)) (_mlambda () (quote (quote a))))" in
  valueOf (plainrecEval coreJsFunction 100 form initialWorld) = Some (EVLVariable (js "a"))
  /\ valueOf (cpsEval coreJsFunction 100 form initialWorld) = Some (EVLVariable (js "a"))
  /\ valueOf (oocpsEval coreJsFunction 100 form initialWorld) = Some (EVLVariable (js "a"))
  /\ valueOf (sboocpsEval coreJsFunction 100 form initialWorld) = Some (EVLVariable (js "a"))
  /\ valueOf (trampolineEval coreJsFunction idleHost 100 form initialWorld)
     = Some (EVLVariable (js "a"))
  /\ valueOf (trampolineppEval coreJsFunction idleHost 100 form initialWorld)
     = Some (parse "(quote a)").
Proof. vm_compute. repeat split; reflexivity. Qed.



(** ** The steps of the trampoline++ evaluator and the control stack *)

Lemma ppPlain_app (p1 p2 : list TrampolineppElement) :
  ppPlain p1 -> ppPlain p2 -> ppPlain (p1 ++ p2).
Proof.
  unfold ppPlain. intros H1 H2. rewrite forallb_app, H1, H2. reflexivity.
Qed.

Lemma ppFrames_app (p stack : list TrampolineppElement) :
  ppFrames (p ++ stack) = ppFrames p ++ ppFrames stack.
Proof.
  induction p as [|[k| |a] p IH]; cbn [app ppFrames]; [reflexivity|exact IH..|].
  rewrite IH. reflexivity.
Qed.

Section PPPushes.

Lemma ppPushes_weaken {A : Type} (P Q : list TrampolineppElement -> A -> Prop)
  (m : M TrampolineppState A) :
  (forall p a, P p a -> Q p a) -> ppPushes P m -> ppPushes Q m.
Proof.
  intros HPQ Hm frames w. destruct (Hm frames w) as (p & w' & o & Hw & HP & H).
  exists p, w', o. refine (conj Hw (conj _ H)).
  destruct o; [exact HP|apply HPQ; exact HP].
Qed.

Lemma ppPushes_ret {A : Type} (P : list TrampolineppElement -> A -> Prop) (a : A) :
  P [] a -> ppPushes P (ret a).
Proof.
  intros HP frames w. exists [], w, (inr a).
  refine (conj (sameAbort_refl w) (conj HP _)). intros stack _. reflexivity.
Qed.

Lemma ppPushes_throw {A : Type} (P : list TrampolineppElement -> A -> Prop)
  (e : exception) : ppPushes P (throw e).
Proof.
  intros frames w. exists [], w, (inl e).
  refine (conj (sameAbort_refl w) (conj eq_refl _)). intros stack _. reflexivity.
Qed.

Lemma ppPushes_liftE {A : Type} (P : list TrampolineppElement -> A -> Prop)
  (x : exception + A) : (forall a, P [] a) -> ppPushes P (liftE x).
Proof.
  intros HP. destruct x as [e|a]; [apply ppPushes_throw|apply ppPushes_ret, HP].
Qed.

Lemma ppPushes_onWorld {A : Type} (P : list TrampolineppElement -> A -> Prop)
  (m : M World A) :
  keeps sameAbort m -> (forall a, P [] a) -> ppPushes P (ppOnWorld m).
Proof.
  intros Hm HP frames w. specialize (Hm w). unfold ppOnWorld. cbn [ppWorld ppStack].
  destruct (m w) as [a w'|e w'|]; [| |contradiction].
  - exists [], w', (inr a). refine (conj Hm (conj (HP a) _)). intros stack _. reflexivity.
  - exists [], w', (inl e). refine (conj Hm (conj eq_refl _)). intros stack _. reflexivity.
Qed.

Lemma ppPushes_ref (P : list TrampolineppElement -> EVLObject -> Prop)
  (namespace : Namespace) (variable : jsstring) :
  (forall a, P [] a) -> ppPushes P (ppRef namespace variable).
Proof.
  intros HP frames w.
  destruct (@ppPushes_onWorld _ P (DefiniteEnv_ref frames namespace variable)
              (keeps_DefiniteEnv_ref _ _ _) HP frames w) as (p & w' & o & Hw & Ho & H).
  exists p, w', o. refine (conj Hw (conj Ho _)).
  intros stack Hs. unfold ppRef. cbn [ppStack]. rewrite Hs. apply H. exact Hs.
Qed.

Lemma ppPushes_set (P : list TrampolineppElement -> EVLObject -> Prop)
  (namespace : Namespace) (variable : jsstring) (value : EVLObject) :
  (forall a, P [] a) -> ppPushes P (ppSet namespace variable value).
Proof.
  intros HP frames w.
  destruct (@ppPushes_onWorld _ P (DefiniteEnv_set frames namespace variable value)
              (keeps_DefiniteEnv_set _ _ _ _) HP frames w) as (p & w' & o & Hw & Ho & H).
  exists p, w', o. refine (conj Hw (conj Ho _)).
  intros stack Hs. unfold ppSet. cbn [ppStack]. rewrite Hs. apply H. exact Hs.
Qed.

Lemma ppPushes_push (P : list TrampolineppElement -> unit -> Prop)
  (element : TrampolineppElement) :
  P [element] tt -> ppPushes P (ppPush element).
Proof.
  intros HP frames w. exists [element], w, (inr tt).
  refine (conj (sameAbort_refl w) (conj HP _)). intros stack _. reflexivity.
Qed.

Lemma ppPushes_bind {A B : Type} (P1 : list TrampolineppElement -> A -> Prop)
  (P2 : A -> list TrampolineppElement -> B -> Prop)
  (P : list TrampolineppElement -> B -> Prop)
  (m : M TrampolineppState A) (k : A -> M TrampolineppState B) :
  ppPushes P1 m -> (forall a, ppPushes (P2 a) (k a)) ->
  (forall p1 a, P1 p1 a -> ppPlain p1) ->
  (forall p1 a p2 b, P1 p1 a -> P2 a p2 b -> P (p2 ++ p1) b) ->
  ppPushes P (bind m k).
Proof.
  intros Hm Hk Hplain HP frames w.
  destruct (Hm frames w) as (p1 & w1 & [e|a] & Hw1 & H1 & E1).
  - exists p1, w1, (inl e). refine (conj Hw1 (conj H1 _)).
    intros stack Hs. unfold bind. rewrite (E1 stack Hs). reflexivity.
  - destruct (Hk a (ppFrames p1 ++ frames) w1) as (p2 & w2 & o & Hw2 & H2 & E2).
    exists (p2 ++ p1), w2, o. split; [exact (sameAbort_trans Hw1 Hw2)|]. split.
    + destruct o as [e|b]; [|exact (HP _ _ _ _ H1 H2)].
      apply ppPlain_app; [exact H2|exact (Hplain _ _ H1)].
    + intros stack Hs. unfold bind. rewrite (E1 stack Hs). cbn [outcome].
      rewrite <- app_assoc. apply E2. rewrite ppFrames_app, Hs. reflexivity.
Qed.

(** Plain steps compose. *)
Lemma ppPushes_bind_plain {A : Type} (m : M TrampolineppState A)
  (k : A -> M TrampolineppState Bounce) :
  ppPushes (fun p _ => ppPlain p) m -> (forall a, ppPushes ppPlainBounce (k a)) ->
  ppPushes ppPlainBounce (bind m k).
Proof.
  intros Hm Hk.
  apply (@ppPushes_bind _ _ (fun p _ => ppPlain p) (fun _ => ppPlainBounce) _ m k Hm Hk).
  - intros p1 _ H. exact H.
  - intros p1 a p2 b H1 [H2 Hb]. split; [apply ppPlain_app; assumption|exact Hb].
Qed.

End PPPushes.

Ltac pushes_step :=
  repeat first
    [ apply ppPushes_throw
    | apply ppPushes_ret; solve [split; reflexivity | reflexivity]
    | apply ppPushes_liftE; intros; reflexivity
    | apply ppPushes_bind_plain; [|intros]
    | apply ppPushes_onWorld; [solve [keeps_world]|intros; reflexivity]
    | apply ppPushes_ref; intros; reflexivity
    | apply ppPushes_set; intros; reflexivity
    | apply ppPushes_push; reflexivity
    | assumption
    | match goal with
      | |- ppPushes _ (match ?x with _ => _ end) => destruct x
      | |- ppPushes _ (if ?b then _ else _) => destruct b
      | |- ppPushes _ (let '(_, _) := ?p in _) => destruct p
      end ].

Section PPSteps.

Variable jsFunction : jsstring -> list EVLObject -> Cells -> (exception + Result) * Cells.

Lemma ppPushes_trampolineppEvalForms (forms : EVLObject) (lenv : DefiniteEnv) :
  ppPushes ppPlainBounce (trampolineppEvalForms forms lenv).
Proof. unfold trampolineppEvalForms, bounceObject. pushes_step. Qed.

Lemma ppPushes_trampolineppEvalOperands (mv : bool) (operands : EVLObject)
  (args : list EVLObject) (lenv : DefiniteEnv) :
  ppPushes ppOperandsShape (trampolineppEvalOperands mv operands args lenv).
Proof.
  unfold trampolineppEvalOperands.
  destruct operands as [| | | | | | | | car cdr | | | |]; try apply ppPushes_throw.
  - apply ppPushes_ret. left. split; reflexivity.
  - intros frames w.
    exists [PPCont (TrampolineppOperandCont mv (EVLCons car cdr) args lenv)], w,
      (inr (EvalReq car lenv)).
    refine (conj (sameAbort_refl w) (conj _ _)); [|intros stack _; reflexivity].
    right. eexists. repeat split.
Qed.

Lemma ppPushes_trampolineppInvokeFun (apply : bool) (fn : EVLObject)
  (args : list EVLObject) (lenv : DefiniteEnv) :
  ppPushes ppPlainBounce (trampolineppInvokeFun jsFunction apply fn args lenv).
Proof.
  pose proof ppPushes_trampolineppEvalForms as HF.
  pose proof (keeps_callJsFunction jsFunction) as HJ.
  unfold trampolineppInvokeFun. pushes_step; apply HF.
Qed.

Lemma ppPushes_trampolineppEvalReq (form : EVLObject) (lenv : DefiniteEnv) :
  ppPushes ppPlainBounce (trampolineppEvalReq form lenv).
Proof.
  pose proof ppPushes_trampolineppEvalForms as HF.
  unfold trampolineppEvalReq, trampolineppFormEval, trampolineppEvalOperator, bounceObject.
  pushes_step; apply HF.
Qed.

Lemma ppPushes_trampolineppInvoke (k : TrampolineppCont) (x : Invoked) :
  ppPushes (ppInvokeShape k) (trampolineppInvoke jsFunction k x).
Proof.
  pose proof ppPushes_trampolineppEvalForms as HF.
  pose proof ppPushes_trampolineppInvokeFun as HI.
  pose proof ppPushes_trampolineppEvalOperands as HO.
  unfold trampolineppInvoke, bounceObject.
  destruct k; destruct x; cbn [ppInvokeShape]; try apply ppPushes_throw;
    try solve [pushes_step; first [apply HF | apply HI]].
  - (* the operator *)
    apply (@ppPushes_bind _ _ (fun p _ => p = [PPCont (TrampolineppOperandsCont apply
                                                         (primaryValue result) lenv)])
             (fun _ => ppOperandsShape)).
    + intros frames w. exists [PPCont (TrampolineppOperandsCont apply
                                         (primaryValue result) lenv)], w, (inr tt).
      refine (conj (sameAbort_refl w) (conj eq_refl _)). intros stack _. reflexivity.
    + intros _. apply HO.
    + intros p1 _ ->. reflexivity.
    + intros p1 _ p2 b -> H2. exists p2. eexists.
      refine (conj H2 (conj eq_refl eq_refl)).
  - (* an operand *)
    apply HO.
Qed.

End PPSteps.

(** *** The control stack above a base *)

Lemma ppPopContFrom_app (st base : list TrampolineppElement) :
  ppPopContFrom (st ++ base)
  = match ppPopContFrom st with
    | Some (k, st') => Some (k, st' ++ base)
    | None => ppPopContFrom base
    end.
Proof.
  induction st as [|[k| |a] st IH]; cbn [app ppPopContFrom]; [reflexivity..|exact IH|exact IH].
Qed.

Lemma ppHandlerFrom_app (st base : list TrampolineppElement) :
  ppHandlerFrom (st ++ base)
  = match ppHandlerFrom st with
    | Some (inl r) => Some (inl (r ++ base))
    | Some (inr r) => Some (inr (r ++ base))
    | None => ppHandlerFrom base
    end.
Proof.
  induction st as [|[k| |a] st IH]; cbn [app ppHandlerFrom]; [reflexivity| |reflexivity|exact IH].
  destruct k; first [exact IH|reflexivity].
Qed.

Lemma ppWellStacked_tail (element : TrampolineppElement) (st : list TrampolineppElement) :
  ppWellStacked (element :: st) = true -> ppWellStacked st = true.
Proof.
  destruct element as [k| |a]; cbn [ppWellStacked]; try (intros H; exact H).
  destruct k; try (intros H; exact H); [discriminate|].
  intros H. apply andb_true_iff in H. apply H.
Qed.

Lemma ppWellStacked_pop (st st' : list TrampolineppElement) (k : TrampolineppCont) :
  ppWellStacked st = true -> ppPopContFrom st = Some (k, st') ->
  ppWellStacked st' = true
  /\ k <> TrampolineppEndCont
  /\ (isOperandCont (PPCont k) = true -> headIsOperands st' = true).
Proof.
  induction st as [|[k0| |a] st IH]; cbn [ppPopContFrom]; intros Hwf E;
    [discriminate| |apply IH; [exact (@ppWellStacked_tail _ _ Hwf)|exact E]..].
  injection E as -> ->. split; [exact (@ppWellStacked_tail _ _ Hwf)|]. split.
  - intros ->. discriminate.
  - destruct k; try discriminate. intros _. cbn [ppWellStacked] in Hwf.
    apply andb_true_iff in Hwf. apply Hwf.
Qed.

Lemma ppWellStacked_handler (st : list TrampolineppElement) :
  ppWellStacked st = true ->
  match ppHandlerFrom st with
  | Some (inl _) => False
  | Some (inr r) => ppWellStacked r = true
  | None => True
  end.
Proof.
  induction st as [|[k| |a] st IH]; cbn [ppHandlerFrom]; intros Hwf;
    [exact I| |exact (@ppWellStacked_tail _ _ Hwf)|exact (IH (@ppWellStacked_tail _ _ Hwf))].
  destruct k; try exact (IH (@ppWellStacked_tail _ _ Hwf)). discriminate.
Qed.

Lemma ppWellStacked_plain (p st : list TrampolineppElement) :
  ppPlain p -> ppWellStacked st = true -> ppWellStacked (p ++ st) = true.
Proof.
  unfold ppPlain. induction p as [|element p IH]; cbn [app forallb]; intros Hp Hst;
    [exact Hst|].
  apply andb_true_iff in Hp. destruct Hp as [He Hp]. specialize (IH Hp Hst).
  destruct element as [k| |a]; cbn [ppWellStacked]; try exact IH.
  destruct k; try exact IH; discriminate.
Qed.

Lemma ppExpected_plain (p st : list TrampolineppElement) (b : Bounce) :
  ppPlainBounce p b -> ppExpected b (p ++ st) = true.
Proof. intros [_ Hb]. unfold ppExpected. rewrite Hb. reflexivity. Qed.

Lemma ppWellStacked_operands (p st : list TrampolineppElement) (b : Bounce) :
  ppOperandsShape p b -> ppWellStacked st = true -> headIsOperands st = true ->
  ppWellStacked (p ++ st) = true /\ ppExpected b (p ++ st) = true.
Proof.
  intros [[-> Hb]|(element & -> & He & Hb)] Hst Hh; unfold ppExpected; rewrite Hb;
    cbn [app].
  - split; assumption.
  - split; [|reflexivity]. destruct element as [k| |a]; try discriminate.
    destruct k; try discriminate. cbn [ppWellStacked]. rewrite Hh, Hst. reflexivity.
Qed.

Lemma ppWellStacked_invoke (k : TrampolineppCont) (p st : list TrampolineppElement)
  (b : Bounce) :
  ppWellStacked st = true ->
  (isOperandCont (PPCont k) = true -> headIsOperands st = true) ->
  ppInvokeShape k p b ->
  ppWellStacked (p ++ st) = true /\ ppExpected b (p ++ st) = true.
Proof.
  intros Hst Hk Hp.
  assert (Hplain : ppPlainBounce p b ->
                   ppWellStacked (p ++ st) = true /\ ppExpected b (p ++ st) = true).
  { intros H. split; [apply ppWellStacked_plain; [apply H|exact Hst]
                     |apply ppExpected_plain; exact H]. }
  destruct k; cbn [ppInvokeShape] in Hp; try (apply Hplain; exact Hp).
  - destruct Hp as (p0 & element & H0 & -> & He). rewrite <- app_assoc.
    apply (@ppWellStacked_operands _ _ _ H0).
    + cbn [app]. destruct element as [k| |a]; try discriminate.
      destruct k; try discriminate. exact Hst.
    + cbn [app headIsOperands]. exact He.
  - apply (@ppWellStacked_operands _ _ _ Hp Hst). apply Hk. reflexivity.
Qed.

Lemma ppExpected_bottom (st : list TrampolineppElement) (x : Invoked) :
  ppPopContFrom st = None -> ppExpected (Bounced x) st = true ->
  exists result, x = OnResult result.
Proof.
  destruct x as [result|args]; [intros _ _; exists result; reflexivity|].
  unfold ppExpected. cbn [isArgs]. destruct st as [|[k| |a] st]; cbn; try discriminate.
Qed.

(** *** The driver loop above an error handler *)

Section PPUnderHandler.

Variable jsFunction : jsstring -> list EVLObject -> Cells -> (exception + Result) * Cells.
Variable host : nat -> Z -> Z.

(** The control stack where the operand of [_catch-errors] is evaluated
    alone, and the one where it is evaluated above the handler. *)
Variable lenv0 : DefiniteEnv.
Variables rest1 rest2 : list TrampolineppElement.
Hypothesis Hrest : ppFrames rest1 = ppFrames rest2.

#[local] Abbreviation loop := (trampolineppLoop jsFunction host).
#[local] Abbreviation state := mkTrampolineppState.
#[local] Abbreviation base1 := (PPCont TrampolineppEndCont :: rest1).
#[local] Abbreviation base2 :=
  (PPCont (TrampolineppCatchErrorsTryFormCont lenv0) :: PPErrorHandler :: rest2).
#[local] Abbreviation underHandler := (ppUnderHandler jsFunction host rest2).

Lemma ppFrames_bases (st : list TrampolineppElement) :
  ppFrames (st ++ base2) = ppFrames (st ++ base1).
Proof. rewrite !ppFrames_app. cbn [ppFrames]. rewrite Hrest. reflexivity. Qed.

Lemma ppLoop_EvalReq (n : nat) (form : EVLObject) (lenv : DefiniteEnv)
  (s : TrampolineppState) :
  noAbort (ppWorld s) ->
  loop (S n) (EvalReq form lenv) s
  = bind (ppCatching (trampolineppEvalReq form lenv)) (loop n) s.
Proof.
  intros Hw. destruct s as [stack w]. cbn [trampolineppLoop]. unfold bind at 1.
  unfold ppOnWorld. cbn [ppWorld ppStack] in *.
  rewrite (abortRequested_noAbort host Hw). reflexivity.
Qed.

Lemma ppLoop_Bounced (n : nat) (x : Invoked) (s : TrampolineppState) :
  noAbort (ppWorld s) ->
  loop (S n) (Bounced x) s
  = bind ppPopCont
      (fun k =>
         match k with
         | TrampolineppEndCont =>
             match x with
             | OnResult result => ret result
             | OnArgs _ => throw TypeError
             end
         | _ => bind (ppCatching (trampolineppInvoke jsFunction k x)) (loop n)
         end) s.
Proof.
  intros Hw. destruct s as [stack w]. cbn [trampolineppLoop]. unfold bind at 1.
  unfold ppOnWorld. cbn [ppWorld ppStack] in *.
  rewrite (abortRequested_noAbort host Hw). reflexivity.
Qed.

Lemma ppUnderHandler_later (r1 : res TrampolineppState Result)
  (run2 run2' : nat -> res TrampolineppState Result) :
  (forall m, run2 (S m) = run2' m) -> underHandler r1 run2' -> underHandler r1 run2.
Proof.
  intros Hrun H. destruct r1 as [v s'|e s'|]; [| |exact I]; destruct H as [Hw [m Hm]];
    (split; [exact Hw|]); exists (S m); intros extra; cbn [Nat.add]; rewrite Hrun; apply Hm.
Qed.

Lemma ppUnderHandler_ext (r1 : res TrampolineppState Result)
  (run2 run2' : nat -> res TrampolineppState Result) :
  (forall m, run2 m = run2' m) -> underHandler r1 run2' -> underHandler r1 run2.
Proof.
  intros Hrun H. destruct r1 as [v s'|e s'|]; [| |exact I]; destruct H as [Hw [m Hm]];
    (split; [exact Hw|]); exists m; intros extra; rewrite Hrun; apply Hm.
Qed.

Lemma ppPopCont_some {A : Type} (K : TrampolineppCont -> M TrampolineppState A)
  (stack r : list TrampolineppElement) (k : TrampolineppCont) (w : World) :
  ppPopContFrom stack = Some (k, r) ->
  bind ppPopCont K (state stack w) = K k (state r w).
Proof. intros E. unfold bind, ppPopCont. cbn [ppStack ppWorld]. rewrite E. reflexivity. Qed.

Lemma ppNotEndCont {A : Type} (k : TrampolineppCont) (X Y : A) :
  k <> TrampolineppEndCont ->
  match k with
  | TrampolineppEndCont => X
  | _ => Y
  end = Y.
Proof. intros Hk. destruct k; try reflexivity. contradiction. Qed.

Section Iteration.

Variable n : nat.
Hypothesis IH :
  forall bounce st w,
    noAbort w -> ppWellStacked st = true -> ppExpected bounce st = true ->
    underHandler (loop n bounce (state (st ++ base1) w))
      (fun m => loop m bounce (state (st ++ base2) w)).

(** What is left of an iteration, then the loop. *)
Lemma ppStep_under_handler (P : list TrampolineppElement -> Bounce -> Prop)
  (step : M TrampolineppState Bounce) (st : list TrampolineppElement) (w : World) :
  ppPushes P step ->
  (forall p b, P p b -> ppWellStacked (p ++ st) = true /\ ppExpected b (p ++ st) = true) ->
  noAbort w -> ppWellStacked st = true ->
  underHandler (bind (ppCatching step) (loop n) (state (st ++ base1) w))
    (fun m => bind (ppCatching step) (loop m) (state (st ++ base2) w)).
Proof.
  intros Hstep HP Hw Hst.
  destruct (Hstep (ppFrames (st ++ base1)) w) as (p & w' & o & Hww & Ho & E).
  pose proof (sameAbort_noAbort Hww Hw) as Hw'.
  unfold bind, ppCatching.
  rewrite (E (st ++ base1) eq_refl), (E (st ++ base2) (ppFrames_bases st)).
  rewrite !app_assoc. destruct o as [e|b]; cbn [outcome].
  - (* the step throws an exception *)
    pose proof (@ppWellStacked_plain p st Ho Hst) as Hwf.
    unfold ppHandleError. cbn [ppStack ppWorld].
    rewrite (ppHandlerFrom_app (p ++ st) base1), (ppHandlerFrom_app (p ++ st) base2).
    pose proof (@ppWellStacked_handler _ Hwf) as Hh.
    destruct (ppHandlerFrom (p ++ st)) as [[r|r]|]; [contradiction| |].
    + exact (@IH (Bounced (OnResult (EVLObject_ (EVLString (exception_name e))))) r w'
               Hw' Hh eq_refl).
    + cbn [ppHandlerFrom]. split; [exact Hw'|]. exists 0. intros extra. reflexivity.
  - (* the step returns a bounce *)
    destruct (HP p b Ho) as [Hwf Hb]. exact (@IH b (p ++ st) w' Hw' Hwf Hb).
Qed.

Lemma ppIteration_under_handler (bounce : Bounce) (st : list TrampolineppElement)
  (w : World) :
  noAbort w -> ppWellStacked st = true -> ppExpected bounce st = true ->
  underHandler (loop (S n) bounce (state (st ++ base1) w))
    (fun m => loop m bounce (state (st ++ base2) w)).
Proof.
  intros Hw Hst Hb. destruct bounce as [form lenv|x].
  - rewrite ppLoop_EvalReq by exact Hw.
    apply (@ppUnderHandler_later _ _
             (fun m => bind (ppCatching (trampolineppEvalReq form lenv)) (loop m)
                         (state (st ++ base2) w))).
    { intros m. apply ppLoop_EvalReq. exact Hw. }
    apply (@ppStep_under_handler ppPlainBounce);
      [apply ppPushes_trampolineppEvalReq| |exact Hw|exact Hst].
    intros p b H. split; [apply ppWellStacked_plain; [apply H|exact Hst]
                         |apply ppExpected_plain; exact H].
  - rewrite ppLoop_Bounced by exact Hw.
    apply (@ppUnderHandler_later _ _
             (fun m =>
                bind ppPopCont
                  (fun k =>
                     match k with
                     | TrampolineppEndCont =>
                         match x with
                         | OnResult result => ret result
                         | OnArgs _ => throw TypeError
                         end
                     | _ => bind (ppCatching (trampolineppInvoke jsFunction k x)) (loop m)
                     end) (state (st ++ base2) w))).
    { intros m. apply ppLoop_Bounced. exact Hw. }
    destruct (ppPopContFrom st) as [[k st']|] eqn:E.
    + assert (E1 : ppPopContFrom (st ++ base1) = Some (k, st' ++ base1))
        by (rewrite ppPopContFrom_app, E; reflexivity).
      assert (E2 : ppPopContFrom (st ++ base2) = Some (k, st' ++ base2))
        by (rewrite ppPopContFrom_app, E; reflexivity).
      destruct (@ppWellStacked_pop _ _ _ Hst E) as (Hst' & Hk & Hop).
      rewrite (@ppPopCont_some _ _ _ _ _ w E1), (@ppNotEndCont _ k _ _ Hk).
      apply (@ppUnderHandler_ext _ _
               (fun m => bind (ppCatching (trampolineppInvoke jsFunction k x)) (loop m)
                           (state (st' ++ base2) w))).
      { intros m. rewrite (@ppPopCont_some _ _ _ _ _ w E2), (@ppNotEndCont _ k _ _ Hk). reflexivity. }
      apply (@ppStep_under_handler (ppInvokeShape k));
        [apply ppPushes_trampolineppInvoke| |exact Hw|exact Hst'].
      intros p b H. exact (@ppWellStacked_invoke k p st' b Hst' Hop H).
    + assert (E1 : ppPopContFrom (st ++ base1) = Some (TrampolineppEndCont, rest1))
        by (rewrite ppPopContFrom_app, E; reflexivity).
      assert (E2 : ppPopContFrom (st ++ base2)
                   = Some (TrampolineppCatchErrorsTryFormCont lenv0, PPErrorHandler :: rest2))
        by (rewrite ppPopContFrom_app, E; reflexivity).
      destruct (@ppExpected_bottom _ _ E Hb) as [result ->].
      rewrite (@ppPopCont_some _ _ _ _ _ w E1).
      apply (@ppUnderHandler_ext _ _
               (fun m => loop m (bounceObject VOID_) (state (PPErrorHandler :: rest2) w))).
      { intros m. rewrite (@ppPopCont_some _ _ _ _ _ w E2). reflexivity. }
      split; [exact Hw|]. exists 0. intros extra. reflexivity.
Qed.

End Iteration.

(** The driver loop above the handler of [_catch-errors], from what it does
    above the end continuation. *)
Lemma ppLoop_under_handler (n : nat) :
  forall bounce st w,
    noAbort w -> ppWellStacked st = true -> ppExpected bounce st = true ->
    underHandler (loop n bounce (state (st ++ base1) w))
      (fun m => loop m bounce (state (st ++ base2) w)).
Proof.
  induction n as [|n IH]; intros bounce st w Hw Hst Hb; [exact I|].
  apply ppIteration_under_handler; assumption.
Qed.

End PPUnderHandler.

(** ** [_catch-errors] under the six evaluators *)

Section CatchErrors.

Variable jsFunction : jsstring -> list EVLObject -> Cells -> (exception + Result) * Cells.
Variable host : nat -> Z -> Z.

Lemma analyzeCatchErrors_catchErrorsForm (tryForm : EVLObject) :
  analyzeCatchErrors (catchErrorsForm tryForm) = inr tryForm.
Proof. reflexivity. Qed.

Lemma plainrecEvalForm_catchErrors (n : nat) (tryForm : EVLObject) (lenv denv : DefiniteEnv)
  (w : World) :
  plainrecEvalForm jsFunction (S n) (catchErrorsForm tryForm) lenv denv w
  = caught (plainrecEvalForm jsFunction n tryForm lenv denv w).
Proof. reflexivity. Qed.

Lemma cpsEvalForm_catchErrors (n : nat) (tryForm : EVLObject) (lenv denv : DefiniteEnv)
  (k : Result -> M World Result) (w : World) :
  cpsEvalForm jsFunction (S n) (catchErrorsForm tryForm) lenv denv k w
  = bind (fun w0 => caught (cpsEvalForm jsFunction n tryForm lenv denv cpsEndCont w0)) k w.
Proof.
  change (cpsEvalForm jsFunction (S n) (catchErrorsForm tryForm) lenv denv k w)
    with (match cpsEvalForm jsFunction n tryForm lenv denv cpsEndCont w with
          | Ok _ w' => k (EVLObject_ VOID_) w'
          | Throw exception w' => k (EVLObject_ (EVLString (exception_name exception))) w'
          | OutOfFuel => OutOfFuel
          end).
  unfold bind, caught.
  destruct (cpsEvalForm jsFunction n tryForm lenv denv cpsEndCont w); reflexivity.
Qed.

Lemma oocpsEvalForm_catchErrors (n : nat) (tryForm : EVLObject) (lenv denv : DefiniteEnv)
  (k : OOCPSCont) (w : World) :
  oocpsEvalForm jsFunction (S n) (catchErrorsForm tryForm) lenv denv k w
  = bind (fun w0 => caught (oocpsEvalForm jsFunction n tryForm lenv denv oocpsEndCont w0))
      (fun value => oocpsInvoke jsFunction n k (OnResult value)) w.
Proof.
  change (oocpsEvalForm jsFunction (S n) (catchErrorsForm tryForm) lenv denv k w)
    with (match oocpsEvalForm jsFunction n tryForm lenv denv oocpsEndCont w with
          | Ok _ w' => oocpsInvoke jsFunction n k (OnResult (EVLObject_ VOID_)) w'
          | Throw exception w' =>
              oocpsInvoke jsFunction n k
                (OnResult (EVLObject_ (EVLString (exception_name exception)))) w'
          | OutOfFuel => OutOfFuel
          end).
  unfold bind, caught.
  destruct (oocpsEvalForm jsFunction n tryForm lenv denv oocpsEndCont w); reflexivity.
Qed.

Lemma cpsEval_catchErrors (n : nat) (tryForm : EVLObject) (w : World) :
  cpsEval jsFunction (S n) (catchErrorsForm tryForm) w
  = caught (cpsEval jsFunction n tryForm w).
Proof.
  unfold cpsEval. rewrite cpsEvalForm_catchErrors. unfold bind, caught.
  destruct (cpsEvalForm jsFunction n tryForm nullDefiniteEnv nullDefiniteEnv cpsEndCont w);
    reflexivity.
Qed.

Lemma oocpsEval_catchErrors (n : nat) (tryForm : EVLObject) (w : World) :
  oocpsEval jsFunction (S n) (catchErrorsForm tryForm) w
  = caught (oocpsEval jsFunction n tryForm w).
Proof.
  unfold oocpsEval. rewrite oocpsEvalForm_catchErrors. unfold bind, caught.
  destruct n as [|n]; [reflexivity|].
  destruct (oocpsEvalForm jsFunction (S n) tryForm nullDefiniteEnv nullDefiniteEnv
              oocpsEndCont w); reflexivity.
Qed.

Lemma caught_ends {S : Type} (r : res S Result) : r <> OutOfFuel -> caught r <> OutOfFuel.
Proof. destruct r; [discriminate|discriminate|intros H; exact H]. Qed.

(** The stack-based evaluator, with the CPS evaluator as the reference. *)
Lemma sboocpsEval_catchErrors (n : nat) (tryForm : EVLObject) (w : World) :
  cpsEval jsFunction n tryForm w <> OutOfFuel ->
  exists m, forall m', m <= m' ->
    sboocpsEval jsFunction m' tryForm w = cpsEval jsFunction n tryForm w
    /\ sboocpsEval jsFunction m' (catchErrorsForm tryForm) w
       = caught (cpsEval jsFunction n tryForm w).
Proof.
  intros Hn. pose proof (caught_ends Hn) as Hc. rewrite <- cpsEval_catchErrors in *.
  rewrite (cpsEval_direct jsFunction n tryForm w) in *.
  rewrite (cpsEval_direct jsFunction (S n) (catchErrorsForm tryForm) w) in *.
  destruct (@sboocpsEval_directEval jsFunction n tryForm w Hn) as [m1 H1].
  destruct (@sboocpsEval_directEval jsFunction (S n) (catchErrorsForm tryForm) w Hc)
    as [m2 H2].
  exists (Nat.max m1 m2). intros m' Hle. split; [apply H1|apply H2]; lia.
Qed.

(** The trampoline evaluator, with the plain recursive evaluator as the
    reference. *)
Lemma trampolineEval_catchErrors (n : nat) (tryForm : EVLObject) (w : World) :
  noAbort w ->
  plainrecEval jsFunction n tryForm w <> OutOfFuel ->
  exists m, forall m', m <= m' ->
    trampolineEval jsFunction host m' tryForm w = plainrecEval jsFunction n tryForm w
    /\ trampolineEval jsFunction host m' (catchErrorsForm tryForm) w
       = caught (plainrecEval jsFunction n tryForm w).
Proof.
  intros Hw Hn. pose proof (caught_ends Hn) as Hc.
  change (caught (plainrecEval jsFunction n tryForm w))
    with (plainrecEval jsFunction (S n) (catchErrorsForm tryForm) w) in *.
  destruct (@trampolineEval_plainrecEval jsFunction host n tryForm w Hw Hn) as [m1 H1].
  destruct (@trampolineEval_plainrecEval jsFunction host (S n) (catchErrorsForm tryForm) w
              Hw Hc) as [m2 H2].
  exists (Nat.max m1 m2). intros m' Hle. split; [apply H1|apply H2]; lia.
Qed.

(** The trampoline++ evaluator: preprocessing goes through the form, *)
Lemma trampolineppPreprocessForm_catchErrors (n : nat) (tryForm : EVLObject)
  (cenv : CompileEnv) (w : World) :
  trampolineppPreprocessForm jsFunction host (S n) (catchErrorsForm tryForm) cenv w
  = (node <- trampolineppPreprocessForm jsFunction host n tryForm cenv;;
     ret (TrampolineppCatchErrors node)) w.
Proof. reflexivity. Qed.

(** an error found in preprocessing is not caught, *)
Lemma trampolineppEval_catchErrors_preprocessing (n : nat) (tryForm : EVLObject)
  (e : exception) (w w1 : World) :
  trampolineppPreprocessForm jsFunction host n tryForm [] w = Throw e w1 ->
  trampolineppEval jsFunction host (S n) (catchErrorsForm tryForm) w = Throw e w1.
Proof.
  intros H. unfold trampolineppEval. unfold bind at 1.
  rewrite trampolineppPreprocessForm_catchErrors. unfold bind. rewrite H. reflexivity.
Qed.

(** and the preprocessed form runs its operand above a handler. *)
Lemma trampolineppRun_catchErrors (n : nat) (node : TrampolineppForm) (lenv : DefiniteEnv)
  (w : World) :
  noAbort w ->
  trampolineppRun jsFunction host n node lenv w <> OutOfFuel ->
  exists m, forall m', m <= m' ->
    trampolineppRun jsFunction host m' (TrampolineppCatchErrors node) lenv w
    = caught (trampolineppRun jsFunction host n node lenv w).
Proof.
  intros Hw Hn. unfold trampolineppRun, trampolineppEndCont in *.
  pose proof (@ppLoop_under_handler jsFunction host lenv [] [PPCont TrampolineppEndCont]
                eq_refl n (EvalReq (TrampolineppNode node) lenv) [] w Hw eq_refl eq_refl)
    as H.
  cbn [app] in H.
  assert (Hstart : forall k,
             trampolineppLoop jsFunction host (S k)
               (EvalReq (TrampolineppNode (TrampolineppCatchErrors node)) lenv)
               (mkTrampolineppState [PPCont TrampolineppEndCont] w)
             = trampolineppLoop jsFunction host k (EvalReq (TrampolineppNode node) lenv)
                 (mkTrampolineppState
                    [PPCont (TrampolineppCatchErrorsTryFormCont lenv); PPErrorHandler;
                     PPCont TrampolineppEndCont] w)).
  { intros k. rewrite ppLoop_EvalReq by exact Hw. reflexivity. }
  assert (Hend : forall k value stack w',
             noAbort w' ->
             ppPopContFrom stack = Some (TrampolineppEndCont, []) ->
             trampolineppLoop jsFunction host (S k) (Bounced (OnResult value))
               (mkTrampolineppState stack w')
             = Ok value (mkTrampolineppState [] w')).
  { intros k value stack w' Hw' E. rewrite ppLoop_Bounced by exact Hw'.
    unfold bind, ppPopCont. cbn [ppStack ppWorld]. rewrite E. reflexivity. }
  destruct (trampolineppLoop jsFunction host n (EvalReq (TrampolineppNode node) lenv)
              (mkTrampolineppState [PPCont TrampolineppEndCont] w)) as [v s'|e s'|];
    [| |contradiction]; destruct H as [Hw' [m Hm]]; exists (S (m + 1)); intros m' Hle;
    replace m' with (S (m + S (m' - S (m + 1)))) by lia;
    rewrite Hstart, Hm; unfold bounceObject; rewrite Hend by (exact Hw' || reflexivity);
    reflexivity.
Qed.

End CatchErrors.




(** * The reader on what the printer prints *)

(** ** Reading back what is printed *)

(** *** The tokenizer on the text that is left *)

Lemma moved_refl (t : Tokenizer) : moved t t 0.
Proof. unfold moved. rewrite Nat.add_0_r. repeat split. Qed.

Lemma moved_trans (t1 t2 t3 : Tokenizer) (n m : nat) :
  moved t1 t2 n -> moved t2 t3 m -> moved t1 t3 (n + m).
Proof.
  unfold moved. intros (A1 & A2 & A3 & A4 & A5 & A6) (B1 & B2 & B3 & B4 & B5 & B6).
  rewrite B1, B2, B3, B4, B5, B6, A2. repeat split; try assumption. lia.
Qed.

Lemma moved_inputIs (t t' : Tokenizer) (s1 s2 : jsstring) :
  moved t t' (length s1) -> inputIs t (s1 ++ s2) -> inputIs t' s2.
Proof.
  intros (A1 & A2 & _) [E Hle]. unfold inputIs. rewrite A1, A2. split.
  - rewrite Nat.add_comm, <- skipn_skipn, E, skipn_app, skipn_all, Nat.sub_diag. reflexivity.
  - assert (H : length (skipn (position t) (text t)) = length (s1 ++ s2)) by (rewrite E; reflexivity).
    rewrite length_skipn, length_app in H. lia.
Qed.

Lemma moved_betweenTokens (t t' : Tokenizer) (n : nat) :
  moved t t' n -> betweenTokens t -> betweenTokens t'.
Proof.
  intros (_ & _ & A3 & A4 & A5 & _) (B1 & B2 & B3). unfold betweenTokens.
  rewrite A3, A4, A5. repeat split; assumption.
Qed.

Lemma inputIs_nth (t : Tokenizer) (c : Z) (r : jsstring) :
  inputIs t (c :: r) -> nth_error t.(text) t.(position) = Some c.
Proof.
  intros [E _]. rewrite <- (firstn_skipn (position t) (text t)) at 1. rewrite E.
  assert (Hlt : position t < length (text t)).
  { assert (H : length (skipn (position t) (text t)) = length (c :: r)) by (rewrite E; reflexivity).
    rewrite length_skipn in H. cbn in H. lia. }
  rewrite nth_error_app2 by (rewrite length_firstn; lia).
  rewrite length_firstn, Nat.min_l by lia. rewrite Nat.sub_diag. reflexivity.
Qed.

Lemma atEnd_nil (t : Tokenizer) : inputIs t [] -> atEnd t = true.
Proof.
  intros [E Hle]. unfold atEnd. apply Nat.eqb_eq.
  assert (H : length (skipn (position t) (text t)) = 0) by (rewrite E; reflexivity).
  rewrite length_skipn in H. lia.
Qed.

Lemma atEnd_cons (t : Tokenizer) (c : Z) (r : jsstring) :
  inputIs t (c :: r) -> atEnd t = false.
Proof.
  intros [E Hle]. unfold atEnd. apply Nat.eqb_neq.
  assert (H : length (skipn (position t) (text t)) = length (c :: r)) by (rewrite E; reflexivity).
  rewrite length_skipn in H. cbn in H. lia.
Qed.

Lemma isPlainUnit_facts (c : Z) :
  isPlainUnit c = true ->
  isTrailingSurrogate c = false /\ isLeadingSurrogate c = false
  /\ (isControlCharacter c && negb (isWhitespaceCharacter c)) = false
  /\ isNoncharacter c = false.
Proof.
  unfold isPlainUnit, isSurrogate. intros H.
  apply andb_true_iff in H. destruct H as [H H3].
  apply andb_true_iff in H. destruct H as [H1 H2].
  apply negb_true_iff in H1, H2, H3. apply orb_false_iff in H1. tauto.
Qed.

Lemma peekCharacter_plain (t : Tokenizer) (c : Z) (r : jsstring) :
  inputIs t (c :: r) -> isPlainUnit c = true -> peekCharacter t = Ok [c] t.
Proof.
  intros Hin Hc. destruct (isPlainUnit_facts c Hc) as (H1 & H2 & H3 & H4).
  unfold peekCharacter, peekCharacterAt. rewrite (inputIs_nth Hin), H1, H2.
  cbn [codePointAt0]. rewrite H3, H4. reflexivity.
Qed.

Lemma consumeCharacter_moved (char : jsstring) (t : Tokenizer) :
  exists t', consumeCharacter char t = Ok tt t' /\ moved t t' (length char)
             /\ t'.(category) = t.(category) /\ t'.(value) = t.(value).
Proof.
  eexists. split; [reflexivity|]. repeat split.
Qed.

Lemma skipWhitespace_spaces (ws s : jsstring) :
  forall (t : Tokenizer) (fuel : nat),
    length ws < fuel -> forallb isPlainWhitespace ws = true -> tokenStart s ->
    inputIs t (ws ++ s) ->
    exists t', skipWhitespace fuel false t = Ok tt t' /\ moved t t' (length ws)
               /\ t'.(category) = t.(category) /\ t'.(value) = t.(value).
Proof.
  induction ws as [|c ws IH]; intros t fuel Hfuel Hws Hs Hin;
    (destruct fuel as [|fuel]; [cbn in Hfuel; lia|]); cbn [skipWhitespace app] in *.
  - unfold bind at 1. unfold get. exists t.
    split; [|split; [apply moved_refl|split; reflexivity]].
    destruct s as [|c r].
    + rewrite (atEnd_nil Hin). reflexivity.
    + destruct Hs as [Hc Hnw]. rewrite (atEnd_cons Hin). unfold bind.
      rewrite (peekCharacter_plain Hin Hc). cbn [codePointAt0]. rewrite Hnw. reflexivity.
  - apply andb_true_iff in Hws. destruct Hws as [Hc Hws].
    apply andb_true_iff in Hc. destruct Hc as [Hc Hw].
    unfold bind at 1. unfold get. rewrite (atEnd_cons Hin). unfold bind at 1.
    rewrite (peekCharacter_plain Hin Hc). cbn [codePointAt0]. rewrite Hw. cbn [negb].
    unfold bind at 1. unfold modify.
    set (t1 := setPosition (position t + length [c]) (setWhitespace (whitespace t ++ [c]) t)).
    assert (Hm : moved t t1 (length [c])) by (repeat split).
    destruct (IH t1 fuel) as (t' & E & Hm' & Hcat & Hval);
      [cbn in Hfuel; lia|exact Hws|exact Hs|exact (@moved_inputIs t t1 [c] (ws ++ s) Hm Hin)|].
    exists t'. split; [exact E|]. split; [exact (moved_trans Hm Hm')|].
    split; [rewrite Hcat|rewrite Hval]; reflexivity.
Qed.

Lemma isProtoUnit_facts (c : Z) :
  isProtoUnit c = true ->
  isPlainUnit c = true
  /\ (isWhitespaceCharacter c || isSyntaxCharacter c) = false
  /\ (c =? BACKSLASH)%Z = false /\ (c =? ch "<")%Z = false.
Proof.
  unfold isProtoUnit. intros H.
  apply andb_true_iff in H. destruct H as [H H4].
  apply andb_true_iff in H. destruct H as [H H3].
  apply andb_true_iff in H. destruct H as [H1 H2].
  apply negb_true_iff in H2, H3, H4. tauto.
Qed.

Lemma jseqb_unit (c d : Z) : jseqb [c] [d] = (c =? d)%Z.
Proof. cbn. apply andb_true_r. Qed.

Lemma readProtoToken_loop_units (s post : jsstring) :
  forall (chars : jsstring) (t : Tokenizer) (fuel : nat),
    length s < fuel -> forallb isProtoUnit s = true -> delimited post ->
    inputIs t (s ++ post) ->
    exists t', readProtoToken_loop fuel chars t = Ok (chars ++ s) t'
               /\ moved t t' (length s)
               /\ t'.(category) = t.(category) /\ t'.(value) = t.(value).
Proof.
  induction s as [|c s IH]; intros chars t fuel Hfuel Hs Hpost Hin;
    (destruct fuel as [|fuel]; [cbn in Hfuel; lia|]); cbn [readProtoToken_loop app] in *.
  - unfold bind at 1. unfold get. exists t. rewrite app_nil_r.
    split; [|split; [apply moved_refl|split; reflexivity]].
    destruct post as [|c r].
    + rewrite (atEnd_nil Hin). reflexivity.
    + destruct Hpost as [Hc Hd]. rewrite (atEnd_cons Hin). unfold bind.
      rewrite (peekCharacter_plain Hin Hc). cbn [codePointAt0]. rewrite Hd. reflexivity.
  - apply andb_true_iff in Hs. destruct Hs as [Hc Hs].
    destruct (isProtoUnit_facts c Hc) as (Hp & Hd & Hb & Hl).
    unfold bind at 1. unfold get. rewrite (atEnd_cons Hin). unfold bind at 1.
    rewrite (peekCharacter_plain Hin Hp). cbn [codePointAt0]. rewrite Hd.
    unfold charIs. change (js "<") with [ch "<"]. rewrite jseqb_unit, Hl.
    unfold bind at 1. unfold ret at 1. unfold bind at 1. unfold consumeCharacter, modify.
    change [BACKSLASH] with [BACKSLASH]. rewrite jseqb_unit, Hb.
    set (t1 := setPosition (position t + length [c]) (setLexeme (lexeme t ++ [c]) t)).
    assert (Hm : moved t t1 (length [c])) by (repeat split).
    destruct (IH (chars ++ [c]) t1 fuel) as (t' & E & Hm' & Hcat & Hval);
      [cbn in Hfuel; lia|exact Hs|exact Hpost
      |exact (@moved_inputIs t t1 [c] (s ++ post) Hm Hin)|].
    exists t'. rewrite <- app_assoc in E. split; [exact E|].
    split; [exact (moved_trans Hm Hm')|].
    split; [rewrite Hcat|rewrite Hval]; reflexivity.
Qed.

Lemma consumed_moved (t : Tokenizer) (char : jsstring) :
  moved t (consumed t char) (length char).
Proof. repeat split. Qed.

(** A character is read and consumed. *)
Lemma readCharacter_plain {A : Type} (X : M Tokenizer A) (K : jsstring -> M Tokenizer A)
  (t : Tokenizer) (c : Z) (r : jsstring) :
  inputIs t (c :: r) -> isPlainUnit c = true ->
  (t0 <- get;;
   if atEnd t0 then X
   else char <- peekCharacter;; consumeCharacter char;;; K char) t
  = K [c] (consumed t [c]).
Proof.
  intros Hin Hc. unfold bind at 1. unfold get. rewrite (atEnd_cons Hin).
  unfold bind at 1. rewrite (peekCharacter_plain Hin Hc). reflexivity.
Qed.

Lemma escapeCharacters_plain (f : jsstring -> jsstring) (c : Z) (r : jsstring) :
  isPlainUnit c = true ->
  escapeCharacters f (c :: r) = f [c] ++ escapeCharacters f r.
Proof.
  intros Hc. destruct (isPlainUnit_facts c Hc) as (H1 & H2 & H3 & H4).
  cbn [escapeCharacters]. rewrite H1, H2. cbn [codePointAt0]. rewrite H3, H4. reflexivity.
Qed.

Lemma readString_step (c : Z) (rest chars : jsstring) (t : Tokenizer) (fuel : nat) :
  isPlainUnit c = true -> inputIs t (escapeStringCharacter [c] ++ rest) ->
  exists t1,
    readString_loop (S fuel) chars t = readString_loop fuel (chars ++ [c]) t1
    /\ moved t t1 (length (escapeStringCharacter [c]))
    /\ t1.(category) = t.(category) /\ t1.(value) = t.(value).
Proof.
  intros Hc Hin. cbn [readString_loop].
  assert (Hescape : forall e,
             isPlainUnit e = true -> inputIs t (BACKSLASH :: e :: rest) ->
             forall K : jsstring -> M Tokenizer jsstring,
               (t0 <- get;;
                if atEnd t0 then throw (TruncatedToken (js "Truncated string."))
                else
                  char <- peekCharacter;;
                  consumeCharacter char;;;
                  if jseqb char [DQUOTE] then ret chars
                  else if jseqb char [BACKSLASH]
                  then
                    t1 <- get;;
                    if atEnd t1
                    then throw (TruncatedToken (js "Truncated escape sequence."))
                    else char2 <- peekCharacter;; consumeCharacter char2;;; K char2
                  else readString_loop fuel (chars ++ char)) t
               = K [e] (consumed (consumed t [BACKSLASH]) [e])).
  { intros e He Hin' K.
    rewrite (@readCharacter_plain _ _ _ t BACKSLASH (e :: rest) Hin' eq_refl).
    cbn [jseqb Z.eqb BACKSLASH DQUOTE andb Pos.eqb].
    apply (@readCharacter_plain _ _ _ (consumed t [BACKSLASH]) e rest); [|exact He].
    exact (@moved_inputIs t _ [BACKSLASH] (e :: rest) (consumed_moved t [BACKSLASH]) Hin'). }
  assert (Hm2 : forall e, moved t (consumed (consumed t [BACKSLASH]) [e]) 2)
    by (intros e; repeat split; cbn; lia).
  unfold escapeStringCharacter in *. rewrite !jseqb_unit in *.
  destruct (c =? BACKSLASH)%Z eqn:E1.
  { apply Z.eqb_eq in E1. subst c. eexists. split; [|split; [apply (Hm2 BACKSLASH)|split; reflexivity]].
    rewrite (Hescape BACKSLASH eq_refl Hin). reflexivity. }
  destruct (c =? DQUOTE)%Z eqn:E2.
  { apply Z.eqb_eq in E2. subst c. eexists. split; [|split; [apply (Hm2 DQUOTE)|split; reflexivity]].
    rewrite (Hescape DQUOTE eq_refl Hin). reflexivity. }
  destruct (c =? 9)%Z eqn:E3.
  { apply Z.eqb_eq in E3. subst c. eexists. split; [|split; [apply (Hm2 (ch "t"))|split; reflexivity]].
    rewrite (Hescape (ch "t") eq_refl Hin). reflexivity. }
  destruct (c =? 10)%Z eqn:E4.
  { apply Z.eqb_eq in E4. subst c. eexists. split; [|split; [apply (Hm2 (ch "n"))|split; reflexivity]].
    rewrite (Hescape (ch "n") eq_refl Hin). reflexivity. }
  destruct (c =? 11)%Z eqn:E5.
  { apply Z.eqb_eq in E5. subst c. eexists. split; [|split; [apply (Hm2 (ch "v"))|split; reflexivity]].
    rewrite (Hescape (ch "v") eq_refl Hin). reflexivity. }
  destruct (c =? 12)%Z eqn:E6.
  { apply Z.eqb_eq in E6. subst c. eexists. split; [|split; [apply (Hm2 (ch "f"))|split; reflexivity]].
    rewrite (Hescape (ch "f") eq_refl Hin). reflexivity. }
  destruct (c =? 13)%Z eqn:E7.
  { apply Z.eqb_eq in E7. subst c. eexists. split; [|split; [apply (Hm2 (ch "r"))|split; reflexivity]].
    rewrite (Hescape (ch "r") eq_refl Hin). reflexivity. }
  exists (consumed t [c]).
  split; [|split; [apply consumed_moved|split; reflexivity]].
  rewrite (@readCharacter_plain _ _ _ t c rest Hin Hc). rewrite !jseqb_unit, E1, E2. reflexivity.
Qed.

Lemma readString_loop_units (s post : jsstring) :
  forall (chars : jsstring) (t : Tokenizer) (fuel : nat),
    length s < fuel -> forallb isPlainUnit s = true ->
    inputIs t (escapeCharacters escapeStringCharacter s ++ DQUOTE :: post) ->
    exists t', readString_loop fuel chars t = Ok (chars ++ s) t'
               /\ moved t t' (length (escapeCharacters escapeStringCharacter s) + 1)
               /\ t'.(category) = t.(category) /\ t'.(value) = t.(value).
Proof.
  induction s as [|c s IH]; intros chars t fuel Hfuel Hs Hin;
    (destruct fuel as [|fuel]; [cbn in Hfuel; lia|]).
  - cbn [escapeCharacters app length Nat.add] in *. cbn [readString_loop].
    rewrite (@readCharacter_plain _ _ _ t DQUOTE post Hin eq_refl).
    exists (consumed t [DQUOTE]). rewrite app_nil_r.
    split; [reflexivity|split; [apply consumed_moved|split; reflexivity]].
  - cbn [forallb] in Hs. apply andb_true_iff in Hs. destruct Hs as [Hc Hs].
    rewrite (@escapeCharacters_plain escapeStringCharacter c s Hc) in *. rewrite <- app_assoc in Hin.
    destruct (@readString_step c _ chars t fuel Hc Hin) as (t1 & E1 & Hm1 & Hcat1 & Hval1).
    destruct (IH (chars ++ [c]) t1 fuel) as (t' & E & Hm' & Hcat & Hval);
      [cbn in Hfuel; lia|exact Hs|exact (@moved_inputIs t t1 _ _ Hm1 Hin)|].
    exists t'. rewrite E1, E, <- app_assoc.
    split; [reflexivity|]. split.
    + rewrite length_app, <- Nat.add_assoc. exact (moved_trans Hm1 Hm').
    + split; [rewrite Hcat|rewrite Hval]; assumption.
Qed.

(** *** Tokens *)

(** [nextToken] between two tokens: whitespace is skipped and a token is
    read. *)
Lemma nextToken_token (ws rest : jsstring) (cat : Category) (val : TokenValue) (n : nat)
  (t : Tokenizer) (fuel : nat) :
  betweenTokens t -> inputIs t (ws ++ rest) ->
  forallb isPlainWhitespace ws = true -> tokenStart rest -> rest <> [] ->
  length ws < fuel ->
  (forall t1, betweenTokens t1 -> inputIs t1 rest ->
     exists t2, readToken fuel false t1 = Ok tt t2 /\ moved t1 t2 n
                /\ t2.(category) = Some cat /\ t2.(value) = val) ->
  exists t', nextToken (S fuel) t = Ok tt t' /\ moved t t' (length ws + n)
             /\ t'.(category) = Some cat /\ t'.(value) = val.
Proof.
  intros Hb Hin Hws Hstart Hrest Hfuel Hread.
  set (t0 := setValue ValueNull (setCategory None (setLexeme [] (setWhitespace [] t)))).
  assert (Hm0 : moved t t0 0) by (unfold moved; cbn; rewrite Nat.add_0_r; repeat split).
  assert (E0 : nextToken (S fuel) t = nextToken_loop (S fuel) false t0).
  { destruct Hb as (Hs & Hx & _). unfold nextToken, bind, modify, get. cbn.
    rewrite Hs, Hx. reflexivity. }
  assert (Hin0 : inputIs t0 (ws ++ rest)) by exact Hin.
  destruct (@skipWhitespace_spaces ws rest t0 fuel) as (t1 & E1 & Hm1 & Hcat1 & _);
    [lia|exact Hws|exact Hstart|exact Hin0|].
  assert (Hin1 : inputIs t1 rest) by exact (@moved_inputIs t0 t1 ws rest Hm1 Hin0).
  pose proof (moved_betweenTokens Hm0 Hb) as Hb0.
  pose proof (moved_betweenTokens Hm1 Hb0) as Hb1.
  destruct (Hread t1 Hb1 Hin1) as (t2 & E2 & Hm2 & Hcat2 & Hval2).
  exists t2. split; [|split; [|split; assumption]].
  - rewrite E0. cbn [nextToken_loop]. unfold bind at 1. unfold get at 1.
    change (category t0) with (@None Category). cbv iota. unfold bind at 1.
    rewrite E1. unfold bind at 1. unfold get at 1.
    destruct rest as [|c rest']; [contradiction|]. rewrite (atEnd_cons Hin1).
    unfold bind at 1. rewrite E2.
    destruct fuel as [|fuel']; [lia|]. cbn [nextToken_loop]. unfold bind, get.
    rewrite Hcat2. reflexivity.
  - exact (moved_trans (moved_trans Hm0 Hm1) Hm2).
Qed.

Lemma token_moved (cat : Category) (val : TokenValue) (t : Tokenizer) :
  exists t', token cat val t = Ok tt t' /\ moved t t' 0
             /\ t'.(category) = Some cat /\ t'.(value) = val.
Proof.
  eexists. split; [reflexivity|]. split; [|split; reflexivity].
  unfold moved. cbn. rewrite Nat.add_0_r. repeat split.
Qed.

(** The tokens of one syntax character. *)
Lemma readToken_opening (post : jsstring) (t : Tokenizer) (fuel : nat) :
  inputIs t (ch "(" :: post) ->
  exists t', readToken fuel false t = Ok tt t' /\ moved t t' 1
             /\ t'.(category) = Some OPENING_PARENTHESIS /\ t'.(value) = ValueNull.
Proof.
  intros Hin. unfold readToken. unfold bind at 1.
  rewrite (peekCharacter_plain Hin eq_refl).
  eexists. split; [reflexivity|]. split; [|split; reflexivity]. repeat split.
Qed.

Lemma readToken_closing (post : jsstring) (t : Tokenizer) (fuel : nat) :
  inputIs t (ch ")" :: post) ->
  exists t', readToken fuel false t = Ok tt t' /\ moved t t' 1
             /\ t'.(category) = Some CLOSING_PARENTHESIS /\ t'.(value) = ValueNull.
Proof.
  intros Hin. unfold readToken. unfold bind at 1.
  rewrite (peekCharacter_plain Hin eq_refl).
  eexists. split; [reflexivity|]. split; [|split; reflexivity]. repeat split.
Qed.

(** [#v], [#t] and [#f]. *)
Lemma readToken_hash (c : Z) (cat : Category) (o : EVLObject) (post : jsstring)
  (t : Tokenizer) (fuel : nat) :
  (c = ch "v" /\ cat = VOID /\ o = VOID_) \/ (c = ch "t" /\ cat = BOOLEAN /\ o = TRUE)
  \/ (c = ch "f" /\ cat = BOOLEAN /\ o = FALSE) ->
  inputIs t (ch "#" :: c :: post) ->
  exists t', readToken (S fuel) false t = Ok tt t' /\ moved t t' 2
             /\ t'.(category) = Some cat /\ t'.(value) = ValueObject o.
Proof.
  intros Hc Hin.
  assert (E0 : readToken (S fuel) false t
               = readHashConstruct (S fuel) (consumed t [ch "#"])).
  { unfold readToken. unfold bind at 1. rewrite (peekCharacter_plain Hin eq_refl).
    reflexivity. }
  assert (Hin1 : inputIs (consumed t [ch "#"]) (c :: post))
    by exact (@moved_inputIs t _ [ch "#"] (c :: post) (consumed_moved t [ch "#"]) Hin).
  assert (Hp : isPlainUnit c = true)
    by (destruct Hc as [(-> & _)|[(-> & _)|(-> & _)]]; reflexivity).
  exists (setValue (ValueObject o)
            (setCategory (Some cat) (consumed (consumed t [ch "#"]) [c]))).
  split; [|split; [|split; reflexivity]].
  - rewrite E0. unfold readHashConstruct. unfold bind at 1. cbn [readHashConstruct_loop].
    rewrite (@readCharacter_plain _ _ _ (consumed t [ch "#"]) c post Hin1 Hp).
    cbn [codePointAt0].
    destruct Hc as [(-> & -> & ->)|[(-> & -> & ->)|(-> & -> & ->)]]; reflexivity.
  - repeat split. cbn. lia.
Qed.

Lemma readToken_string (s post : jsstring) (t : Tokenizer) (fuel : nat) :
  length s < fuel -> forallb isPlainUnit s = true ->
  inputIs t (DQUOTE :: escapeCharacters escapeStringCharacter s ++ DQUOTE :: post) ->
  exists t', readToken fuel false t = Ok tt t'
             /\ moved t t' (length (DQUOTE :: escapeCharacters escapeStringCharacter s) + 1)
             /\ t'.(category) = Some STRING /\ t'.(value) = ValueObject (EVLString s).
Proof.
  intros Hfuel Hs Hin.
  assert (E0 : readToken fuel false t
               = (string <- readString fuel;; token STRING (ValueObject (EVLString string)))
                   (consumed t [DQUOTE])).
  { unfold readToken. unfold bind at 1. rewrite (peekCharacter_plain Hin eq_refl).
    reflexivity. }
  pose proof (consumed_moved t [DQUOTE]) as Hm0.
  assert (Hin1 : inputIs (consumed t [DQUOTE])
                   (escapeCharacters escapeStringCharacter s ++ DQUOTE :: post))
    by exact (@moved_inputIs t _ [DQUOTE] _ Hm0 Hin).
  destruct (@readString_loop_units s post [] (consumed t [DQUOTE]) fuel Hfuel Hs Hin1)
    as (t1 & E1 & Hm1 & _).
  exists (setValue (ValueObject (EVLString s)) (setCategory (Some STRING) t1)).
  split; [|split; [|split; reflexivity]].
  - rewrite E0. unfold bind, readString. rewrite E1. reflexivity.
  - pose proof (moved_trans Hm0 Hm1) as Hm. cbn [length] in *.
    destruct Hm as (A1 & A2 & A3 & A4 & A5 & A6). unfold moved. cbn.
    repeat split; assumption.
Qed.

Lemma charIs_unit (c : Z) (a : ascii) :
  charIs [c] (String a EmptyString) = (c =? ch (String a EmptyString))%Z.
Proof. unfold charIs, ch. cbn [js]. apply jseqb_unit. Qed.

Lemma isSyntaxCharacter_facts (c : Z) :
  isSyntaxCharacter c = false ->
  (c =? ch "'")%Z = false /\ (c =? ch "`")%Z = false /\ (c =? ch ",")%Z = false
  /\ (c =? DQUOTE)%Z = false /\ (c =? ch "(")%Z = false /\ (c =? ch ")")%Z = false
  /\ (c =? ch "#")%Z = false.
Proof.
  unfold isSyntaxCharacter. intros H.
  repeat (apply orb_false_iff in H; destruct H as [H ?]).
  repeat split; assumption.
Qed.

(** A token that starts with a character of a proto-token is a
    proto-token. *)
Lemma readToken_proto_start (c : Z) (r : jsstring) (t : Tokenizer) (fuel : nat) :
  isProtoUnit c = true -> inputIs t (c :: r) ->
  readToken fuel false t = readProtoTokenToken fuel t.
Proof.
  intros Hc Hin. destruct (isProtoUnit_facts c Hc) as (Hp & Hd & Hb & Hl).
  apply orb_false_iff in Hd. destruct Hd as [_ Hsyn].
  destruct (isSyntaxCharacter_facts c Hsyn) as (F1 & F2 & F3 & F4 & F5 & F6 & F7).
  unfold readToken. unfold bind at 1. rewrite (peekCharacter_plain Hin Hp).
  rewrite !charIs_unit, jseqb_unit, F1, F2, F3, F4, F5, F6, F7, Hl. reflexivity.
Qed.

Lemma readProtoToken_units (s post : jsstring) (t : Tokenizer) (fuel : nat) :
  length s < fuel -> forallb isProtoUnit s = true -> delimited post ->
  inputIs t (s ++ post) ->
  exists t', readProtoToken fuel t = Ok s t' /\ moved t t' (length s)
             /\ t'.(category) = t.(category) /\ t'.(value) = t.(value).
Proof.
  intros Hfuel Hs Hpost Hin. unfold readProtoToken.
  exact (@readProtoToken_loop_units s post [] t fuel Hfuel Hs Hpost Hin).
Qed.

Ltac proto_token Hfuel Hs Hpost Hin :=
  match type of Hin with
  | inputIs ?t (?s ++ ?post) =>
      let t1 := fresh "t1" in
      let E1 := fresh "E1" in
      let Hm1 := fresh "Hm1" in
      destruct (@readProtoToken_units s post t _ Hfuel Hs Hpost Hin) as (t1 & E1 & Hm1 & _);
      unfold readProtoTokenToken; unfold bind at 1; rewrite E1
  end.

Lemma moved_token (t t1 : Tokenizer) (n : nat) (cat : Category) (val : TokenValue) :
  moved t t1 n -> moved t (setValue val (setCategory (Some cat) t1)) n.
Proof. intros H. exact H. Qed.

(** The proto-token [.]. *)
Lemma readToken_dot (post : jsstring) (t : Tokenizer) (fuel : nat) :
  1 < fuel -> delimited post -> inputIs t (ch "." :: post) ->
  exists t', readToken fuel false t = Ok tt t' /\ moved t t' 1
             /\ t'.(category) = Some DOT /\ t'.(value) = ValueNull.
Proof.
  intros Hfuel Hpost Hin.
  rewrite (@readToken_proto_start (ch ".") post t fuel eq_refl Hin).
  change (ch "." :: post) with ([ch "."] ++ post) in Hin.
  assert (Hs : forallb isProtoUnit [ch "."] = true) by reflexivity.
  assert (Hf : length [ch "."] < fuel) by exact Hfuel.
  proto_token Hf Hs Hpost Hin.
  eexists. split; [reflexivity|]. split; [|split; reflexivity].
  apply moved_token. exact Hm1.
Qed.

(** A proto-token in the syntax of numbers. *)
Lemma readToken_number (s post : jsstring) (t : Tokenizer) (fuel : nat) :
  length s < fuel -> forallb isProtoUnit s = true -> numberRegExp_test s = true ->
  delimited post -> inputIs t (s ++ post) ->
  exists t', readToken fuel false t = Ok tt t' /\ moved t t' (length s)
             /\ t'.(category) = Some NUMBER
             /\ t'.(value) = ValueObject (EVLNumber (Number_parseFloat s)).
Proof.
  intros Hfuel Hs Hn Hpost Hin.
  destruct s as [|c s']; [discriminate|].
  assert (Hc : isProtoUnit c = true)
    by (cbn [forallb] in Hs; apply andb_true_iff in Hs; apply Hs).
  rewrite (@readToken_proto_start c (s' ++ post) t fuel Hc Hin).
  proto_token Hfuel Hs Hpost Hin.
  assert (Hdot : charIs (c :: s') "." = false).
  { destruct (charIs (c :: s') ".") eqn:E; [|reflexivity].
    unfold charIs in E. cbn [js jseqb] in E. apply andb_true_iff in E. destruct E as [E1' E2].
    apply Z.eqb_eq in E1'. destruct s'; [|discriminate]. subst c. discriminate. }
  rewrite Hdot, Hn.
  eexists. split; [reflexivity|]. split; [|split; reflexivity].
  apply moved_token. exact Hm1.
Qed.

(** A keyword. *)
Lemma readToken_keyword (name post : jsstring) (t : Tokenizer) (fuel : nat) :
  S (length name) < fuel -> isProtoName name = true -> delimited post ->
  inputIs t ((ch ":" :: name) ++ post) ->
  exists t', readToken fuel false t = Ok tt t' /\ moved t t' (S (length name))
             /\ t'.(category) = Some KEYWORD
             /\ t'.(value) = ValueObject (EVLKeyword name).
Proof.
  intros Hfuel Hname Hpost Hin.
  destruct name as [|d r]; [discriminate|].
  unfold isProtoName in Hname. apply andb_true_iff in Hname. destruct Hname as [Hu Hcolon].
  rewrite (@readToken_proto_start (ch ":") ((d :: r) ++ post) t fuel eq_refl Hin).
  assert (Hs : forallb isProtoUnit (ch ":" :: d :: r) = true)
    by (change (forallb isProtoUnit (ch ":" :: d :: r))
          with (isProtoUnit (ch ":") && forallb isProtoUnit (d :: r)); rewrite Hu; reflexivity).
  assert (Hf : length (ch ":" :: d :: r) < fuel) by exact Hfuel.
  proto_token Hf Hs Hpost Hin.
  assert (Hk : keywordRegExp_test (ch ":" :: d :: r) = true)
    by (unfold keywordRegExp_test; rewrite Hcolon; reflexivity).
  change (charIs (ch ":" :: d :: r) ".") with false.
  change (numberRegExp_test (ch ":" :: d :: r)) with false.
  rewrite Hk.
  eexists. split; [reflexivity|]. split; [|split; reflexivity].
  apply moved_token. exact Hm1.
Qed.

(** A variable. *)
Lemma readToken_variable (name post : jsstring) (t : Tokenizer) (fuel : nat) :
  length name < fuel -> isProtoName name = true ->
  numberRegExp_test name = false -> charIs name "." = false ->
  delimited post -> inputIs t (name ++ post) ->
  exists t', readToken fuel false t = Ok tt t' /\ moved t t' (length name)
             /\ t'.(category) = Some VARIABLE
             /\ t'.(value) = ValueObject (EVLVariable name).
Proof.
  intros Hfuel Hname Hn Hdot Hpost Hin.
  destruct name as [|c r]; [discriminate|].
  unfold isProtoName in Hname. apply andb_true_iff in Hname. destruct Hname as [Hs Hcolon].
  assert (Hc : isProtoUnit c = true)
    by (cbn [forallb] in Hs; apply andb_true_iff in Hs; apply Hs).
  rewrite (@readToken_proto_start c (r ++ post) t fuel Hc Hin).
  proto_token Hfuel Hs Hpost Hin.
  assert (Hk : keywordRegExp_test (c :: r) = false).
  { cbn [noColon forallb] in Hcolon. apply andb_true_iff in Hcolon. destruct Hcolon as [Hc1 _].
    apply negb_true_iff in Hc1. unfold keywordRegExp_test. destruct r; [reflexivity|].
    rewrite Hc1. reflexivity. }
  assert (Hv : variableRegExp_test (c :: r) = true) by exact Hcolon.
  rewrite Hdot, Hn, Hk, Hv.
  eexists. split; [reflexivity|]. split; [|split; reflexivity].
  apply moved_token. exact Hm1.
Qed.

(** *** Printed numbers *)

Lemma spanDigits_spec (s : jsstring) :
  forall d t, spanDigits s = (d, t) -> s = d ++ t /\ forallb isDecimalDigitUnit d = true.
Proof.
  induction s as [|c s IH]; intros d t E; cbn [spanDigits] in E.
  - injection E as <- <-. split; reflexivity.
  - destruct (isDecimalDigitUnit c) eqn:Hc.
    + destruct (spanDigits s) as [d' t'] eqn:E'. injection E as <- <-.
      destruct (IH d' t' eq_refl) as [-> Hd]. split; [reflexivity|].
      cbn [forallb]. rewrite Hc, Hd. reflexivity.
    + injection E as <- <-. split; reflexivity.
Qed.

Lemma isDecimalDigitUnit_proto (c : Z) : isDecimalDigitUnit c = true -> isProtoUnit c = true.
Proof.
  unfold isDecimalDigitUnit. intros H. apply andb_true_iff in H. destruct H as [H1 H2].
  apply Z.leb_le in H1. apply Z.leb_le in H2.
  assert (Hc : (c = 48 \/ c = 49 \/ c = 50 \/ c = 51 \/ c = 52 \/ c = 53 \/ c = 54
                \/ c = 55 \/ c = 56 \/ c = 57)%Z) by lia.
  repeat (destruct Hc as [->|Hc]; [reflexivity|]). subst c. reflexivity.
Qed.

Lemma digits_proto (d : jsstring) :
  forallb isDecimalDigitUnit d = true -> forallb isProtoUnit d = true.
Proof.
  induction d as [|c d IH]; [reflexivity|]. cbn [forallb]. intros H.
  apply andb_true_iff in H. destruct H as [Hc Hd].
  rewrite (isDecimalDigitUnit_proto c Hc), (IH Hd). reflexivity.
Qed.

Lemma unsigned_number_proto (s : jsstring) :
  (let '(d, t) := spanDigits s in
   match d, t with
   | [], _ => false
   | _ :: _, [] => true
   | _ :: _, _ :: _ => match fractionPart t with Some _ => true | None => false end
   end) = true ->
  forallb isProtoUnit s = true.
Proof.
  destruct (spanDigits s) as [d t] eqn:E. destruct (spanDigits_spec s E) as [-> Hd].
  intros H. rewrite forallb_app, (digits_proto d Hd). cbn [andb].
  destruct d as [|c d]; [discriminate|]. destruct t as [|p u]; [reflexivity|].
  unfold fractionPart in H. destruct (p =? 46)%Z eqn:Hp; [|discriminate].
  apply Z.eqb_eq in Hp. subst p.
  destruct (spanDigits u) as [f t'] eqn:E'. destruct (spanDigits_spec u E') as [-> Hf].
  destruct f as [|x f]; [discriminate|]. destruct t'; [|discriminate].
  rewrite app_nil_r. cbn [forallb]. change (isProtoUnit 46) with true. cbn [andb].
  exact (digits_proto (x :: f) Hf).
Qed.

(** A string in the syntax of numbers is made of characters of
    proto-tokens. *)
Lemma numberRegExp_units (s : jsstring) :
  numberRegExp_test s = true -> forallb isProtoUnit s = true.
Proof.
  unfold numberRegExp_test, stripSign. destruct s as [|c s]; [discriminate|].
  destruct (c =? 43)%Z eqn:E1; [|destruct (c =? 45)%Z eqn:E2]; cbn [snd].
  - apply Z.eqb_eq in E1. subst c. intros H. cbn [forallb].
    rewrite (unsigned_number_proto s H). reflexivity.
  - apply Z.eqb_eq in E2. subst c. intros H. cbn [forallb].
    rewrite (unsigned_number_proto s H). reflexivity.
  - apply unsigned_number_proto.
Qed.

(** *** The reader on printed objects *)

Lemma toStringRest_fix (cdr : EVLObject) :
  (fix rest (list : EVLObject) : jsstring :=
     match list with
     | EVLEmptyList => []
     | EVLCons a d => js " " ++ toString a ++ rest d
     | x => js " . " ++ toString x
     end) cdr = toStringRest cdr.
Proof. reflexivity. Qed.

Lemma toString_cons (car cdr : EVLObject) :
  toString (EVLCons car cdr) = ch "(" :: toString car ++ toStringRest cdr ++ [ch ")"].
Proof.
  rewrite <- toStringRest_fix. reflexivity.
Qed.

Lemma readObject_next (f : nat) (r : Reading) (t' : Tokenizer) :
  nextToken f r.(tokenizer) = Ok tt t' ->
  readObject (S f) r
  = (s <- get;;
     match s.(tokenizer).(category) with
     | Some VOID | Some BOOLEAN | Some NUMBER | Some CHARACTER | Some STRING
     | Some KEYWORD | Some VARIABLE =>
         match s.(tokenizer).(value) with
         | ValueObject o => ret (R_Object o)
         | _ => throw (CannotHappen (js "readObject"))
         end
     | Some QUOTE => readAbbreviation_ (readObject f) quoteVariable
     | Some QUASIQUOTE => readAbbreviation_ (readObject f) quasiquoteVariable
     | Some UNQUOTE => readAbbreviation_ (readObject f) unquoteVariable
     | Some UNQUOTE_SPLICING => readAbbreviation_ (readObject f) unquoteSplicingVariable
     | Some HASH_PLUS =>
         object <- readReadTimeConditional_ (readObject f) true;;
         match object with
         | Some o => ret (R_Object o)
         | None => readObject f
         end
     | Some HASH_MINUS =>
         object <- readReadTimeConditional_ (readObject f) false;;
         match object with
         | Some o => ret (R_Object o)
         | None => readObject f
         end
     | Some OPENING_PARENTHESIS => readList_loop (readObject f) f []
     | Some HASH_OPENING_PARENTHESIS => readVector_loop (readObject f) f []
     | Some DOT => ret R_DOT
     | Some CLOSING_PARENTHESIS => ret R_CLOSING_PARENTHESIS
     | Some XML_START_TAG =>
         readXMLElement_loop (readObject f) f s.(tokenizer).(value);;;
         readObject f
     | Some XML_END_TAG => ret R_XML_END_TAG
     | Some XML_EMPTY_ELEMENT_TAG => readObject f
     | Some XML_COMMENT => readObject f
     | Some EOI => ret R_EOI
     | Some BOI | None => throw (CannotHappen (js "readObject"))
     end) (mkReading t' r.(world) r.(lastResult)).
Proof.
  intros E. cbn [readObject]. unfold bind at 1. unfold onTokenizer. rewrite E. reflexivity.
Qed.

(** [readObject] on a token that is an object, on a closing parenthesis, on
    a dot, and on an opening parenthesis. *)
Lemma readObject_atom (f : nat) (r : Reading) (t' : Tokenizer) (cat : Category)
  (o : EVLObject) :
  nextToken f r.(tokenizer) = Ok tt t' ->
  t'.(category) = Some cat -> isAtomCategory cat = true -> t'.(value) = ValueObject o ->
  readObject (S f) r = Ok (R_Object o) (mkReading t' r.(world) r.(lastResult)).
Proof.
  intros E Hcat Hatom Hval. rewrite (readObject_next f r E). unfold bind, get.
  cbn [tokenizer]. rewrite Hcat, Hval. destruct cat; try discriminate; reflexivity.
Qed.

Lemma readObject_closing (f : nat) (r : Reading) (t' : Tokenizer) :
  nextToken f r.(tokenizer) = Ok tt t' ->
  t'.(category) = Some CLOSING_PARENTHESIS ->
  readObject (S f) r = Ok R_CLOSING_PARENTHESIS (mkReading t' r.(world) r.(lastResult)).
Proof.
  intros E Hcat. rewrite (readObject_next f r E). unfold bind, get.
  cbn [tokenizer]. rewrite Hcat. reflexivity.
Qed.

Lemma readObject_dot (f : nat) (r : Reading) (t' : Tokenizer) :
  nextToken f r.(tokenizer) = Ok tt t' ->
  t'.(category) = Some DOT ->
  readObject (S f) r = Ok R_DOT (mkReading t' r.(world) r.(lastResult)).
Proof.
  intros E Hcat. rewrite (readObject_next f r E). unfold bind, get.
  cbn [tokenizer]. rewrite Hcat. reflexivity.
Qed.

Lemma readObject_opening (f : nat) (r : Reading) (t' : Tokenizer) :
  nextToken f r.(tokenizer) = Ok tt t' ->
  t'.(category) = Some OPENING_PARENTHESIS ->
  readObject (S f) r
  = readList_loop (readObject f) f [] (mkReading t' r.(world) r.(lastResult)).
Proof.
  intros E Hcat. rewrite (readObject_next f r E). unfold bind at 1. unfold get.
  cbn [tokenizer]. rewrite Hcat. reflexivity.
Qed.

Lemma tokenStart_proto (c : Z) (r : jsstring) : isProtoUnit c = true -> tokenStart (c :: r).
Proof.
  intros Hc. destruct (isProtoUnit_facts c Hc) as (Hp & Hd & _).
  apply orb_false_iff in Hd. split; [exact Hp|apply Hd].
Qed.

(** An object that is printed as one token is read back when the token
    is. *)
Lemma readsObject_token (v : EVLObject) (cat : Category) :
  isAtomCategory cat = true ->
  tokenStart (toString v) -> toString v <> [] ->
  (forall post t1 fuel,
     delimited post -> betweenTokens t1 -> inputIs t1 (toString v ++ post) ->
     length (toString v) < fuel ->
     exists t2, readToken fuel false t1 = Ok tt t2 /\ moved t1 t2 (length (toString v))
                /\ t2.(category) = Some cat /\ t2.(value) = ValueObject (reread v)) ->
  readsObject v.
Proof.
  intros Hatom Hstart Hne Hread ws post r fuel Hb Hws Hpost Hin Hfuel.
  destruct fuel as [|[|f]]; [lia..|].
  assert (Hstart' : tokenStart (toString v ++ post))
    by (destruct (toString v); [contradiction|exact Hstart]).
  assert (Hne' : toString v ++ post <> [])
    by (destruct (toString v); [contradiction|discriminate]).
  destruct (@nextToken_token ws (toString v ++ post) cat (ValueObject (reread v))
              (length (toString v)) (tokenizer r) f Hb Hin Hws Hstart' Hne')
    as (t' & E & Hm & Hcat & Hval).
  - lia.
  - intros t1 Hb1 Hin1. apply (Hread post t1 f Hpost Hb1 Hin1). lia.
  - exists (mkReading t' (world r) (lastResult r)).
    split; [exact (readObject_atom (S f) r E Hcat Hatom Hval)|].
    split; [exact Hm|split; reflexivity].
Qed.

Lemma readsObject_void : readsObject EVLVoid.
Proof.
  apply (@readsObject_token EVLVoid VOID eq_refl); [split; reflexivity|discriminate|].
  intros post t1 fuel _ _ Hin Hfuel. destruct fuel as [|f]; [cbn in Hfuel; lia|].
  apply (@readToken_hash (ch "v") VOID VOID_ post t1 f); [|exact Hin].
  left. repeat split.
Qed.

Lemma readsObject_boolean (b : bool) : readsObject (EVLBoolean b).
Proof.
  apply (@readsObject_token (EVLBoolean b) BOOLEAN eq_refl);
    [destruct b; split; reflexivity|destruct b; discriminate|].
  intros post t1 fuel _ _ Hin Hfuel. destruct fuel as [|f]; [cbn in Hfuel; lia|].
  destruct b.
  - apply (@readToken_hash (ch "t") BOOLEAN TRUE post t1 f); [|exact Hin].
    right. left. repeat split.
  - apply (@readToken_hash (ch "f") BOOLEAN FALSE post t1 f); [|exact Hin].
    right. right. repeat split.
Qed.

Lemma readsObject_number (x : spec_float) :
  numberRegExp_test (Number_toString x) = true -> readsObject (EVLNumber x).
Proof.
  intros Hn. pose proof (numberRegExp_units _ Hn) as Hu.
  change (readsObject (EVLNumber x)).
  assert (Hs : toString (EVLNumber x) = Number_toString x) by reflexivity.
  apply (@readsObject_token (EVLNumber x) NUMBER eq_refl); rewrite ?Hs.
  - destruct (Number_toString x) as [|c r]; [discriminate|].
    apply tokenStart_proto. cbn [forallb] in Hu. apply andb_true_iff in Hu. apply Hu.
  - destruct (Number_toString x); [discriminate|discriminate].
  - intros post t1 fuel Hpost _ Hin Hfuel. rewrite ?Hs in *.
    exact (@readToken_number (Number_toString x) post t1 fuel Hfuel Hu Hn Hpost Hin).
Qed.

Lemma readsObject_string (s : jsstring) :
  forallb isPlainUnit s = true -> readsObject (EVLString s).
Proof.
  intros Hs.
  assert (Hp : toString (EVLString s)
               = DQUOTE :: escapeCharacters escapeStringCharacter s ++ [DQUOTE])
    by reflexivity.
  apply (@readsObject_token (EVLString s) STRING eq_refl); rewrite ?Hp.
  - split; reflexivity.
  - discriminate.
  - intros post t1 fuel _ _ Hin Hfuel. rewrite ?Hp in *.
    cbn [app] in Hin. rewrite <- app_assoc in Hin. cbn [app] in Hin.
    assert (Hlen : length s <= length (escapeCharacters escapeStringCharacter s)).
    { clear - Hs. induction s as [|c s IH]; [apply Nat.le_refl|].
      cbn [forallb] in Hs. apply andb_true_iff in Hs. destruct Hs as [Hc Hs].
      rewrite (@escapeCharacters_plain escapeStringCharacter c s Hc), length_app.
      specialize (IH Hs). cbn [length].
      assert (1 <= length (escapeStringCharacter [c])); [|lia].
      unfold escapeStringCharacter.
      repeat match goal with |- context [if ?b then _ else _] => destruct b end;
        cbn; lia. }
    cbn [length] in Hfuel. rewrite length_app in Hfuel. cbn [length] in Hfuel.
    destruct (@readToken_string s post t1 fuel) as (t2 & E & Hm & Hcat & Hval);
      [lia|exact Hs|exact Hin|].
    exists t2. split; [exact E|]. split; [|split; assumption].
    cbn [length] in *. rewrite length_app. cbn [length]. exact Hm.
Qed.

Lemma readsObject_keyword (name : jsstring) :
  isProtoName name = true -> readsObject (EVLKeyword name).
Proof.
  intros Hname.
  assert (Hu : forallb isProtoUnit name = true).
  { destruct name; [discriminate|]. unfold isProtoName in Hname.
    apply andb_true_iff in Hname. apply Hname. }
  assert (Hp : toString (EVLKeyword name) = ch ":" :: name).
  { cbn [toString]. change (js ":") with [ch ":"]. cbn [app]. f_equal.
    clear Hname. induction name as [|c name IH]; [reflexivity|].
    cbn [forallb] in Hu. apply andb_true_iff in Hu. destruct Hu as [Hc Hu].
    destruct (isProtoUnit_facts c Hc) as (Hpl & Hd & Hb & Hl).
    rewrite (@escapeCharacters_plain escapeProtoTokenCharacter c name Hpl), (IH Hu).
    unfold escapeProtoTokenCharacter. cbn [codePointAt0]. rewrite Hd.
    rewrite jseqb_unit, Hb, charIs_unit, Hl. reflexivity. }
  apply (@readsObject_token (EVLKeyword name) KEYWORD eq_refl); rewrite ?Hp.
  - split; reflexivity.
  - discriminate.
  - intros post t1 fuel Hpost _ Hin Hfuel. rewrite ?Hp in *.
    exact (@readToken_keyword name post t1 fuel Hfuel Hname Hpost Hin).
Qed.

Lemma escapeCharacters_proto (name : jsstring) :
  forallb isProtoUnit name = true ->
  escapeCharacters escapeProtoTokenCharacter name = name.
Proof.
  induction name as [|c name IH]; [reflexivity|]. cbn [forallb]. intros Hu.
  apply andb_true_iff in Hu. destruct Hu as [Hc Hu].
  destruct (isProtoUnit_facts c Hc) as (Hpl & Hd & Hb & Hl).
  rewrite (@escapeCharacters_plain escapeProtoTokenCharacter c name Hpl), (IH Hu).
  unfold escapeProtoTokenCharacter. cbn [codePointAt0]. rewrite Hd.
  rewrite jseqb_unit, Hb, charIs_unit, Hl. reflexivity.
Qed.

Lemma readsObject_variable (name : jsstring) :
  isProtoName name = true -> numberRegExp_test name = false -> charIs name "." = false ->
  readsObject (EVLVariable name).
Proof.
  intros Hname Hn Hdot.
  assert (Hu : forallb isProtoUnit name = true).
  { destruct name; [discriminate|]. unfold isProtoName in Hname.
    apply andb_true_iff in Hname. apply Hname. }
  assert (Hp : toString (EVLVariable name) = name) by exact (escapeCharacters_proto name Hu).
  apply (@readsObject_token (EVLVariable name) VARIABLE eq_refl); rewrite ?Hp.
  - destruct name as [|c r]; [discriminate|]. apply tokenStart_proto.
    cbn [forallb] in Hu. apply andb_true_iff in Hu. apply Hu.
  - destruct name; [discriminate|discriminate].
  - intros post t1 fuel Hpost _ Hin Hfuel. rewrite ?Hp in *.
    exact (@readToken_variable name post t1 fuel Hfuel Hname Hn Hdot Hpost Hin).
Qed.

(** The tokens of a list. *)
Lemma readObject_reads_closing (ws post : jsstring) (r : Reading) (fuel : nat) :
  betweenTokens r.(tokenizer) -> forallb isPlainWhitespace ws = true ->
  inputIs r.(tokenizer) (ws ++ ch ")" :: post) -> length ws + 3 <= fuel ->
  exists r',
    readObject fuel r = Ok R_CLOSING_PARENTHESIS r'
    /\ moved r.(tokenizer) r'.(tokenizer) (length ws + 1)
    /\ r'.(world) = r.(world) /\ r'.(lastResult) = r.(lastResult).
Proof.
  intros Hb Hws Hin Hfuel. destruct fuel as [|[|f]]; [lia..|].
  destruct (@nextToken_token ws (ch ")" :: post) CLOSING_PARENTHESIS ValueNull 1
              (tokenizer r) f Hb Hin Hws) as (t' & E & Hm & Hcat & Hval);
    [split; reflexivity|discriminate|lia| |].
  - intros t1 _ Hin1. exact (@readToken_closing post t1 f Hin1).
  - exists (mkReading t' (world r) (lastResult r)).
    split; [exact (readObject_closing (S f) r E Hcat)|].
    split; [exact Hm|split; reflexivity].
Qed.

Lemma readObject_reads_dot (ws post : jsstring) (r : Reading) (fuel : nat) :
  betweenTokens r.(tokenizer) -> forallb isPlainWhitespace ws = true -> delimited post ->
  inputIs r.(tokenizer) (ws ++ ch "." :: post) -> length ws + 4 <= fuel ->
  exists r',
    readObject fuel r = Ok R_DOT r'
    /\ moved r.(tokenizer) r'.(tokenizer) (length ws + 1)
    /\ r'.(world) = r.(world) /\ r'.(lastResult) = r.(lastResult).
Proof.
  intros Hb Hws Hpost Hin Hfuel. destruct fuel as [|[|f]]; [lia..|].
  destruct (@nextToken_token ws (ch "." :: post) DOT ValueNull 1
              (tokenizer r) f Hb Hin Hws) as (t' & E & Hm & Hcat & Hval);
    [split; reflexivity|discriminate|lia| |].
  - intros t1 _ Hin1. apply (@readToken_dot post t1 f); [lia|exact Hpost|exact Hin1].
  - exists (mkReading t' (world r) (lastResult r)).
    split; [exact (readObject_dot (S f) r E Hcat)|].
    split; [exact Hm|split; reflexivity].
Qed.

Lemma readObject_reads_opening (ws post : jsstring) (r : Reading) (f : nat) :
  betweenTokens r.(tokenizer) -> forallb isPlainWhitespace ws = true ->
  inputIs r.(tokenizer) (ws ++ ch "(" :: post) -> length ws < f ->
  exists r0,
    readObject (S (S f)) r = readList_loop (readObject (S f)) (S f) [] r0
    /\ moved r.(tokenizer) r0.(tokenizer) (length ws + 1)
    /\ r0.(world) = r.(world) /\ r0.(lastResult) = r.(lastResult).
Proof.
  intros Hb Hws Hin Hfuel.
  destruct (@nextToken_token ws (ch "(" :: post) OPENING_PARENTHESIS ValueNull 1
              (tokenizer r) f Hb Hin Hws) as (t' & E & Hm & Hcat & Hval);
    [split; reflexivity|discriminate|lia| |].
  - intros t1 _ Hin1. exact (@readToken_opening post t1 f Hin1).
  - exists (mkReading t' (world r) (lastResult r)).
    split; [exact (readObject_opening (S f) r E Hcat)|].
    split; [exact Hm|split; reflexivity].
Qed.

Lemma delimited_rest (cdr : EVLObject) (post : jsstring) :
  delimited (toStringRest cdr ++ ch ")" :: post).
Proof. destruct cdr; split; reflexivity. Qed.

Lemma readList_loop_object (rec : M Reading ReadResult) (n : nat)
  (elements : list EVLObject) (r r1 : Reading) (o : EVLObject) :
  rec r = Ok (R_Object o) r1 ->
  readList_loop rec (S n) elements r = readList_loop rec n (elements ++ [o]) r1.
Proof. intros E. cbn [readList_loop]. unfold bind at 1. rewrite E. reflexivity. Qed.

Lemma readsTail_nil : readsTail EVLEmptyList.
Proof.
  intros elements post r fuel n _ Hb Hin Hfuel Hn. cbn [toStringRest app length] in *.
  destruct n as [|n]; [lia|].
  destruct (@readObject_reads_closing [] post r fuel Hb eq_refl Hin) as (r' & E & Hm & Hw & Hl);
    [cbn; lia|].
  exists r'. split; [|split; [exact Hm|split; assumption]].
  cbn [readList_loop]. unfold bind. rewrite E. reflexivity.
Qed.

(** The tail of a dotted list. *)
Lemma readsTail_dotted (x : EVLObject) :
  toStringRest x = js " . " ++ toString x -> readsObject x -> readsTail x.
Proof.
  intros Hx Hread elements post r fuel n Hne Hb Hin Hfuel Hn. rewrite Hx in *.
  change (js " . " ++ toString x) with (ch " " :: ch "." :: ch " " :: toString x) in *.
  cbn [length app] in *.
  destruct n as [|n]; [lia|].
  destruct (@readObject_reads_dot [ch " "] (ch " " :: toString x ++ ch ")" :: post) r fuel
              Hb eq_refl) as (r1 & E1 & Hm1 & Hw1 & Hl1);
    [split; reflexivity|exact Hin|cbn; lia|].
  pose proof (moved_betweenTokens Hm1 Hb) as Hb1.
  assert (Hin1 : inputIs (tokenizer r1) ([ch " "] ++ toString x ++ ch ")" :: post))
    by exact (@moved_inputIs (tokenizer r) (tokenizer r1) [ch " "; ch "."] _ Hm1 Hin).
  destruct (Hread [ch " "] (ch ")" :: post) r1 fuel Hb1 eq_refl) as (r2 & E2 & Hm2 & Hw2 & Hl2);
    [split; reflexivity|exact Hin1|cbn; lia|].
  pose proof (moved_betweenTokens Hm2 Hb1) as Hb2.
  assert (Hin2 : inputIs (tokenizer r2) ([] ++ ch ")" :: post)).
  { apply (@moved_inputIs (tokenizer r1) (tokenizer r2) ([ch " "] ++ toString x) _).
    - rewrite length_app. exact Hm2.
    - rewrite <- app_assoc. exact Hin1. }
  destruct (@readObject_reads_closing [] post r2 fuel Hb2 eq_refl Hin2)
    as (r3 & E3 & Hm3 & Hw3 & Hl3); [cbn; lia|].
  exists r3. split; [|split; [|split; congruence]].
  - cbn [readList_loop]. unfold bind at 1. rewrite E1. unfold readDottedList_.
    destruct elements as [|e elements]; [contradiction|].
    unfold bind at 1. rewrite E2. unfold bind. rewrite E3. reflexivity.
  - pose proof (moved_trans (moved_trans Hm1 Hm2) Hm3) as Hm.
    cbn [length Nat.add] in Hm.
    replace (S (S (S (length (toString x) + 1))))
      with (S (S (length (toString x)) + 1 + 1)); [exact Hm|lia].
Qed.

Lemma readsTail_cons (car cdr : EVLObject) :
  readsObject car -> readsTail cdr -> readsTail (EVLCons car cdr).
Proof.
  intros Hcar Hcdr elements post r fuel n Hne Hb Hin Hfuel Hn.
  change (toStringRest (EVLCons car cdr))
    with (ch " " :: toString car ++ toStringRest cdr) in *.
  cbn [length] in *. rewrite length_app in *.
  destruct n as [|n]; [lia|].
  assert (Hin0 : inputIs (tokenizer r)
                   ([ch " "] ++ toString car ++ toStringRest cdr ++ ch ")" :: post))
    by (cbn [app] in *; rewrite <- app_assoc in Hin; exact Hin).
  destruct (Hcar [ch " "] (toStringRest cdr ++ ch ")" :: post) r fuel Hb eq_refl
              (delimited_rest cdr post) Hin0) as (r1 & E1 & Hm1 & Hw1 & Hl1); [cbn; lia|].
  pose proof (moved_betweenTokens Hm1 Hb) as Hb1.
  assert (Hin1 : inputIs (tokenizer r1) (toStringRest cdr ++ ch ")" :: post)).
  { apply (@moved_inputIs (tokenizer r) (tokenizer r1) ([ch " "] ++ toString car) _).
    - rewrite length_app. exact Hm1.
    - rewrite <- app_assoc. exact Hin0. }
  destruct (Hcdr (elements ++ [reread car]) post r1 fuel n) as (r2 & E2 & Hm2 & Hw2 & Hl2);
    [destruct elements; discriminate|exact Hb1|exact Hin1|lia|lia|].
  exists r2. split; [|split; [|split; congruence]].
  - rewrite (readList_loop_object _ n elements r E1), E2, makeList_app. reflexivity.
  - pose proof (moved_trans Hm1 Hm2) as Hm. cbn [length Nat.add] in Hm.
    replace (S (length (toString car) + length (toStringRest cdr)) + 1)
      with (S (length (toString car)) + (length (toStringRest cdr) + 1)); [exact Hm|lia].
Qed.

Lemma readsObject_nil : readsObject EVLEmptyList.
Proof.
  intros ws post r fuel Hb Hws Hpost Hin Hfuel.
  change (toString EVLEmptyList) with [ch "("; ch ")"] in *. cbn [length app] in *.
  destruct fuel as [|[|f]]; [lia..|].
  destruct (@readObject_reads_opening ws (ch ")" :: post) r f Hb Hws Hin)
    as (r0 & E0 & Hm0 & Hw0 & Hl0); [lia|].
  pose proof (moved_betweenTokens Hm0 Hb) as Hb0.
  assert (Hin0 : inputIs (tokenizer r0) ([] ++ ch ")" :: post)).
  { apply (@moved_inputIs (tokenizer r) (tokenizer r0) (ws ++ [ch "("]) _).
    - rewrite length_app. exact Hm0.
    - rewrite <- app_assoc. exact Hin. }
  destruct (@readObject_reads_closing [] post r0 (S f) Hb0 eq_refl Hin0)
    as (r1 & E1 & Hm1 & Hw1 & Hl1); [cbn; lia|].
  exists r1. split; [|split; [|split; congruence]].
  - rewrite E0. cbn [readList_loop]. unfold bind. rewrite E1. reflexivity.
  - pose proof (moved_trans Hm0 Hm1) as Hm. cbn [length Nat.add] in Hm.
    replace (length ws + 2) with (length ws + 1 + 1); [exact Hm|lia].
Qed.

Lemma readsObject_cons (car cdr : EVLObject) :
  readsObject car -> readsTail cdr -> readsObject (EVLCons car cdr).
Proof.
  intros Hcar Hcdr ws post r fuel Hb Hws Hpost Hin Hfuel.
  rewrite toString_cons in *. cbn [length] in *. rewrite !length_app in *.
  cbn [length] in *.
  destruct fuel as [|[|f]]; [lia..|].
  destruct (@readObject_reads_opening ws
              (toString car ++ toStringRest cdr ++ ch ")" :: post) r f Hb Hws)
    as (r0 & E0 & Hm0 & Hw0 & Hl0);
    [cbn [app] in *; rewrite <- !app_assoc in Hin; exact Hin|lia|].
  pose proof (moved_betweenTokens Hm0 Hb) as Hb0.
  assert (Hin0 : inputIs (tokenizer r0)
                   ([] ++ toString car ++ toStringRest cdr ++ ch ")" :: post)).
  { apply (@moved_inputIs (tokenizer r) (tokenizer r0) (ws ++ [ch "("]) _).
    - rewrite length_app. exact Hm0.
    - cbn [app] in *. rewrite <- !app_assoc in *. exact Hin. }
  destruct (Hcar [] (toStringRest cdr ++ ch ")" :: post) r0 (S f) Hb0 eq_refl
              (delimited_rest cdr post) Hin0) as (r1 & E1 & Hm1 & Hw1 & Hl1); [cbn; lia|].
  pose proof (moved_betweenTokens Hm1 Hb0) as Hb1.
  assert (Hin1 : inputIs (tokenizer r1) (toStringRest cdr ++ ch ")" :: post))
    by exact (@moved_inputIs (tokenizer r0) (tokenizer r1) (toString car) _ Hm1 Hin0).
  destruct (Hcdr [reread car] post r1 (S f) f) as (r2 & E2 & Hm2 & Hw2 & Hl2);
    [discriminate|exact Hb1|exact Hin1|lia|lia|].
  exists r2. split; [|split; [|split; congruence]].
  - rewrite E0, (readList_loop_object _ f [] r0 E1). exact E2.
  - pose proof (moved_trans (moved_trans Hm0 Hm1) Hm2) as Hm. cbn [length Nat.add] in Hm.
    replace (length ws + S (length (toString car) + (length (toStringRest cdr) + 1)))
      with (length ws + 1 + length (toString car) + (length (toStringRest cdr) + 1));
      [exact Hm|lia].
Qed.

(** Every object of the claim is read back: alone, and as the tail of a
    list. *)
Lemma reads_printed (v : EVLObject) : readable v = true -> readsObject v /\ readsTail v.
Proof.
  induction v as [| | | | | | | | car IHcar cdr IHcdr | | | |]; cbn [readable];
    intros Hv; try discriminate.
  - split; [|apply readsTail_dotted; [reflexivity|]]; apply readsObject_void.
  - split; [|apply readsTail_dotted; [reflexivity|]]; apply readsObject_boolean.
  - unfold numberReadsBack in Hv. apply andb_true_iff in Hv. destruct Hv as [Hn _].
    split; [|apply readsTail_dotted; [reflexivity|]]; apply readsObject_number; exact Hn.
  - split; [|apply readsTail_dotted; [reflexivity|]]; apply readsObject_string; exact Hv.
  - split; [|apply readsTail_dotted; [reflexivity|]]; apply readsObject_keyword; exact Hv.
  - apply andb_true_iff in Hv. destruct Hv as [Hv Hdot].
    apply andb_true_iff in Hv. destruct Hv as [Hname Hn].
    apply negb_true_iff in Hdot, Hn.
    split; [|apply readsTail_dotted; [reflexivity|]];
      apply readsObject_variable; assumption.
  - split; [apply readsObject_nil|apply readsTail_nil].
  - apply andb_true_iff in Hv. destruct Hv as [Hcar Hcdr].
    destruct (IHcar Hcar) as [Acar _]. destruct (IHcdr Hcdr) as [_ Bcdr].
    split; [apply readsObject_cons|apply readsTail_cons]; assumption.
Qed.

Lemma jseqb_refl (a : jsstring) : jseqb a a = true.
Proof. induction a as [|c a IH]; cbn; [reflexivity|]. rewrite Z.eqb_refl. exact IH. Qed.

(** What is read back has the contents of what was printed. *)
Lemma reread_alike (v : EVLObject) : readable v = true -> alike (reread v) v = true.
Proof.
  induction v as [| | | | | | | | car IHcar cdr IHcdr | | | |]; cbn [readable reread alike];
    intros Hv; try discriminate; try reflexivity; try apply jseqb_refl.
  - apply Bool.eqb_reflx.
  - unfold numberReadsBack in Hv. apply andb_true_iff in Hv. apply Hv.
  - apply andb_true_iff in Hv. destruct Hv as [Hcar Hcdr].
    rewrite (IHcar Hcar), (IHcdr Hcdr). reflexivity.
Qed.

(** [read] on the printed object, with enough fuel. *)
Lemma read_printed (v : EVLObject) (w : World) (fuel : nat) :
  readable v = true -> length (toString v) + 3 <= fuel ->
  exists r',
    readPrinted fuel v w = Ok (Some (reread v)) r'
    /\ r'.(tokenizer).(position) = length (toString v)
    /\ r'.(world) = w.
Proof.
  intros Hv Hfuel. destruct (reads_printed v Hv) as [Hread _].
  destruct (Hread [] [] (mkReading (newTokenizer (toString v) false) w (EVLObject_ VOID_)) fuel)
    as (r' & E & Hm & Hw & _).
  - repeat split.
  - reflexivity.
  - exact I.
  - split; [cbn; rewrite app_nil_r; reflexivity|cbn; lia].
  - cbn [length Nat.add]. exact Hfuel.
  - exists r'. unfold readPrinted, read, bind. rewrite E. cbn.
    split; [reflexivity|]. split; [|exact Hw].
    destruct Hm as (_ & Hp & _). exact Hp.
Qed.

(** ** Reading back what is printed *)




(** * Environments *)

Lemma jseqb_eq (a b : jsstring) : jseqb a b = true <-> a = b.
Proof.
  revert b. induction a as [|x a IH]; intros [|y b]; cbn; split; intros H;
    try reflexivity; try discriminate.
  - apply andb_true_iff in H. destruct H as [H1 H2].
    apply Z.eqb_eq in H1. apply IH in H2. congruence.
  - injection H as -> ->. rewrite Z.eqb_refl. apply IH. reflexivity.
Qed.

Lemma jseqb_neq (a b : jsstring) : jseqb a b = false <-> a <> b.
Proof.
  split.
  - intros H E. apply jseqb_eq in E. congruence.
  - intros H. destruct (jseqb a b) eqn:E; [|reflexivity]. apply jseqb_eq in E. contradiction.
Qed.

Lemma Namespace_eqb_eq (a b : Namespace) : Namespace_eqb a b = true <-> a = b.
Proof. destruct a, b; cbn; split; intros H; congruence. Qed.

Lemma updateCell_same (f : jsstring -> option EVLObject) (name : jsstring)
  (v : option EVLObject) : updateCell f name v name = v.
Proof. unfold updateCell. rewrite jseqb_refl. reflexivity. Qed.

Lemma updateCell_other (f : jsstring -> option EVLObject) (name name' : jsstring)
  (v : option EVLObject) : name' <> name -> updateCell f name v name' = f name'.
Proof. intros H. unfold updateCell. apply jseqb_neq in H. rewrite H. reflexivity. Qed.

(** [GlobalEnv.set] then [GlobalEnv.ref]: the value set is the value found,
    the other variables and the other namespace are as before, and only the
    cell is written. *)
Theorem GlobalEnv_ref_after_set (namespace namespace' : Namespace)
  (variable variable' : jsstring) (value : EVLObject) (w : World) :
  exists w',
    GlobalEnv_set namespace variable value w = Ok value w'
    /\ GlobalEnv_ref namespace variable w' = Ok value w'
    /\ ((namespace', variable') <> (namespace, variable) ->
        GlobalEnv_ref namespace' variable' w'
        = retarget (GlobalEnv_ref namespace' variable' w) w')
    /\ w'.(frames) = w.(frames) /\ sameAbort w w'
    /\ w'.(selectedEvaluator) = w.(selectedEvaluator).
Proof.
  destruct namespace; eexists; (split; [reflexivity|]);
    (split; [cbn; rewrite updateCell_same; reflexivity|]);
    (split; [|repeat split]).
  - intros Hne. destruct namespace'; cbn.
    + rewrite updateCell_other by congruence.
      destruct (globalValue w variable'); reflexivity.
    + destruct (globalFunction w variable'); reflexivity.
  - intros Hne. destruct namespace'; cbn.
    + destruct (globalValue w variable'); reflexivity.
    + rewrite updateCell_other by congruence.
      destruct (globalFunction w variable'); reflexivity.
Qed.

Lemma indexOfVariable_Some (variable : jsstring) (variables : list jsstring) (j : nat) :
  indexOfVariable variable variables = Some j ->
  nth_error variables j = Some variable
  /\ forall i, i < j -> nth_error variables i <> Some variable.
Proof.
  revert j. induction variables as [|v r IH]; intros j; cbn; [discriminate|].
  destruct (jseqb v variable) eqn:E.
  - intros [= <-]. apply jseqb_eq in E. subst v. split; [reflexivity|]. intros i Hi. lia.
  - destruct (indexOfVariable variable r) as [j'|]; [|discriminate].
    intros [= <-]. destruct (IH j' eq_refl) as [H1 H2]. split; [exact H1|].
    intros [|i] Hi; cbn.
    + intros [= ->]. rewrite jseqb_refl in E. discriminate.
    + apply H2. lia.
Qed.

Lemma indexOfVariable_None (variable : jsstring) (variables : list jsstring) :
  indexOfVariable variable variables = None <-> ~ In variable variables.
Proof.
  induction variables as [|v r IH]; cbn; [tauto|].
  destruct (jseqb v variable) eqn:E.
  - apply jseqb_eq in E. split; [discriminate|]. intros H. exfalso. apply H. left. exact E.
  - apply jseqb_neq in E. destruct (indexOfVariable variable r).
    + split; [discriminate|]. intros H. exfalso. apply H. right.
      destruct IH as [IH1 IH2].
      destruct (in_dec (list_eq_dec Z.eq_dec) variable r) as [Hin|Hnin]; [exact Hin|].
      specialize (IH2 Hnin). discriminate.
    + split; [|reflexivity]. intros _ [H|H]; [contradiction|]. apply IH; [reflexivity|exact H].
Qed.

Lemma indexOfVariable_lt (variable : jsstring) (variables : list jsstring) (j : nat) :
  indexOfVariable variable variables = Some j -> j < length variables.
Proof.
  intros H. apply indexOfVariable_Some in H. destruct H as [H _].
  apply nth_error_Some. congruence.
Qed.

Lemma GlobalEnv_ref_frames (namespace : Namespace) (variable : jsstring) (w : World)
  (frames' : list Frame) :
  GlobalEnv_ref namespace variable (setFrames frames' w)
  = retarget (GlobalEnv_ref namespace variable w) (setFrames frames' w).
Proof.
  destruct namespace; cbn;
    [destruct (globalValue w variable)|destruct (globalFunction w variable)]; reflexivity.
Qed.

(** A lookup in allocated frames does not see a frame allocated later. *)
Lemma DefiniteEnv_ref_later_frame (env : DefiniteEnv) (namespace : Namespace)
  (variable : jsstring) (w : World) (f : Frame) :
  allocated env w ->
  DefiniteEnv_ref env namespace variable (setFrames (w.(frames) ++ [f]) w)
  = retarget (DefiniteEnv_ref env namespace variable w) (setFrames (w.(frames) ++ [f]) w).
Proof.
  induction env as [|a next IH]; intros Ha.
  - apply GlobalEnv_ref_frames.
  - inversion Ha as [|? ? Hlt Hnext]; subst. cbn [DefiniteEnv_ref].
    cbn [frames setFrames]. rewrite nth_error_app1 by exact Hlt.
    destruct (nth_error (frames w) a) as [fa|] eqn:Ea; [|reflexivity].
    destruct (frameSlot fa namespace variable) as [j|].
    + unfold frameValue. cbn [frames setFrames]. rewrite nth_error_app1 by exact Hlt.
      rewrite Ea. destruct (nth_error (frame_values fa) j); reflexivity.
    + apply IH. exact Hnext.
Qed.

(** [new Frame(namespace, variables, values, next)] then [ref]: a variable
    of the frame, in the namespace of the frame, has the value paired with
    its first occurrence, and hides the bindings of [next]; any other
    variable is looked up in [next], where it is found as before. *)
Theorem DefiniteEnv_ref_new_frame (namespace namespace' : Namespace)
  (variables : list jsstring) (values : list EVLObject) (next : DefiniteEnv)
  (variable : jsstring) (w : World) :
  allocated next w -> length values = length variables ->
  exists a w',
    newFrame namespace variables values w = Ok a w'
    /\ DefiniteEnv_ref (a :: next) namespace' variable w'
       = match (if Namespace_eqb namespace namespace'
                then indexOfVariable variable variables else None) with
         | Some j => Ok (nth j values EVLVoid) w'
         | None => retarget (DefiniteEnv_ref next namespace' variable w) w'
         end.
Proof.
  intros Ha Hlen. eexists. eexists. split; [reflexivity|].
  cbn [DefiniteEnv_ref frames setFrames].
  rewrite nth_error_app2 by lia. rewrite Nat.sub_diag. cbn [nth_error].
  unfold frameSlot. cbn [frame_namespace frame_variables].
  destruct (if Namespace_eqb namespace namespace' then indexOfVariable variable variables
            else None) as [j|] eqn:E.
  - unfold frameValue. cbn [frames setFrames].
    rewrite nth_error_app2 by lia. rewrite Nat.sub_diag. cbn [nth_error frame_values].
    assert (Hj : j < length values).
    { destruct (Namespace_eqb namespace namespace'); [|discriminate].
      rewrite Hlen. exact (indexOfVariable_lt _ _ E). }
    rewrite (nth_error_nth' values EVLVoid Hj). reflexivity.
  - apply DefiniteEnv_ref_later_frame. exact Ha.
Qed.

Lemma DefiniteEnv_ref_new_frame_witness :
  exists a w',
    newFrame VAL_NS [js "x"; js "y"] [EVLBoolean true; EVLBoolean false] initialWorld
    = Ok a w'
    /\ DefiniteEnv_ref [a] VAL_NS (js "y") w'
       = match (if Namespace_eqb VAL_NS VAL_NS
                then indexOfVariable (js "y") [js "x"; js "y"] else None) with
         | Some j => Ok (nth j [EVLBoolean true; EVLBoolean false] EVLVoid) w'
         | None => retarget (DefiniteEnv_ref [] VAL_NS (js "y") initialWorld) w'
         end.
Proof.
  apply (@DefiniteEnv_ref_new_frame VAL_NS VAL_NS [js "x"; js "y"]
           [EVLBoolean true; EVLBoolean false] [] (js "y") initialWorld).
  - constructor.
  - reflexivity.
Defined.

Lemma nth_error_updateFrame_same (a : nat) (g : Frame -> Frame) (l : list Frame) (f : Frame) :
  nth_error l a = Some f -> nth_error (updateFrame a g l) a = Some (g f).
Proof.
  revert a. induction l as [|x l IH]; intros [|a]; cbn; try discriminate.
  - intros [= ->]. reflexivity.
  - apply IH.
Qed.

Lemma nth_error_updateFrame_other (a a' : nat) (g : Frame -> Frame) (l : list Frame) :
  a' <> a -> nth_error (updateFrame a g l) a' = nth_error l a'.
Proof.
  revert a a'. induction l as [|x l IH]; intros [|a] [|a'] H; cbn; try reflexivity.
  - contradiction.
  - apply IH. congruence.
Qed.

Lemma nth_error_setNth_same (j : nat) (v : EVLObject) (l : list EVLObject) :
  j < length l -> nth_error (setNth j v l) j = Some v.
Proof.
  revert j. induction l as [|x l IH]; intros [|j] H; cbn in *; try lia; [reflexivity|].
  apply IH. lia.
Qed.

Lemma nth_error_setNth_other (j j' : nat) (v : EVLObject) (l : list EVLObject) :
  j' <> j -> nth_error (setNth j v l) j' = nth_error l j'.
Proof.
  revert j j'. induction l as [|x l IH]; intros [|j] [|j'] H; cbn; try reflexivity.
  - contradiction.
  - apply IH. congruence.
Qed.

Lemma frameSlot_names (f : Frame) (namespace namespace' : Namespace)
  (variable variable' : jsstring) (j : nat) :
  frameSlot f namespace variable = Some j -> frameSlot f namespace' variable' = Some j ->
  (namespace', variable') = (namespace, variable).
Proof.
  unfold frameSlot. intros H H'.
  destruct (Namespace_eqb (frame_namespace f) namespace) eqn:E; [|discriminate].
  destruct (Namespace_eqb (frame_namespace f) namespace') eqn:E'; [|discriminate].
  apply Namespace_eqb_eq in E, E'. apply indexOfVariable_Some in H, H'.
  destruct H as [H _]. destruct H' as [H' _]. congruence.
Qed.

(** An assignment leaves the bindings of the other variables as they are,
    in every environment. *)
Lemma DefiniteEnv_ref_assigned (namespace namespace' : Namespace)
  (variable variable' : jsstring) (value : EVLObject) (w w' : World) (env : DefiniteEnv) :
  assigned namespace variable value w w' ->
  (namespace', variable') <> (namespace, variable) ->
  DefiniteEnv_ref env namespace' variable' w'
  = retarget (DefiniteEnv_ref env namespace' variable' w) w'.
Proof.
  intros [(a & j & f & Ha & Hj & ->)|Hg] Hne.
  - induction env as [|a' next IH].
    + apply GlobalEnv_ref_frames.
    + cbn [DefiniteEnv_ref]. unfold frameWritten at 1. cbn [frames setFrames].
      destruct (Nat.eq_dec a' a) as [->|Hneq].
      * rewrite (nth_error_updateFrame_same _ _ _ Ha), Ha.
        unfold frameSlot at 1. cbn [frame_namespace frame_variables].
        fold (frameSlot f namespace' variable').
        destruct (frameSlot f namespace' variable') as [j'|] eqn:Ej'; [|exact IH].
        unfold frameValue, frameWritten. cbn [frames setFrames].
        rewrite (nth_error_updateFrame_same _ _ _ Ha), Ha. cbn [frame_values].
        assert (Hjj : j' <> j).
        { intros ->. apply Hne. exact (@frameSlot_names _ _ _ _ _ _ Hj Ej'). }
        rewrite (nth_error_setNth_other _ _ Hjj).
        destruct (nth_error (frame_values f) j'); reflexivity.
      * rewrite (nth_error_updateFrame_other _ _ Hneq).
        destruct (nth_error (frames w) a') as [f'|] eqn:Ea'; [|reflexivity].
        destruct (frameSlot f' namespace' variable') as [j'|]; [|exact IH].
        unfold frameValue, frameWritten. cbn [frames setFrames].
        rewrite (nth_error_updateFrame_other _ _ Hneq), Ea'.
        destruct (nth_error (frame_values f') j'); reflexivity.
  - assert (Hf : frames w' = frames w) by (destruct namespace; injection Hg as <-; reflexivity).
    destruct (GlobalEnv_ref_after_set namespace namespace' variable variable' value w)
      as (w0 & E0 & _ & Hother & _).
    rewrite Hg in E0. injection E0 as <-.
    induction env as [|a' next IH].
    + apply Hother. exact Hne.
    + cbn [DefiniteEnv_ref]. rewrite Hf.
      destruct (nth_error (frames w) a') as [f'|]; [|reflexivity].
      destruct (frameSlot f' namespace' variable') as [j'|]; [|exact IH].
      unfold frameValue. rewrite Hf.
      destruct (nth_error (frames w) a') as [f''|]; [|reflexivity].
      destruct (nth_error (frame_values f'') j'); reflexivity.
Qed.

Lemma DefiniteEnv_set_assigns (env : DefiniteEnv) (namespace : Namespace)
  (variable : jsstring) (value : EVLObject) (w : World) :
  fullFrames env w ->
  exists w',
    DefiniteEnv_set env namespace variable value w = Ok value w'
    /\ DefiniteEnv_ref env namespace variable w' = Ok value w'
    /\ assigned namespace variable value w w'.
Proof.
  induction env as [|a next IH]; intros Hfull.
  - destruct (GlobalEnv_ref_after_set namespace namespace variable variable value w)
      as (w' & E & Href & _).
    exists w'. split; [exact E|]. split; [exact Href|]. right. exact E.
  - inversion Hfull as [|? ? Hf Hnext]; subst. cbn [DefiniteEnv_set].
    destruct (nth_error (frames w) a) as [f|] eqn:Ea; [|contradiction].
    destruct (frameSlot f namespace variable) as [j|] eqn:Ej.
    + exists (frameWritten a j value w). split; [reflexivity|]. split.
      * cbn [DefiniteEnv_ref]. unfold frameWritten at 1. cbn [frames setFrames].
        rewrite (nth_error_updateFrame_same _ _ _ Ea).
        unfold frameSlot at 1. cbn [frame_namespace frame_variables].
        fold (frameSlot f namespace variable). rewrite Ej.
        unfold frameValue, frameWritten. cbn [frames setFrames].
        rewrite (nth_error_updateFrame_same _ _ _ Ea). cbn [frame_values].
        rewrite nth_error_setNth_same; [reflexivity|].
        unfold frameSlot in Ej.
        destruct (Namespace_eqb (frame_namespace f) namespace); [|discriminate].
        rewrite Hf. exact (indexOfVariable_lt _ _ Ej).
      * left. exists a, j, f. repeat split; assumption.
    + destruct (IH Hnext) as (w' & E & Href & Has).
      exists w'. split; [exact E|]. split; [|exact Has].
      cbn [DefiniteEnv_ref].
      assert (Hsame : nth_error (frames w') a = Some f
                      \/ exists f', nth_error (frames w') a = Some f'
                                    /\ frameSlot f' namespace variable = None).
      { destruct Has as [(a0 & j0 & f0 & Ha0 & Hj0 & ->)|Hg].
        - unfold frameWritten. cbn [frames setFrames].
          destruct (Nat.eq_dec a a0) as [->|Hneq].
          + rewrite Ea in Ha0. injection Ha0 as <-. congruence.
          + left. rewrite (nth_error_updateFrame_other _ _ Hneq). exact Ea.
        - left. destruct namespace; injection Hg as <-; exact Ea. }
      destruct Hsame as [->|(f' & -> & Ef')]; [rewrite Ej|rewrite Ef']; exact Href.
Qed.

(** [env.set(namespace, variable, value)] then [env.ref(namespace,
    variable)], in an environment whose frames have a value for each
    variable: the value set is returned by both, and every other variable
    is bound as before, in this environment and in every other one. *)
Theorem DefiniteEnv_ref_after_set (env : DefiniteEnv) (namespace : Namespace)
  (variable : jsstring) (value : EVLObject) (w : World) :
  fullFrames env w ->
  exists w',
    DefiniteEnv_set env namespace variable value w = Ok value w'
    /\ DefiniteEnv_ref env namespace variable w' = Ok value w'
    /\ (forall env' namespace' variable',
          (namespace', variable') <> (namespace, variable) ->
          DefiniteEnv_ref env' namespace' variable' w'
          = retarget (DefiniteEnv_ref env' namespace' variable' w) w').
Proof.
  intros Hfull.
  destruct (DefiniteEnv_set_assigns namespace variable value Hfull) as (w' & E & Href & Has).
  exists w'. split; [exact E|]. split; [exact Href|].
  intros env' namespace' variable' Hne.
  exact (DefiniteEnv_ref_assigned env' Has Hne).
Qed.

Lemma DefiniteEnv_ref_after_set_witness :
  exists w',
    DefiniteEnv_set [0] VAL_NS (js "y") (EVLString (js "new"))
      (stateAfter (newFrame VAL_NS [js "x"; js "y"] [EVLBoolean true; EVLBoolean false]
                     initialWorld) initialWorld)
    = Ok (EVLString (js "new")) w'
    /\ DefiniteEnv_ref [0] VAL_NS (js "y") w' = Ok (EVLString (js "new")) w'
    /\ (forall env' namespace' variable',
          (namespace', variable') <> (VAL_NS, js "y") ->
          DefiniteEnv_ref env' namespace' variable' w'
          = retarget
              (DefiniteEnv_ref env' namespace' variable'
                 (stateAfter (newFrame VAL_NS [js "x"; js "y"]
                                [EVLBoolean true; EVLBoolean false] initialWorld)
                    initialWorld)) w').
Proof.
  apply (@DefiniteEnv_ref_after_set [0] VAL_NS (js "y") (EVLString (js "new"))
           (stateAfter (newFrame VAL_NS [js "x"; js "y"] [EVLBoolean true; EVLBoolean false]
                          initialWorld) initialWorld)).
  constructor; [reflexivity|constructor].
Defined.

(** * Form analyzer *)

Lemma memName_In (x : jsstring) (l : list jsstring) : memName x l = true <-> In x l.
Proof.
  induction l as [|y l IH]; cbn; [split; [discriminate|tauto]|].
  rewrite orb_true_iff, IH, jseqb_eq. split; intros [H|H]; auto.
Qed.

Lemma distinctNames_NoDup (l : list jsstring) : distinctNames l = true <-> NoDup l.
Proof.
  induction l as [|x l IH]; cbn; [split; [constructor|reflexivity]|].
  rewrite andb_true_iff, negb_true_iff, IH. split.
  - intros [H1 H2]. constructor; [|exact H2]. intros Hin. apply memName_In in Hin. congruence.
  - intros H. inversion H as [|? ? Hn Hd]; subst. split; [|exact Hd].
    destruct (memName x l) eqn:E; [|reflexivity]. apply memName_In in E. contradiction.
Qed.

Lemma checkParameterList_loop_parameterListOf (parameters : list jsstring) (rest : bool) :
  (rest = true -> 2 <= length parameters) ->
  checkParameterList_loop (parameterListOf parameters rest) = Some (parameters, rest).
Proof.
  induction parameters as [|p ps IH]; intros Hrest.
  - destruct rest; [specialize (Hrest eq_refl); cbn in Hrest; lia|reflexivity].
  - destruct ps as [|q qs].
    + destruct rest; [specialize (Hrest eq_refl); cbn in Hrest; lia|reflexivity].
    + destruct qs as [|q' qs'].
      * destruct rest; reflexivity.
      * change (parameterListOf (p :: q :: q' :: qs') rest)
          with (EVLCons (EVLVariable p) (parameterListOf (q :: q' :: qs') rest)).
        cbn [checkParameterList_loop].
        change (parameterListOf (q :: q' :: qs') rest)
          with (EVLCons (EVLVariable q) (parameterListOf (q' :: qs') rest)) at 1.
        cbv iota. rewrite IH; [reflexivity|]. intros _. cbn. lia.
Qed.

Lemma checkParameterList_loop_inv (object : EVLObject) :
  forall ps0 r0,
    checkParameterList_loop object = Some (ps0, r0) ->
    object = parameterListOf ps0 r0 /\ (r0 = true -> 2 <= length ps0).
Proof.
  induction object as [| | | | | | | | car _ cdr IH | | | |]; intros ps0 r0 H;
    cbn in H; try discriminate.
  - injection H as <- <-. split; [reflexivity|discriminate].
  - destruct car; try discriminate.
    destruct cdr; try discriminate.
    + injection H as <- <-. split; [reflexivity|]. intros _. cbn. lia.
    + cbn in H. injection H as <- <-. split; [reflexivity|discriminate].
    + destruct (checkParameterList_loop (EVLCons cdr1 cdr2)) as [[ps r]|] eqn:E;
        [|discriminate].
      injection H as <- <-. destruct (IH ps r eq_refl) as [Hobj Hr].
      assert (Hps : ps <> []).
      { intros ->. destruct r; cbn in Hobj; discriminate. }
      destruct ps as [|q qs]; [contradiction|].
      split; [|intros Hrt; specialize (Hr Hrt); cbn in *; lia].
      change (parameterListOf (name :: q :: qs) r)
        with (EVLCons (EVLVariable name) (parameterListOf (q :: qs) r)).
      rewrite <- Hobj. reflexivity.
Qed.

(** The parameter lists [checkParameterList] accepts. *)
Lemma checkParameterList_spec (object : EVLObject) (formName : string)
  (parameters : list jsstring) (rest : bool) :
  checkParameterList object formName = inr (parameters, rest)
  <-> object = parameterListOf parameters rest /\ NoDup parameters
      /\ (rest = true -> parameters <> []).
Proof.
  split.
  - unfold checkParameterList. intros H.
    assert (Hloop : match checkParameterList_loop object with
                    | Some (ps, r) =>
                        if distinctNames ps then inr (ps, r) else formAnalyzerError formName
                    | None => formAnalyzerError formName
                    end = inr (parameters, rest) ->
                    object = parameterListOf parameters rest /\ NoDup parameters
                    /\ (rest = true -> parameters <> [])).
    { destruct (checkParameterList_loop object) as [[ps r]|] eqn:E; [|discriminate].
      destruct (distinctNames ps) eqn:Ed; [|discriminate].
      intros [= <- <-]. destruct (checkParameterList_loop_inv _ E) as [Hobj Hr].
      split; [exact Hobj|]. split; [apply distinctNames_NoDup; exact Ed|].
      intros Hrt Hnil. specialize (Hr Hrt). subst ps. cbn in Hr. lia. }
    destruct object; try (apply Hloop; exact H).
    injection H as <- <-. split; [reflexivity|]. split; [|discriminate].
    constructor; [intros []|constructor].
  - intros (-> & Hd & Hr). unfold checkParameterList.
    destruct parameters as [|p ps].
    + destruct rest; [exfalso; apply Hr; reflexivity|reflexivity].
    + destruct ps as [|q qs].
      * destruct rest; reflexivity.
      * assert (E : checkParameterList_loop (parameterListOf (p :: q :: qs) rest)
                    = Some (p :: q :: qs, rest)).
        { apply checkParameterList_loop_parameterListOf. intros _. cbn. lia. }
        apply distinctNames_NoDup in Hd.
        change (parameterListOf (p :: q :: qs) rest)
          with (EVLCons (EVLVariable p) (parameterListOf (q :: qs) rest)) in *.
        rewrite E, Hd. reflexivity.
Qed.

(** What [checkParameterList] rejects is reported as a malformed form, with
    the name of the form. *)
Lemma checkParameterList_rejects (object : EVLObject) (formName : string) :
  match checkParameterList object formName with
  | inr _ => True
  | inl e => e = FormAnalyzerError (js "Malformed " ++ js formName ++ js " form.")
  end.
Proof.
  unfold checkParameterList. destruct object; try exact I;
    try (destruct (checkParameterList_loop _) as [[ps r]|];
         [destruct (distinctNames ps)|]; try exact I; reflexivity);
    reflexivity.
Qed.

(** [checkParameterList] accepts exactly the parameter lists: a variable
    alone (the rest parameter), a proper list of distinct variables, and a
    dotted list of distinct variables that ends in the rest parameter; it
    returns the variables in order and whether the last one is a rest
    parameter.  Anything else is reported as a malformed form, with the name
    of the form. *)
Theorem checkParameterList_accepts (object : EVLObject) (formName : string) :
  (forall parameters rest,
     checkParameterList object formName = inr (parameters, rest)
     <-> object = parameterListOf parameters rest /\ NoDup parameters
         /\ (rest = true -> parameters <> []))
  /\ match checkParameterList object formName with
     | inr _ => True
     | inl e => e = FormAnalyzerError (js "Malformed " ++ js formName ++ js " form.")
     end.
Proof.
  split.
  - intros parameters rest. apply checkParameterList_spec.
  - apply checkParameterList_rejects.
Qed.

(** * Lists as arrays *)

(** The arrays [listToArray] returns. *)
Lemma listToArray_spec (object : EVLObject) (array : list EVLObject) :
  listToArray object = inr array <-> object = makeList array EVLEmptyList.
Proof.
  revert array.
  induction object as [| | | | | | | | car _ cdr IH | | | |]; intros array;
    cbn [listToArray]; try (split; [discriminate|destruct array; discriminate]).
  - split.
    + intros [= <-]. reflexivity.
    + destruct array; [reflexivity|discriminate].
  - split.
    + destruct (listToArray cdr) as [e|r] eqn:E; cbn; [discriminate|].
      intros [= <-]. cbn. f_equal. apply IH. reflexivity.
    + destruct array as [|x r]; [discriminate|]. cbn. intros [= -> ->].
      assert (E : listToArray (makeList r EVLEmptyList) = inr r) by (apply IH; reflexivity).
      rewrite E. reflexivity.
Qed.

Lemma listToArray_improper (object : EVLObject) :
  isProperList object = false -> listToArray object = inl TypeError.
Proof.
  induction object as [| | | | | | | | car _ cdr IH | | | |]; cbn; intros H;
    try reflexivity; try discriminate.
  rewrite (IH H). reflexivity.
Qed.

(** [listToArray] returns the elements of a proper list, in order, and reads
    a property of [undefined] on any other object: it returns an array
    exactly on the proper lists, and the array is the one [makeList] makes
    that list from. *)
Theorem listToArray_makeList (object : EVLObject) :
  (forall array, listToArray object = inr array <-> object = makeList array EVLEmptyList)
  /\ (isProperList object = false -> listToArray object = inl TypeError).
Proof.
  split.
  - intros array. apply listToArray_spec.
  - apply listToArray_improper.
Qed.

(** * Escaping for XML *)

Lemma xmlEscape_cons (c : Z) (s : jsstring) :
  xmlEscape (c :: s)
  = (if (c =? ch "<")%Z then js "&lt;"
     else if (c =? ch ">")%Z then js "&gt;"
     else if (c =? ch "&")%Z then js "&amp;"
     else [c]) ++ xmlEscape s.
Proof. reflexivity. Qed.

Lemma xmlEscape_app (a b : jsstring) : xmlEscape (a ++ b) = xmlEscape a ++ xmlEscape b.
Proof. unfold xmlEscape. apply flat_map_app. Qed.

Lemma xmlEscape_no_markup (s : jsstring) :
  ~ In (ch "<") (xmlEscape s) /\ ~ In (ch ">") (xmlEscape s).
Proof.
  induction s as [|c s [IH1 IH2]]; [split; intros []|].
  rewrite xmlEscape_cons.
  destruct (c =? ch "<")%Z eqn:E1; [|destruct (c =? ch ">")%Z eqn:E2;
                                      [|destruct (c =? ch "&")%Z eqn:E3]];
    split; intros H; apply in_app_or in H; destruct H as [H|H];
    try (apply IH1; exact H); try (apply IH2; exact H);
    cbn in H; repeat (destruct H as [H|H]; try discriminate H); try contradiction;
    subst c; cbn in *; discriminate.
Qed.

Lemma xmlEscape_injective (a : jsstring) :
  forall b, xmlEscape a = xmlEscape b -> a = b.
Proof.
  induction a as [|c a IH]; intros [|d b] H.
  - reflexivity.
  - rewrite xmlEscape_cons in H. cbn [xmlEscape flat_map] in H.
    destruct (d =? ch "<")%Z; [|destruct (d =? ch ">")%Z; [|destruct (d =? ch "&")%Z]];
      discriminate.
  - rewrite xmlEscape_cons in H. cbn [xmlEscape flat_map] in H.
    destruct (c =? ch "<")%Z; [|destruct (c =? ch ">")%Z; [|destruct (c =? ch "&")%Z]];
      discriminate.
  - rewrite !xmlEscape_cons in H.
    destruct (c =? ch "<")%Z eqn:C1; [|destruct (c =? ch ">")%Z eqn:C2;
                                        [|destruct (c =? ch "&")%Z eqn:C3]];
      (destruct (d =? ch "<")%Z eqn:D1; [|destruct (d =? ch ">")%Z eqn:D2;
                                           [|destruct (d =? ch "&")%Z eqn:D3]]);
      cbn [app js] in H; try discriminate;
      repeat match goal with
             | E : (_ =? _)%Z = true |- _ => apply Z.eqb_eq in E
             end; subst;
      try (injection H as H; f_equal; apply IH; exact H);
      try (injection H as Hc H; subst; cbn in *; discriminate).
    injection H as Hc H. subst. f_equal. apply IH. exact H.
Qed.

(** [xmlEscape] leaves no [<] and no [>] in the text, changes nothing in a
    text without [<], [>] and [&], works character by character, and loses
    nothing: two texts with the same escaped text are the same. *)
Theorem xmlEscape_escapes :
  (forall s, ~ In (ch "<") (xmlEscape s) /\ ~ In (ch ">") (xmlEscape s))
  /\ (forall s, ~ In (ch "<") s -> ~ In (ch ">") s -> ~ In (ch "&") s -> xmlEscape s = s)
  /\ (forall a b, xmlEscape (a ++ b) = xmlEscape a ++ xmlEscape b)
  /\ (forall a b, xmlEscape a = xmlEscape b -> a = b).
Proof.
  split; [exact xmlEscape_no_markup|]. split; [|split; [exact xmlEscape_app|]].
  - induction s as [|c s IH]; intros H1 H2 H3; [reflexivity|].
    rewrite xmlEscape_cons.
    destruct (c =? ch "<")%Z eqn:E1; [apply Z.eqb_eq in E1; exfalso; apply H1; left; auto|].
    destruct (c =? ch ">")%Z eqn:E2; [apply Z.eqb_eq in E2; exfalso; apply H2; left; auto|].
    destruct (c =? ch "&")%Z eqn:E3; [apply Z.eqb_eq in E3; exfalso; apply H3; left; auto|].
    cbn. f_equal. apply IH; intros H; [apply H1|apply H2|apply H3]; right; exact H.
  - intros a b. apply xmlEscape_injective.
Qed.

(** * Forms that evaluate to themselves *)

(** The last branch of the [evalForm] functions. *)
Lemma genericEval_literal
  (jsFunction : jsstring -> list EVLObject -> Cells -> (exception + Result) * Cells)
  (host : nat -> Z -> Z) (fuel : nat) (form : EVLObject) (w : World) :
  evaluatorSelected w -> noAbort w -> 3 <= fuel -> selfEvaluating form = true ->
  genericEval jsFunction host fuel form w = Ok (EVLObject_ form) w.
Proof.
  intros Hsel Hw Hfuel Hform.
  destruct fuel as [|[|[|fuel]]]; try lia.
  destruct w as [gv gf fr ab cl sel]. unfold noAbort in Hw. cbn in Hw. subst ab.
  unfold evaluatorSelected in Hsel. cbn [selectedEvaluator] in Hsel.
  assert (Hcases : sel = js "plainrec" \/ sel = js "cps" \/ sel = js "oocps"
                   \/ sel = js "sboocps" \/ sel = js "trampoline"
                   \/ sel = js "trampolinepp").
  { cbn in Hsel. intuition auto. }
  destruct Hcases as [-> | [-> | [-> | [-> | [-> | ->]]]]];
    destruct form; try discriminate Hform; reflexivity.
Qed.

(** Under each of the six evaluators, an object that is neither the empty
    list, nor a cons, nor a variable evaluates to itself and leaves the
    state of the core as it is; the empty list does not evaluate.  (No
    abort buffer is installed: the trampoline evaluators read nothing
    else.) *)
Theorem genericEval_self_evaluating
  (jsFunction : jsstring -> list EVLObject -> Cells -> (exception + Result) * Cells)
  (host : nat -> Z -> Z) (fuel : nat) (form : EVLObject) (w : World) :
  evaluatorSelected w -> noAbort w -> 3 <= fuel ->
  (selfEvaluating form = true ->
   genericEval jsFunction host fuel form w = Ok (EVLObject_ form) w)
  /\ genericEval jsFunction host fuel EVLEmptyList w = Throw emptyListError w.
Proof.
  intros Hsel Hw Hfuel. split.
  - exact (genericEval_literal jsFunction host form Hsel Hw Hfuel).
  - destruct fuel as [|[|[|fuel]]]; try lia.
    destruct w as [gv gf fr ab cl sel]. unfold noAbort in Hw. cbn in Hw. subst ab.
    unfold evaluatorSelected in Hsel. cbn [selectedEvaluator] in Hsel.
    assert (Hcases : sel = js "plainrec" \/ sel = js "cps" \/ sel = js "oocps"
                     \/ sel = js "sboocps" \/ sel = js "trampoline"
                     \/ sel = js "trampolinepp").
    { cbn in Hsel. intuition auto. }
    destruct Hcases as [-> | [-> | [-> | [-> | [-> | ->]]]]]; reflexivity.
Qed.

Lemma genericEval_self_evaluating_witness :
  (selfEvaluating (EVLString (js "text")) = true ->
   genericEval coreJsFunction idleHost 3 (EVLString (js "text"))
     (setSelectedEvaluator (js "trampolinepp") initialWorld)
   = Ok (EVLObject_ (EVLString (js "text")))
       (setSelectedEvaluator (js "trampolinepp") initialWorld))
  /\ genericEval coreJsFunction idleHost 3 EVLEmptyList
       (setSelectedEvaluator (js "trampolinepp") initialWorld)
     = Throw emptyListError (setSelectedEvaluator (js "trampolinepp") initialWorld).
Proof.
  apply (@genericEval_self_evaluating coreJsFunction idleHost 3 (EVLString (js "text"))
           (setSelectedEvaluator (js "trampolinepp") initialWorld)).
  - cbn. tauto.
  - reflexivity.
  - lia.
Defined.

(** * What the pairing of parameters with arguments returns *)

Lemma spreadLeading_length (arityMax : option nat) (leading : list EVLObject) :
  forall i spreadArgs i' spreadArgs',
    spreadLeading arityMax leading i spreadArgs = inr (i', spreadArgs') ->
    length spreadArgs = i -> length spreadArgs' = i' /\ aboveArityMax arityMax i' = false
                             \/ leading = [] /\ i' = i /\ spreadArgs' = spreadArgs.
Proof.
  induction leading as [|x r IH]; intros i acc i' acc' H Hlen; cbn in H.
  - injection H as <- <-. right. repeat split.
  - destruct (belowArityMax arityMax i) eqn:E; [|discriminate]. left.
    destruct (@IH _ _ _ _ H) as [Hok|(-> & -> & ->)];
      [rewrite length_app; cbn; lia|exact Hok|].
    split; [rewrite length_app; cbn; lia|].
    destruct arityMax as [m|]; [|reflexivity]. unfold aboveArityMax, belowArityMax in *.
    apply Nat.ltb_lt in E. apply Nat.ltb_ge. lia.
Qed.

Lemma spreadList_length (arityMax : option nat) (argList : EVLObject) :
  forall i spreadArgs i' spreadArgs',
    spreadList arityMax argList i spreadArgs = inr (i', spreadArgs') ->
    length spreadArgs = i -> aboveArityMax arityMax i = false ->
    length spreadArgs' = i' /\ aboveArityMax arityMax i' = false.
Proof.
  induction argList as [| | | | | | | | car _ cdr IH | | | |];
    intros i acc i' acc' H Hlen Hi; cbn in H; try discriminate.
  - injection H as <- <-. split; assumption.
  - destruct (belowArityMax arityMax i) eqn:E; [|discriminate].
    apply (@IH _ _ _ _ H); [rewrite length_app; cbn; lia|].
    destruct arityMax as [m|]; [|reflexivity]. unfold aboveArityMax, belowArityMax in *.
    apply Nat.ltb_lt in E. apply Nat.ltb_ge. lia.
Qed.

Lemma pairPrimFunParameters_count (apply : bool) (args : list EVLObject) (arityMin : nat)
  (arityMax : option nat) (values : list EVLObject) :
  pairPrimFunParameters apply args arityMin arityMax = inr values ->
  arityMin <= length values /\ aboveArityMax arityMax (length values) = false.
Proof.
  unfold pairPrimFunParameters. destruct apply; cbn [negb].
  - unfold pairPrimFunParametersApply.
    destruct (splitLast args) as [[leading last]|]; [|discriminate].
    destruct (spreadLeading arityMax leading 0 []) as [e|[i acc]] eqn:E1; [discriminate|].
    cbn [bindE]. destruct (instanceofEVLList last); cbn [negb]; [|discriminate].
    destruct (spreadList arityMax last i acc) as [e|[i' acc']] eqn:E2; [discriminate|].
    cbn [bindE]. destruct (i' <? arityMin) eqn:E3; [discriminate|].
    intros [= <-]. apply Nat.ltb_ge in E3.
    assert (Hacc : length acc = i /\ aboveArityMax arityMax i = false).
    { destruct (@spreadLeading_length _ _ _ _ _ _ E1 eq_refl) as [H|(_ & -> & ->)]; [exact H|].
      split; [reflexivity|]. destruct arityMax as [m|]; [|reflexivity].
      unfold aboveArityMax. apply Nat.ltb_ge. lia. }
    destruct Hacc as [Hlen Hi].
    destruct (@spreadList_length _ _ _ _ _ _ E2 Hlen Hi) as [H1 H2].
    rewrite H1. split; assumption.
  - unfold pairPrimFunParametersNoApply.
    destruct (length args <? arityMin) eqn:E1; [discriminate|]. apply Nat.ltb_ge in E1.
    destruct arityMax as [m|].
    + destruct (m <? length args) eqn:E2; [discriminate|]. intros [= <-].
      split; [exact E1|exact E2].
    + intros [= <-]. split; [exact E1|reflexivity].
Qed.

Lemma pairListRest_length (fixed : nat) (argList : EVLObject) :
  forall i values list_ i' values' list',
    pairListRest fixed argList i values list_ = inr (i', values', list') ->
    length values = Nat.min i fixed -> length values' = Nat.min i' fixed.
Proof.
  induction argList as [| | | | | | | | car _ cdr IH | | | |];
    intros i values list_ i' values' list' H Hlen; cbn [pairListRest] in H; try discriminate.
  - injection H as <- <- <-. exact Hlen.
  - destruct (i <? fixed) eqn:E.
    + apply Nat.ltb_lt in E. apply (@IH _ _ _ _ _ _ H). rewrite length_app. cbn [length]. lia.
    + injection H as <- <- <-. exact Hlen.
Qed.

(** When the pairing succeeds, the values are as many as the parameters:
    the frame of a call has a value for each of its variables.  Without
    [apply], they are the arguments themselves, or with a rest parameter the
    leading arguments followed by the list of the others. *)
Theorem pairClosureParameters_values (apply : bool) (args : list EVLObject)
  (parameters : list jsstring) (rest : bool) (values : list EVLObject) :
  (rest = true -> parameters <> []) ->
  pairClosureParameters apply args parameters rest = inr values ->
  length values = length parameters
  /\ (apply = false ->
      values = if rest
               then firstn (length parameters - 1) args
                    ++ [makeList (skipn (length parameters - 1) args) NIL]
               else args).
Proof.
  intros Hrest H. destruct rest.
  - specialize (Hrest eq_refl).
    assert (Hn : exists n, length parameters = S n).
    { destruct parameters; [contradiction|]. eexists. reflexivity. }
    destruct Hn as [n Hn].
    unfold pairClosureParameters in H. destruct apply; cbn [negb] in H.
    + split; [|discriminate]. unfold pairClosureParametersApplyRest in H.
      destruct (splitLast args) as [[leading last]|]; [|discriminate].
      rewrite pairLeadingRest_spec in H. cbn [Nat.add app] in H.
      destruct (instanceofEVLList last); cbn [negb] in H; [|discriminate].
      destruct (pairListRest (length parameters - 1) last (length leading)
                  (firstn (length parameters - 1 - 0) leading)
                  (skipn (length parameters - 1 - 0) leading))
        as [e|[[i' values'] list']] eqn:E; [discriminate|].
      cbn [bindE] in H. destruct (i' <? length parameters - 1) eqn:E'; [discriminate|].
      apply Nat.ltb_ge in E'. injection H as <-.
      assert (Hv : length values' = Nat.min i' (length parameters - 1)).
      { apply (@pairListRest_length _ _ _ _ _ _ _ _ E). rewrite length_firstn. lia. }
      rewrite Hn in *. cbn [storeRest]. rewrite length_app. cbn. lia.
    + unfold pairClosureParametersNoApplyRest in H.
      rewrite pairLeadingRest_spec in H. cbn [Nat.add app] in H.
      destruct (length args <? length parameters - 1) eqn:E; [discriminate|].
      apply Nat.ltb_ge in E. injection H as <-. rewrite Nat.sub_0_r.
      rewrite Hn in *. cbn [storeRest]. split.
      * rewrite length_app, length_firstn. cbn. cbn in E. lia.
      * intros _. reflexivity.
  - rewrite pairClosureParameters_noRest in H.
    destruct (@pairPrimFunParameters_count _ _ _ _ _ H) as [H1 H2].
    unfold aboveArityMax in H2. apply Nat.ltb_ge in H2. split; [lia|].
    intros ->. unfold pairPrimFunParameters, pairPrimFunParametersNoApply in H. cbn [negb] in H.
    destruct (length args <? length parameters); [discriminate|].
    destruct (length parameters <? length args); [discriminate|].
    injection H as <-. reflexivity.
Qed.

Lemma pairClosureParameters_values_witness :
  length [EVLBoolean true; makeList [EVLBoolean false; EVLVoid] NIL]
  = length [js "x"; js "rest"]
  /\ (false = false ->
      [EVLBoolean true; makeList [EVLBoolean false; EVLVoid] NIL]
      = if true
        then firstn (length [js "x"; js "rest"] - 1) [EVLBoolean true; EVLBoolean false; EVLVoid]
             ++ [makeList (skipn (length [js "x"; js "rest"] - 1)
                             [EVLBoolean true; EVLBoolean false; EVLVoid]) NIL]
        else [EVLBoolean true; EVLBoolean false; EVLVoid]).
Proof.
  apply (@pairClosureParameters_values false [EVLBoolean true; EVLBoolean false; EVLVoid]
           [js "x"; js "rest"] true).
  - discriminate.
  - reflexivity.
Defined.

(** * Lexical addresses of the trampoline++ preprocessor *)

Lemma preprocessorRef_address (cenv : CompileEnv) (namespace : Namespace)
  (variable : jsstring) (w0 : World) :
  forall (lenv : DefiniteEnv) (i0 : nat) (w : World),
    matchesCompileEnv cenv lenv w ->
    match fst (preprocessorRef cenv namespace variable i0 w0) with
    | Some (i, j) =>
        i0 <= i
        /\ (a <- frameAt lenv (i - i0);; frameValue a j) w
           = DefiniteEnv_ref lenv namespace variable w
        /\ forall value,
            (a <- frameAt lenv (i - i0);; setFrameValue a j value) w
            = DefiniteEnv_set lenv namespace variable value w
    | None =>
        GlobalEnv_ref namespace variable w = DefiniteEnv_ref lenv namespace variable w
        /\ forall value,
            GlobalEnv_set namespace variable value w
            = DefiniteEnv_set lenv namespace variable value w
    end.
Proof.
  induction cenv as [|c cenv IH]; intros [|a lenv] i0 w Hm; cbn in Hm; try contradiction.
  - cbn. split; reflexivity.
  - destruct Hm as [(f & Ea & Hns & Hvars) Hm]. cbn [preprocessorRef].
    cbn [DefiniteEnv_ref DefiniteEnv_set]. rewrite Ea. unfold frameSlot. rewrite Hns, Hvars.
    destruct (if Namespace_eqb (cNamespace c) namespace
              then indexOfVariable variable (cVariables c) else None) as [j|] eqn:Ej.
    + cbn [fst]. split; [lia|]. rewrite Nat.sub_diag.
      unfold frameAt. cbn [nth_error]. split; reflexivity.
    + specialize (IH lenv (S i0) w Hm).
      destruct (fst (preprocessorRef cenv namespace variable (S i0) w0)) as [[i j]|].
      * destruct IH as (Hi & Href & Hset). split; [lia|].
        replace (i - i0) with (S (i - S i0)) by lia.
        unfold frameAt in *. cbn [nth_error]. split; assumption.
      * exact IH.
Qed.

(** The node the preprocessor makes of a reference to a lexical variable,
    an address [(i, j)] or a reference to the global environment, evaluates
    as the reference by name does, in every environment that has the frames
    the preprocessor counted on; and the continuation of the assignment it
    makes assigns as the assignment by name does. *)
Theorem trampolinepp_lexical_address
  (jsFunction : jsstring -> list EVLObject -> Cells -> (exception + Result) * Cells)
  (cenv : CompileEnv) (lenv : DefiniteEnv) (namespace : Namespace) (variable : jsstring)
  (w0 : World) (s : TrampolineppState) :
  matchesCompileEnv cenv lenv s.(ppWorld) ->
  (exists node,
      trampolineppPreprocessRef2 LEX_SCOPE namespace variable cenv w0 = Ok node w0
      /\ trampolineppFormEval node lenv s
         = trampolineppFormEval (TrampolineppRef LEX_SCOPE namespace variable) lenv s)
  /\ (forall x,
        trampolineppInvoke jsFunction
          match fst (preprocessorRef cenv namespace variable 0 w0) with
          | Some (i, j) => TrampolineppLSetValueFormCont i j lenv
          | None => TrampolineppGSetValueFormCont namespace variable lenv
          end x s
        = trampolineppInvoke jsFunction
            (TrampolineppSetValueFormCont LEX_SCOPE namespace variable lenv) x s).
Proof.
  intros Hm.
  pose proof (@preprocessorRef_address cenv namespace variable w0 lenv 0 (ppWorld s) Hm) as H.
  unfold trampolineppPreprocessRef2. cbn [optimizeLexicalVariables negb]. unfold bind, get.
  destruct (fst (preprocessorRef cenv namespace variable 0 w0)) as [[i j]|].
  - destruct H as (_ & Href & Hset). rewrite Nat.sub_0_r in *. split.
    + eexists. split; [reflexivity|]. cbn [trampolineppFormEval].
      unfold bind, ppOnWorld. rewrite <- Href. reflexivity.
    + intros [result|args]; [|reflexivity]. cbn [trampolineppInvoke].
      unfold bind, ppOnWorld. rewrite <- Hset. reflexivity.
  - destruct H as (Href & Hset). split.
    + eexists. split; [reflexivity|]. cbn [trampolineppFormEval].
      unfold bind, ppOnWorld. rewrite <- Href. reflexivity.
    + intros [result|args]; [|reflexivity]. cbn [trampolineppInvoke].
      unfold bind, ppOnWorld. rewrite <- Hset. reflexivity.
Qed.

Lemma matchesCompileEnv_later_frame (cenv : CompileEnv) (f : Frame) (w : World) :
  forall lenv,
    matchesCompileEnv cenv lenv w ->
    matchesCompileEnv cenv lenv (setFrames (w.(frames) ++ [f]) w).
Proof.
  induction cenv as [|c cenv IH]; intros [|a lenv] Hm; cbn in Hm; try contradiction.
  - exact I.
  - destruct Hm as [(fa & Ea & Hfa) Hm]. split; [|apply IH; exact Hm].
    exists fa. split; [|exact Hfa]. cbn [frames setFrames].
    rewrite nth_error_app1; [exact Ea|]. apply nth_error_Some. congruence.
Qed.

(** The frame of a call has the shape the preprocessor gave the body of the
    lambda form. *)
Lemma matchesCompileEnv_newFrame (cenv : CompileEnv) (fnlenv : DefiniteEnv)
  (namespace : Namespace) (parameters : list jsstring) (values : list EVLObject)
  (w : World) :
  matchesCompileEnv cenv fnlenv w ->
  exists a w',
    newFrame namespace parameters values w = Ok a w'
    /\ matchesCompileEnv (bodyFrame namespace parameters :: cenv) (a :: fnlenv) w'.
Proof.
  intros Hm. eexists. eexists. split; [reflexivity|]. split.
  - eexists. cbn [frames setFrames]. rewrite nth_error_app2 by lia.
    rewrite Nat.sub_diag. split; [reflexivity|]. split; reflexivity.
  - apply matchesCompileEnv_later_frame. exact Hm.
Qed.

Lemma trampolinepp_lexical_address_witness :
  (exists node,
      trampolineppPreprocessRef2 LEX_SCOPE VAL_NS (js "y") [bodyFrame VAL_NS [js "x"; js "y"]]
        initialWorld = Ok node initialWorld
      /\ trampolineppFormEval node [0]
           (mkTrampolineppState []
              (stateAfter (newFrame VAL_NS [js "x"; js "y"] [EVLBoolean true; EVLBoolean false]
                             initialWorld) initialWorld))
         = trampolineppFormEval (TrampolineppRef LEX_SCOPE VAL_NS (js "y")) [0]
             (mkTrampolineppState []
                (stateAfter (newFrame VAL_NS [js "x"; js "y"]
                               [EVLBoolean true; EVLBoolean false] initialWorld)
                   initialWorld)))
  /\ (forall x,
        trampolineppInvoke coreJsFunction
          match fst (preprocessorRef [bodyFrame VAL_NS [js "x"; js "y"]] VAL_NS (js "y") 0
                       initialWorld) with
          | Some (i, j) => TrampolineppLSetValueFormCont i j [0]
          | None => TrampolineppGSetValueFormCont VAL_NS (js "y") [0]
          end x
          (mkTrampolineppState []
             (stateAfter (newFrame VAL_NS [js "x"; js "y"] [EVLBoolean true; EVLBoolean false]
                            initialWorld) initialWorld))
        = trampolineppInvoke coreJsFunction
            (TrampolineppSetValueFormCont LEX_SCOPE VAL_NS (js "y") [0]) x
            (mkTrampolineppState []
               (stateAfter (newFrame VAL_NS [js "x"; js "y"]
                              [EVLBoolean true; EVLBoolean false] initialWorld)
                  initialWorld))).
Proof.
  apply (@trampolinepp_lexical_address coreJsFunction [bodyFrame VAL_NS [js "x"; js "y"]] [0]
           VAL_NS (js "y") initialWorld
           (mkTrampolineppState []
              (stateAfter (newFrame VAL_NS [js "x"; js "y"] [EVLBoolean true; EVLBoolean false]
                             initialWorld) initialWorld))).
  split; [|exact I]. eexists. split; [reflexivity|]. split; reflexivity.
Defined.

(** * The cells of a variable *)

(** The primitive functions on the cells of a variable read and write the
    global environment: after [variable-set-value!] the variable has the
    value in the value namespace, [variable-value] returns it and
    [variable-value-bound?] is true; after [variable-unbind-value!] the
    variable is unbound, [variable-value] returns the void object where a
    reference signals [UnboundVariable], and [variable-value-bound?] is
    false.  The function cell is left alone. *)
Theorem variable_value_cell (name : jsstring) (value : EVLObject) (w : World) :
  exists w1 w2,
    callJsFunction coreJsFunction (js "variable-set-value!") [EVLVariable name; value] w
    = Ok (EVLObject_ value) w1
    /\ GlobalEnv_ref VAL_NS name w1 = Ok value w1
    /\ callJsFunction coreJsFunction (js "variable-value") [EVLVariable name] w1
       = Ok (EVLObject_ value) w1
    /\ callJsFunction coreJsFunction (js "variable-value-bound?") [EVLVariable name] w1
       = Ok (EVLObject_ TRUE) w1
    /\ callJsFunction coreJsFunction (js "variable-unbind-value!") [EVLVariable name] w1
       = Ok (EVLObject_ VOID_) w2
    /\ GlobalEnv_ref VAL_NS name w2 = Throw (UnboundVariable name (js "value")) w2
    /\ callJsFunction coreJsFunction (js "variable-value") [EVLVariable name] w2
       = Ok (EVLObject_ VOID_) w2
    /\ callJsFunction coreJsFunction (js "variable-value-bound?") [EVLVariable name] w2
       = Ok (EVLObject_ FALSE) w2
    /\ w2.(globalFunction) = w.(globalFunction)
    /\ (forall name', name' <> name -> w2.(globalValue) name' = w.(globalValue) name').
Proof.
  eexists. eexists.
  split; [reflexivity|].
  split; [cbn; rewrite updateCell_same; reflexivity|].
  split; [unfold callJsFunction; cbn; rewrite updateCell_same; reflexivity|].
  split; [unfold callJsFunction; cbn; rewrite updateCell_same; reflexivity|].
  split; [reflexivity|].
  split; [cbn; rewrite updateCell_same; reflexivity|].
  split; [unfold callJsFunction; cbn; rewrite updateCell_same; reflexivity|].
  split; [unfold callJsFunction; cbn; rewrite updateCell_same; reflexivity|].
  split; [reflexivity|].
  intros name' Hne. cbn. rewrite !updateCell_other by exact Hne. reflexivity.
Qed.

(** The same for the function cell: [variable-set-function!] binds the
    variable in the function namespace, where the operator of a call is
    looked up. *)
Theorem variable_function_cell (name : jsstring) (value : EVLObject) (w : World) :
  exists w1 w2,
    callJsFunction coreJsFunction (js "variable-set-function!") [EVLVariable name; value] w
    = Ok (EVLObject_ value) w1
    /\ GlobalEnv_ref FUN_NS name w1 = Ok value w1
    /\ callJsFunction coreJsFunction (js "variable-function") [EVLVariable name] w1
       = Ok (EVLObject_ value) w1
    /\ callJsFunction coreJsFunction (js "variable-function-bound?") [EVLVariable name] w1
       = Ok (EVLObject_ TRUE) w1
    /\ callJsFunction coreJsFunction (js "variable-unbind-function!") [EVLVariable name] w1
       = Ok (EVLObject_ VOID_) w2
    /\ GlobalEnv_ref FUN_NS name w2 = Throw (UnboundVariable name (js "function")) w2
    /\ callJsFunction coreJsFunction (js "variable-function") [EVLVariable name] w2
       = Ok (EVLObject_ VOID_) w2
    /\ callJsFunction coreJsFunction (js "variable-function-bound?") [EVLVariable name] w2
       = Ok (EVLObject_ FALSE) w2
    /\ w2.(globalValue) = w.(globalValue)
    /\ (forall name', name' <> name -> w2.(globalFunction) name' = w.(globalFunction) name').
Proof.
  eexists. eexists.
  split; [reflexivity|].
  split; [cbn; rewrite updateCell_same; reflexivity|].
  split; [unfold callJsFunction; cbn; rewrite updateCell_same; reflexivity|].
  split; [unfold callJsFunction; cbn; rewrite updateCell_same; reflexivity|].
  split; [reflexivity|].
  split; [cbn; rewrite updateCell_same; reflexivity|].
  split; [unfold callJsFunction; cbn; rewrite updateCell_same; reflexivity|].
  split; [unfold callJsFunction; cbn; rewrite updateCell_same; reflexivity|].
  split; [reflexivity|].
  intros name' Hne. cbn. rewrite !updateCell_other by exact Hne. reflexivity.
Qed.

(** * The frames through an evaluation *)

Lemma framesKept_refl (w : World) : framesKept w w.
Proof. exists []. rewrite app_nil_r. reflexivity. Qed.

Lemma framesKept_trans (w1 w2 w3 : World) :
  framesKept w1 w2 -> framesKept w2 w3 -> framesKept w1 w3.
Proof.
  intros [m1 H1] [m2 H2]. exists (m1 ++ m2). rewrite H2, H1, app_assoc. reflexivity.
Qed.

Lemma framesKept_same (w w' : World) : w'.(frames) = w.(frames) -> framesKept w w'.
Proof. intros H. exists []. rewrite H, app_nil_r. reflexivity. Qed.

Lemma ppFramesKept_refl (s : TrampolineppState) : ppFramesKept s s.
Proof. apply framesKept_refl. Qed.

Lemma ppFramesKept_trans (s1 s2 s3 : TrampolineppState) :
  ppFramesKept s1 s2 -> ppFramesKept s2 s3 -> ppFramesKept s1 s3.
Proof. apply framesKept_trans. Qed.

Lemma length_setNth (j : nat) (v : EVLObject) (l : list EVLObject) :
  length (setNth j v l) = length l.
Proof.
  revert j. induction l as [|x l IH]; intros [|j]; cbn; try reflexivity.
  rewrite IH. reflexivity.
Qed.

Lemma map_frameShape_updateFrame (a : nat) (g : Frame -> Frame) (l : list Frame) :
  (forall f, frameShape (g f) = frameShape f) ->
  map frameShape (updateFrame a g l) = map frameShape l.
Proof.
  intros Hg. revert a. induction l as [|f l IH]; intros [|a]; cbn; try reflexivity.
  - rewrite Hg. reflexivity.
  - rewrite IH. reflexivity.
Qed.

Section FramesKept.

Variable jsFunction : jsstring -> list EVLObject -> Cells -> (exception + Result) * Cells.
Variable host : nat -> Z -> Z.

Lemma kept_GlobalEnv_ref (namespace : Namespace) (variable : jsstring) :
  preserves framesKept (GlobalEnv_ref namespace variable).
Proof.
  intros w. unfold GlobalEnv_ref.
  destruct namespace;
    [destruct (globalValue w variable)|destruct (globalFunction w variable)];
    apply framesKept_refl.
Qed.

Lemma kept_GlobalEnv_set (namespace : Namespace) (variable : jsstring) (value : EVLObject) :
  preserves framesKept (GlobalEnv_set namespace variable value).
Proof. intros w. destruct namespace; apply framesKept_same; reflexivity. Qed.

Lemma kept_frameValue (a j : nat) : preserves framesKept (frameValue a j).
Proof.
  intros w. unfold frameValue. destruct (nth_error (frames w) a) as [f|];
    [destruct (nth_error (frame_values f) j)|]; apply framesKept_refl.
Qed.

Lemma kept_setFrameValue (a j : nat) (value : EVLObject) : preserves framesKept (setFrameValue a j value).
Proof.
  intros w. exists []. cbn [setFrameValue frames setFrames]. rewrite app_nil_r.
  apply map_frameShape_updateFrame. intros f. unfold frameShape. cbn.
  rewrite length_setNth. reflexivity.
Qed.

Lemma kept_newFrame (namespace : Namespace) (variables : list jsstring)
  (values : list EVLObject) : preserves framesKept (newFrame namespace variables values).
Proof. intros w. eexists. cbn [newFrame frames setFrames]. apply map_app. Qed.

Lemma kept_frameAt (lenv : DefiniteEnv) (i : nat) : preserves framesKept (frameAt lenv i).
Proof.
  unfold frameAt. destruct (nth_error lenv i); intros w; apply framesKept_refl.
Qed.

Lemma kept_DefiniteEnv_ref (env : DefiniteEnv) (namespace : Namespace) (variable : jsstring) :
  preserves framesKept (DefiniteEnv_ref env namespace variable).
Proof.
  induction env as [|a next IH]; intros w; cbn [DefiniteEnv_ref].
  - apply kept_GlobalEnv_ref.
  - destruct (nth_error (frames w) a) as [f|]; [|apply framesKept_refl].
    destruct (frameSlot f namespace variable); [apply kept_frameValue|apply IH].
Qed.

Lemma kept_DefiniteEnv_set (env : DefiniteEnv) (namespace : Namespace) (variable : jsstring)
  (value : EVLObject) : preserves framesKept (DefiniteEnv_set env namespace variable value).
Proof.
  induction env as [|a next IH]; intros w; cbn [DefiniteEnv_set].
  - apply kept_GlobalEnv_set.
  - destruct (nth_error (frames w) a) as [f|]; [|apply framesKept_refl].
    destruct (frameSlot f namespace variable); [apply kept_setFrameValue|apply IH].
Qed.

Lemma kept_callJsFunction (name : jsstring) (values : list EVLObject) :
  preserves framesKept (callJsFunction jsFunction name values).
Proof.
  intros w. unfold callJsFunction.
  destruct (jsFunction name values (globalValue w, globalFunction w)) as [[e|x] [gv gf]];
    apply framesKept_same; reflexivity.
Qed.

Lemma kept_abortRequested : preserves framesKept (abortRequested host).
Proof.
  intros w. unfold abortRequested. destruct (abortSignalArray w);
    apply framesKept_same; reflexivity.
Qed.

Lemma kept_ppOnWorld {A : Type} (m : M World A) :
  preserves framesKept m -> preserves ppFramesKept (ppOnWorld m).
Proof.
  intros Hm s. unfold ppOnWorld. specialize (Hm (ppWorld s)).
  destruct (m (ppWorld s)); exact Hm.
Qed.

Lemma kept_ppPush (element : TrampolineppElement) : preserves ppFramesKept (ppPush element).
Proof. intros s. apply framesKept_refl. Qed.

Lemma kept_ppPopCont : preserves ppFramesKept ppPopCont.
Proof.
  intros s. unfold ppPopCont. destruct (ppPopContFrom (ppStack s)) as [[k r]|];
    [apply framesKept_refl|exact I].
Qed.

Lemma kept_ppHandleError (exception : exception) : preserves ppFramesKept (ppHandleError exception).
Proof.
  intros s. unfold ppHandleError. destruct (ppHandlerFrom (ppStack s)) as [[r|r]|];
    try apply framesKept_refl. exact I.
Qed.

Lemma kept_ppRef (namespace : Namespace) (variable : jsstring) :
  preserves ppFramesKept (ppRef namespace variable).
Proof. intros s. unfold ppRef. apply (kept_ppOnWorld (kept_DefiniteEnv_ref _ _ _)). Qed.

Lemma kept_ppSet (namespace : Namespace) (variable : jsstring) (value : EVLObject) :
  preserves ppFramesKept (ppSet namespace variable value).
Proof. intros s. unfold ppSet. apply (kept_ppOnWorld (kept_DefiniteEnv_set _ _ _ _)). Qed.

Ltac keptW_step :=
  repeat first
    [ apply (preserves_ret _ framesKept_refl)
    | apply (preserves_throw _ framesKept_refl)
    | apply (preserves_liftE _ framesKept_refl)
    | apply (preserves_bind framesKept_trans); [|intros]
    | apply kept_GlobalEnv_ref | apply kept_GlobalEnv_set | apply kept_frameValue
    | apply kept_setFrameValue | apply kept_newFrame | apply kept_frameAt
    | apply kept_DefiniteEnv_ref | apply kept_DefiniteEnv_set | apply kept_callJsFunction
    | apply kept_abortRequested ].

Ltac keptS_step :=
  repeat first
    [ apply (preserves_ret _ ppFramesKept_refl)
    | apply (preserves_throw _ ppFramesKept_refl)
    | apply (preserves_liftE _ ppFramesKept_refl)
    | apply (preserves_bind ppFramesKept_trans); [|intros]
    | apply kept_ppOnWorld; solve [keptW_step]
    | apply kept_ppPush | apply kept_ppPopCont | apply kept_ppHandleError
    | apply kept_ppRef | apply kept_ppSet
    | match goal with
      | |- preserves _ (match ?x with _ => _ end) => destruct x
      | |- preserves _ (if ?b then _ else _) => destruct b
      | |- preserves _ (let '(_, _) := ?p in _) => destruct p
      end ].

Lemma kept_trampolineppEvalForms (forms : EVLObject) (lenv : DefiniteEnv) :
  preserves ppFramesKept (trampolineppEvalForms forms lenv).
Proof. unfold trampolineppEvalForms. keptS_step. Qed.

Lemma kept_trampolineppEvalOperands (mv : bool) (operands : EVLObject)
  (args : list EVLObject) (lenv : DefiniteEnv) :
  preserves ppFramesKept (trampolineppEvalOperands mv operands args lenv).
Proof. unfold trampolineppEvalOperands. keptS_step. Qed.

Lemma kept_trampolineppInvokeFun (apply : bool) (fn : EVLObject) (args : list EVLObject)
  (lenv : DefiniteEnv) : preserves ppFramesKept (trampolineppInvokeFun jsFunction apply fn args lenv).
Proof.
  unfold trampolineppInvokeFun. keptS_step; apply kept_trampolineppEvalForms.
Qed.

Lemma kept_trampolineppEvalReq (form : EVLObject) (lenv : DefiniteEnv) :
  preserves ppFramesKept (trampolineppEvalReq form lenv).
Proof.
  unfold trampolineppEvalReq, trampolineppFormEval, trampolineppEvalOperator.
  keptS_step; apply kept_trampolineppEvalForms.
Qed.

Lemma kept_trampolineppInvoke (k : TrampolineppCont) (x : Invoked) :
  preserves ppFramesKept (trampolineppInvoke jsFunction k x).
Proof.
  unfold trampolineppInvoke.
  keptS_step;
    first [apply kept_trampolineppEvalForms | apply kept_trampolineppEvalOperands
          | apply kept_trampolineppInvokeFun].
Qed.

Lemma kept_ppCatching (m : M TrampolineppState Bounce) :
  preserves ppFramesKept m -> preserves ppFramesKept (ppCatching m).
Proof.
  intros Hm. unfold ppCatching.
  apply (preserves_catch ppFramesKept_trans (fun b => ret b) (fun e => ppHandleError e));
    [exact Hm| |].
  - intros b. apply (preserves_ret _ ppFramesKept_refl).
  - intros e. apply kept_ppHandleError.
Qed.

Lemma kept_trampolineppLoop (fuel : nat) :
  forall bounce, preserves ppFramesKept (trampolineppLoop jsFunction host fuel bounce).
Proof.
  induction fuel as [|fuel IH]; intros bounce; [intros s; exact I|].
  cbn [trampolineppLoop].
  apply (preserves_bind ppFramesKept_trans);
    [apply kept_ppOnWorld; apply kept_abortRequested|].
  intros [|]; [apply (preserves_throw _ ppFramesKept_refl)|].
  destruct bounce as [form lenv|x].
  - apply (preserves_bind ppFramesKept_trans); [|exact IH].
    apply kept_ppCatching. apply kept_trampolineppEvalReq.
  - apply (preserves_bind ppFramesKept_trans); [apply kept_ppPopCont|].
    intros k.
    assert (Hk : preserves ppFramesKept (bounce <- ppCatching (trampolineppInvoke jsFunction k x);;
                        trampolineppLoop jsFunction host fuel bounce)).
    { apply (preserves_bind ppFramesKept_trans); [|exact IH].
      apply kept_ppCatching. apply kept_trampolineppInvoke. }
    destruct k; try exact Hk.
    destruct x; [apply (preserves_ret _ ppFramesKept_refl)
                |apply (preserves_throw _ ppFramesKept_refl)].
Qed.

End FramesKept.

Lemma matchesCompileEnv_framesKept (cenv : CompileEnv) (w w' : World) :
  framesKept w w' ->
  forall lenv, matchesCompileEnv cenv lenv w -> matchesCompileEnv cenv lenv w'.
Proof.
  intros [more Hk]. induction cenv as [|c cenv IH]; intros [|a lenv] Hm; cbn in Hm;
    try contradiction; [exact I|].
  destruct Hm as [(f & Ea & Hns & Hvars) Hm]. split; [|apply IH; exact Hm].
  assert (Hs : nth_error (map frameShape (frames w')) a = Some (frameShape f)).
  { rewrite Hk. rewrite nth_error_app1.
    - rewrite nth_error_map, Ea. reflexivity.
    - rewrite length_map. apply nth_error_Some. congruence. }
  rewrite nth_error_map in Hs. destruct (nth_error (frames w') a) as [f'|]; [|discriminate].
  exists f'. split; [reflexivity|]. injection Hs as H1 H2 H3.
  split; congruence.
Qed.

(** The trampoline++ evaluator never discards a frame and never changes
    the namespace, the variables or the number of values of a frame:
    whether the evaluation of a preprocessed form returns or throws, the
    frames it started with are still there, and an environment that had
    the frames the preprocessor counted on still has them. *)
Theorem trampolineppRun_keeps_frames
  (jsFunction : jsstring -> list EVLObject -> Cells -> (exception + Result) * Cells)
  (host : nat -> Z -> Z) (fuel : nat) (node : TrampolineppForm) (lenv : DefiniteEnv)
  (w : World) :
  match finalState (trampolineppRun jsFunction host fuel node lenv w) with
  | Some w' =>
      framesKept w w'
      /\ (forall cenv env, matchesCompileEnv cenv env w -> matchesCompileEnv cenv env w')
      /\ (forall env, allocated env w -> allocated env w')
  | None => True
  end.
Proof.
  unfold trampolineppRun.
  pose proof (@kept_trampolineppLoop jsFunction host fuel
                (EvalReq (TrampolineppNode node) lenv)
                (mkTrampolineppState [PPCont trampolineppEndCont] w)) as H.
  assert (Hall : forall w', framesKept w w' ->
                   framesKept w w'
                   /\ (forall cenv env, matchesCompileEnv cenv env w ->
                                        matchesCompileEnv cenv env w')
                   /\ (forall env, allocated env w -> allocated env w')).
  { intros w' Hk. split; [exact Hk|]. split.
    - intros cenv env. apply matchesCompileEnv_framesKept. exact Hk.
    - intros env Ha. unfold allocated in *. destruct Hk as [more Hk].
      apply (f_equal (@length _)) in Hk. rewrite length_app, !length_map in Hk.
      eapply Forall_impl; [|exact Ha]. cbn. intros a Hlt. lia. }
  destruct (trampolineppLoop jsFunction host fuel (EvalReq (TrampolineppNode node) lenv)
              (mkTrampolineppState [PPCont trampolineppEndCont] w)) as [r s|e s|];
    cbn [finalState]; [apply Hall; exact H|apply Hall; exact H|exact I].
Qed.

(** * The answers of the interface *)

Section InterfaceAnswers.

Variable jsFunction : jsstring -> list EVLObject -> Cells -> (exception + Result) * Cells.
Variable host : nat -> Z -> Z.

Lemma evaluateForms_loop_answers (fuel : nat) :
  forall r,
    match evaluateForms_loop jsFunction host fuel r with
    | Ok (Some response) _ => reportsException response
    | Ok None _ => True
    | Throw _ _ => False
    | OutOfFuel => True
    end.
Proof.
  induction fuel as [|fuel IH]; intros r; [exact I|]. cbn [evaluateForms_loop].
  destruct (read fuel r) as [[object|] r'|e r'|]; try exact I.
  - destruct (genericEval jsFunction host fuel object (world r')) as [result w|e w|];
      [apply IH|exists e; reflexivity|exact I].
  - exists e. reflexivity.
Qed.

Lemma initialize_files_answers (fuel : nat) (files : list jsstring) :
  forall last w,
    match initialize_files jsFunction host fuel files last w with
    | Ok response _ => reportsValues response \/ reportsException response
    | Throw _ _ => False
    | OutOfFuel => True
    end.
Proof.
  induction files as [|file files IH]; intros last w; cbn [initialize_files].
  - left. exists last. reflexivity.
  - pose proof (evaluateForms_loop_answers fuel
                  (mkReading
                     (setCallback (Some (genericEval jsFunction host fuel))
                        (newTokenizer file false)) w last)) as H.
    destruct (evaluateForms_loop jsFunction host fuel _) as [[response|] r|e r|];
      [right; exact H|apply IH|contradiction|exact I].
Qed.

End InterfaceAnswers.

Lemma reportsException_status (response : Response) :
  reportsException response ->
  response.(status) = ABORTED /\ response.(output) = NoOutput
  \/ response.(status) = ERROR /\ exists message, response.(output) = OutputString message.
Proof.
  intros [e ->]. unfold abortedOrError. destruct (instanceofAborted e); [left|right]; cbn.
  - split; reflexivity.
  - split; [reflexivity|]. eexists. reflexivity.
Qed.


(** * The syntax of the special forms *)

Lemma analyzeQuote_accepts (form literal : EVLObject) :
  analyzeQuote form = inr literal <-> formCdr form = makeList [literal] NIL.
Proof.
  unfold analyzeQuote, checkCons, checkEmptyList, bindE, formAnalyzerError, NIL.
  cbn [makeList]. destruct (formCdr form) as [| | | | | | | |a d| | | |];
    try (split; discriminate).
  destruct d; split; intros H; try discriminate; injection H as <-; reflexivity.
Qed.

Lemma analyzeCatchErrors_accepts (form tryForm : EVLObject) :
  analyzeCatchErrors form = inr tryForm <-> formCdr form = makeList [tryForm] NIL.
Proof.
  unfold analyzeCatchErrors, checkCons, checkEmptyList, bindE, formAnalyzerError, NIL.
  cbn [makeList]. destruct (formCdr form) as [| | | | | | | |a d| | | |];
    try (split; discriminate).
  destruct d; split; intros H; try discriminate; injection H as <-; reflexivity.
Qed.

Lemma analyzeRef_accepts (form : EVLObject) (variable : jsstring) :
  analyzeRef form = inr variable <-> formCdr form = makeList [EVLVariable variable] NIL.
Proof.
  unfold analyzeRef, checkCons, checkEmptyList, checkVariable, bindE, formAnalyzerError, NIL.
  cbn [makeList]. destruct (formCdr form) as [| | | | | | | |a d| | | |];
    try (split; discriminate).
  destruct a; try (split; discriminate).
  destruct d; split; intros H; try discriminate; injection H as <-; reflexivity.
Qed.

Lemma analyzeForEach_accepts (form functionForm listForm : EVLObject) :
  analyzeForEach form = inr (functionForm, listForm)
  <-> formCdr form = makeList [functionForm; listForm] NIL.
Proof.
  unfold analyzeForEach, checkCons, checkEmptyList, bindE, formAnalyzerError, NIL.
  cbn [makeList]. destruct (formCdr form) as [| | | | | | | |a d| | | |];
    try (split; discriminate).
  destruct d as [| | | | | | | |b d| | | |]; try (split; discriminate).
  destruct d; split; intros H; try discriminate; injection H as <- <-; reflexivity.
Qed.

Lemma analyzeSet_accepts (form : EVLObject) (variable : jsstring) (valueForm : EVLObject) :
  analyzeSet form = inr (variable, valueForm)
  <-> formCdr form = makeList [EVLVariable variable; valueForm] NIL.
Proof.
  unfold analyzeSet, checkCons, checkEmptyList, checkVariable, bindE, formAnalyzerError, NIL.
  cbn [makeList]. destruct (formCdr form) as [| | | | | | | |a d| | | |];
    try (split; discriminate).
  destruct a; try (split; discriminate).
  destruct d as [| | | | | | | |b d| | | |]; try (split; discriminate).
  destruct d; split; intros H; try discriminate; injection H as <- <-; reflexivity.
Qed.

Lemma analyzeIf_accepts (form testForm thenForm elseForm : EVLObject) :
  analyzeIf form = inr (testForm, thenForm, elseForm)
  <-> formCdr form = makeList [testForm; thenForm; elseForm] NIL.
Proof.
  unfold analyzeIf, checkCons, checkEmptyList, bindE, formAnalyzerError, NIL.
  cbn [makeList]. destruct (formCdr form) as [| | | | | | | |a d| | | |];
    try (split; discriminate).
  destruct d as [| | | | | | | |b d| | | |]; try (split; discriminate).
  destruct d as [| | | | | | | |c d| | | |]; try (split; discriminate).
  destruct d; split; intros H; try discriminate; injection H as <- <- <-; reflexivity.
Qed.

Lemma analyzeLambda_accepts (form : EVLObject) (parameters : list jsstring) (rest : bool)
  (forms : EVLObject) :
  analyzeLambda form = inr (parameters, rest, forms)
  <-> exists parameterList,
        formCdr form = EVLCons parameterList forms
        /\ checkParameterList parameterList "_lambda" = inr (parameters, rest)
        /\ isProperList forms = true.
Proof.
  unfold analyzeLambda, checkCons, checkProperList, bindE.
  destruct (formCdr form) as [| | | | | | | |a d| | | |];
    try (split; [discriminate|intros (p & H & _); discriminate]).
  split.
  - destruct (checkParameterList a "_lambda") as [e|[ps r]] eqn:Ec; [discriminate|].
    destruct (isProperList d) eqn:E; [|discriminate].
    intros [= <- <- <-]. exists a. split; [reflexivity|]. split; [exact Ec|exact E].
  - intros (p & [= <- <-] & -> & ->). reflexivity.
Qed.

(** The form analyzers accept exactly the forms of their shape, and return
    their parts: [(quote literal)], [(progn form ...)],
    [(if test then else)], [(_lambda parameters form ...)] with the
    parameter lists [checkParameterList] accepts, [(ref variable)],
    [(set variable value)], [(_for-each function list)],
    [(_catch-errors try)], and a call [(operator operand ...)] or, with
    [apply] or [multiple-value-call], the operator and the operands after
    the first element.  The lists of forms and of operands are proper
    lists. *)
Theorem form_analyzers_accept (form : EVLObject) :
  (forall literal,
     analyzeQuote form = inr literal <-> formCdr form = makeList [literal] NIL)
  /\ (forall forms,
        analyzeProgn form = inr forms <-> formCdr form = forms /\ isProperList forms = true)
  /\ (forall testForm thenForm elseForm,
        analyzeIf form = inr (testForm, thenForm, elseForm)
        <-> formCdr form = makeList [testForm; thenForm; elseForm] NIL)
  /\ (forall parameters rest forms,
        analyzeLambda form = inr (parameters, rest, forms)
        <-> exists parameterList,
              formCdr form = EVLCons parameterList forms
              /\ checkParameterList parameterList "_lambda" = inr (parameters, rest)
              /\ isProperList forms = true)
  /\ (forall variable,
        analyzeRef form = inr variable
        <-> formCdr form = makeList [EVLVariable variable] NIL)
  /\ (forall variable valueForm,
        analyzeSet form = inr (variable, valueForm)
        <-> formCdr form = makeList [EVLVariable variable; valueForm] NIL)
  /\ (forall functionForm listForm,
        analyzeForEach form = inr (functionForm, listForm)
        <-> formCdr form = makeList [functionForm; listForm] NIL)
  /\ (forall tryForm,
        analyzeCatchErrors form = inr tryForm <-> formCdr form = makeList [tryForm] NIL)
  /\ (forall operator operands,
        analyzeCall false false form = inr (operator, operands)
        <-> formCar form = operator /\ formCdr form = operands
            /\ isProperList operands = true)
  /\ (forall mv apply operator operands,
        mv || apply = true ->
        (analyzeCall mv apply form = inr (operator, operands)
         <-> formCdr form = EVLCons operator operands /\ isProperList operands = true)).
Proof.
  split; [intros; apply analyzeQuote_accepts|].
  split.
  { intros forms. unfold analyzeProgn, checkProperList. split.
    - destruct (isProperList (formCdr form)) eqn:E; [|discriminate].
      intros [= <-]. split; [reflexivity|exact E].
    - intros [-> ->]. reflexivity. }
  split; [intros; apply analyzeIf_accepts|].
  split; [intros; apply analyzeLambda_accepts|].
  split; [intros; apply analyzeRef_accepts|].
  split; [intros; apply analyzeSet_accepts|].
  split; [intros; apply analyzeForEach_accepts|].
  split; [intros; apply analyzeCatchErrors_accepts|].
  split.
  { intros operator operands. unfold analyzeCall, checkProperList, bindE. cbn [orb]. split.
    - destruct (isProperList (formCdr form)) eqn:E; [|discriminate].
      intros [= <- <-]. split; [reflexivity|]. split; [reflexivity|exact E].
    - intros (<- & <- & ->). reflexivity. }
  intros mv apply operator operands Hm. unfold analyzeCall, checkCons, checkProperList, bindE.
  rewrite Hm. destruct (formCdr form) as [| | | | | | | |a d| | | |];
    try (split; [discriminate|intros [H _]; discriminate]).
  split.
  - destruct (isProperList d) eqn:E; [|discriminate]. intros [= <- <-]. split; [reflexivity|exact E].
  - intros [[= <- <-] ->]. reflexivity.
Qed.

(** * Malformed forms *)

Section MalformedForms.

Variable jsFunction : jsstring -> list EVLObject -> Cells -> (exception + Result) * Cells.
Variable host : nat -> Z -> Z.

(** The branch of an [evalForm] function on a malformed form: the analysis
    is the first thing it does. *)
Ltac malformed H :=
  match goal with
  | |- context [liftE (?analyze ?form)] =>
      unfold bind at 1;
      destruct (analyze form); [injection H as ->; reflexivity|discriminate H]
  end.

Ltac malformed_cases car H :=
  unfold analysisError in H;
  destruct (specialOperator car); try discriminate H.

Lemma plainrecEval_malformed (fuel : nat) (form : EVLObject) (e : exception) (w : World) :
  analysisError form = Some e ->
  plainrecEval jsFunction (S fuel) form w = Throw e w.
Proof.
  intros H. destruct form as [| | | | | | | |car cdr| | | |]; try discriminate H.
  unfold plainrecEval. cbn [plainrecEvalForm]. unfold plainrecEvalForm_.
  malformed_cases car H;
    unfold plainrecEvalQuote, plainrecEvalProgn, plainrecEvalIf, plainrecEvalLambda,
      plainrecEvalRef, plainrecEvalSet, plainrecEvalCatchErrors, plainrecEvalCall;
    malformed H.
Qed.

Lemma cpsEval_malformed (fuel : nat) (form : EVLObject) (e : exception) (w : World) :
  analysisError form = Some e ->
  cpsEval jsFunction (S fuel) form w = Throw e w.
Proof.
  intros H. destruct form as [| | | | | | | |car cdr| | | |]; try discriminate H.
  unfold cpsEval. cbn [cpsEvalForm]. unfold cpsEvalForm_.
  malformed_cases car H;
    unfold cpsEvalQuote, cpsEvalProgn, cpsEvalIf, cpsEvalLambda, cpsEvalRef, cpsEvalSet,
      cpsEvalCatchErrors, cpsEvalCall;
    malformed H.
Qed.

Lemma oocpsEval_malformed (fuel : nat) (form : EVLObject) (e : exception) (w : World) :
  analysisError form = Some e ->
  oocpsEval jsFunction (S fuel) form w = Throw e w.
Proof.
  intros H. destruct form as [| | | | | | | |car cdr| | | |]; try discriminate H.
  unfold oocpsEval. cbn [oocpsEvalForm]. unfold oocpsEvalForm_.
  malformed_cases car H;
    unfold oocpsEvalQuote, oocpsEvalProgn, oocpsEvalIf, oocpsEvalLambda, oocpsEvalRef,
      oocpsEvalSet, oocpsEvalCatchErrors, oocpsEvalCall;
    malformed H.
Qed.

Lemma sboocpsEval_malformed (fuel : nat) (form : EVLObject) (e : exception) (w : World) :
  analysisError form = Some e ->
  sboocpsEval jsFunction (S fuel) form w = Throw e w.
Proof.
  intros H. destruct form as [| | | | | | | |car cdr| | | |]; try discriminate H.
  unfold sboocpsEval. cbn [sboocpsEvalForm]. unfold sboocpsEvalForm_.
  malformed_cases car H;
    unfold sboocpsEvalQuote, sboocpsEvalProgn, sboocpsEvalIf, sboocpsEvalLambda,
      sboocpsEvalRef, sboocpsEvalSet, sboocpsEvalCatchErrors, sboocpsEvalCall;
    malformed H.
Qed.

Lemma trampolineEval_malformed (fuel : nat) (form : EVLObject) (e : exception) (w : World) :
  noAbort w -> analysisError form = Some e ->
  trampolineEval jsFunction host (S fuel) form w = Throw e w.
Proof.
  intros Hw H. destruct form as [| | | | | | | |car cdr| | | |]; try discriminate H.
  unfold trampolineEval. cbn [trampolineLoop]. unfold bind at 1. unfold tOnWorld.
  cbn [tWorld tStack]. rewrite (abortRequested_noAbort host Hw). cbv iota beta.
  unfold bind at 1. unfold tCatching, trampolineEvalForm.
  malformed_cases car H;
    unfold trampolineEvalQuote, trampolineEvalProgn, trampolineEvalIf, trampolineEvalLambda,
      trampolineEvalRef, trampolineEvalSet, trampolineEvalCatchErrors, trampolineEvalCall;
    malformed H.
Qed.

Lemma trampolineppEval_malformed (fuel : nat) (form : EVLObject) (e : exception)
  (w : World) :
  analysisError form = Some e ->
  trampolineppEval jsFunction host (S fuel) form w = Throw e w.
Proof.
  intros H. destruct form as [| | | | | | | |car cdr| | | |]; try discriminate H.
  unfold trampolineppEval. unfold bind at 1. cbn [trampolineppPreprocessForm].
  unfold trampolineppPreprocessForm_.
  malformed_cases car H;
    unfold trampolineppPreprocessQuote, trampolineppPreprocessProgn,
      trampolineppPreprocessIf, trampolineppPreprocessLambda, trampolineppPreprocessRef,
      trampolineppPreprocessSet, trampolineppPreprocessCatchErrors,
      trampolineppPreprocessCall;
    malformed H.
Qed.

End MalformedForms.

(** A form that its analyzer rejects is rejected by every evaluator in the
    same way: with one of the six evaluators selected, [genericEval] throws
    the error of the analyzer of the special operator of the form (of
    [analyzeCall] for a call), before anything is evaluated or any macro is
    expanded, and the state of the core is left as it is.  ([_for-each]
    apart, which three evaluators do not analyze; no abort buffer is
    installed.) *)
Theorem genericEval_malformed_form
  (jsFunction : jsstring -> list EVLObject -> Cells -> (exception + Result) * Cells)
  (host : nat -> Z -> Z) (fuel : nat) (form : EVLObject) (e : exception) (w : World) :
  evaluatorSelected w -> noAbort w -> 1 <= fuel ->
  analysisError form = Some e ->
  genericEval jsFunction host fuel form w = Throw e w
  /\ exists formName, e = FormAnalyzerError (js "Malformed " ++ formName ++ js " form.").
Proof.
  intros Hsel Hw Hfuel H. split.
  - destruct fuel as [|fuel]; [lia|].
    unfold evaluatorSelected in Hsel. unfold genericEval.
    assert (Hcases : selectedEvaluator w = js "plainrec" \/ selectedEvaluator w = js "cps"
                     \/ selectedEvaluator w = js "oocps"
                     \/ selectedEvaluator w = js "sboocps"
                     \/ selectedEvaluator w = js "trampoline"
                     \/ selectedEvaluator w = js "trampolinepp").
    { cbn in Hsel. intuition auto. }
    destruct Hcases as [-> | [-> | [-> | [-> | [-> | ->]]]]]; cbv iota beta;
      [change (jseqb (js "plainrec") (js "plainrec")) with true
      |change (jseqb (js "cps") (js "plainrec")) with false;
       change (jseqb (js "cps") (js "cps")) with true
      |change (jseqb (js "oocps") (js "plainrec")) with false;
       change (jseqb (js "oocps") (js "cps")) with false;
       change (jseqb (js "oocps") (js "oocps")) with true
      |change (jseqb (js "sboocps") (js "plainrec")) with false;
       change (jseqb (js "sboocps") (js "cps")) with false;
       change (jseqb (js "sboocps") (js "oocps")) with false;
       change (jseqb (js "sboocps") (js "sboocps")) with true
      |change (jseqb (js "trampoline") (js "plainrec")) with false;
       change (jseqb (js "trampoline") (js "cps")) with false;
       change (jseqb (js "trampoline") (js "oocps")) with false;
       change (jseqb (js "trampoline") (js "sboocps")) with false;
       change (jseqb (js "trampoline") (js "trampoline")) with true
      |change (jseqb (js "trampolinepp") (js "plainrec")) with false;
       change (jseqb (js "trampolinepp") (js "cps")) with false;
       change (jseqb (js "trampolinepp") (js "oocps")) with false;
       change (jseqb (js "trampolinepp") (js "sboocps")) with false;
       change (jseqb (js "trampolinepp") (js "trampoline")) with false;
       change (jseqb (js "trampolinepp") (js "trampolinepp")) with true];
      cbv iota.
    + exact (@plainrecEval_malformed jsFunction fuel form e w H).
    + exact (@cpsEval_malformed jsFunction fuel form e w H).
    + exact (@oocpsEval_malformed jsFunction fuel form e w H).
    + exact (@sboocpsEval_malformed jsFunction fuel form e w H).
    + exact (@trampolineEval_malformed jsFunction host fuel form e w Hw H).
    + exact (@trampolineppEval_malformed jsFunction host fuel form e w H).
  - destruct form as [| | | | | | | |car cdr| | | |]; try discriminate H.
    unfold analysisError in H.
    destruct (specialOperator car); try discriminate H;
      unfold analyzeQuote, analyzeProgn, analyzeIf, analyzeLambda, analyzeRef, analyzeSet,
        analyzeCatchErrors, analyzeCall, checkCons, checkEmptyList, checkVariable,
        checkProperList, checkParameterList, bindE, formAnalyzerError, formCdr, formCar in H;
      repeat match type of H with
             | context [match ?x with _ => _ end] => is_var x; destruct x
             | context [if ?x then _ else _] => destruct x
             | context [match checkParameterList_loop ?x with _ => _ end] =>
                 destruct (checkParameterList_loop x) as [[? ?]|]
             end;
      try discriminate H; injection H as <-;
      first [exists (js "quote"); reflexivity | exists (js "progn"); reflexivity
            |exists (js "if"); reflexivity | exists (js "_lambda"); reflexivity
            |exists (js "ref"); reflexivity | exists (js "set"); reflexivity
            |exists (js "_catch-errors"); reflexivity | exists (js "call"); reflexivity].
Qed.

Lemma genericEval_malformed_form_witness :
  genericEval coreJsFunction idleHost 1
    (EVLCons (EVLVariable ifVariable) (makeList [TRUE; FALSE] NIL))
    (setSelectedEvaluator (js "trampolinepp") initialWorld)
  = Throw (FormAnalyzerError (js "Malformed if form."))
      (setSelectedEvaluator (js "trampolinepp") initialWorld)
  /\ exists formName,
       FormAnalyzerError (js "Malformed if form.")
       = FormAnalyzerError (js "Malformed " ++ formName ++ js " form.").
Proof.
  apply (@genericEval_malformed_form coreJsFunction idleHost 1
           (EVLCons (EVLVariable ifVariable) (makeList [TRUE; FALSE] NIL))
           (FormAnalyzerError (js "Malformed if form."))
           (setSelectedEvaluator (js "trampolinepp") initialWorld)).
  - cbn. tauto.
  - reflexivity.
  - lia.
  - reflexivity.
Defined.

(** * The printer and the reader on every object with a read syntax *)

(** ** Unicode escapes *)

Lemma hexDigits_app (fuel : nat) :
  forall n acc, hexDigits fuel n acc = hexDigits fuel n [] ++ acc.
Proof.
  induction fuel as [|fuel IH]; intros n acc; [reflexivity|]. cbn [hexDigits].
  destruct (n <? 16)%Z; [reflexivity|].
  rewrite IH. rewrite (IH _ [_]). rewrite <- app_assoc. reflexivity.
Qed.

Lemma hexDigits_step (fuel : nat) (n : Z) :
  hexDigits (S fuel) n []
  = (if (n <? 16)%Z then [] else hexDigits fuel (n / 16) [])
    ++ [(if (n mod 16 <? 10) then 48 + n mod 16 else 55 + n mod 16)%Z].
Proof.
  cbn [hexDigits]. destruct (n <? 16)%Z; [reflexivity|]. apply hexDigits_app.
Qed.

Lemma parseHex_app (a b : jsstring) :
  forall acc, parseHex acc (a ++ b) = parseHex (parseHex acc a) b.
Proof. induction a as [|c a IH]; intros acc; [reflexivity|]. cbn. apply IH. Qed.

Lemma hexDigitValue_digit (d : Z) :
  (0 <= d < 16)%Z -> hexDigitValue (if (d <? 10)%Z then 48 + d else 55 + d)%Z = d.
Proof.
  intros Hd. unfold hexDigitValue. destruct (d <? 10)%Z eqn:E.
  - apply Z.ltb_lt in E.
    replace ((48 <=? 48 + d) && (48 + d <=? 57))%Z with true; [cbv iota; lia|].
    symmetry. apply andb_true_iff. split; apply Z.leb_le; lia.
  - apply Z.ltb_ge in E.
    replace ((48 <=? 55 + d) && (55 + d <=? 57))%Z with false.
    + replace ((97 <=? 55 + d) && (55 + d <=? 102))%Z with false; [cbv iota; lia|].
      symmetry. apply andb_false_iff. left. apply Z.leb_gt. lia.
    + symmetry. apply andb_false_iff. right. apply Z.leb_gt. lia.
Qed.

(** [Number.parseInt(n.toString(16), 16)] is [n]. *)
Lemma parseHex_hexDigits (fuel : nat) :
  forall n, (0 <= n < 16 ^ Z.of_nat fuel)%Z -> parseHex 0 (hexDigits fuel n []) = n.
Proof.
  induction fuel as [|fuel IH]; intros n Hn; [cbn in *; lia|].
  rewrite hexDigits_step, parseHex_app. cbn [parseHex].
  assert (Hd : (0 <= n mod 16 < 16)%Z) by (apply Z.mod_pos_bound; lia).
  rewrite (hexDigitValue_digit Hd).
  destruct (n <? 16)%Z eqn:E.
  - apply Z.ltb_lt in E. cbn [parseHex]. rewrite Z.mod_small by lia. lia.
  - apply Z.ltb_ge in E. rewrite IH.
    + pose proof (Z.div_mod n 16). lia.
    + rewrite Nat2Z.inj_succ, Z.pow_succ_r in Hn by lia.
      split; [apply Z.div_pos; lia|]. apply Z.div_lt_upper_bound; lia.
Qed.

Lemma hexDigits_upper (fuel : nat) :
  forall n, (0 <= n)%Z -> forallb isUpperHexDigit (hexDigits fuel n []) = true.
Proof.
  induction fuel as [|fuel IH]; intros n Hn; [reflexivity|].
  rewrite hexDigits_step, forallb_app.
  assert (Hd : (0 <= n mod 16 < 16)%Z) by (apply Z.mod_pos_bound; lia).
  apply andb_true_iff. split.
  - destruct (n <? 16)%Z; [reflexivity|]. apply IH. apply Z.div_pos; lia.
  - cbn [forallb]. rewrite andb_true_r. unfold isUpperHexDigit.
    destruct (n mod 16 <? 10)%Z eqn:E.
    + apply Z.ltb_lt in E. apply orb_true_iff. left.
      apply andb_true_iff. split; apply Z.leb_le; lia.
    + apply Z.ltb_ge in E. apply orb_true_iff. right.
      apply andb_true_iff. split; apply Z.leb_le; lia.
Qed.

Lemma hexDigits_length (fuel : nat) :
  forall n, 1 <= length (hexDigits (S fuel) n []) <= S fuel.
Proof.
  induction fuel as [|fuel IH]; intros n; rewrite hexDigits_step, length_app; cbn [length].
  - destruct (n <? 16)%Z; cbn; lia.
  - destruct (n <? 16)%Z; [cbn; lia|]. specialize (IH (n / 16)%Z). lia.
Qed.

Lemma isUpperHexDigit_cases (c : Z) :
  isUpperHexDigit c = true ->
  (c = 48 \/ c = 49 \/ c = 50 \/ c = 51 \/ c = 52 \/ c = 53 \/ c = 54 \/ c = 55 \/ c = 56
   \/ c = 57 \/ c = 65 \/ c = 66 \/ c = 67 \/ c = 68 \/ c = 69 \/ c = 70)%Z.
Proof.
  unfold isUpperHexDigit. intros H. apply orb_true_iff in H.
  destruct H as [H|H]; apply andb_true_iff in H; destruct H as [H1 H2];
    apply Z.leb_le in H1; apply Z.leb_le in H2; lia.
Qed.

Lemma isUpperHexDigit_facts (c : Z) :
  isUpperHexDigit c = true ->
  isPlainUnit c = true /\ isHexDigitUnit c = true /\ (c =? ch "}")%Z = false.
Proof.
  intros H. apply isUpperHexDigit_cases in H.
  repeat (destruct H as [->|H]; [repeat split|]). subst c. repeat split.
Qed.

Lemma upperHex_codePoint (s : jsstring) :
  forallb isUpperHexDigit s = true -> s <> [] -> codePointRegExp_test s = true.
Proof.
  intros Hs Hne. unfold codePointRegExp_test. destruct s as [|c s]; [contradiction|].
  clear Hne. induction (c :: s) as [|x l IH]; [reflexivity|].
  cbn [forallb] in *. apply andb_true_iff in Hs. destruct Hs as [Hx Hl].
  destruct (isUpperHexDigit_facts x Hx) as (_ & -> & _). exact (IH Hl).
Qed.

(** The loop of [readEscapeSequence] on the digits of an escape. *)
Lemma readEscapeSequence_loop_digits (digits rest : jsstring) :
  forall (chars : jsstring) (t : Tokenizer) (fuel : nat),
    length digits < fuel -> forallb isUpperHexDigit digits = true ->
    inputIs t (digits ++ ch "}" :: rest) ->
    exists t', readEscapeSequence_loop fuel chars t = Ok (chars ++ digits) t'
               /\ moved t t' (length digits + 1)
               /\ t'.(category) = t.(category) /\ t'.(value) = t.(value).
Proof.
  induction digits as [|c digits IH]; intros chars t fuel Hfuel Hd Hin;
    (destruct fuel as [|fuel]; [cbn in Hfuel; lia|]); cbn [readEscapeSequence_loop app] in *.
  - rewrite (@readCharacter_plain _ _ _ t (ch "}") rest Hin eq_refl).
    exists (consumed t [ch "}"]). rewrite app_nil_r.
    split; [reflexivity|split; [apply consumed_moved|split; reflexivity]].
  - apply andb_true_iff in Hd. destruct Hd as [Hc Hd].
    destruct (isUpperHexDigit_facts c Hc) as (Hp & _ & Hb).
    rewrite (@readCharacter_plain _ _ _ t c (digits ++ ch "}" :: rest) Hin Hp).
    unfold charIs. change (js "}") with [ch "}"]. rewrite jseqb_unit, Hb.
    destruct (IH (chars ++ [c]) (consumed t [c]) fuel) as (t' & E & Hm & Hcat & Hval);
      [cbn in Hfuel; lia|exact Hd
      |exact (@moved_inputIs t _ [c] _ (consumed_moved t [c]) Hin)|].
    exists t'. rewrite E, <- app_assoc. split; [reflexivity|].
    split; [exact (moved_trans (consumed_moved t [c]) Hm)|].
    split; [rewrite Hcat|rewrite Hval]; reflexivity.
Qed.

(** [readUnicodeEscape] after [\U] on the escape [unicodeEscape] prints. *)
Lemma readUnicodeEscape_printed (codePoint : Z) (g rest : jsstring) (t : Tokenizer)
  (fuel : nat) :
  (0 <= codePoint <= 0x10FFFF)%Z -> String_fromCodePoint codePoint = Some g ->
  8 < fuel ->
  inputIs t (ch "{" :: hexDigits 8 codePoint [] ++ ch "}" :: rest) ->
  exists t', readUnicodeEscape fuel t = Ok g t'
             /\ moved t t' (length (hexDigits 8 codePoint []) + 2)
             /\ t'.(category) = t.(category) /\ t'.(value) = t.(value).
Proof.
  intros Hcp Hg Hfuel Hin.
  pose proof (@hexDigits_upper 8 codePoint (proj1 Hcp)) as Hup.
  pose proof (hexDigits_length 7 codePoint) as Hlen.
  assert (Hne : hexDigits 8 codePoint [] <> []).
  { intros E. rewrite E in Hlen. cbn in Hlen. lia. }
  unfold readUnicodeEscape, readEscapeSequence. unfold bind at 1.
  rewrite (@readCharacter_plain _ _ _ t (ch "{") _ Hin eq_refl).
  change (negb (charIs [ch "{"] "{")) with false. cbv iota.
  destruct (@readEscapeSequence_loop_digits (hexDigits 8 codePoint []) rest []
              (consumed t [ch "{"]) fuel) as (t' & E & Hm & Hcat & Hval);
    [lia|exact Hup|exact (@moved_inputIs t _ [ch "{"] _ (consumed_moved t _) Hin)|].
  rewrite E. cbn [app]. rewrite (@upperHex_codePoint _ Hup Hne). cbn [negb].
  rewrite parseHex_hexDigits by (change (16 ^ Z.of_nat 8)%Z with 4294967296%Z; lia).
  rewrite Hg. exists t'. split; [reflexivity|].
  split; [|split; [rewrite Hcat|rewrite Hval]; reflexivity].
  pose proof (moved_trans (consumed_moved t [ch "{"]) Hm) as H. cbn [length] in H.
  replace (length (hexDigits 8 codePoint []) + 2)
    with (1 + (length (hexDigits 8 codePoint []) + 1)) by lia.
  exact H.
Qed.

(** ** Characters of one and of two code units *)

Lemma inputIs_nth2 (t : Tokenizer) (c c2 : Z) (r : jsstring) :
  inputIs t (c :: c2 :: r) ->
  nth_error t.(text) (t.(position) + 1) = Some c2
  /\ (t.(position) + 1 =? length t.(text)) = false.
Proof.
  intros [E Hle].
  assert (Hlen : length (skipn (position t) (text t)) = length (c :: c2 :: r))
    by (rewrite E; reflexivity).
  rewrite length_skipn in Hlen. cbn [length] in Hlen. split.
  - rewrite <- (firstn_skipn (position t) (text t)) at 1. rewrite E.
    rewrite nth_error_app2 by (rewrite length_firstn; lia).
    rewrite length_firstn, Nat.min_l by lia.
    replace (position t + 1 - position t) with 1 by lia. reflexivity.
  - apply Nat.eqb_neq. lia.
Qed.

Lemma surrogate_ranges (c : Z) :
  (isLeadingSurrogate c = true <-> (0xD800 <= c <= 0xDBFF)%Z)
  /\ (isTrailingSurrogate c = true <-> (0xDC00 <= c <= 0xDFFF)%Z).
Proof.
  unfold isLeadingSurrogate, isTrailingSurrogate.
  rewrite !andb_true_iff, !Z.leb_le. tauto.
Qed.

Lemma leading_not_trailing (c : Z) :
  isLeadingSurrogate c = true -> isTrailingSurrogate c = false.
Proof.
  intros H. apply surrogate_ranges in H.
  destruct (isTrailingSurrogate c) eqn:E; [|reflexivity].
  apply surrogate_ranges in E. lia.
Qed.

(** The code point of a surrogate pair, and the pair of the code point. *)
Lemma pair_codePoint (hi lo : Z) :
  isLeadingSurrogate hi = true -> isTrailingSurrogate lo = true ->
  (0x10000 <= codePointAt0 [hi; lo] <= 0x10FFFF)%Z
  /\ String_fromCodePoint (codePointAt0 [hi; lo]) = Some [hi; lo].
Proof.
  intros Hhi Hlo. cbn [codePointAt0]. rewrite Hhi, Hlo. cbn [andb].
  apply surrogate_ranges in Hhi, Hlo.
  rewrite Z.shiftl_mul_pow2 by lia. change (2 ^ 10)%Z with 1024%Z.
  split; [lia|]. unfold String_fromCodePoint.
  destruct (65536 + (hi - 55296) * 1024 + (lo - 56320) <=? 65535)%Z eqn:E1;
    [apply Z.leb_le in E1; lia|].
  destruct (65536 + (hi - 55296) * 1024 + (lo - 56320) <=? 1114111)%Z eqn:E2;
    [|apply Z.leb_gt in E2; lia].
  replace (65536 + (hi - 55296) * 1024 + (lo - 56320) - 65536)%Z
    with ((lo - 56320) + (hi - 55296) * 1024)%Z by lia.
  rewrite Z.shiftr_div_pow2 by lia. change (2 ^ 10)%Z with 1024%Z.
  rewrite Z.div_add by lia. rewrite Z.div_small by lia.
  change 1023%Z with (Z.ones 10). rewrite Z.land_ones by lia. change (2 ^ 10)%Z with 1024%Z.
  rewrite Z.mod_add by lia. rewrite Z.mod_small by lia.
  f_equal. f_equal; [lia|f_equal; lia].
Qed.

Lemma unit_codePoint (c : Z) :
  isCodeUnit c = true ->
  (0 <= c <= 0x10FFFF)%Z /\ String_fromCodePoint c = Some [c].
Proof.
  unfold isCodeUnit. intros H. apply andb_true_iff in H. destruct H as [H1 H2].
  apply Z.leb_le in H1. apply Z.leb_le in H2. split; [lia|].
  unfold String_fromCodePoint. apply Z.leb_le in H2. rewrite H2. reflexivity.
Qed.

Lemma isControlCharacter_pair (hi lo : Z) :
  isLeadingSurrogate hi = true -> isTrailingSurrogate lo = true ->
  isControlCharacter (codePointAt0 [hi; lo]) = false
  /\ isWhitespaceCharacter (codePointAt0 [hi; lo]) = false
  /\ isSyntaxCharacter (codePointAt0 [hi; lo]) = false.
Proof.
  intros Hhi Hlo. destruct (pair_codePoint hi lo Hhi Hlo) as [Hr _].
  set (cp := codePointAt0 [hi; lo]) in *.
  unfold isControlCharacter, isWhitespaceCharacter, isSyntaxCharacter.
  repeat split;
    repeat match goal with
           | |- (_ || _) = false => apply orb_false_iff; split
           | |- (_ && _) = false => apply andb_false_iff; right
           | |- (_ =? _)%Z = false => apply Z.eqb_neq; lia
           | |- (_ <=? _)%Z = false => apply Z.leb_gt; lia
           end.
Qed.

Lemma peekCharacter_pair (t : Tokenizer) (hi lo : Z) (r : jsstring) :
  inputIs t (hi :: lo :: r) ->
  isLeadingSurrogate hi = true -> isTrailingSurrogate lo = true ->
  isNoncharacter (codePointAt0 [hi; lo]) = false ->
  peekCharacter t = Ok [hi; lo] t.
Proof.
  intros Hin Hhi Hlo Hn. destruct (inputIs_nth2 Hin) as [H2 Hend].
  destruct (isControlCharacter_pair hi lo Hhi Hlo) as (Hc & _).
  unfold peekCharacter, peekCharacterAt.
  rewrite (inputIs_nth Hin), (leading_not_trailing hi Hhi), Hhi, Hend, H2, Hlo, Hc, Hn.
  reflexivity.
Qed.

(** A character of two code units is read and consumed. *)
Lemma readCharacter_pair {A : Type} (X : M Tokenizer A) (K : jsstring -> M Tokenizer A)
  (t : Tokenizer) (hi lo : Z) (r : jsstring) :
  inputIs t (hi :: lo :: r) ->
  isLeadingSurrogate hi = true -> isTrailingSurrogate lo = true ->
  isNoncharacter (codePointAt0 [hi; lo]) = false ->
  (t0 <- get;;
   if atEnd t0 then X
   else char <- peekCharacter;; consumeCharacter char;;; K char) t
  = K [hi; lo] (consumed t [hi; lo]).
Proof.
  intros Hin Hhi Hlo Hn. unfold bind at 1. unfold get. rewrite (atEnd_cons Hin).
  unfold bind at 1. rewrite (peekCharacter_pair Hin Hhi Hlo Hn). reflexivity.
Qed.

(** ** What [escapeCharacters] makes of the first character *)

(** The first character of a string is printed as a Unicode escape of the
    code point that [String.fromCodePoint] turns into it, or it is a
    surrogate pair or a plain code unit that the function of the caller
    escapes. *)
Lemma escapeCharacters_first (f : jsstring -> jsstring) (c : Z) (rest : jsstring) :
  isCodeUnit c = true ->
  (exists codePoint g s',
      c :: rest = g ++ s' /\ g <> []
      /\ escapeCharacters f (c :: rest) = unicodeEscape codePoint ++ escapeCharacters f s'
      /\ (0 <= codePoint <= 0x10FFFF)%Z /\ String_fromCodePoint codePoint = Some g)
  \/ (exists lo s',
         rest = lo :: s' /\ isLeadingSurrogate c = true /\ isTrailingSurrogate lo = true
         /\ isNoncharacter (codePointAt0 [c; lo]) = false
         /\ escapeCharacters f (c :: rest) = f [c; lo] ++ escapeCharacters f s')
  \/ (isPlainUnit c = true
      /\ escapeCharacters f (c :: rest) = f [c] ++ escapeCharacters f rest).
Proof.
  intros Hc. destruct (unit_codePoint c Hc) as [Hr Hg].
  cbn [escapeCharacters].
  destruct (isTrailingSurrogate c) eqn:Et.
  { left. exists c, [c], rest. repeat split; try assumption; try discriminate; lia. }
  destruct (isLeadingSurrogate c) eqn:El.
  { destruct rest as [|lo s'].
    - left. exists c, [c], [].
      split; [reflexivity|]. split; [discriminate|].
      split; [symmetry; apply app_nil_r|]. split; assumption.
    - destruct (isTrailingSurrogate lo) eqn:Elo.
      + destruct (isControlCharacter_pair c lo El Elo) as (Hcc & _). rewrite Hcc. cbn [andb].
        destruct (isNoncharacter (codePointAt0 [c; lo])) eqn:En.
        * destruct (pair_codePoint c lo El Elo) as [Hpr Hpg].
          left. exists (codePointAt0 [c; lo]), [c; lo], s'.
          repeat split; try assumption; try discriminate; lia.
        * right. left. exists lo, s'. repeat split; assumption.
      + left. exists c, [c], (lo :: s').
        repeat split; try assumption; try discriminate; lia. }
  cbn [codePointAt0].
  destruct (isControlCharacter c && negb (isWhitespaceCharacter c)) eqn:Ec.
  { left. exists c, [c], rest. repeat split; try assumption; try discriminate; lia. }
  destruct (isNoncharacter c) eqn:En.
  { left. exists c, [c], rest. repeat split; try assumption; try discriminate; lia. }
  right. right. split; [|reflexivity].
  unfold isPlainUnit, isSurrogate. rewrite Et, El, Ec, En. reflexivity.
Qed.

Lemma unicodeEscape_length (codePoint : Z) :
  length (unicodeEscape codePoint) = length (hexDigits 8 codePoint []) + 4.
Proof. unfold unicodeEscape. rewrite !length_app. cbn. lia. Qed.

(** ** Strings *)

Lemma unicodeEscape_app (codePoint : Z) (rest : jsstring) :
  unicodeEscape codePoint ++ rest
  = BACKSLASH :: ch "U" :: ch "{" :: hexDigits 8 codePoint [] ++ ch "}" :: rest.
Proof. unfold unicodeEscape. cbn [app js]. rewrite <- app_assoc. reflexivity. Qed.

(** [readString] on a Unicode escape. *)
Lemma readString_unicode (codePoint : Z) (g rest chars : jsstring) (t : Tokenizer)
  (fuel : nat) :
  (0 <= codePoint <= 0x10FFFF)%Z -> String_fromCodePoint codePoint = Some g ->
  8 < fuel -> inputIs t (unicodeEscape codePoint ++ rest) ->
  exists t1,
    readString_loop (S fuel) chars t = readString_loop fuel (chars ++ g) t1
    /\ moved t t1 (length (unicodeEscape codePoint))
    /\ t1.(category) = t.(category) /\ t1.(value) = t.(value).
Proof.
  intros Hcp Hg Hfuel Hin. rewrite unicodeEscape_app in Hin. cbn [readString_loop].
  rewrite (@readCharacter_plain _ _ _ t BACKSLASH _ Hin eq_refl).
  cbn [jseqb Z.eqb BACKSLASH DQUOTE andb Pos.eqb].
  assert (Hin1 : inputIs (consumed t [BACKSLASH])
                   (ch "U" :: ch "{" :: hexDigits 8 codePoint [] ++ ch "}" :: rest))
    by exact (@moved_inputIs t _ [BACKSLASH] _ (consumed_moved t [BACKSLASH]) Hin).
  rewrite (@readCharacter_plain _ _ _ (consumed t [BACKSLASH]) (ch "U") _ Hin1 eq_refl).
  change (jseqb [ch "U"] [BACKSLASH]) with false.
  change (jseqb [ch "U"] [DQUOTE]) with false.
  change (charIs [ch "U"] "t") with false. change (charIs [ch "U"] "n") with false.
  change (charIs [ch "U"] "v") with false. change (charIs [ch "U"] "f") with false.
  change (charIs [ch "U"] "r") with false. change (charIs [ch "U"] "U") with true.
  cbv iota.
  set (t2 := consumed (consumed t [BACKSLASH]) [ch "U"]).
  assert (Hm2 : moved t t2 2) by (repeat split; cbn; lia).
  assert (Hin2 : inputIs t2 (ch "{" :: hexDigits 8 codePoint [] ++ ch "}" :: rest))
    by exact (@moved_inputIs _ t2 [ch "U"] _ (consumed_moved _ [ch "U"]) Hin1).
  destruct (@readUnicodeEscape_printed codePoint g rest t2 fuel Hcp Hg Hfuel Hin2)
    as (t3 & E & Hm3 & Hcat & Hval).
  exists t3. unfold bind at 1. rewrite E. split; [reflexivity|]. split.
  - pose proof (moved_trans Hm2 Hm3) as H. rewrite unicodeEscape_length.
    replace (length (hexDigits 8 codePoint []) + 4)
      with (2 + (length (hexDigits 8 codePoint []) + 2)) by lia.
    exact H.
  - split; [rewrite Hcat|rewrite Hval]; reflexivity.
Qed.

(** [readString] on a surrogate pair. *)
Lemma readString_pair (hi lo : Z) (rest chars : jsstring) (t : Tokenizer) (fuel : nat) :
  isLeadingSurrogate hi = true -> isTrailingSurrogate lo = true ->
  isNoncharacter (codePointAt0 [hi; lo]) = false ->
  inputIs t (hi :: lo :: rest) ->
  exists t1,
    readString_loop (S fuel) chars t = readString_loop fuel (chars ++ [hi; lo]) t1
    /\ moved t t1 2 /\ t1.(category) = t.(category) /\ t1.(value) = t.(value).
Proof.
  intros Hhi Hlo Hn Hin. cbn [readString_loop].
  rewrite (@readCharacter_pair _ _ _ t hi lo rest Hin Hhi Hlo Hn).
  exists (consumed t [hi; lo]).
  split; [|split; [apply consumed_moved|split; reflexivity]].
  cbn [jseqb]. rewrite !andb_false_r. reflexivity.
Qed.

Lemma escapeStringCharacter_pair (hi lo : Z) : escapeStringCharacter [hi; lo] = [hi; lo].
Proof.
  unfold escapeStringCharacter. cbn [jseqb]. rewrite !andb_false_r. reflexivity.
Qed.

Lemma escapeStringCharacter_length (c : Z) : 1 <= length (escapeStringCharacter [c]).
Proof.
  unfold escapeStringCharacter.
  repeat match goal with
         | |- context [if ?b then _ else _] => destruct b
         end; cbn; lia.
Qed.

(** [readString] on an escaped string: the string is read back, whatever
    its code units. *)
Lemma readString_loop_all (post : jsstring) (n : nat) :
  forall (s chars : jsstring) (t : Tokenizer) (fuel : nat),
    length s <= n -> codeUnits s = true ->
    length (escapeCharacters escapeStringCharacter s) + 8 < fuel ->
    inputIs t (escapeCharacters escapeStringCharacter s ++ DQUOTE :: post) ->
    exists t', readString_loop fuel chars t = Ok (chars ++ s) t'
               /\ moved t t' (length (escapeCharacters escapeStringCharacter s) + 1)
               /\ t'.(category) = t.(category) /\ t'.(value) = t.(value).
Proof.
  induction n as [|n IH]; intros s chars t fuel Hn Hs Hfuel Hin;
    (destruct fuel as [|fuel]; [lia|]).
  - destruct s; [|cbn in Hn; lia]. cbn [escapeCharacters app length Nat.add] in *.
    cbn [readString_loop].
    rewrite (@readCharacter_plain _ _ _ t DQUOTE post Hin eq_refl).
    exists (consumed t [DQUOTE]). rewrite app_nil_r.
    split; [reflexivity|split; [apply consumed_moved|split; reflexivity]].
  - destruct s as [|c rest].
    { cbn [escapeCharacters app length Nat.add] in *. cbn [readString_loop].
      rewrite (@readCharacter_plain _ _ _ t DQUOTE post Hin eq_refl).
      exists (consumed t [DQUOTE]). rewrite app_nil_r.
      split; [reflexivity|split; [apply consumed_moved|split; reflexivity]]. }
    assert (Hs' := Hs). unfold codeUnits in Hs'. cbn [forallb] in Hs'.
    apply andb_true_iff in Hs'. destruct Hs' as [Hc Hrest].
    destruct (escapeCharacters_first escapeStringCharacter c rest Hc)
      as [(cp & g & s' & Hsplit & Hg & Hesc & Hcp & Hfrom)
         |[(lo & s' & -> & Hhi & Hlo & Hnon & Hesc)|(Hplain & Hesc)]];
      rewrite Hesc in *.
    + rewrite <- app_assoc in Hin. rewrite length_app in Hfuel.
      destruct (@readString_unicode cp g
                  (escapeCharacters escapeStringCharacter s' ++ DQUOTE :: post)
                  chars t fuel Hcp Hfrom) as (t1 & E1 & Hm1 & Hc1 & Hv1);
        [pose proof (unicodeEscape_length cp); lia|exact Hin|].
      assert (Hlen : length s' <= n).
      { apply (f_equal (@length _)) in Hsplit. rewrite length_app in Hsplit.
        cbn [length] in Hsplit, Hn. destruct g; [contradiction|]. cbn [length] in Hsplit. lia. }
      assert (Hs1 : codeUnits s' = true).
      { unfold codeUnits in *. rewrite Hsplit, forallb_app in Hs.
        apply andb_true_iff in Hs. apply Hs. }
      destruct (IH s' (chars ++ g) t1 fuel Hlen Hs1) as (t' & E & Hm & Hcat & Hval);
        [pose proof (unicodeEscape_length cp); lia
        |exact (@moved_inputIs t t1 _ _ Hm1 Hin)|].
      exists t'. rewrite E1, E, <- app_assoc, <- Hsplit.
      split; [reflexivity|]. split.
      * rewrite length_app, <- Nat.add_assoc. exact (moved_trans Hm1 Hm).
      * split; [rewrite Hcat|rewrite Hval]; assumption.
    + rewrite escapeStringCharacter_pair in *. cbn [app length] in Hin, Hfuel.
      destruct (@readString_pair c lo _ chars t fuel Hhi Hlo Hnon Hin)
        as (t1 & E1 & Hm1 & Hc1 & Hv1).
      assert (Hs1 : codeUnits s' = true).
      { unfold codeUnits in *. cbn [forallb] in Hrest.
        apply andb_true_iff in Hrest. apply Hrest. }
      destruct (IH s' (chars ++ [c; lo]) t1 fuel) as (t' & E & Hm & Hcat & Hval);
        [cbn [length] in Hn; lia|exact Hs1|lia
        |exact (@moved_inputIs t t1 [c; lo] _ Hm1 Hin)|].
      exists t'. rewrite E1, E, <- app_assoc.
      split; [reflexivity|]. split.
      * cbn [app length]. exact (moved_trans Hm1 Hm).
      * split; [rewrite Hcat|rewrite Hval]; assumption.
    + rewrite <- app_assoc in Hin. rewrite length_app in Hfuel.
      destruct (@readString_step c _ chars t fuel Hplain Hin) as (t1 & E1 & Hm1 & Hc1 & Hv1).
      pose proof (escapeStringCharacter_length c) as Hlen1.
      destruct (IH rest (chars ++ [c]) t1 fuel) as (t' & E & Hm & Hcat & Hval);
        [cbn [length] in Hn; lia|exact Hrest|lia|exact (@moved_inputIs t t1 _ _ Hm1 Hin)|].
      exists t'. rewrite E1, E, <- app_assoc.
      split; [reflexivity|]. split.
      * rewrite length_app, <- Nat.add_assoc. exact (moved_trans Hm1 Hm).
      * split; [rewrite Hcat|rewrite Hval]; assumption.
Qed.

(** ** The tokens of strings and characters *)

Lemma readToken_string_all (s post : jsstring) (t : Tokenizer) (fuel : nat) :
  codeUnits s = true -> length (escapeCharacters escapeStringCharacter s) + 8 < fuel ->
  inputIs t (DQUOTE :: escapeCharacters escapeStringCharacter s ++ DQUOTE :: post) ->
  exists t', readToken fuel false t = Ok tt t'
             /\ moved t t' (length (DQUOTE :: escapeCharacters escapeStringCharacter s) + 1)
             /\ t'.(category) = Some STRING /\ t'.(value) = ValueObject (EVLString s).
Proof.
  intros Hs Hfuel Hin.
  assert (E0 : readToken fuel false t
               = (string <- readString fuel;; token STRING (ValueObject (EVLString string)))
                   (consumed t [DQUOTE])).
  { unfold readToken. unfold bind at 1. rewrite (peekCharacter_plain Hin eq_refl).
    reflexivity. }
  pose proof (consumed_moved t [DQUOTE]) as Hm0.
  assert (Hin1 : inputIs (consumed t [DQUOTE])
                   (escapeCharacters escapeStringCharacter s ++ DQUOTE :: post))
    by exact (@moved_inputIs t _ [DQUOTE] _ Hm0 Hin).
  destruct (@readString_loop_all post (length s) s [] (consumed t [DQUOTE]) fuel
              (Nat.le_refl _) Hs Hfuel Hin1) as (t1 & E1 & Hm1 & _).
  exists (setValue (ValueObject (EVLString s)) (setCategory (Some STRING) t1)).
  split; [|split; [|split; reflexivity]].
  - rewrite E0. unfold bind, readString. rewrite E1. reflexivity.
  - pose proof (moved_trans Hm0 Hm1) as Hm. cbn [length] in *.
    destruct Hm as (A1 & A2 & A3 & A4 & A5 & A6). unfold moved. cbn.
    repeat split; assumption.
Qed.

(** The hash construct of a character. *)
Lemma readToken_character (c : Z) (post : jsstring) (t : Tokenizer) (fuel : nat) :
  isCodeUnit c = true -> betweenTokens t ->
  length (escapeCharacters escapeStringCharacter [c]) + 8 < fuel ->
  inputIs t (ch "#" :: DQUOTE :: escapeCharacters escapeStringCharacter [c]
               ++ DQUOTE :: post) ->
  exists t', readToken fuel false t = Ok tt t'
             /\ moved t t' (length (escapeCharacters escapeStringCharacter [c]) + 3)
             /\ t'.(category) = Some CHARACTER
             /\ t'.(value) = ValueObject (EVLCharacter c).
Proof.
  intros Hc Hb Hfuel Hin. destruct fuel as [|f]; [lia|].
  assert (E0 : readToken (S f) false t
               = readHashConstruct (S f) (consumed t [ch "#"])).
  { unfold readToken. unfold bind at 1. rewrite (peekCharacter_plain Hin eq_refl).
    reflexivity. }
  set (t0 := consumed t [ch "#"]).
  assert (Hm0 : moved t t0 1) by apply consumed_moved.
  assert (Hin0 : inputIs t0 (DQUOTE :: escapeCharacters escapeStringCharacter [c]
                               ++ DQUOTE :: post))
    by exact (@moved_inputIs t _ [ch "#"] _ Hm0 Hin).
  set (t1 := consumed t0 [DQUOTE]).
  assert (Hm1 : moved t0 t1 1) by apply consumed_moved.
  assert (Hin1 : inputIs t1 (escapeCharacters escapeStringCharacter [c] ++ DQUOTE :: post))
    by exact (@moved_inputIs t0 _ [DQUOTE] _ Hm1 Hin0).
  assert (Hs : codeUnits [c] = true) by (unfold codeUnits; cbn [forallb]; rewrite Hc; reflexivity).
  destruct (@readString_loop_all post 1 [c] [] t1 (S f) (Nat.le_refl _) Hs Hfuel Hin1)
    as (t2 & E2 & Hm2 & _).
  pose proof (moved_trans (moved_trans Hm0 Hm1) Hm2) as Hm.
  pose proof (moved_betweenTokens Hm Hb) as Hb2.
  exists (setSavedCodeUnits []
            (setValue (ValueObject (EVLCharacter c)) (setCategory (Some CHARACTER) t2))).
  split; [|split; [|split; reflexivity]].
  - rewrite E0. unfold readHashConstruct. unfold bind at 1. cbn [readHashConstruct_loop].
    rewrite (@readCharacter_plain _ _ _ t0 DQUOTE _ Hin0 eq_refl).
    change (isDecimalDigit (codePointAt0 [DQUOTE])) with false. cbv iota.
    unfold ret at 1. cbv iota beta.
    change (charIs [DQUOTE] "(") with false. change (charIs [DQUOTE] "+") with false.
    change (charIs [DQUOTE] "-") with false. change (charIs [DQUOTE] "v") with false.
    change (charIs [DQUOTE] "t") with false. change (charIs [DQUOTE] "f") with false.
    change (jseqb [DQUOTE] [DQUOTE]) with true. cbv iota.
    unfold bind at 1. unfold readString. fold t1. rewrite E2. cbn [app].
    unfold bind at 1. unfold get.
    destruct Hb2 as (_ & _ & Hconv). rewrite Hconv. reflexivity.
  - destruct Hm as (A1 & A2 & A3 & A4 & A5 & A6). destruct Hb as (B1 & _).
    unfold moved, setSavedCodeUnits, setValue, setCategory.
    cbn [text position savedCodeUnits xmlStack convertEVLToXML_ callback].
    repeat split; try assumption.
    + rewrite A2. lia.
    + symmetry. exact B1.
Qed.

(** [readObject] on a token that is an object. *)
Lemma readObject_object (f : nat) (r : Reading) (t' : Tokenizer) (cat : Category)
  (o : EVLObject) :
  nextToken f r.(tokenizer) = Ok tt t' ->
  t'.(category) = Some cat -> isObjectCategory cat = true -> t'.(value) = ValueObject o ->
  readObject (S f) r = Ok (R_Object o) (mkReading t' r.(world) r.(lastResult)).
Proof.
  intros E Hcat Hatom Hval. rewrite (readObject_next f r E). unfold bind, get.
  cbn [tokenizer]. rewrite Hcat, Hval. destruct cat; try discriminate; reflexivity.
Qed.

(** ** The names of symbols *)

(** What [escapeProtoTokenCharacter] makes of a character of one code
    unit. *)
Lemma escapeProtoTokenCharacter_unit (c : Z) :
  (escapeProtoTokenCharacter [c] = unicodeEscape c
   /\ (isWhitespaceCharacter c || isSyntaxCharacter c) = true)
  \/ (c = BACKSLASH /\ escapeProtoTokenCharacter [c] = [BACKSLASH; BACKSLASH])
  \/ (c = ch "<" /\ escapeProtoTokenCharacter [c] = [BACKSLASH; ch "<"])
  \/ (escapeProtoTokenCharacter [c] = [c]
      /\ (isWhitespaceCharacter c || isSyntaxCharacter c) = false
      /\ (c =? BACKSLASH)%Z = false /\ (c =? ch "<")%Z = false).
Proof.
  unfold escapeProtoTokenCharacter. cbn [codePointAt0].
  destruct (isWhitespaceCharacter c || isSyntaxCharacter c) eqn:E1; [left; split; reflexivity|].
  rewrite jseqb_unit, charIs_unit.
  destruct (c =? BACKSLASH)%Z eqn:E2.
  { right. left. apply Z.eqb_eq in E2. split; [exact E2|reflexivity]. }
  destruct (c =? ch "<")%Z eqn:E3.
  { right. right. left. apply Z.eqb_eq in E3. split; [exact E3|reflexivity]. }
  right. right. right. repeat split.
Qed.

Lemma escapeProtoTokenCharacter_pair (hi lo : Z) :
  isLeadingSurrogate hi = true -> isTrailingSurrogate lo = true ->
  escapeProtoTokenCharacter [hi; lo] = [hi; lo].
Proof.
  intros Hhi Hlo. destruct (isControlCharacter_pair hi lo Hhi Hlo) as (_ & Hw & Hs).
  unfold escapeProtoTokenCharacter. rewrite Hw, Hs. cbn [orb].
  unfold charIs. cbn [js jseqb]. rewrite !andb_false_r. reflexivity.
Qed.

(** [readProtoToken] on a backslash and the character after it. *)
Lemma readProtoToken_backslash (e : Z) (rest chars : jsstring) (t : Tokenizer) (fuel : nat) :
  isPlainUnit e = true -> inputIs t (BACKSLASH :: e :: rest) ->
  readProtoToken_loop (S fuel) chars t
  = (if jseqb [e] [BACKSLASH] then readProtoToken_loop fuel (chars ++ [BACKSLASH])
     else if charIs [e] "<" then readProtoToken_loop fuel (chars ++ js "<")
     else if charIs [e] "U"
     then s <- readUnicodeEscape fuel;; readProtoToken_loop fuel (chars ++ s)
     else throw (TokenizerError (js "Undefined escape sequence.")))
      (consumed (consumed t [BACKSLASH]) [e]).
Proof.
  intros He Hin. cbn [readProtoToken_loop].
  unfold bind at 1. unfold get at 1. rewrite (atEnd_cons Hin). unfold bind at 1.
  rewrite (peekCharacter_plain Hin eq_refl). cbn [codePointAt0].
  change (isWhitespaceCharacter BACKSLASH || isSyntaxCharacter BACKSLASH) with false.
  change (charIs [BACKSLASH] "<") with false. cbv iota.
  unfold bind at 1. unfold ret at 1. cbv iota. unfold bind at 1.
  unfold consumeCharacter at 1, modify at 1.
  change (jseqb [BACKSLASH] [BACKSLASH]) with true. cbv iota.
  apply (@readCharacter_plain _
           (throw (TruncatedToken (js "Truncated escape sequence.")))
           (fun char2 =>
              if jseqb char2 [BACKSLASH] then readProtoToken_loop fuel (chars ++ [BACKSLASH])
              else if charIs char2 "<" then readProtoToken_loop fuel (chars ++ js "<")
              else if charIs char2 "U"
              then s <- readUnicodeEscape fuel;; readProtoToken_loop fuel (chars ++ s)
              else throw (TokenizerError (js "Undefined escape sequence.")))
           (consumed t [BACKSLASH]) e rest); [|exact He].
  exact (@moved_inputIs t _ [BACKSLASH] (e :: rest) (consumed_moved t [BACKSLASH]) Hin).
Qed.

Lemma moved_2 (t : Tokenizer) (a b : Z) : moved t (consumed (consumed t [a]) [b]) 2.
Proof. repeat split; cbn; lia. Qed.

(** [readProtoToken] on a Unicode escape. *)
Lemma readProtoToken_unicode (codePoint : Z) (g rest chars : jsstring) (t : Tokenizer)
  (fuel : nat) :
  (0 <= codePoint <= 0x10FFFF)%Z -> String_fromCodePoint codePoint = Some g ->
  8 < fuel -> inputIs t (unicodeEscape codePoint ++ rest) ->
  exists t1,
    readProtoToken_loop (S fuel) chars t = readProtoToken_loop fuel (chars ++ g) t1
    /\ moved t t1 (length (unicodeEscape codePoint))
    /\ t1.(category) = t.(category) /\ t1.(value) = t.(value).
Proof.
  intros Hcp Hg Hfuel Hin. rewrite unicodeEscape_app in Hin.
  rewrite (@readProtoToken_backslash (ch "U") _ chars t fuel eq_refl Hin).
  change (jseqb [ch "U"] [BACKSLASH]) with false.
  change (charIs [ch "U"] "<") with false. change (charIs [ch "U"] "U") with true.
  cbv iota.
  set (t2 := consumed (consumed t [BACKSLASH]) [ch "U"]).
  assert (Hm2 : moved t t2 2) by apply moved_2.
  assert (Hin2 : inputIs t2 (ch "{" :: hexDigits 8 codePoint [] ++ ch "}" :: rest))
    by exact (@moved_inputIs t t2 [BACKSLASH; ch "U"] _ Hm2 Hin).
  destruct (@readUnicodeEscape_printed codePoint g rest t2 fuel Hcp Hg Hfuel Hin2)
    as (t3 & E & Hm3 & Hcat & Hval).
  exists t3. unfold bind at 1. rewrite E. split; [reflexivity|]. split.
  - pose proof (moved_trans Hm2 Hm3) as H. rewrite unicodeEscape_length.
    replace (length (hexDigits 8 codePoint []) + 4)
      with (2 + (length (hexDigits 8 codePoint []) + 2)) by lia.
    exact H.
  - split; [rewrite Hcat|rewrite Hval]; reflexivity.
Qed.

(** [readProtoToken] on a surrogate pair. *)
Lemma readProtoToken_pair (hi lo : Z) (rest chars : jsstring) (t : Tokenizer) (fuel : nat) :
  isLeadingSurrogate hi = true -> isTrailingSurrogate lo = true ->
  isNoncharacter (codePointAt0 [hi; lo]) = false ->
  inputIs t (hi :: lo :: rest) ->
  exists t1,
    readProtoToken_loop (S fuel) chars t = readProtoToken_loop fuel (chars ++ [hi; lo]) t1
    /\ moved t t1 2 /\ t1.(category) = t.(category) /\ t1.(value) = t.(value).
Proof.
  intros Hhi Hlo Hn Hin. destruct (isControlCharacter_pair hi lo Hhi Hlo) as (_ & Hw & Hs).
  exists (consumed t [hi; lo]).
  split; [|split; [apply consumed_moved|split; reflexivity]].
  cbn [readProtoToken_loop].
  unfold bind at 1. unfold get at 1. rewrite (atEnd_cons Hin). unfold bind at 1.
  rewrite (peekCharacter_pair Hin Hhi Hlo Hn). rewrite Hw, Hs. cbn [orb].
  assert (Hlt : charIs [hi; lo] "<" = false)
    by (unfold charIs; cbn [js jseqb]; rewrite !andb_false_r; reflexivity).
  rewrite Hlt. unfold bind at 1. unfold ret at 1. cbv iota. unfold bind at 1.
  unfold consumeCharacter at 1, modify at 1.
  assert (Hbs : jseqb [hi; lo] [BACKSLASH] = false)
    by (cbn [jseqb]; rewrite !andb_false_r; reflexivity).
  rewrite Hbs. reflexivity.
Qed.

(** [readProtoToken] on a character that is printed as it is. *)
Lemma readProtoToken_unit (c : Z) (rest chars : jsstring) (t : Tokenizer) (fuel : nat) :
  isPlainUnit c = true -> (isWhitespaceCharacter c || isSyntaxCharacter c) = false ->
  (c =? BACKSLASH)%Z = false -> (c =? ch "<")%Z = false ->
  inputIs t (c :: rest) ->
  exists t1,
    readProtoToken_loop (S fuel) chars t = readProtoToken_loop fuel (chars ++ [c]) t1
    /\ moved t t1 1 /\ t1.(category) = t.(category) /\ t1.(value) = t.(value).
Proof.
  intros Hp Hd Hb Hl Hin. exists (consumed t [c]).
  split; [|split; [apply consumed_moved|split; reflexivity]].
  cbn [readProtoToken_loop].
  unfold bind at 1. unfold get at 1. rewrite (atEnd_cons Hin). unfold bind at 1.
  rewrite (peekCharacter_plain Hin Hp). cbn [codePointAt0]. rewrite Hd.
  rewrite charIs_unit, Hl. unfold bind at 1. unfold ret at 1. cbv iota. unfold bind at 1.
  unfold consumeCharacter at 1, modify at 1. rewrite jseqb_unit, Hb. reflexivity.
Qed.

Lemma escapeProtoTokenCharacter_length (c : Z) : 1 <= length (escapeProtoTokenCharacter [c]).
Proof.
  destruct (escapeProtoTokenCharacter_unit c)
    as [(-> & _)|[(_ & ->)|[(_ & ->)|(-> & _)]]];
    rewrite ?unicodeEscape_length; cbn [length]; lia.
Qed.

(** [readProtoToken] on an escaped name: the name is read back, whatever
    its code units. *)
Lemma readProtoToken_loop_all (post : jsstring) (n : nat) :
  forall (s chars : jsstring) (t : Tokenizer) (fuel : nat),
    length s <= n -> codeUnits s = true ->
    length (escapeCharacters escapeProtoTokenCharacter s) + 8 < fuel ->
    delimited post ->
    inputIs t (escapeCharacters escapeProtoTokenCharacter s ++ post) ->
    exists t', readProtoToken_loop fuel chars t = Ok (chars ++ s) t'
               /\ moved t t' (length (escapeCharacters escapeProtoTokenCharacter s))
               /\ t'.(category) = t.(category) /\ t'.(value) = t.(value).
Proof.
  assert (Hend : forall (chars : jsstring) (t : Tokenizer) (fuel : nat),
             delimited post -> inputIs t post ->
             exists t', readProtoToken_loop (S fuel) chars t = Ok (chars ++ []) t'
                        /\ moved t t' 0
                        /\ t'.(category) = t.(category) /\ t'.(value) = t.(value)).
  { intros chars t fuel Hpost Hin. cbn [readProtoToken_loop].
    unfold bind at 1. unfold get. exists t. rewrite app_nil_r.
    split; [|split; [apply moved_refl|split; reflexivity]].
    destruct post as [|c r].
    - rewrite (atEnd_nil Hin). reflexivity.
    - destruct Hpost as [Hc Hd]. rewrite (atEnd_cons Hin). unfold bind.
      rewrite (peekCharacter_plain Hin Hc). cbn [codePointAt0]. rewrite Hd. reflexivity. }
  induction n as [|n IH]; intros s chars t fuel Hn Hs Hfuel Hpost Hin;
    (destruct fuel as [|fuel]; [lia|]).
  - destruct s; [|cbn in Hn; lia]. exact (Hend chars t fuel Hpost Hin).
  - destruct s as [|c rest]; [exact (Hend chars t fuel Hpost Hin)|].
    assert (Hs' := Hs). unfold codeUnits in Hs'. cbn [forallb] in Hs'.
    apply andb_true_iff in Hs'. destruct Hs' as [Hc Hrest].
    assert (Hnext : forall (g s' : jsstring) (t1 : Tokenizer) (k : nat),
               c :: rest = g ++ s' -> g <> [] -> k <= length (escapeCharacters
                 escapeProtoTokenCharacter s') + k ->
               length (escapeCharacters escapeProtoTokenCharacter s') + 8 < fuel ->
               readProtoToken_loop (S fuel) chars t = readProtoToken_loop fuel (chars ++ g) t1 ->
               moved t t1 k -> t1.(category) = t.(category) -> t1.(value) = t.(value) ->
               inputIs t1 (escapeCharacters escapeProtoTokenCharacter s' ++ post) ->
               exists t', readProtoToken_loop (S fuel) chars t = Ok (chars ++ c :: rest) t'
                          /\ moved t t' (k + length (escapeCharacters
                                                      escapeProtoTokenCharacter s'))
                          /\ t'.(category) = t.(category) /\ t'.(value) = t.(value)).
    { intros g s' t1 k Hsplit Hg _ Hf E1 Hm1 Hc1 Hv1 Hin1.
      assert (Hlen : length s' <= n).
      { apply (f_equal (@length _)) in Hsplit. rewrite length_app in Hsplit.
        cbn [length] in Hsplit, Hn. destruct g; [contradiction|]. cbn [length] in Hsplit. lia. }
      assert (Hs1 : codeUnits s' = true).
      { unfold codeUnits in *. rewrite Hsplit, forallb_app in Hs.
        apply andb_true_iff in Hs. apply Hs. }
      destruct (IH s' (chars ++ g) t1 fuel Hlen Hs1 Hf Hpost Hin1)
        as (t' & E & Hm & Hcat & Hval).
      exists t'. rewrite E1, E, <- app_assoc, <- Hsplit.
      split; [reflexivity|]. split; [exact (moved_trans Hm1 Hm)|].
      split; [rewrite Hcat|rewrite Hval]; assumption. }
    destruct (escapeCharacters_first escapeProtoTokenCharacter c rest Hc)
      as [(cp & g & s' & Hsplit & Hg & Hesc & Hcp & Hfrom)
         |[(lo & s' & -> & Hhi & Hlo & Hnon & Hesc)|(Hplain & Hesc)]];
      rewrite Hesc in *.
    + rewrite <- app_assoc in Hin. rewrite length_app in Hfuel.
      destruct (@readProtoToken_unicode cp g
                  (escapeCharacters escapeProtoTokenCharacter s' ++ post)
                  chars t fuel Hcp Hfrom) as (t1 & E1 & Hm1 & Hc1 & Hv1);
        [pose proof (unicodeEscape_length cp); lia|exact Hin|].
      rewrite length_app.
      pose proof (unicodeEscape_length cp) as Hlu.
      refine (Hnext g s' t1 _ Hsplit Hg _ _ E1 Hm1 Hc1 Hv1 _); [lia|lia|].
      exact (@moved_inputIs t t1 _ _ Hm1 Hin).
    + rewrite (escapeProtoTokenCharacter_pair c lo Hhi Hlo) in *.
      cbn [app length] in Hin, Hfuel.
      destruct (@readProtoToken_pair c lo _ chars t fuel Hhi Hlo Hnon Hin)
        as (t1 & E1 & Hm1 & Hc1 & Hv1).
      rewrite length_app.
      refine (Hnext [c; lo] s' t1 _ eq_refl _ _ _ E1 Hm1 Hc1 Hv1 _);
        [discriminate|lia|lia|].
      exact (@moved_inputIs t t1 [c; lo] _ Hm1 Hin).
    + rewrite <- app_assoc in Hin. rewrite length_app in Hfuel. rewrite length_app.
      destruct (unit_codePoint c Hc) as [Hcp Hfrom].
      destruct (escapeProtoTokenCharacter_unit c)
        as [(Ee & Hd)|[(-> & Ee)|[(-> & Ee)|(Ee & Hd & Hb & Hl)]]]; rewrite Ee in *.
      * destruct (@readProtoToken_unicode c [c]
                    (escapeCharacters escapeProtoTokenCharacter rest ++ post)
                    chars t fuel Hcp Hfrom) as (t1 & E1 & Hm1 & Hc1 & Hv1);
          [pose proof (unicodeEscape_length c); lia|exact Hin|].
        pose proof (unicodeEscape_length c) as Hlu.
        refine (Hnext [c] rest t1 _ eq_refl _ _ _ E1 Hm1 Hc1 Hv1 _);
          [discriminate|lia|lia|].
        exact (@moved_inputIs t t1 _ _ Hm1 Hin).
      * cbn [app length] in Hin, Hfuel.
        refine (Hnext [BACKSLASH] rest (consumed (consumed t [BACKSLASH]) [BACKSLASH]) 2
                  eq_refl _ _ _ _ (moved_2 t _ _) eq_refl eq_refl _);
          [discriminate|lia|lia| |].
        -- rewrite (@readProtoToken_backslash BACKSLASH _ chars t fuel eq_refl Hin).
           reflexivity.
        -- exact (@moved_inputIs t _ [BACKSLASH; BACKSLASH] _ (moved_2 t _ _) Hin).
      * cbn [app length] in Hin, Hfuel.
        refine (Hnext [ch "<"] rest (consumed (consumed t [BACKSLASH]) [ch "<"]) 2
                  eq_refl _ _ _ _ (moved_2 t _ _) eq_refl eq_refl _);
          [discriminate|lia|lia| |].
        -- rewrite (@readProtoToken_backslash (ch "<") _ chars t fuel eq_refl Hin).
           reflexivity.
        -- exact (@moved_inputIs t _ [BACKSLASH; ch "<"] _ (moved_2 t _ _) Hin).
      * cbn [app length] in Hin, Hfuel.
        destruct (@readProtoToken_unit c _ chars t fuel Hplain Hd Hb Hl Hin)
          as (t1 & E1 & Hm1 & Hc1 & Hv1).
        refine (Hnext [c] rest t1 1 eq_refl _ _ _ E1 Hm1 Hc1 Hv1 _);
          [discriminate|lia|lia|].
        exact (@moved_inputIs t t1 [c] _ Hm1 Hin).
Qed.

(** ** Tokens that start with any character *)

Lemma startsProtoToken_app (s post : jsstring) :
  startsProtoToken s -> startsProtoToken (s ++ post).
Proof.
  destruct s as [|c [|c2 r]]; cbn [startsProtoToken app]; tauto.
Qed.

Lemma startsProtoToken_starts (s : jsstring) : startsProtoToken s -> startsToken s.
Proof.
  destruct s as [|c r]; cbn [startsProtoToken startsToken]; [tauto|].
  intros [(Hp & Hd & _)|H]; [left|right; exact H].
  apply orb_false_iff in Hd. split; [exact Hp|apply Hd].
Qed.

Lemma tokenStart_starts (s : jsstring) : tokenStart s -> startsToken s.
Proof. destruct s as [|c r]; cbn [tokenStart startsToken]; tauto. Qed.

Lemma startsToken_app (s post : jsstring) : s <> [] -> startsToken s -> startsToken (s ++ post).
Proof.
  destruct s as [|c [|c2 r]]; cbn [startsToken app]; tauto.
Qed.

(** A token that starts as a proto-token is a proto-token. *)
Lemma readToken_proto_starts (s : jsstring) (t : Tokenizer) (fuel : nat) :
  startsProtoToken s -> inputIs t s ->
  readToken fuel false t = readProtoTokenToken fuel t.
Proof.
  destruct s as [|c r]; [intros []|]. cbn [startsProtoToken].
  intros [(Hp & Hd & Hl)|Hpair] Hin.
  - apply orb_false_iff in Hd. destruct Hd as [_ Hsyn].
    destruct (isSyntaxCharacter_facts c Hsyn) as (F1 & F2 & F3 & F4 & F5 & F6 & F7).
    unfold readToken. unfold bind at 1. rewrite (peekCharacter_plain Hin Hp).
    rewrite !charIs_unit, jseqb_unit, F1, F2, F3, F4, F5, F6, F7, Hl. reflexivity.
  - destruct r as [|lo r]; [contradiction|]. destruct Hpair as (Hhi & Hlo & Hn).
    unfold readToken. unfold bind at 1. rewrite (peekCharacter_pair Hin Hhi Hlo Hn).
    unfold charIs. cbn [js jseqb]. rewrite !andb_false_r. reflexivity.
Qed.

Lemma skipWhitespace_starts (ws s : jsstring) :
  forall (t : Tokenizer) (fuel : nat),
    length ws < fuel -> forallb isPlainWhitespace ws = true -> startsToken s ->
    inputIs t (ws ++ s) ->
    exists t', skipWhitespace fuel false t = Ok tt t' /\ moved t t' (length ws)
               /\ t'.(category) = t.(category) /\ t'.(value) = t.(value).
Proof.
  induction ws as [|c ws IH]; intros t fuel Hfuel Hws Hs Hin;
    (destruct fuel as [|fuel]; [cbn in Hfuel; lia|]); cbn [skipWhitespace app] in *.
  - unfold bind at 1. unfold get. exists t.
    split; [|split; [apply moved_refl|split; reflexivity]].
    destruct s as [|c r].
    + rewrite (atEnd_nil Hin). reflexivity.
    + rewrite (atEnd_cons Hin). unfold bind. cbn [startsToken] in Hs.
      destruct Hs as [[Hc Hnw]|Hpair].
      * rewrite (peekCharacter_plain Hin Hc). cbn [codePointAt0]. rewrite Hnw. reflexivity.
      * destruct r as [|lo r]; [contradiction|]. destruct Hpair as (Hhi & Hlo & Hn).
        destruct (isControlCharacter_pair c lo Hhi Hlo) as (_ & Hw & _).
        rewrite (peekCharacter_pair Hin Hhi Hlo Hn), Hw. reflexivity.
  - apply andb_true_iff in Hws. destruct Hws as [Hc Hws].
    apply andb_true_iff in Hc. destruct Hc as [Hc Hw].
    unfold bind at 1. unfold get. rewrite (atEnd_cons Hin). unfold bind at 1.
    rewrite (peekCharacter_plain Hin Hc). cbn [codePointAt0]. rewrite Hw. cbn [negb].
    unfold bind at 1. unfold modify.
    set (t1 := setPosition (position t + length [c]) (setWhitespace (whitespace t ++ [c]) t)).
    assert (Hm : moved t t1 (length [c])) by (repeat split).
    destruct (IH t1 fuel) as (t' & E & Hm' & Hcat & Hval);
      [cbn in Hfuel; lia|exact Hws|exact Hs|exact (@moved_inputIs t t1 [c] (ws ++ s) Hm Hin)|].
    exists t'. split; [exact E|]. split; [exact (moved_trans Hm Hm')|].
    split; [rewrite Hcat|rewrite Hval]; reflexivity.
Qed.

(** [nextToken] between two tokens: whitespace is skipped and a token is
    read. *)
Lemma nextToken_starts (ws rest : jsstring) (cat : Category) (val : TokenValue) (n : nat)
  (t : Tokenizer) (fuel : nat) :
  betweenTokens t -> inputIs t (ws ++ rest) ->
  forallb isPlainWhitespace ws = true -> startsToken rest -> rest <> [] ->
  length ws < fuel ->
  (forall t1, betweenTokens t1 -> inputIs t1 rest ->
     exists t2, readToken fuel false t1 = Ok tt t2 /\ moved t1 t2 n
                /\ t2.(category) = Some cat /\ t2.(value) = val) ->
  exists t', nextToken (S fuel) t = Ok tt t' /\ moved t t' (length ws + n)
             /\ t'.(category) = Some cat /\ t'.(value) = val.
Proof.
  intros Hb Hin Hws Hstart Hrest Hfuel Hread.
  set (t0 := setValue ValueNull (setCategory None (setLexeme [] (setWhitespace [] t)))).
  assert (Hm0 : moved t t0 0) by (unfold moved; cbn; rewrite Nat.add_0_r; repeat split).
  assert (E0 : nextToken (S fuel) t = nextToken_loop (S fuel) false t0).
  { destruct Hb as (Hs & Hx & _). unfold nextToken, bind, modify, get. cbn.
    rewrite Hs, Hx. reflexivity. }
  assert (Hin0 : inputIs t0 (ws ++ rest)) by exact Hin.
  destruct (@skipWhitespace_starts ws rest t0 fuel) as (t1 & E1 & Hm1 & Hcat1 & _);
    [lia|exact Hws|exact Hstart|exact Hin0|].
  assert (Hin1 : inputIs t1 rest) by exact (@moved_inputIs t0 t1 ws rest Hm1 Hin0).
  pose proof (moved_betweenTokens Hm0 Hb) as Hb0.
  pose proof (moved_betweenTokens Hm1 Hb0) as Hb1.
  destruct (Hread t1 Hb1 Hin1) as (t2 & E2 & Hm2 & Hcat2 & Hval2).
  exists t2. split; [|split; [|split; assumption]].
  - rewrite E0. cbn [nextToken_loop]. unfold bind at 1. unfold get at 1.
    change (category t0) with (@None Category). cbv iota. unfold bind at 1.
    rewrite E1. unfold bind at 1. unfold get at 1.
    destruct rest as [|c rest']; [contradiction|]. rewrite (atEnd_cons Hin1).
    unfold bind at 1. rewrite E2.
    destruct fuel as [|fuel']; [lia|]. cbn [nextToken_loop]. unfold bind, get.
    rewrite Hcat2. reflexivity.
  - exact (moved_trans (moved_trans Hm0 Hm1) Hm2).
Qed.

(** An object that is printed as one token is read back when the token
    is. *)
Lemma readsAs_token (v v' : EVLObject) (cat : Category) :
  isObjectCategory cat = true ->
  startsToken (toString v) -> toString v <> [] ->
  (forall post t1 fuel,
     delimited post -> betweenTokens t1 -> inputIs t1 (toString v ++ post) ->
     length (toString v) + 9 < fuel ->
     exists t2, readToken fuel false t1 = Ok tt t2 /\ moved t1 t2 (length (toString v))
                /\ t2.(category) = Some cat /\ t2.(value) = ValueObject v') ->
  readsAs v v'.
Proof.
  intros Hcat0 Hstart Hne Hread ws post r fuel Hb Hws Hpost Hin Hfuel.
  destruct fuel as [|[|f]]; [lia..|].
  pose proof (startsToken_app post Hne Hstart) as Hstart'.
  assert (Hne' : toString v ++ post <> [])
    by (destruct (toString v); [contradiction|discriminate]).
  destruct (@nextToken_starts ws (toString v ++ post) cat (ValueObject v')
              (length (toString v)) (tokenizer r) f Hb Hin Hws Hstart' Hne')
    as (t' & E & Hm & Hcat & Hval).
  - lia.
  - intros t1 Hb1 Hin1. apply (Hread post t1 f Hpost Hb1 Hin1). lia.
  - exists (mkReading t' (world r) (lastResult r)).
    split; [exact (readObject_object (S f) r E Hcat Hcat0 Hval)|].
    split; [exact Hm|split; reflexivity].
Qed.

(** What is read back with the fuel of [readsObject] is read back with
    more. *)
Lemma readsObject_readsAs (v : EVLObject) : readsObject v -> readsAs v (reread v).
Proof.
  intros H ws post r fuel Hb Hws Hpost Hin Hfuel.
  apply (H ws post r fuel Hb Hws Hpost Hin). lia.
Qed.

Lemma readsAs_string (s : jsstring) :
  codeUnits s = true -> readsAs (EVLString s) (EVLString s).
Proof.
  intros Hs.
  assert (Hp : toString (EVLString s)
               = DQUOTE :: escapeCharacters escapeStringCharacter s ++ [DQUOTE])
    by reflexivity.
  apply (@readsAs_token (EVLString s) (EVLString s) STRING eq_refl); rewrite ?Hp.
  - left. split; reflexivity.
  - discriminate.
  - intros post t1 fuel _ _ Hin Hfuel. rewrite ?Hp in *.
    cbn [app] in Hin. rewrite <- app_assoc in Hin. cbn [app] in Hin.
    cbn [length] in Hfuel. rewrite length_app in Hfuel. cbn [length] in Hfuel.
    destruct (@readToken_string_all s post t1 fuel Hs) as (t2 & E & Hm & Hcat & Hval);
      [lia|exact Hin|].
    exists t2. split; [exact E|]. split; [|split; assumption].
    cbn [length] in *. rewrite length_app. cbn [length]. exact Hm.
Qed.

Lemma readsAs_character (c : Z) :
  isCodeUnit c = true -> readsAs (EVLCharacter c) (EVLCharacter c).
Proof.
  intros Hc.
  assert (Hp : toString (EVLCharacter c)
               = ch "#" :: DQUOTE :: escapeCharacters escapeStringCharacter [c] ++ [DQUOTE])
    by reflexivity.
  apply (@readsAs_token (EVLCharacter c) (EVLCharacter c) CHARACTER eq_refl); rewrite ?Hp.
  - left. split; reflexivity.
  - discriminate.
  - intros post t1 fuel _ Hb Hin Hfuel. rewrite ?Hp in *.
    cbn [app] in Hin. rewrite <- app_assoc in Hin. cbn [app] in Hin.
    cbn [length] in Hfuel. rewrite length_app in Hfuel. cbn [length] in Hfuel.
    destruct (@readToken_character c post t1 fuel Hc Hb) as (t2 & E & Hm & Hcat & Hval);
      [lia|exact Hin|].
    exists t2. split; [exact E|]. split; [|split; assumption].
    cbn [length]. rewrite length_app. cbn [length].
    replace (S (S (length (escapeCharacters escapeStringCharacter [c]) + 1)))
      with (length (escapeCharacters escapeStringCharacter [c]) + 3) by lia.
    exact Hm.
Qed.

(** The escaped name of a symbol starts as a proto-token. *)
Lemma escaped_name_starts (name : jsstring) :
  name <> [] -> codeUnits name = true ->
  startsProtoToken (escapeCharacters escapeProtoTokenCharacter name).
Proof.
  intros Hne Hs. destruct name as [|c rest]; [contradiction|].
  unfold codeUnits in Hs. cbn [forallb] in Hs.
  apply andb_true_iff in Hs. destruct Hs as [Hc Hrest].
  assert (Hu : forall cp r, startsProtoToken (unicodeEscape cp ++ r)).
  { intros cp r. rewrite unicodeEscape_app. left. repeat split. }
  destruct (escapeCharacters_first escapeProtoTokenCharacter c rest Hc)
    as [(cp & g & s' & Hsplit & Hg & Hesc & Hcp & Hfrom)
       |[(lo & s' & -> & Hhi & Hlo & Hnon & Hesc)|(Hplain & Hesc)]];
    rewrite Hesc.
  - apply Hu.
  - rewrite (escapeProtoTokenCharacter_pair c lo Hhi Hlo). right. repeat split; assumption.
  - destruct (escapeProtoTokenCharacter_unit c)
      as [(Ee & Hd)|[(-> & Ee)|[(-> & Ee)|(Ee & Hd & Hb & Hl)]]]; rewrite Ee.
    + apply Hu.
    + left. repeat split.
    + left. repeat split.
    + left. repeat split; assumption.
Qed.

Lemma escaped_name_not_empty (name : jsstring) :
  name <> [] -> codeUnits name = true ->
  escapeCharacters escapeProtoTokenCharacter name <> [].
Proof.
  intros Hne Hs E. pose proof (escaped_name_starts Hne Hs) as H. rewrite E in H. exact H.
Qed.

Lemma isSymbolName_facts (name : jsstring) :
  isSymbolName name = true -> name <> [] /\ codeUnits name = true /\ noColon name = true.
Proof.
  destruct name as [|c r]; [discriminate|]. unfold isSymbolName. intros H.
  apply andb_true_iff in H. destruct H as [H1 H2]. repeat split; try assumption; discriminate.
Qed.

(** A keyword, whatever the code units of its name. *)
Lemma readToken_keyword_all (name post : jsstring) (t : Tokenizer) (fuel : nat) :
  length (escapeCharacters escapeProtoTokenCharacter name) + 9 < fuel ->
  isSymbolName name = true -> delimited post ->
  inputIs t ((ch ":" :: escapeCharacters escapeProtoTokenCharacter name) ++ post) ->
  exists t', readToken fuel false t = Ok tt t'
             /\ moved t t' (S (length (escapeCharacters escapeProtoTokenCharacter name)))
             /\ t'.(category) = Some KEYWORD
             /\ t'.(value) = ValueObject (EVLKeyword name).
Proof.
  intros Hfuel Hname Hpost Hin.
  destruct (isSymbolName_facts name Hname) as (Hne & Hs & Hcolon).
  cbn [app] in Hin.
  rewrite (@readToken_proto_start (ch ":") _ t fuel eq_refl Hin).
  destruct fuel as [|f]; [lia|].
  destruct (@readProtoToken_unit (ch ":") _ [] t f eq_refl eq_refl eq_refl eq_refl Hin)
    as (t1 & E1 & Hm1 & Hc1 & Hv1).
  destruct (@readProtoToken_loop_all post (length name) name ([] ++ [ch ":"]) t1 f
              (Nat.le_refl _) Hs) as (t2 & E2 & Hm2 & Hc2 & Hv2);
    [lia|exact Hpost|exact (@moved_inputIs t t1 [ch ":"] _ Hm1 Hin)|].
  unfold readProtoTokenToken, readProtoToken. unfold bind at 1. rewrite E1, E2.
  cbn [app]. destruct name as [|d r]; [contradiction|].
  assert (Hk : keywordRegExp_test (ch ":" :: d :: r) = true)
    by (unfold keywordRegExp_test; rewrite Hcolon; reflexivity).
  change (charIs (ch ":" :: d :: r) ".") with false.
  change (numberRegExp_test (ch ":" :: d :: r)) with false.
  rewrite Hk.
  eexists. split; [reflexivity|]. split; [|split; reflexivity].
  apply moved_token. exact (moved_trans Hm1 Hm2).
Qed.

(** A variable, whatever the code units of its name. *)
Lemma readToken_variable_all (name post : jsstring) (t : Tokenizer) (fuel : nat) :
  length (escapeCharacters escapeProtoTokenCharacter name) + 8 < fuel ->
  isSymbolName name = true ->
  numberRegExp_test name = false -> charIs name "." = false ->
  delimited post ->
  inputIs t (escapeCharacters escapeProtoTokenCharacter name ++ post) ->
  exists t', readToken fuel false t = Ok tt t'
             /\ moved t t' (length (escapeCharacters escapeProtoTokenCharacter name))
             /\ t'.(category) = Some VARIABLE
             /\ t'.(value) = ValueObject (EVLVariable name).
Proof.
  intros Hfuel Hname Hn Hdot Hpost Hin.
  destruct (isSymbolName_facts name Hname) as (Hne & Hs & Hcolon).
  rewrite (@readToken_proto_starts _ t fuel
             (@startsProtoToken_app _ post (escaped_name_starts Hne Hs)) Hin).
  destruct (@readProtoToken_loop_all post (length name) name [] t fuel
              (Nat.le_refl _) Hs Hfuel Hpost Hin) as (t2 & E2 & Hm2 & Hc2 & Hv2).
  unfold readProtoTokenToken, readProtoToken. unfold bind at 1. rewrite E2.
  cbn [app]. destruct name as [|c r]; [contradiction|].
  assert (Hk : keywordRegExp_test (c :: r) = false).
  { cbn [noColon forallb] in Hcolon. apply andb_true_iff in Hcolon. destruct Hcolon as [Hc1 _].
    apply negb_true_iff in Hc1. unfold keywordRegExp_test. destruct r; [reflexivity|].
    rewrite Hc1. reflexivity. }
  assert (Hv : variableRegExp_test (c :: r) = true) by exact Hcolon.
  rewrite Hdot, Hn, Hk, Hv.
  eexists. split; [reflexivity|]. split; [|split; reflexivity].
  apply moved_token. exact Hm2.
Qed.

Lemma readsAs_keyword (name : jsstring) :
  isSymbolName name = true -> readsAs (EVLKeyword name) (EVLKeyword name).
Proof.
  intros Hname.
  assert (Hp : toString (EVLKeyword name)
               = ch ":" :: escapeCharacters escapeProtoTokenCharacter name)
    by reflexivity.
  apply (@readsAs_token (EVLKeyword name) (EVLKeyword name) KEYWORD eq_refl); rewrite ?Hp.
  - left. split; reflexivity.
  - discriminate.
  - intros post t1 fuel Hpost _ Hin Hfuel. rewrite ?Hp in *. cbn [length] in *.
    apply (@readToken_keyword_all name post t1 fuel); [lia|assumption..].
Qed.

Lemma readsAs_variable (name : jsstring) :
  isSymbolName name = true -> numberRegExp_test name = false -> charIs name "." = false ->
  readsAs (EVLVariable name) (EVLVariable name).
Proof.
  intros Hname Hn Hdot.
  destruct (isSymbolName_facts name Hname) as (Hne & Hs & Hcolon).
  assert (Hp : toString (EVLVariable name) = escapeCharacters escapeProtoTokenCharacter name)
    by reflexivity.
  apply (@readsAs_token (EVLVariable name) (EVLVariable name) VARIABLE eq_refl); rewrite ?Hp.
  - apply startsProtoToken_starts. exact (escaped_name_starts Hne Hs).
  - exact (escaped_name_not_empty Hne Hs).
  - intros post t1 fuel Hpost _ Hin Hfuel. rewrite ?Hp in *.
    apply (@readToken_variable_all name post t1 fuel); [lia|assumption..].
Qed.

(** ** Lists and vectors *)

Lemma readsTailAs_nil : readsTailAs EVLEmptyList EVLEmptyList.
Proof.
  intros elements post r fuel n _ Hb Hin Hfuel Hn. cbn [toStringRest app length] in *.
  destruct n as [|n]; [lia|].
  destruct (@readObject_reads_closing [] post r fuel Hb eq_refl Hin) as (r' & E & Hm & Hw & Hl);
    [cbn; lia|].
  exists r'. split; [|split; [exact Hm|split; assumption]].
  cbn [readList_loop]. unfold bind. rewrite E. reflexivity.
Qed.

(** The tail of a dotted list. *)
Lemma readsTailAs_dotted (x x' : EVLObject) :
  toStringRest x = js " . " ++ toString x -> readsAs x x' -> readsTailAs x x'.
Proof.
  intros Hx Hread elements post r fuel n Hne Hb Hin Hfuel Hn. rewrite Hx in *.
  change (js " . " ++ toString x) with (ch " " :: ch "." :: ch " " :: toString x) in *.
  cbn [length app] in *.
  destruct n as [|n]; [lia|].
  destruct (@readObject_reads_dot [ch " "] (ch " " :: toString x ++ ch ")" :: post) r fuel
              Hb eq_refl) as (r1 & E1 & Hm1 & Hw1 & Hl1);
    [split; reflexivity|exact Hin|cbn; lia|].
  pose proof (moved_betweenTokens Hm1 Hb) as Hb1.
  assert (Hin1 : inputIs (tokenizer r1) ([ch " "] ++ toString x ++ ch ")" :: post))
    by exact (@moved_inputIs (tokenizer r) (tokenizer r1) [ch " "; ch "."] _ Hm1 Hin).
  destruct (Hread [ch " "] (ch ")" :: post) r1 fuel Hb1 eq_refl) as (r2 & E2 & Hm2 & Hw2 & Hl2);
    [split; reflexivity|exact Hin1|cbn; lia|].
  pose proof (moved_betweenTokens Hm2 Hb1) as Hb2.
  assert (Hin2 : inputIs (tokenizer r2) ([] ++ ch ")" :: post)).
  { apply (@moved_inputIs (tokenizer r1) (tokenizer r2) ([ch " "] ++ toString x) _).
    - rewrite length_app. exact Hm2.
    - rewrite <- app_assoc. exact Hin1. }
  destruct (@readObject_reads_closing [] post r2 fuel Hb2 eq_refl Hin2)
    as (r3 & E3 & Hm3 & Hw3 & Hl3); [cbn; lia|].
  exists r3. split; [|split; [|split; congruence]].
  - cbn [readList_loop]. unfold bind at 1. rewrite E1. unfold readDottedList_.
    destruct elements as [|e elements]; [contradiction|].
    unfold bind at 1. rewrite E2. unfold bind. rewrite E3. reflexivity.
  - pose proof (moved_trans (moved_trans Hm1 Hm2) Hm3) as Hm.
    cbn [length Nat.add] in Hm.
    replace (S (S (S (length (toString x) + 1))))
      with (S (S (length (toString x)) + 1 + 1)); [exact Hm|lia].
Qed.

Lemma readsTailAs_cons (car car' cdr cdr' : EVLObject) :
  readsAs car car' -> readsTailAs cdr cdr' ->
  readsTailAs (EVLCons car cdr) (EVLCons car' cdr').
Proof.
  intros Hcar Hcdr elements post r fuel n Hne Hb Hin Hfuel Hn.
  change (toStringRest (EVLCons car cdr))
    with (ch " " :: toString car ++ toStringRest cdr) in *.
  cbn [length] in *. rewrite length_app in *.
  destruct n as [|n]; [lia|].
  assert (Hin0 : inputIs (tokenizer r)
                   ([ch " "] ++ toString car ++ toStringRest cdr ++ ch ")" :: post))
    by (cbn [app] in *; rewrite <- app_assoc in Hin; exact Hin).
  destruct (Hcar [ch " "] (toStringRest cdr ++ ch ")" :: post) r fuel Hb eq_refl
              (delimited_rest cdr post) Hin0) as (r1 & E1 & Hm1 & Hw1 & Hl1); [cbn; lia|].
  pose proof (moved_betweenTokens Hm1 Hb) as Hb1.
  assert (Hin1 : inputIs (tokenizer r1) (toStringRest cdr ++ ch ")" :: post)).
  { apply (@moved_inputIs (tokenizer r) (tokenizer r1) ([ch " "] ++ toString car) _).
    - rewrite length_app. exact Hm1.
    - rewrite <- app_assoc. exact Hin0. }
  destruct (Hcdr (elements ++ [car']) post r1 fuel n) as (r2 & E2 & Hm2 & Hw2 & Hl2);
    [destruct elements; discriminate|exact Hb1|exact Hin1|lia|lia|].
  exists r2. split; [|split; [|split; congruence]].
  - rewrite (readList_loop_object _ n elements r E1), E2, makeList_app. reflexivity.
  - pose proof (moved_trans Hm1 Hm2) as Hm. cbn [length Nat.add] in Hm.
    replace (S (length (toString car) + length (toStringRest cdr)) + 1)
      with (S (length (toString car)) + (length (toStringRest cdr) + 1)); [exact Hm|lia].
Qed.

Lemma readsAs_cons (car car' cdr cdr' : EVLObject) :
  readsAs car car' -> readsTailAs cdr cdr' -> readsAs (EVLCons car cdr) (EVLCons car' cdr').
Proof.
  intros Hcar Hcdr ws post r fuel Hb Hws Hpost Hin Hfuel.
  rewrite toString_cons in *. cbn [length] in *. rewrite !length_app in *.
  cbn [length] in *.
  destruct fuel as [|[|f]]; [lia..|].
  destruct (@readObject_reads_opening ws
              (toString car ++ toStringRest cdr ++ ch ")" :: post) r f Hb Hws)
    as (r0 & E0 & Hm0 & Hw0 & Hl0);
    [cbn [app] in *; rewrite <- !app_assoc in Hin; exact Hin|lia|].
  pose proof (moved_betweenTokens Hm0 Hb) as Hb0.
  assert (Hin0 : inputIs (tokenizer r0)
                   ([] ++ toString car ++ toStringRest cdr ++ ch ")" :: post)).
  { apply (@moved_inputIs (tokenizer r) (tokenizer r0) (ws ++ [ch "("]) _).
    - rewrite length_app. exact Hm0.
    - cbn [app] in *. rewrite <- !app_assoc in *. exact Hin. }
  destruct (Hcar [] (toStringRest cdr ++ ch ")" :: post) r0 (S f) Hb0 eq_refl
              (delimited_rest cdr post) Hin0) as (r1 & E1 & Hm1 & Hw1 & Hl1); [cbn; lia|].
  pose proof (moved_betweenTokens Hm1 Hb0) as Hb1.
  assert (Hin1 : inputIs (tokenizer r1) (toStringRest cdr ++ ch ")" :: post))
    by exact (@moved_inputIs (tokenizer r0) (tokenizer r1) (toString car) _ Hm1 Hin0).
  destruct (Hcdr [car'] post r1 (S f) f) as (r2 & E2 & Hm2 & Hw2 & Hl2);
    [discriminate|exact Hb1|exact Hin1|lia|lia|].
  exists r2. split; [|split; [|split; congruence]].
  - rewrite E0, (readList_loop_object _ f [] r0 E1). exact E2.
  - pose proof (moved_trans (moved_trans Hm0 Hm1) Hm2) as Hm. cbn [length Nat.add] in Hm.
    replace (length ws + S (length (toString car) + (length (toStringRest cdr) + 1)))
      with (length ws + 1 + length (toString car) + (length (toStringRest cdr) + 1));
      [exact Hm|lia].
Qed.

(** The token [#(]. *)
Lemma readToken_hash_opening (post : jsstring) (t : Tokenizer) (fuel : nat) :
  inputIs t (ch "#" :: ch "(" :: post) ->
  exists t', readToken (S fuel) false t = Ok tt t' /\ moved t t' 2
             /\ t'.(category) = Some HASH_OPENING_PARENTHESIS /\ t'.(value) = ValueNull.
Proof.
  intros Hin.
  assert (E0 : readToken (S fuel) false t
               = readHashConstruct (S fuel) (consumed t [ch "#"])).
  { unfold readToken. unfold bind at 1. rewrite (peekCharacter_plain Hin eq_refl).
    reflexivity. }
  assert (Hin1 : inputIs (consumed t [ch "#"]) (ch "(" :: post))
    by exact (@moved_inputIs t _ [ch "#"] _ (consumed_moved t [ch "#"]) Hin).
  exists (setValue ValueNull
            (setCategory (Some HASH_OPENING_PARENTHESIS)
               (consumed (consumed t [ch "#"]) [ch "("]))).
  split; [|split; [apply moved_2|split; reflexivity]].
  rewrite E0. unfold readHashConstruct. unfold bind at 1. cbn [readHashConstruct_loop].
  rewrite (@readCharacter_plain _ _ _ (consumed t [ch "#"]) (ch "(") post Hin1 eq_refl).
  reflexivity.
Qed.

Lemma readObject_reads_hash_opening (ws post : jsstring) (r : Reading) (f : nat) :
  betweenTokens r.(tokenizer) -> forallb isPlainWhitespace ws = true ->
  inputIs r.(tokenizer) (ws ++ ch "#" :: ch "(" :: post) -> length ws < f ->
  exists r0,
    readObject (S (S f)) r = readVector_loop (readObject (S f)) (S f) [] r0
    /\ moved r.(tokenizer) r0.(tokenizer) (length ws + 2)
    /\ r0.(world) = r.(world) /\ r0.(lastResult) = r.(lastResult).
Proof.
  intros Hb Hws Hin Hfuel. destruct f as [|f']; [lia|].
  destruct (@nextToken_token ws (ch "#" :: ch "(" :: post) HASH_OPENING_PARENTHESIS
              ValueNull 2 (tokenizer r) (S f') Hb Hin Hws)
    as (t' & E & Hm & Hcat & Hval);
    [split; reflexivity|discriminate|lia| |].
  - intros t1 _ Hin1. exact (@readToken_hash_opening post t1 f' Hin1).
  - exists (mkReading t' (world r) (lastResult r)).
    split; [|split; [exact Hm|split; reflexivity]].
    rewrite (readObject_next (S (S f')) r E). unfold bind at 1. unfold get.
    cbn [tokenizer]. rewrite Hcat. reflexivity.
Qed.

Lemma readVector_loop_object (rec : M Reading ReadResult) (n : nat)
  (elements : list EVLObject) (r r1 : Reading) (o : EVLObject) :
  rec r = Ok (R_Object o) r1 ->
  readVector_loop rec (S n) elements r = readVector_loop rec n (elements ++ [o]) r1.
Proof. intros E. cbn [readVector_loop]. unfold bind at 1. rewrite E. reflexivity. Qed.

Lemma toString_vector_elements (first : bool) (l : list EVLObject) :
  (fix elems (first : bool) (l : list EVLObject) : jsstring :=
     match l with
     | [] => []
     | x :: r => (if first then [] else js " ") ++ toString x ++ elems false r
     end) false l = toStringElements l.
Proof.
  induction l as [|x l IH]; [reflexivity|]. cbn [toStringElements]. rewrite <- IH.
  reflexivity.
Qed.

Lemma toString_vector (x : EVLObject) (l : list EVLObject) :
  toString (EVLVector (x :: l))
  = ch "#" :: ch "(" :: toString x ++ toStringElements l ++ [ch ")"].
Proof.
  rewrite <- (toString_vector_elements false l). cbn [toString].
  change (js "#(") with [ch "#"; ch "("]. change (js ")") with [ch ")"].
  cbn [app]. rewrite <- app_assoc. reflexivity.
Qed.

Lemma delimited_elements (l : list EVLObject) (post : jsstring) :
  delimited (toStringElements l ++ ch ")" :: post).
Proof. destruct l; split; reflexivity. Qed.

Lemma readsElementsAs_nil : readsElementsAs [] [].
Proof.
  intros elements post r fuel n Hb Hin Hfuel Hn. cbn [toStringElements app length] in *.
  destruct n as [|n]; [lia|].
  destruct (@readObject_reads_closing [] post r fuel Hb eq_refl Hin) as (r' & E & Hm & Hw & Hl);
    [cbn; lia|].
  exists r'. split; [|split; [exact Hm|split; assumption]].
  cbn [readVector_loop]. unfold bind. rewrite E, app_nil_r. reflexivity.
Qed.

Lemma readsElementsAs_cons (x x' : EVLObject) (l l' : list EVLObject) :
  readsAs x x' -> readsElementsAs l l' -> readsElementsAs (x :: l) (x' :: l').
Proof.
  intros Hx Hl elements post r fuel n Hb Hin Hfuel Hn.
  change (toStringElements (x :: l)) with (ch " " :: toString x ++ toStringElements l) in *.
  cbn [length] in *. rewrite length_app in *.
  destruct n as [|n]; [lia|].
  assert (Hin0 : inputIs (tokenizer r)
                   ([ch " "] ++ toString x ++ toStringElements l ++ ch ")" :: post))
    by (cbn [app] in *; rewrite <- app_assoc in Hin; exact Hin).
  destruct (Hx [ch " "] (toStringElements l ++ ch ")" :: post) r fuel Hb eq_refl
              (delimited_elements l post) Hin0) as (r1 & E1 & Hm1 & Hw1 & Hl1); [cbn; lia|].
  pose proof (moved_betweenTokens Hm1 Hb) as Hb1.
  assert (Hin1 : inputIs (tokenizer r1) (toStringElements l ++ ch ")" :: post)).
  { apply (@moved_inputIs (tokenizer r) (tokenizer r1) ([ch " "] ++ toString x) _).
    - rewrite length_app. exact Hm1.
    - rewrite <- app_assoc. exact Hin0. }
  destruct (Hl (elements ++ [x']) post r1 fuel n) as (r2 & E2 & Hm2 & Hw2 & Hl2);
    [exact Hb1|exact Hin1|lia|lia|].
  exists r2. split; [|split; [|split; congruence]].
  - rewrite (readVector_loop_object _ n elements r E1), E2, <- app_assoc. reflexivity.
  - pose proof (moved_trans Hm1 Hm2) as Hm. cbn [length Nat.add] in Hm.
    replace (S (length (toString x) + length (toStringElements l)) + 1)
      with (S (length (toString x)) + (length (toStringElements l) + 1)); [exact Hm|lia].
Qed.

Lemma readsAs_vector_empty : readsAs (EVLVector []) (EVLVector []).
Proof.
  intros ws post r fuel Hb Hws Hpost Hin Hfuel.
  change (toString (EVLVector [])) with [ch "#"; ch "("; ch ")"] in *.
  cbn [length app] in *.
  destruct fuel as [|[|f]]; [lia..|].
  destruct (@readObject_reads_hash_opening ws (ch ")" :: post) r f Hb Hws Hin)
    as (r0 & E0 & Hm0 & Hw0 & Hl0); [lia|].
  pose proof (moved_betweenTokens Hm0 Hb) as Hb0.
  assert (Hin0 : inputIs (tokenizer r0) ([] ++ ch ")" :: post)).
  { apply (@moved_inputIs (tokenizer r) (tokenizer r0) (ws ++ [ch "#"; ch "("]) _).
    - rewrite length_app. exact Hm0.
    - rewrite <- app_assoc. exact Hin. }
  destruct (@readObject_reads_closing [] post r0 (S f) Hb0 eq_refl Hin0)
    as (r1 & E1 & Hm1 & Hw1 & Hl1); [cbn; lia|].
  exists r1. split; [|split; [|split; congruence]].
  - rewrite E0. cbn [readVector_loop]. unfold bind. rewrite E1. reflexivity.
  - pose proof (moved_trans Hm0 Hm1) as Hm. cbn [length Nat.add] in Hm.
    replace (length ws + 3) with (length ws + 2 + 1); [exact Hm|lia].
Qed.

Lemma readsAs_vector (x x' : EVLObject) (l l' : list EVLObject) :
  readsAs x x' -> readsElementsAs l l' ->
  readsAs (EVLVector (x :: l)) (EVLVector (x' :: l')).
Proof.
  intros Hx Hl ws post r fuel Hb Hws Hpost Hin Hfuel.
  rewrite toString_vector in *. cbn [length] in *. rewrite !length_app in *.
  cbn [length] in *.
  destruct fuel as [|[|f]]; [lia..|].
  destruct (@readObject_reads_hash_opening ws
              (toString x ++ toStringElements l ++ ch ")" :: post) r f Hb Hws)
    as (r0 & E0 & Hm0 & Hw0 & Hl0);
    [cbn [app] in *; rewrite <- !app_assoc in Hin; exact Hin|lia|].
  pose proof (moved_betweenTokens Hm0 Hb) as Hb0.
  assert (Hin0 : inputIs (tokenizer r0)
                   ([] ++ toString x ++ toStringElements l ++ ch ")" :: post)).
  { apply (@moved_inputIs (tokenizer r) (tokenizer r0) (ws ++ [ch "#"; ch "("]) _).
    - rewrite length_app. exact Hm0.
    - cbn [app] in *. rewrite <- !app_assoc in *. exact Hin. }
  destruct (Hx [] (toStringElements l ++ ch ")" :: post) r0 (S f) Hb0 eq_refl
              (delimited_elements l post) Hin0) as (r1 & E1 & Hm1 & Hw1 & Hl1); [cbn; lia|].
  pose proof (moved_betweenTokens Hm1 Hb0) as Hb1.
  assert (Hin1 : inputIs (tokenizer r1) (toStringElements l ++ ch ")" :: post))
    by exact (@moved_inputIs (tokenizer r0) (tokenizer r1) (toString x) _ Hm1 Hin0).
  destruct (Hl [x'] post r1 (S f) f) as (r2 & E2 & Hm2 & Hw2 & Hl2);
    [exact Hb1|exact Hin1|lia|lia|].
  exists r2. split; [|split; [|split; congruence]].
  - rewrite E0, (readVector_loop_object _ f [] r0 E1). exact E2.
  - pose proof (moved_trans (moved_trans Hm0 Hm1) Hm2) as Hm. cbn [length Nat.add] in Hm.
    replace (length ws + S (S (length (toString x) + (length (toStringElements l) + 1))))
      with (length ws + 2 + length (toString x) + (length (toStringElements l) + 1));
      [exact Hm|lia].
Qed.

(** ** Every object that has a read syntax *)

Lemma objectDepth_vector (elements : list EVLObject) (n : nat) :
  objectDepth (EVLVector elements) <= S n ->
  Forall (fun x => objectDepth x <= n) elements.
Proof.
  cbn [objectDepth]. intros H. apply le_S_n in H.
  induction elements as [|x l IH]; constructor.
  - lia.
  - apply IH. lia.
Qed.

(** Every object that has a read syntax is read back: alone, and as the tail
    of a list. *)
Lemma printable_reads (n : nat) :
  forall v, objectDepth v <= n -> printable v = true ->
            readsAs v (rereadAll v) /\ readsTailAs v (rereadAll v).
Proof.
  assert (Hatom : forall v, toStringRest v = js " . " ++ toString v ->
                            readsAs v (rereadAll v) ->
                            readsAs v (rereadAll v) /\ readsTailAs v (rereadAll v)).
  { intros v Hv H. split; [exact H|]. apply readsTailAs_dotted; assumption. }
  assert (Hatoms : forall v,
             match v with EVLCons _ _ | EVLVector _ => False | _ => True end ->
             printable v = true ->
             readsAs v (rereadAll v) /\ readsTailAs v (rereadAll v)).
  { intros v Hshape Hv. destruct v; cbn [printable] in Hv; try discriminate;
      try contradiction.
    - apply Hatom; [reflexivity|]. exact (readsObject_readsAs readsObject_void).
    - apply Hatom; [reflexivity|]. exact (readsObject_readsAs (readsObject_boolean _)).
    - unfold numberReadsBack in Hv. apply andb_true_iff in Hv. destruct Hv as [Hn _].
      apply Hatom; [reflexivity|]. exact (readsObject_readsAs (@readsObject_number _ Hn)).
    - apply Hatom; [reflexivity|]. apply readsAs_character. exact Hv.
    - apply Hatom; [reflexivity|]. apply readsAs_string. exact Hv.
    - apply Hatom; [reflexivity|]. apply readsAs_keyword. exact Hv.
    - apply andb_true_iff in Hv. destruct Hv as [Hv Hdot].
      apply andb_true_iff in Hv. destruct Hv as [Hname Hn].
      apply negb_true_iff in Hdot, Hn.
      apply Hatom; [reflexivity|]. apply readsAs_variable; assumption.
    - split; [exact (readsObject_readsAs readsObject_nil)|exact readsTailAs_nil]. }
  induction n as [|n IH]; intros v Hd Hv.
  - apply Hatoms; [|exact Hv]. destruct v; try exact I; cbn [objectDepth] in Hd; lia.
  - destruct v as [| | | | | | | | car cdr | elements | | |];
      try (apply Hatoms; [exact I|exact Hv]).
    + cbn [printable] in Hv. apply andb_true_iff in Hv. destruct Hv as [Hcar Hcdr].
      cbn [objectDepth] in Hd.
      destruct (IH car) as [Acar _]; [lia|exact Hcar|].
      destruct (IH cdr) as [_ Bcdr]; [lia|exact Hcdr|].
      cbn [rereadAll].
      split; [apply readsAs_cons|apply readsTailAs_cons]; assumption.
    + cbn [printable] in Hv. pose proof (@objectDepth_vector elements n Hd) as Hall.
      assert (Hels : forall l, Forall (fun x => objectDepth x <= n) l ->
                               forallb printable l = true ->
                               readsElementsAs l (map rereadAll l)).
      { induction l as [|x l IHl]; intros Hl Hp; [exact readsElementsAs_nil|].
        inversion Hl as [|? ? Hx Hl']; subst. cbn [forallb] in Hp.
        apply andb_true_iff in Hp. destruct Hp as [Hpx Hpl].
        cbn [map]. apply readsElementsAs_cons; [|exact (IHl Hl' Hpl)].
        exact (proj1 (IH x Hx Hpx)). }
      apply Hatom; [reflexivity|]. cbn [rereadAll].
      destruct elements as [|x l]; [exact readsAs_vector_empty|].
      inversion Hall as [|? ? Hx Hl']; subst. cbn [forallb] in Hv.
      apply andb_true_iff in Hv. destruct Hv as [Hpx Hpl].
      cbn [map]. apply readsAs_vector; [exact (proj1 (IH x Hx Hpx))|exact (Hels l Hl' Hpl)].
Qed.

(** What is read back has the contents of what was printed. *)
Lemma rereadAll_sameContents (n : nat) :
  forall v, objectDepth v <= n -> printable v = true ->
            sameContents (rereadAll v) v = true.
Proof.
  assert (Hatoms : forall v,
             match v with EVLCons _ _ | EVLVector _ => False | _ => True end ->
             printable v = true -> sameContents (rereadAll v) v = true).
  { intros v Hshape Hv.
    destruct v; cbn [printable rereadAll sameContents] in *; try discriminate;
      try contradiction; try reflexivity; try apply jseqb_refl.
    - apply Bool.eqb_reflx.
    - unfold numberReadsBack in Hv. apply andb_true_iff in Hv. apply Hv.
    - apply Z.eqb_refl. }
  induction n as [|n IH]; intros v Hd Hv.
  - apply Hatoms; [|exact Hv]. destruct v; try exact I; cbn [objectDepth] in Hd; lia.
  - destruct v as [| | | | | | | | car cdr | elements | | |];
      try (apply Hatoms; [exact I|exact Hv]).
    + cbn [printable] in Hv. apply andb_true_iff in Hv. destruct Hv as [Hcar Hcdr].
      cbn [objectDepth] in Hd. cbn [rereadAll sameContents].
      rewrite (IH car), (IH cdr); [reflexivity|lia|exact Hcdr|lia|exact Hcar].
    + cbn [printable] in Hv. pose proof (@objectDepth_vector elements n Hd) as Hall.
      cbn [rereadAll sameContents]. clear Hd.
      induction elements as [|x l IHl]; [reflexivity|].
      inversion Hall as [|? ? Hx Hl']; subst. cbn [forallb] in Hv.
      apply andb_true_iff in Hv. destruct Hv as [Hpx Hpl].
      cbn [map]. rewrite (IH x Hx Hpx). cbn [andb]. exact (IHl Hpl Hl').
Qed.

(** [read] on the printed object, with enough fuel. *)
Lemma read_printed_all (v : EVLObject) (w : World) (fuel : nat) :
  printable v = true -> length (toString v) + 12 <= fuel ->
  exists r',
    readPrinted fuel v w = Ok (Some (rereadAll v)) r'
    /\ r'.(tokenizer).(position) = length (toString v)
    /\ r'.(world) = w.
Proof.
  intros Hv Hfuel.
  destruct (@printable_reads _ v (Nat.le_refl (objectDepth v)) Hv) as [Hread _].
  destruct (Hread [] [] (mkReading (newTokenizer (toString v) false) w (EVLObject_ VOID_)) fuel)
    as (r' & E & Hm & Hw & _).
  - repeat split.
  - reflexivity.
  - exact I.
  - split; [cbn; rewrite app_nil_r; reflexivity|cbn; lia].
  - cbn [length Nat.add]. exact Hfuel.
  - exists r'. unfold readPrinted, read, bind. rewrite E. cbn.
    split; [reflexivity|]. split; [|exact Hw].
    destruct Hm as (_ & Hp & _). exact Hp.
Qed.

(** ** Reading back what is printed, whatever the characters *)



(** * Abbreviations *)

(** What is printed of an object with a read syntax starts a token. *)
Lemma printable_starts (v : EVLObject) :
  printable v = true -> startsToken (toString v) /\ toString v <> [].
Proof.
  intros Hv.
  destruct v as [|b|x|c|s|name|name| |car cdr|elements|? ? ?|? ? ? ? ? ? ?|?];
    cbn [printable] in Hv; try discriminate;
    try (split; [left; split; reflexivity|discriminate]).
  - destruct b; (split; [left; split; reflexivity|discriminate]).
  - unfold numberReadsBack in Hv. apply andb_true_iff in Hv. destruct Hv as [Hn _].
    pose proof (numberRegExp_units _ Hn) as Hu. change (toString (EVLNumber x))
      with (Number_toString x) in *.
    destruct (Number_toString x) as [|c r]; [discriminate|]. split; [|discriminate].
    apply tokenStart_starts. apply tokenStart_proto.
    cbn [forallb] in Hu. apply andb_true_iff in Hu. apply Hu.
  - apply andb_true_iff in Hv. destruct Hv as [Hv _].
    apply andb_true_iff in Hv. destruct Hv as [Hname _].
    destruct (isSymbolName_facts name Hname) as (Hne & Hs & _).
    split; [|exact (escaped_name_not_empty Hne Hs)].
    apply startsProtoToken_starts. exact (escaped_name_starts Hne Hs).
Qed.

(** The token of an abbreviation. *)
Lemma readToken_abbreviation (prefix rest : jsstring) (cat : Category) (t : Tokenizer)
  (fuel : nat) :
  (prefix = js "'" /\ cat = QUOTE) \/ (prefix = js "`" /\ cat = QUASIQUOTE)
  \/ (prefix = js "," /\ cat = UNQUOTE /\ hd 0%Z rest <> ch "@")
  \/ (prefix = js ",@" /\ cat = UNQUOTE_SPLICING) ->
  startsToken rest -> inputIs t (prefix ++ rest) ->
  exists t', readToken fuel false t = Ok tt t' /\ moved t t' (length prefix)
             /\ t'.(category) = Some cat /\ t'.(value) = ValueNull.
Proof.
  intros Hrow Hstart Hin.
  destruct Hrow as [(-> & ->)|[(-> & ->)|[(-> & -> & Hat)|(-> & ->)]]].
  - unfold readToken. unfold bind at 1.
    change (js "'" ++ rest) with (ch "'" :: rest) in Hin.
    rewrite (peekCharacter_plain Hin eq_refl).
    eexists. split; [reflexivity|]. split; [|split; reflexivity]. repeat split.
  - unfold readToken. unfold bind at 1.
    change (js "`" ++ rest) with (ch "`" :: rest) in Hin.
    rewrite (peekCharacter_plain Hin eq_refl).
    eexists. split; [reflexivity|]. split; [|split; reflexivity]. repeat split.
  - change (js "," ++ rest) with (ch "," :: rest) in Hin.
    assert (Hin1 : inputIs (consumed t [ch ","]) rest)
      by exact (@moved_inputIs t _ [ch ","] _ (consumed_moved t [ch ","]) Hin).
    assert (E0 : readToken fuel false t
                 = (t0 <- get;;
                    if atEnd t0 then token UNQUOTE ValueNull
                    else
                      char2 <- peekCharacter;;
                      if charIs char2 "@"
                      then consumeCharacter char2;;; token UNQUOTE_SPLICING ValueNull
                      else token UNQUOTE ValueNull) (consumed t [ch ","])).
    { unfold readToken. unfold bind at 1. rewrite (peekCharacter_plain Hin eq_refl).
      reflexivity. }
    exists (setValue ValueNull (setCategory (Some UNQUOTE) (consumed t [ch ","]))).
    split; [|split; [apply consumed_moved|split; reflexivity]].
    rewrite E0. unfold bind at 1. unfold get at 1.
    destruct rest as [|c r].
    + rewrite (atEnd_nil Hin1). reflexivity.
    + rewrite (atEnd_cons Hin1). unfold bind at 1. cbn [startsToken] in Hstart.
      cbn [hd] in Hat. destruct Hstart as [[Hc _]|Hpair].
      * rewrite (peekCharacter_plain Hin1 Hc), charIs_unit.
        apply Z.eqb_neq in Hat. rewrite Hat. reflexivity.
      * destruct r as [|lo r]; [contradiction|]. destruct Hpair as (Hhi & Hlo & Hn).
        rewrite (peekCharacter_pair Hin1 Hhi Hlo Hn).
        unfold charIs. cbn [js jseqb]. rewrite !andb_false_r. reflexivity.
  - change (js ",@" ++ rest) with (ch "," :: ch "@" :: rest) in Hin.
    assert (Hin1 : inputIs (consumed t [ch ","]) (ch "@" :: rest))
      by exact (@moved_inputIs t _ [ch ","] _ (consumed_moved t [ch ","]) Hin).
    exists (setValue ValueNull
              (setCategory (Some UNQUOTE_SPLICING)
                 (consumed (consumed t [ch ","]) [ch "@"]))).
    split; [|split; [apply moved_2|split; reflexivity]].
    unfold readToken. unfold bind at 1. rewrite (peekCharacter_plain Hin eq_refl).
    change (charIs [ch ","] "'") with false. change (charIs [ch ","] "`") with false.
    change (charIs [ch ","] ",") with true. cbv iota.
    unfold bind at 1. unfold consumeCharacter at 1, modify at 1.
    unfold bind at 1. unfold get at 1.
    change (setPosition (position t + length [ch ","]) (setLexeme (lexeme t ++ [ch ","]) t))
      with (consumed t [ch ","]).
    rewrite (atEnd_cons Hin1). unfold bind at 1.
    rewrite (peekCharacter_plain Hin1 eq_refl). reflexivity.
Qed.

(** [readObject] on an abbreviation: the object after it is read, and the
    list of the variable and of that object is returned. *)
Lemma readObject_abbreviation (prefix variable : jsstring) (cat : Category)
  (v v' : EVLObject) (ws post : jsstring) (r : Reading) (fuel : nat) :
  (prefix = js "'" /\ cat = QUOTE /\ variable = quoteVariable)
  \/ (prefix = js "`" /\ cat = QUASIQUOTE /\ variable = quasiquoteVariable)
  \/ (prefix = js "," /\ cat = UNQUOTE /\ variable = unquoteVariable
      /\ hd 0%Z (toString v) <> ch "@")
  \/ (prefix = js ",@" /\ cat = UNQUOTE_SPLICING /\ variable = unquoteSplicingVariable) ->
  readsAs v v' -> startsToken (toString v) -> toString v <> [] ->
  betweenTokens r.(tokenizer) -> forallb isPlainWhitespace ws = true -> delimited post ->
  inputIs r.(tokenizer) (ws ++ prefix ++ toString v ++ post) ->
  length ws + length prefix + length (toString v) + 13 <= fuel ->
  exists r',
    readObject fuel r = Ok (R_Object (abbreviated variable v')) r'
    /\ moved r.(tokenizer) r'.(tokenizer) (length ws + length prefix + length (toString v))
    /\ r'.(world) = r.(world) /\ r'.(lastResult) = r.(lastResult).
Proof.
  intros Hrow Hread Hstart Hne Hb Hws Hpost Hin Hfuel.
  destruct fuel as [|[|f]]; [lia..|].
  assert (Hstart' : startsToken (toString v ++ post)) by exact (startsToken_app post Hne Hstart).
  assert (Hhd : hd 0%Z (toString v ++ post) = hd 0%Z (toString v))
    by (destruct (toString v); [contradiction|reflexivity]).
  assert (Hrow' : (prefix = js "'" /\ cat = QUOTE) \/ (prefix = js "`" /\ cat = QUASIQUOTE)
                  \/ (prefix = js "," /\ cat = UNQUOTE
                      /\ hd 0%Z (toString v ++ post) <> ch "@")
                  \/ (prefix = js ",@" /\ cat = UNQUOTE_SPLICING)).
  { rewrite Hhd. destruct Hrow as [(H1 & H2 & _)|[(H1 & H2 & _)|[(H1 & H2 & _ & H4)
                                                                |(H1 & H2 & _)]]]; tauto. }
  assert (Hp : prefix <> [] /\ tokenStart (prefix ++ toString v ++ post)).
  { destruct Hrow' as [(-> & _)|[(-> & _)|[(-> & _)|(-> & _)]]];
      (split; [discriminate|split; reflexivity]). }
  destruct Hp as [Hpne Hpstart].
  assert (Hne' : prefix ++ toString v ++ post <> [])
    by (destruct prefix; [contradiction|discriminate]).
  destruct (@nextToken_token ws (prefix ++ toString v ++ post) cat ValueNull (length prefix)
              (tokenizer r) f Hb Hin Hws Hpstart Hne') as (t' & E & Hm & Hcat & Hval).
  - lia.
  - intros t1 _ Hin1. exact (@readToken_abbreviation prefix _ cat t1 f Hrow' Hstart' Hin1).
  - set (r0 := mkReading t' (world r) (lastResult r)).
    pose proof (moved_betweenTokens Hm Hb) as Hb0.
    assert (Hin0 : inputIs (tokenizer r0) ([] ++ toString v ++ post)).
    { apply (@moved_inputIs (tokenizer r) t' (ws ++ prefix) _).
      - rewrite length_app. exact Hm.
      - rewrite <- app_assoc. exact Hin. }
    destruct (Hread [] post r0 (S f) Hb0 eq_refl Hpost Hin0) as (r1 & E1 & Hm1 & Hw1 & Hl1);
      [cbn [length]; lia|].
    exists r1. split; [|split; [|split; [exact Hw1|exact Hl1]]].
    + rewrite (readObject_next (S f) r E). fold r0. unfold bind at 1. unfold get.
      cbn [tokenizer r0]. rewrite Hcat.
      destruct Hrow as [(_ & -> & ->)|[(_ & -> & ->)|[(_ & -> & -> & _)|(_ & -> & ->)]]];
        unfold readAbbreviation_; unfold bind at 1; fold r0; rewrite E1; reflexivity.
    + cbn [length Nat.add] in Hm1. exact (moved_trans Hm Hm1).
Qed.



(** * Texts that end before the form does *)

Lemma isPlainWhitespace_delimited (ws : jsstring) :
  forallb isPlainWhitespace ws = true -> delimited ws.
Proof.
  destruct ws as [|c r]; [exact (fun _ => I)|]. cbn [forallb delimited]. intros H.
  apply andb_true_iff in H. destruct H as [H _]. unfold isPlainWhitespace in H.
  apply andb_true_iff in H. destruct H as [H1 H2]. split; [exact H1|].
  rewrite H2. reflexivity.
Qed.

(** [nextToken] on the whitespace that ends the text: the token is the end
    of the input. *)
Lemma nextToken_eoi (ws : jsstring) (t : Tokenizer) (fuel : nat) :
  betweenTokens t -> inputIs t ws -> forallb isPlainWhitespace ws = true ->
  length ws < fuel ->
  exists t', nextToken (S fuel) t = Ok tt t' /\ moved t t' (length ws)
             /\ t'.(category) = Some EOI.
Proof.
  intros Hb Hin Hws Hfuel.
  set (t0 := setValue ValueNull (setCategory None (setLexeme [] (setWhitespace [] t)))).
  assert (Hm0 : moved t t0 0) by (unfold moved; cbn; rewrite Nat.add_0_r; repeat split).
  assert (E0 : nextToken (S fuel) t = nextToken_loop (S fuel) false t0).
  { destruct Hb as (Hs & Hx & _). unfold nextToken, bind, modify, get. cbn.
    rewrite Hs, Hx. reflexivity. }
  assert (Hin0 : inputIs t0 (ws ++ [])) by (rewrite app_nil_r; exact Hin).
  destruct (@skipWhitespace_starts ws [] t0 fuel) as (t1 & E1 & Hm1 & Hcat1 & _);
    [lia|exact Hws|exact I|exact Hin0|].
  assert (Hin1 : inputIs t1 []) by exact (@moved_inputIs t0 t1 ws [] Hm1 Hin0).
  exists (setCategory (Some EOI) t1). split; [|split; [|reflexivity]].
  - rewrite E0. cbn [nextToken_loop]. unfold bind at 1. unfold get at 1.
    change (category t0) with (@None Category). cbv iota. unfold bind at 1.
    rewrite E1. unfold bind at 1. unfold get at 1. rewrite (atEnd_nil Hin1).
    unfold bind at 1. unfold modify at 1.
    destruct fuel as [|fuel']; [lia|]. reflexivity.
  - exact (moved_trans Hm0 Hm1).
Qed.

Lemma readObject_reads_eoi (ws : jsstring) (r : Reading) (fuel : nat) :
  betweenTokens r.(tokenizer) -> forallb isPlainWhitespace ws = true ->
  inputIs r.(tokenizer) ws -> length ws + 3 <= fuel ->
  exists r',
    readObject fuel r = Ok R_EOI r'
    /\ r'.(world) = r.(world) /\ r'.(lastResult) = r.(lastResult).
Proof.
  intros Hb Hws Hin Hfuel. destruct fuel as [|[|f]]; [lia..|].
  destruct (@nextToken_eoi ws (tokenizer r) f Hb Hin Hws) as (t' & E & Hm & Hcat); [lia|].
  exists (mkReading t' (world r) (lastResult r)).
  split; [|split; reflexivity].
  rewrite (readObject_next (S f) r E). unfold bind, get. cbn [tokenizer].
  rewrite Hcat. reflexivity.
Qed.

Lemma delimited_unclosed (l : list EVLObject) (ws : jsstring) :
  forallb isPlainWhitespace ws = true -> delimited (toStringElements l ++ ws).
Proof.
  intros Hws. destruct l; [exact (isPlainWhitespace_delimited ws Hws)|split; reflexivity].
Qed.

(** The loop of [readList] on printed objects that no closing parenthesis
    follows. *)
Lemma readList_unclosed (ws : jsstring) (l : list EVLObject) :
  forall (elements : list EVLObject) (r : Reading) (fuel n : nat),
    forallb printable l = true -> forallb isPlainWhitespace ws = true ->
    betweenTokens r.(tokenizer) ->
    inputIs r.(tokenizer) (toStringElements l ++ ws) ->
    length (toStringElements l ++ ws) + 13 <= fuel -> length l < n ->
    exists r',
      readList_loop (readObject fuel) n elements r = Throw UnexpectedEndOfInput r'
      /\ r'.(world) = r.(world).
Proof.
  induction l as [|x l IH]; intros elements r fuel n Hl Hws Hb Hin Hfuel Hn;
    (destruct n as [|n]; [cbn in Hn; lia|]).
  - cbn [toStringElements app] in *.
    destruct (@readObject_reads_eoi ws r fuel Hb Hws Hin) as (r' & E & Hw & _); [lia|].
    exists r'. split; [|exact Hw]. cbn [readList_loop]. unfold bind. rewrite E. reflexivity.
  - cbn [forallb] in Hl. apply andb_true_iff in Hl. destruct Hl as [Hx Hl].
    destruct (@printable_reads _ x (Nat.le_refl (objectDepth x)) Hx) as [Hread _].
    change (toStringElements (x :: l)) with (ch " " :: toString x ++ toStringElements l) in *.
    assert (Hin0 : inputIs (tokenizer r)
                     ([ch " "] ++ toString x ++ toStringElements l ++ ws))
      by (cbn [app] in *; rewrite <- app_assoc in Hin; exact Hin).
    cbn [app length] in Hfuel. rewrite !length_app in Hfuel.
    destruct (Hread [ch " "] (toStringElements l ++ ws) r fuel Hb eq_refl
                (delimited_unclosed l ws Hws) Hin0) as (r1 & E1 & Hm1 & Hw1 & Hl1);
      [cbn [length]; lia|].
    pose proof (moved_betweenTokens Hm1 Hb) as Hb1.
    assert (Hin1 : inputIs (tokenizer r1) (toStringElements l ++ ws)).
    { apply (@moved_inputIs (tokenizer r) (tokenizer r1) ([ch " "] ++ toString x) _).
      - rewrite length_app. exact Hm1.
      - rewrite <- app_assoc. exact Hin0. }
    destruct (IH (elements ++ [rereadAll x]) r1 fuel n Hl Hws Hb1 Hin1)
      as (r2 & E2 & Hw2); [rewrite length_app; lia|cbn [length] in Hn; lia|].
    exists r2. split; [|congruence].
    rewrite (readList_loop_object _ n elements r E1). exact E2.
Qed.

Lemma toStringRest_proper (l : list EVLObject) :
  toStringRest (makeList l NIL) = toStringElements l.
Proof.
  induction l as [|y l IH]; [reflexivity|].
  cbn [makeList toStringRest toStringElements]. rewrite IH. reflexivity.
Qed.

Lemma evaluateFirstForm_reads
  (jsFunction : jsstring -> list EVLObject -> Cells -> (exception + Result) * Cells)
  (host : nat -> Z -> Z) (fuel : nat) (text : jsstring) (w : World) :
  evaluateFirstForm jsFunction host fuel text w
  = match read fuel (firstFormReading text w) with
    | Throw exception r =>
        if instanceofTruncatedToken exception || instanceofUnexpectedEndOfInput exception
        then Ok foundNoForm r.(world)
        else Ok (abortedOrError exception) r.(world)
    | OutOfFuel => OutOfFuel
    | Ok None r => Ok foundNoForm r.(world)
    | Ok (Some object) r =>
        match genericEval jsFunction host fuel object r.(world) with
        | Throw exception w' => Ok (abortedOrError exception) w'
        | OutOfFuel => OutOfFuel
        | Ok result w' => Ok (success (stringify result)) w'
        end
    end.
Proof. reflexivity. Qed.

(** A blank text and an unclosed list. *)
Lemma read_unclosed (x : EVLObject) (l : list EVLObject) (ws : jsstring) (w : World)
  (fuel : nat) :
  printable x = true -> forallb printable l = true ->
  forallb isPlainWhitespace ws = true ->
  length (toString x ++ toStringElements l ++ ws) + 15 <= fuel ->
  (exists r', read fuel (firstFormReading ws w) = Ok None r' /\ r'.(world) = clearedWorld w)
  /\ (exists r', read fuel (firstFormReading (ch "(" :: ws) w)
                 = Throw UnexpectedEndOfInput r' /\ r'.(world) = clearedWorld w)
  /\ (exists r', read fuel (firstFormReading
                              (ch "(" :: toString x ++ toStringElements l ++ ws) w)
                 = Throw UnexpectedEndOfInput r' /\ r'.(world) = clearedWorld w).
Proof.
  intros Hx Hl Hws Hfuel. rewrite !length_app in Hfuel.
  assert (Hb : forall text, betweenTokens (tokenizer (firstFormReading text w)))
    by (intros text; repeat split).
  assert (Hin : forall text, inputIs (tokenizer (firstFormReading text w)) text)
    by (intros text; split; [reflexivity|cbn; lia]).
  split; [|split].
  - destruct (@readObject_reads_eoi ws (firstFormReading ws w) fuel (Hb ws) Hws (Hin ws))
      as (r' & E & Hw & _); [lia|].
    exists r'. split; [|exact Hw]. unfold read, bind. rewrite E. reflexivity.
  - destruct fuel as [|[|f]]; [lia..|].
    destruct (@readObject_reads_opening [] ws (firstFormReading (ch "(" :: ws) w) f
                (Hb _) eq_refl (Hin _)) as (r0 & E0 & Hm0 & Hw0 & _); [cbn [length]; lia|].
    pose proof (moved_betweenTokens Hm0 (Hb (ch "(" :: ws))) as Hb0.
    assert (Hin0 : inputIs (tokenizer r0) (toStringElements [] ++ ws))
      by exact (@moved_inputIs _ (tokenizer r0) [ch "("] ws Hm0 (Hin (ch "(" :: ws))).
    destruct (@readList_unclosed ws [] [] r0 (S f) (S f) eq_refl Hws Hb0 Hin0)
      as (r1 & E1 & Hw1); [cbn [toStringElements app]; lia|cbn [length]; lia|].
    exists r1. split; [|rewrite Hw1, Hw0; reflexivity].
    unfold read, bind. rewrite E0, E1. reflexivity.
  - destruct fuel as [|[|f]]; [lia..|].
    set (text := ch "(" :: toString x ++ toStringElements l ++ ws).
    destruct (@readObject_reads_opening [] (toString x ++ toStringElements l ++ ws)
                (firstFormReading text w) f (Hb _) eq_refl (Hin _))
      as (r0 & E0 & Hm0 & Hw0 & _); [cbn [length]; lia|].
    pose proof (moved_betweenTokens Hm0 (Hb text)) as Hb0.
    assert (Hin0 : inputIs (tokenizer r0) ([] ++ toString x ++ toStringElements l ++ ws))
      by exact (@moved_inputIs _ (tokenizer r0) [ch "("] _ Hm0 (Hin text)).
    destruct (@printable_reads _ x (Nat.le_refl (objectDepth x)) Hx) as [Hread _].
    destruct (Hread [] (toStringElements l ++ ws) r0 (S f) Hb0 eq_refl
                (delimited_unclosed l ws Hws) Hin0) as (r1 & E1 & Hm1 & Hw1 & _);
      [cbn [length]; lia|].
    pose proof (moved_betweenTokens Hm1 Hb0) as Hb1.
    assert (Hin1 : inputIs (tokenizer r1) (toStringElements l ++ ws))
      by exact (@moved_inputIs (tokenizer r0) (tokenizer r1) (toString x) _ Hm1 Hin0).
    assert (Hlen : length l <= length (toStringElements l)).
    { clear. induction l as [|y l IH]; [apply Nat.le_refl|].
      cbn [toStringElements length app js]. rewrite length_app.
      change (length (y :: l)) with (S (length l)).
      change (length (list_ascii_of_string " ")) with 1. cbn [length]. lia. }
    destruct (@readList_unclosed ws l [rereadAll x] r1 (S f) f Hl Hws Hb1 Hin1)
      as (r2 & E2 & Hw2); [rewrite length_app; lia|lia|].
    exists r2. split; [|rewrite Hw2, Hw1, Hw0; reflexivity]. unfold read, bind.
    rewrite E0, (readList_loop_object _ f [] r0 E1). cbn [app]. rewrite E2. reflexivity.
Qed.



(** * Literals *)


